(** * Syzygy tablebase probing (src/syzygy/tbprobe.cpp): a shallow embedding

    The development follows the layout of the C++ file: primitive types,
    little/big-endian loads, [PairsData] and the block decompressor, the DTZ
    remapping, the position encoder tables, [set_groups], [TBFile::map], the
    Robin-Hood catalog [TBTables] and finally the probe driver ([search],
    [probe_table], [probe_wdl], [probe_dtz]).

    Integers of the C++ code are carried as [Z]; fixed-width arithmetic has
    its wrap-around written out ([u8], [u16], [u32], [u64], [to_int]).
    Regions of the memory-mapped file are lists of bytes, and a load outside
    a region (undefined behaviour in C++) is [None]. *)

From stdpp Require Import base option list numbers strings sorting.
From Stdlib Require Import ZArith Lia.
From Stdlib.Strings Require Import Byte.

#[local] Open Scope Z_scope.

(** ** Primitive types *)

Module Types.

(** Modelled from the spec: the enum [WDLScore] is declared in tbprobe.h,
    which is not among the sources; the five values and their integers
    (-2 .. 2) are the ones listed above [Tablebases::probe_wdl]. *)
Inductive WDLScore : Set :=
  | WDLLoss | WDLBlessedLoss | WDLDraw | WDLCursedWin | WDLWin.

Definition wdl_int (w : WDLScore) : Z :=
  match w with
  | WDLLoss => -2 | WDLBlessedLoss => -1 | WDLDraw => 0
  | WDLCursedWin => 1 | WDLWin => 2
  end.

(** [WDLScore(int)]: the cast used by [operator-] and by [map_score] of WDL
    tables; integers outside -2..2 do not name an enumerator. *)
Definition wdl_of_int (z : Z) : option WDLScore :=
  match z with
  | -2 => Some WDLLoss | -1 => Some WDLBlessedLoss | 0 => Some WDLDraw
  | 1 => Some WDLCursedWin | 2 => Some WDLWin
  | _ => None
  end.

(** [inline WDLScore operator-(WDLScore d) { return WDLScore(-int(d)); }] *)
Definition wdl_neg (w : WDLScore) : WDLScore :=
  match w with
  | WDLLoss => WDLWin | WDLBlessedLoss => WDLCursedWin | WDLDraw => WDLDraw
  | WDLCursedWin => WDLBlessedLoss | WDLWin => WDLLoss
  end.

Definition wdl_ltb (a b : WDLScore) : bool := wdl_int a <? wdl_int b.
Definition wdl_leb (a b : WDLScore) : bool := wdl_int a <=? wdl_int b.
Definition wdl_eqb (a b : WDLScore) : bool := wdl_int a =? wdl_int b.

(** Modelled from the spec: [ProbeState] is declared in tbprobe.h; the spec
    lists its outcomes [Ok], [ChangeStm], [ZeroingBestMove], [Threat] and
    [Fail]. *)
Inductive ProbeState : Set :=
  | FAIL | OK | CHANGE_STM | ZEROING_BEST_MOVE | THREAT.

Definition ps_eqb (a b : ProbeState) : bool :=
  match a, b with
  | FAIL, FAIL | OK, OK | CHANGE_STM, CHANGE_STM
  | ZEROING_BEST_MOVE, ZEROING_BEST_MOVE | THREAT, THREAT => true
  | _, _ => false
  end.

(** The variants of the build matrix, in the order in which the suffix
    tables [WdlSuffixes] etc. list them (main variants first, then the
    sub-variants). *)
Inductive Variant : Set :=
  | CHESS_VARIANT | ANTI_VARIANT | ATOMIC_VARIANT | CRAZYHOUSE_VARIANT
  | EXTINCTION_VARIANT | GRID_VARIANT | HORDE_VARIANT | KOTH_VARIANT
  | LOSERS_VARIANT | RACE_VARIANT | THREECHECK_VARIANT | TWOKINGS_VARIANT
  | GIVEAWAY_VARIANT | SUICIDE_VARIANT | BUGHOUSE_VARIANT
  | DISPLACEDGRID_VARIANT | LOOP_VARIANT | SLIPPEDGRID_VARIANT
  | TWOKINGSSYMMETRIC_VARIANT.

Definition variant_eqb (a b : Variant) : bool :=
  match a, b with
  | CHESS_VARIANT, CHESS_VARIANT | ANTI_VARIANT, ANTI_VARIANT
  | ATOMIC_VARIANT, ATOMIC_VARIANT | CRAZYHOUSE_VARIANT, CRAZYHOUSE_VARIANT
  | EXTINCTION_VARIANT, EXTINCTION_VARIANT | GRID_VARIANT, GRID_VARIANT
  | HORDE_VARIANT, HORDE_VARIANT | KOTH_VARIANT, KOTH_VARIANT
  | LOSERS_VARIANT, LOSERS_VARIANT | RACE_VARIANT, RACE_VARIANT
  | THREECHECK_VARIANT, THREECHECK_VARIANT
  | TWOKINGS_VARIANT, TWOKINGS_VARIANT | GIVEAWAY_VARIANT, GIVEAWAY_VARIANT
  | SUICIDE_VARIANT, SUICIDE_VARIANT | BUGHOUSE_VARIANT, BUGHOUSE_VARIANT
  | DISPLACEDGRID_VARIANT, DISPLACEDGRID_VARIANT
  | LOOP_VARIANT, LOOP_VARIANT | SLIPPEDGRID_VARIANT, SLIPPEDGRID_VARIANT
  | TWOKINGSSYMMETRIC_VARIANT, TWOKINGSSYMMETRIC_VARIANT => true
  | _, _ => false
  end.

(** Modelled from the spec: [main_variant] is declared in types.h, which is
    not among the sources. It sends a sub-variant to the main variant whose
    rules it shares; the spec names the antichess family (giveaway, suicide)
    as the one with connected kings besides atomic. *)
Definition main_variant (v : Variant) : Variant :=
  match v with
  | GIVEAWAY_VARIANT | SUICIDE_VARIANT => ANTI_VARIANT
  | BUGHOUSE_VARIANT | LOOP_VARIANT => CRAZYHOUSE_VARIANT
  | DISPLACEDGRID_VARIANT | SLIPPEDGRID_VARIANT => GRID_VARIANT
  | TWOKINGSSYMMETRIC_VARIANT => TWOKINGS_VARIANT
  | _ => v
  end.

(** [template <typename T> int sign_of(T val)] *)
Definition sign_of (z : Z) : Z :=
  (if 0 <? z then 1 else 0) - (if z <? 0 then 1 else 0).

End Types.
Export Types.

(** ** Fixed-width integers and loads from the mapped file *)

Module Mem.

Definition u8 (z : Z) : Z := z mod 2 ^ 8.
Definition u16 (z : Z) : Z := z mod 2 ^ 16.
Definition u32 (z : Z) : Z := z mod 2 ^ 32.
Definition u64 (z : Z) : Z := z mod 2 ^ 64.

(** Conversion of an unsigned value to [int] (two's complement, 32 bits). *)
Definition to_int (z : Z) : Z :=
  let r := z mod 2 ^ 32 in if r <? 2 ^ 31 then r else r - 2 ^ 32.

Definition byte_val (b : byte) : Z := Z.of_N (Byte.to_N b).

Definition byte_of (z : Z) : byte :=
  default x00 (Byte.of_N (Z.to_N (z mod 256))).

(** Array access with a C index: a negative or too large index reads
    outside the object. *)
Definition rd {A : Type} (l : list A) (i : Z) : option A :=
  if i <? 0 then None else l !! Z.to_nat i.

(** [n] consecutive bytes of a region, starting at byte offset [off]. *)
Definition bytes_at (m : list byte) (off : Z) (n : nat) : option (list byte) :=
  if off <? 0 then None
  else let s := take n (drop (Z.to_nat off) m) in
       if (length s =? n)%nat then Some s else None.

Fixpoint le_val (bs : list byte) : Z :=
  match bs with
  | [] => 0
  | b :: r => byte_val b + 256 * le_val r
  end.

Definition be_val (bs : list byte) : Z := le_val (rev bs).

(** The hosts the engine is built for are little-endian ([IsLittleEndian]
    of misc.h). *)
Definition IsLittleEndian : bool := true.

Inductive Endian : Set := BigEndian | LittleEndian.

(** [template<typename T, int LE> T number(void* addr)]: load [n] bytes in
    host order and swap them when the requested order is not the host's. *)
Definition number (n : nat) (LE : Endian) (m : list byte) (off : Z) : option Z :=
  bs ← bytes_at m off n;
  let host := if IsLittleEndian then bs else rev bs in
  let wanted_le := match LE with LittleEndian => true | BigEndian => false end in
  let swapped := if Bool.eqb wanted_le IsLittleEndian then host else rev host in
  Some (le_val swapped).

(** A plain typed load [((T* )p)[i]] of [n]-byte elements. *)
Definition native (n : nat) (m : list byte) (i : Z) : option Z :=
  bs ← bytes_at m (Z.of_nat n * i) n;
  Some (if IsLittleEndian then le_val bs else be_val bs).

End Mem.
Export Mem.

(** ** PairsData, TBTable and the block decompressor *)

Module Pairs.

(** [enum TBFlag] *)
Definition STM : Z := 1.
Definition Mapped : Z := 2.
Definition WinPlies : Z := 4.
Definition LossPlies : Z := 8.
Definition Wide : Z := 16.
Definition SingleValue : Z := 128.

(** The C++ test [flags & F]. *)
Definition has (flags F : Z) : bool := negb (Z.land flags F =? 0).

(** [struct PairsData]. The members that point into the mapped file
    ([lowestSym], [btree], [blockLength], [sparseIndex], [data]) are the
    byte regions they point to; the two vectors hold decoded numbers. *)
Record PairsData : Type := {
  flags : Z;
  maxSymLen : Z;
  minSymLen : Z;
  blocksNum : Z;
  sizeofBlock : Z;
  span : Z;
  lowestSym : list byte;
  btree : list byte;
  blockLength : list byte;
  blockLengthSize : Z;
  sparseIndex : list byte;
  sparseIndexSize : Z;
  data : list byte;
  base64 : list Z;
  symlen : list Z;
  pieces : list Z;
  groupIdx : list Z;
  groupLen : list Z;
  map_idx : list Z
}.

Inductive LRSide : Set := Left | Right.

(** [LR::get<S>] on the 3-byte entry [btree[sym]]. *)
Definition LR_get (S : LRSide) (bt : list byte) (sym : Z) : option Z :=
  lr ← bytes_at bt (3 * sym) 3;
  match lr with
  | [b0; b1; b2] =>
      Some match S with
           | Left => Z.lor (Z.shiftl (Z.land (byte_val b1) 15) 8) (byte_val b0)
           | Right => Z.lor (Z.shiftl (byte_val b2) 4) (Z.shiftr (byte_val b1) 4)
           end
  | _ => None
  end.

(** [while (offset < 0) offset += d->blockLength[--block] + 1;] *)
Fixpoint walk_back (fuel : nat) (d : PairsData) (block offset : Z)
  : option (Z * Z) :=
  if offset <? 0 then
    match fuel with
    | O => None
    | S fuel' =>
        let block := u32 (block - 1) in
        bl ← native 2 (blockLength d) block;
        walk_back fuel' d block (to_int (offset + (bl + 1)))
    end
  else Some (block, offset).

(** [while (offset > d->blockLength[block]) offset -= d->blockLength[block++] + 1;] *)
Fixpoint walk_fwd (fuel : nat) (d : PairsData) (block offset : Z)
  : option (Z * Z) :=
  match fuel with
  | O => None
  | S fuel' =>
      bl ← native 2 (blockLength d) block;
      if bl <? offset
      then walk_fwd fuel' d (u32 (block + 1)) (to_int (offset - (bl + 1)))
      else Some (block, offset)
  end.

(** The first part of [decompress_pairs]: from [idx] to the block that
    holds it and the offset inside that block. *)
Definition locate_block (fuel : nat) (d : PairsData) (idx : Z)
  : option (Z * Z) :=
  if span d =? 0 then None
  else
    let k := u32 (idx / span d) in
    block ← number 4 LittleEndian (sparseIndex d) (6 * k);
    offset ← number 2 LittleEndian (sparseIndex d) (6 * k + 4);
    let diff := to_int (u64 (idx mod span d - span d / 2)) in
    let offset := to_int (offset + diff) in
    '(block, offset) ← walk_back fuel d block offset;
    walk_fwd fuel d block offset.

(** [while (buf64 < d->base64[len]) ++len;] *)
Fixpoint find_len (n : nat) (d : PairsData) (buf64 len : Z) : option Z :=
  match n with
  | O => None
  | S n' =>
      b ← rd (base64 d) len;
      if buf64 <? b then find_len n' d buf64 (len + 1) else Some len
  end.

(** The [while (true)] loop over the Huffman symbols of a block; [ptr] is a
    byte offset into [data]. A shift by a negative amount or by the full
    width is undefined and reported as [None]. *)
Fixpoint decode_sym (fuel : nat) (d : PairsData)
    (ptr buf64 buf64Size offset : Z) : option (Z * Z) :=
  match fuel with
  | O => None
  | S fuel' =>
      len ← find_len (S (length (base64 d))) d buf64 0;
      b ← rd (base64 d) len;
      let sh := 64 - len - minSymLen d in
      if (sh <? 0) || (64 <=? sh) then None
      else
        let sym := u16 (Z.shiftr (u64 (buf64 - b)) sh) in
        low ← number 2 LittleEndian (lowestSym d) (2 * len);
        let sym := u16 (sym + low) in
        sl ← rd (symlen d) sym;
        if offset <? sl + 1 then Some (sym, offset)
        else
          let offset := to_int (offset - (sl + 1)) in
          let len := len + minSymLen d in
          if 64 <=? len then None
          else
            let buf64 := u64 (Z.shiftl buf64 len) in
            let buf64Size := buf64Size - len in
            if buf64Size <=? 32 then
              let buf64Size := buf64Size + 32 in
              w ← number 4 BigEndian (data d) ptr;
              decode_sym fuel' d (ptr + 4)
                (Z.lor buf64 (u64 (Z.shiftl w (64 - buf64Size))))
                buf64Size offset
            else decode_sym fuel' d ptr buf64 buf64Size offset
  end.

(** [while (d->symlen[sym])]: recursive-pairing expansion down to a leaf. *)
Fixpoint expand (fuel : nat) (d : PairsData) (sym offset : Z) : option Z :=
  match fuel with
  | O => None
  | S fuel' =>
      sl ← rd (symlen d) sym;
      if sl =? 0 then LR_get Left (btree d) sym
      else
        left ← LR_get Left (btree d) sym;
        sll ← rd (symlen d) left;
        if offset <? sll + 1 then expand fuel' d left offset
        else
          right ← LR_get Right (btree d) sym;
          expand fuel' d right (to_int (offset - (sll + 1)))
  end.

(** [int decompress_pairs(PairsData* d, uint64_t idx)] *)
Definition decompress_pairs (fuel : nat) (d : PairsData) (idx : Z)
  : option Z :=
  if has (flags d) SingleValue then Some (minSymLen d)
  else
    '(block, offset) ← locate_block fuel d idx;
    let ptr := u64 (block * sizeofBlock d) in
    buf64 ← number 8 BigEndian (data d) ptr;
    '(sym, offset) ← decode_sym fuel d (ptr + 8) buf64 64 offset;
    expand fuel d sym offset.

Inductive TBType : Set := WDL | DTZ.

(** [struct TBTable<Type>]; the template parameter is the field [tbtype],
    and [map] is the region of the DTZ remap tables. *)
Record TBTable : Type := {
  tbtype : TBType;
  map : list byte;
  variant : Variant;
  key : Z;
  key2 : Z;
  pieceCount : Z;
  hasPawns : bool;
  numUniquePieces : Z;
  minLikeMan : Z;
  pawnCount : list Z;
  items : list (list PairsData)
}.

Definition Sides (T : TBType) : Z := match T with WDL => 2 | DTZ => 1 end.

(** [PairsData* TBTable::get(int stm, int f)] *)
Definition get (e : TBTable) (stm f : Z) : option PairsData :=
  row ← rd (items e) (Z.rem stm (Sides (tbtype e)));
  rd row (if hasPawns e then f else 0).

(** [bool check_dtz_stm(TBTable<DTZ>* entry, int stm, File f)] and its WDL
    overload, which is constantly true. *)
Definition check_dtz_stm (e : TBTable) (stm f : Z) : option bool :=
  match tbtype e with
  | WDL => Some true
  | DTZ =>
      d ← get e stm f;
      Some ((Z.land (flags d) STM =? stm)
            || ((key e =? key2 e) && negb (hasPawns e)))
  end.

End Pairs.
Export Pairs.

(** ** DTZ remapping *)

Module Remap.

Definition WDLMap : list Z := [1; 3; 0; 2; 0].

(** [int map_score(TBTable<DTZ>* entry, File f, int value, WDLScore wdl)] *)
Definition map_score_dtz (entry : TBTable) (f value : Z) (wdl : WDLScore)
  : option Z :=
  d ← get entry 0 f;
  let flags := flags d in
  let map := map entry in
  let idx := map_idx d in
  value ← (if has flags Mapped then
             w ← rd WDLMap (wdl_int wdl + 2);
             i ← rd idx w;
             if has flags Wide then native 2 map (i + value)
             else native 1 map (i + value)
           else Some value);
  let value :=
    if (wdl_eqb wdl WDLWin && negb (has flags WinPlies))
       || (wdl_eqb wdl WDLLoss && negb (has flags LossPlies))
       || wdl_eqb wdl WDLCursedWin
       || wdl_eqb wdl WDLBlessedLoss
    then value * 2 else value in
  Some (value + 1).

(** [WDLScore map_score(TBTable<WDL>*, File, int value, WDLScore)] *)
Definition map_score_wdl (value : Z) : option WDLScore :=
  wdl_of_int (value - 2).

End Remap.
Export Remap.

(** ** Squares and the combinatorial tables built by [Tablebases::init] *)

Module Tables.

(** Squares are numbered a1 = 0 .. h8 = 63, file in the low three bits
    (types.h). *)
Definition file_of (s : Z) : Z := Z.land s 7.
Definition rank_of (s : Z) : Z := Z.shiftr s 3.
Definition make_square (f r : Z) : Z := Z.shiftl r 3 + f.
Definition flip_rank (s : Z) : Z := Z.lxor s 56.
Definition flip_file (s : Z) : Z := Z.lxor s 7.

Definition FILE_D : Z := 3.
Definition RANK_4 : Z := 3.
Definition SQ_B1 : Z := 1.
Definition SQ_D4 : Z := 27.

(** [int off_A1H8(Square sq)] *)
Definition off_A1H8 (sq : Z) : Z := rank_of sq - file_of sq.

(** [Square flip_diag(Square sq)] *)
Definition flip_diag (sq : Z) : Z :=
  Z.land (Z.lor (Z.shiftr sq 3) (Z.shiftl sq 3)) 63.

(** The integers [lo, lo + 1, ..., hi] of a [for] loop. *)
Fixpoint count_from (n : nat) (lo : Z) : list Z :=
  match n with
  | O => []
  | S n' => lo :: count_from n' (lo + 1)
  end.

Definition range (lo hi : Z) : list Z := count_from (Z.to_nat (hi + 1 - lo)) lo.

Definition all_squares : list Z := range 0 63.

(** One- and two-dimensional [int] arrays; the globals start zeroed. *)
Definition zeros (n : nat) : list Z := replicate n 0.
Definition zeros2 (rows cols : nat) : list (list Z) := replicate rows (zeros cols).
Definition at1 (t : list Z) (i : Z) : Z := default 0 (rd t i).
Definition at2 (t : list (list Z)) (i j : Z) : Z :=
  default 0 (row ← rd t i; rd row j).
Definition set1 (t : list Z) (i v : Z) : list Z := <[Z.to_nat i := v]> t.
Definition set2 (t : list (list Z)) (i j v : Z) : list (list Z) :=
  match rd t i with
  | Some row => <[Z.to_nat i := set1 row j v]> t
  | None => t
  end.

(** [MapB1H1H7[]] encodes a square below the a1-h8 diagonal to 0..27. *)
Definition init_MapB1H1H7 : list Z :=
  fst (fold_left
         (fun '(m, code) s =>
            if off_A1H8 s <? 0 then (set1 m s code, code + 1) else (m, code))
         all_squares (zeros 64, 0)).

(** [MapA1D1D4[]] encodes a square of the a1-d1-d4 triangle to 0..9, the
    diagonal squares last. *)
Definition init_MapA1D1D4 : list Z :=
  let '(m, code, diagonal) :=
    fold_left
      (fun '(m, code, diagonal) s =>
         if (off_A1H8 s <? 0) && (file_of s <=? FILE_D)
         then (set1 m s code, code + 1, diagonal)
         else if (off_A1H8 s =? 0) && (file_of s <=? FILE_D)
              then (m, code, diagonal ++ [s])
              else (m, code, diagonal))
      (range 0 SQ_D4) (zeros 64, 0, []) in
  fst (fold_left (fun '(m, code) s => (set1 m s code, code + 1))
         diagonal (m, code)).

Definition MapB1H1H7 : list Z := Eval vm_compute in init_MapB1H1H7.
Definition MapA1D1D4 : list Z := Eval vm_compute in init_MapA1D1D4.

(** Modelled from the spec: [PseudoAttacks[KING]] is filled by bitboard.cpp,
    which is not among the sources. The test
    [(PseudoAttacks[KING][s1] | s1) & s2] holds when [s2] is [s1] or one of
    the squares next to it, the pairs the spec excludes from the legal king
    pairs. *)
Definition king_zone (s1 s2 : Z) : bool :=
  (Z.abs (file_of s1 - file_of s2) <=? 1)
  && (Z.abs (rank_of s1 - rank_of s2) <=? 1).

(** [MapKK[][]]: the legal placements of two kings, the first one in the
    a1-d1-d4 triangle. *)
Definition init_MapKK : list (list Z) :=
  let step_s2 (idx s1 : Z) :=
    fun '(m, code, both) (s2 : Z) =>
      if king_zone s1 s2 then (m, code, both)
      else if (off_A1H8 s1 =? 0) && (0 <? off_A1H8 s2) then (m, code, both)
      else if (off_A1H8 s1 =? 0) && (off_A1H8 s2 =? 0)
           then (m, code, both ++ [(idx, s2)])
           else (set2 m idx s2 code, code + 1, both) in
  let step_s1 (idx : Z) :=
    fun st (s1 : Z) =>
      if (at1 MapA1D1D4 s1 =? idx) && (negb (idx =? 0) || (s1 =? SQ_B1))
      then fold_left (step_s2 idx s1) all_squares st
      else st in
  let '(m, code, both) :=
    fold_left (fun st idx => fold_left (step_s1 idx) (range 0 SQ_D4) st)
      (range 0 9) (zeros2 10 64, 0, []) in
  fst (fold_left (fun '(m, code) '(i, s) => (set2 m i s code, code + 1))
         both (m, code)).

Definition MapKK : list (list Z) := Eval vm_compute in init_MapKK.

(** [Binomial[k][n]] by Pascal's rule. *)
Definition init_Binomial : list (list Z) :=
  fold_left
    (fun B n =>
       fold_left
         (fun B k =>
            if k <=? n then
              set2 B k n ((if 0 <? k then at2 B (k - 1) (n - 1) else 0)
                          + (if k <? n then at2 B k (n - 1) else 0))
            else B)
         (range 0 5) B)
    (range 1 63) (set2 (zeros2 6 64) 0 0 1).

Definition Binomial : list (list Z) := Eval vm_compute in init_Binomial.

Definition MultTwist : list Z :=
  [15; 63; 55; 47; 40; 48; 56; 12;
   62; 11; 39; 31; 24; 32;  8; 57;
   54; 38;  7; 23; 16;  4; 33; 49;
   46; 30; 22;  3;  0; 17; 25; 41;
   45; 29; 21;  2;  1; 18; 26; 42;
   53; 37;  6; 20; 19;  5; 34; 50;
   61; 10; 36; 28; 27; 35;  9; 58;
   14; 60; 52; 44; 43; 51; 59; 13].

Definition InvTriangle : list Z := [1; 2; 3; 10; 11; 19; 0; 9; 18; 27].

(** [MultIdx[][]] and [MultFactor[]] (less than two unique pieces). *)
Definition init_Mult : list (list Z) * list Z :=
  fold_left
    (fun '(MI, MF) i =>
       let '(MI, s) :=
         fold_left
           (fun '(MI, s) j =>
              (set2 MI i j s,
               s + (if i =? 0 then 1
                    else at2 Binomial i (at1 MultTwist (at1 InvTriangle j)))))
           (range 0 9) (MI, 0) in
       (MI, set1 MF i s))
    (range 0 4) (zeros2 5 10, zeros 5).

Definition MultIdx : list (list Z) := Eval vm_compute in fst init_Mult.
Definition MultFactor : list Z := Eval vm_compute in snd init_Mult.

(** [MapPawns[]], [LeadPawnIdx[][]] and [LeadPawnsSize[][]]. *)
Definition init_Pawns : list Z * list (list Z) * list (list Z) :=
  let '(MP, LPI, LPS, _) :=
    fold_left
      (fun st leadPawnsCnt =>
         fold_left
           (fun '(MP, LPI, LPS, avail) f =>
              let '(MP, LPI, avail, idx) :=
                fold_left
                  (fun '(MP, LPI, avail, idx) r =>
                     let sq := make_square f r in
                     let '(MP, avail) :=
                       if leadPawnsCnt =? 1
                       then (set1 (set1 MP sq avail) (flip_file sq) (avail - 1),
                             avail - 2)
                       else (MP, avail) in
                     (MP, set2 LPI leadPawnsCnt sq idx, avail,
                      idx + at2 Binomial (leadPawnsCnt - 1) (at1 MP sq)))
                  (range 1 6) (MP, LPI, avail, 0) in
              (MP, LPI, set2 LPS leadPawnsCnt f idx, avail))
           (range 0 3) st)
      (range 1 5) (zeros 64, zeros2 6 64, zeros2 6 4, 47) in
  (MP, LPI, LPS).

Definition MapPawns : list Z := Eval vm_compute in fst (fst init_Pawns).
Definition LeadPawnIdx : list (list Z) := Eval vm_compute in snd (fst init_Pawns).
Definition LeadPawnsSize : list (list Z) := Eval vm_compute in snd init_Pawns.

End Tables.
Export Tables.

(** ** The position encoder: pawnless normalisation and the leading group *)

Module Encoder.

Definition b2z (b : bool) : Z := if b then 1 else 0.

(** [if (file_of(squares[0]) > FILE_D) ... flip_file] *)
Definition norm_file (squares : list Z) : list Z :=
  match squares with
  | s0 :: _ => if FILE_D <? file_of s0 then List.map flip_file squares else squares
  | [] => squares
  end.

(** [if (rank_of(squares[0]) > RANK_4) ... flip_rank] *)
Definition norm_rank (squares : list Z) : list Z :=
  match squares with
  | s0 :: _ => if RANK_4 <? rank_of s0 then List.map flip_rank squares else squares
  | [] => squares
  end.

(** The loop over the leading group that looks for the first piece off the
    a1-h8 diagonal; when it is above the diagonal the squares from that piece
    on are flipped. [n] counts the pieces of the leading group still to be
    looked at. *)
Fixpoint norm_diag (n : nat) (squares : list Z) : list Z :=
  match n, squares with
  | S n', s :: rest =>
      if off_A1H8 s =? 0 then s :: norm_diag n' rest
      else if 0 <? off_A1H8 s then List.map flip_diag squares
      else squares
  | _, _ => squares
  end.

(** The three normalisation steps of a pawnless table, in source order. *)
Definition normalize_pawnless (groupLen0 : Z) (squares : list Z) : list Z :=
  norm_diag (Z.to_nat groupLen0) (norm_rank (norm_file squares)).

(** The branch [entry->numUniquePieces >= 3] of [do_probe_table]. *)
Definition lead_index_unique3 (squares : list Z) : option Z :=
  s0 ← rd squares 0;
  s1 ← rd squares 1;
  s2 ← rd squares 2;
  let adjust1 := b2z (s0 <? s1) in
  let adjust2 := b2z (s0 <? s2) + b2z (s1 <? s2) in
  if negb (off_A1H8 s0 =? 0) then
    m ← rd MapA1D1D4 s0;
    Some ((m * 63 + (s1 - adjust1)) * 62 + s2 - adjust2)
  else if negb (off_A1H8 s1 =? 0) then
    m ← rd MapB1H1H7 s1;
    Some ((6 * 63 + rank_of s0 * 28 + m) * 62 + s2 - adjust2)
  else if negb (off_A1H8 s2 =? 0) then
    m ← rd MapB1H1H7 s2;
    Some (6 * 63 * 62 + 4 * 28 * 62
          + rank_of s0 * 7 * 28
          + (rank_of s1 - adjust1) * 28
          + m)
  else
    Some (6 * 63 * 62 + 4 * 28 * 62 + 4 * 7 * 28
          + rank_of s0 * 7 * 6
          + (rank_of s1 - adjust1) * 6
          + (rank_of s2 - adjust2)).

(** [connectedKings] as [do_probe_table] computes it. *)
Definition connectedKings (v : Variant) : bool :=
  variant_eqb v ATOMIC_VARIANT || variant_eqb (main_variant v) ANTI_VARIANT.

(** The branch [entry->numUniquePieces == 2] of [do_probe_table]. *)
Definition lead_index_unique2 (v : Variant) (squares : list Z) : option Z :=
  s0 ← rd squares 0;
  s1 ← rd squares 1;
  if connectedKings v then
    let adjust := b2z (s0 <? s1) in
    if negb (off_A1H8 s0 =? 0) then
      m ← rd MapA1D1D4 s0;
      Some (m * 63 + (s1 - adjust))
    else if negb (off_A1H8 s1 =? 0) then
      m ← rd MapB1H1H7 s1;
      Some (6 * 63 + rank_of s0 * 28 + m)
    else
      Some (6 * 63 + 4 * 28 + rank_of s0 * 7 + (rank_of s1 - adjust))
  else
    m ← rd MapA1D1D4 s0;
    row ← rd MapKK m;
    rd row s1.

End Encoder.
Export Encoder.

(** ** [set_groups] *)

Module Groups.

(** The factor by which the leading group multiplies the running index. *)
Definition lead_factor (e : TBTable) (groupLen0 f : Z) : option Z :=
  if hasPawns e then row ← rd LeadPawnsSize groupLen0; rd row f
  else if 3 <=? numUniquePieces e then Some 31332
  else if numUniquePieces e =? 2
       then Some (if variant_eqb (variant e) CHESS_VARIANT then 462 else 518)
  else if minLikeMan e =? 2 then Some 278
  else rd MultFactor (minLikeMan e - 1).

(** The first loop: the lengths of the groups, from the piece sequence.
    The state is [(n, firstLen, groupLen)]. *)
Fixpoint group_lengths (ixs : list Z) (pieces : list Z)
    (n firstLen : Z) (groupLen : list Z) : option (Z * list Z) :=
  match ixs with
  | [] => Some (n, groupLen)
  | i :: ixs' =>
      let firstLen := firstLen - 1 in
      p ← rd pieces i;
      q ← rd pieces (i - 1);
      if (0 <? firstLen) || (p =? q)
      then group_lengths ixs' pieces n firstLen (set1 groupLen n (at1 groupLen n + 1))
      else group_lengths ixs' pieces (n + 1) firstLen (set1 groupLen (n + 1) 1)
  end.

(** The second loop: [for (k = 0; next < n || k == order[0] || k == order[1]; ++k)]. *)
Fixpoint group_indices (fuel : nat) (e : TBTable) (f : Z) (order0 order1 : Z)
    (groupLen : list Z) (n k next freeSquares idx : Z) (groupIdx : list Z)
  : option (list Z * Z) :=
  match fuel with
  | O => None
  | S fuel' =>
      if (next <? n) || (k =? order0) || (k =? order1) then
        if k =? order0 then
          g0 ← rd groupLen 0;
          fac ← lead_factor e g0 f;
          group_indices fuel' e f order0 order1 groupLen n (k + 1) next
            freeSquares (u64 (idx * fac)) (set1 groupIdx 0 idx)
        else if k =? order1 then
          g0 ← rd groupLen 0;
          g1 ← rd groupLen 1;
          row ← rd Binomial g1;
          b ← rd row (48 - g0);
          group_indices fuel' e f order0 order1 groupLen n (k + 1) next
            freeSquares (u64 (idx * b)) (set1 groupIdx 1 idx)
        else
          g ← rd groupLen next;
          row ← rd Binomial g;
          b ← rd row freeSquares;
          group_indices fuel' e f order0 order1 groupLen n (k + 1) (next + 1)
            (freeSquares - g) (u64 (idx * b)) (set1 groupIdx next idx)
      else Some (groupIdx, idx)
  end.

Definition with_groups (d : PairsData) (gl gi : list Z) : PairsData :=
  {| flags := flags d; maxSymLen := maxSymLen d; minSymLen := minSymLen d;
     blocksNum := blocksNum d; sizeofBlock := sizeofBlock d; span := span d;
     lowestSym := lowestSym d; btree := btree d; blockLength := blockLength d;
     blockLengthSize := blockLengthSize d; sparseIndex := sparseIndex d;
     sparseIndexSize := sparseIndexSize d; data := data d; base64 := base64 d;
     symlen := symlen d; pieces := pieces d; groupIdx := gi; groupLen := gl;
     map_idx := map_idx d |}.

(** [void set_groups(T& e, PairsData* d, int order[], File f)] *)
Definition set_groups (e : TBTable) (d : PairsData) (order : list Z) (f : Z)
  : option PairsData :=
  order0 ← rd order 0;
  order1 ← rd order 1;
  let firstLen :=
    if hasPawns e then 0 else if 3 <=? numUniquePieces e then 3 else 2 in
  '(n, gl) ← group_lengths (range 1 (pieceCount e - 1)) (pieces d)
               0 firstLen (set1 (groupLen d) 0 1);
  let n := n + 1 in
  let gl := set1 gl n 0 in
  pc1 ← rd (pawnCount e) 1;
  let pp := hasPawns e && negb (pc1 =? 0) in
  let next := if pp then 2 else 1 in
  g0 ← rd gl 0;
  g1 ← rd gl 1;
  let freeSquares := 64 - g0 - (if pp then g1 else 0) in
  '(gi, idx) ← group_indices (Z.to_nat n + 3) e f order0 order1 gl n 0 next
                 freeSquares 1 (groupIdx d);
  Some (with_groups d gl (set1 gi n idx)).

End Groups.
Export Groups.

(** ** [TBFile::map] *)

Module File.

(** What the operating system answers for the file [fname]: whether
    [::open] yields a descriptor, the size reported by [fstat], the address
    returned by [mmap] ([None] for [MAP_FAILED]) and the bytes of the file. *)
Record OsFile : Type := {
  os_open : bool;
  st_size : Z;
  os_mmap : option Z;
  content : list byte
}.

(** The observable actions of [map] besides its result. *)
Inductive Event : Set :=
  | CerrCorruptFile        (* "Corrupt tablebase file " << fname *)
  | CerrMmapFailed         (* "Could not mmap() " << fname *)
  | CerrCorruptTable       (* "Corrupted table in file " << fname *)
  | Munmap (addr len : Z). (* unmap( *baseAddress, *mapping) *)

(** The values [map] leaves behind when it returns: the returned pointer and
    the two out-parameters ([None] is the null pointer). *)
Record MapOut : Type := {
  ret : option Z;
  baseAddress : option Z;
  mapping : Z
}.

Inductive MapResult : Type :=
  | Returned (out : MapOut) (trace : list Event)
  | Exited (trace : list Event)      (* exit(EXIT_FAILURE) *)
  | Undefined.                       (* a read past the end of the mapping *)

(** [memcmp(a, b, n) == 0] on two byte strings of the same length. *)
Definition bytes_equal (a b : list byte) : bool :=
  bool_decide (List.map byte_val a = List.map byte_val b).

(** [uint8_t* TBFile::map(void** baseAddress, uint64_t* mapping,
    const uint8_t magic[4])], the branch for POSIX systems; [mapping0] is
    the value of [*mapping] before the call. *)
Definition TBFile_map (f : OsFile) (mapping0 : Z) (magic : list byte)
  : MapResult :=
  if negb (os_open f) then
    Returned {| ret := None; baseAddress := None; mapping := mapping0 |} []
  else if negb (Z.rem (st_size f) 64 =? 16) then Exited [CerrCorruptFile]
  else
    match os_mmap f with
    | None => Exited [CerrMmapFailed]
    | Some base =>
        match bytes_at (content f) 0 4, bytes_at magic 0 4 with
        | Some head, Some mg =>
            if bytes_equal head mg then
              Returned {| ret := Some (base + 4); baseAddress := Some base;
                          mapping := st_size f |} []
            else
              Returned {| ret := None; baseAddress := None;
                          mapping := st_size f |}
                       [CerrCorruptTable; Munmap base (st_size f)]
        | _, _ => Undefined
        end
    end.

End File.
Export File.

(** ** The catalog [TBTables]: a Robin-Hood hash from material key to table *)

Module Catalog.

(** [struct Entry]; the two pointers are addresses, 0 being the null
    pointer, so that [memset(hashTable, 0, ...)] gives the empty entry. *)
Record Entry : Type := { e_key : Z; e_wdl : Z; e_dtz : Z }.

Definition empty_entry : Entry := {| e_key := 0; e_wdl := 0; e_dtz := 0 |}.

(** [Entry::get<Type>()] *)
Definition entry_get (T : TBType) (e : Entry) : Z :=
  match T with WDL => e_wdl e | DTZ => e_dtz e end.

(** [Size] is [1 << 15] in a build with antichess and [1 << 12] otherwise. *)
Definition TBTables_Size (ANTI : bool) : Z := if ANTI then 2 ^ 15 else 2 ^ 12.
Definition Overflow : Z := 1.

(** [TBTables::clear], for the hash table. *)
Definition clear (Size : Z) : list Entry :=
  replicate (Z.to_nat (Size + Overflow)) empty_entry.

Definition home_bucket (Size key : Z) : Z := Z.land (u32 key) (Size - 1).

(** How [insert] ends: the table is updated, the process exits with
    "TB hash table size too low!", or the array is read out of bounds. *)
Inductive InsertResult : Type :=
  | Inserted (hashTable : list Entry)
  | HashFull
  | OutOfBounds.

(** The loop of [insert]; [n] is the number of buckets from [bucket] up to
    [Size + Overflow - 1] (excluded). *)
Fixpoint insert_loop (n : nat) (Size : Z) (hashTable : list Entry)
    (bucket key homeBucket : Z) (entry : Entry) : InsertResult :=
  match n with
  | O => HashFull
  | S n' =>
      match rd hashTable bucket with
      | None => OutOfBounds
      | Some other =>
          let otherKey := e_key other in
          if (otherKey =? key) || (entry_get WDL other =? 0) then
            Inserted (<[Z.to_nat bucket := entry]> hashTable)
          else
            let otherHomeBucket := home_bucket Size otherKey in
            if homeBucket <? otherHomeBucket then
              insert_loop n' Size (<[Z.to_nat bucket := entry]> hashTable)
                (bucket + 1) otherKey otherHomeBucket other
            else
              insert_loop n' Size hashTable (bucket + 1) key homeBucket entry
      end
  end.

(** [void TBTables::insert(Key key, TBTable<WDL>* wdl, TBTable<DTZ>* dtz)] *)
Definition TBTables_insert (Size : Z) (hashTable : list Entry)
    (key wdl dtz : Z) : InsertResult :=
  let homeBucket := home_bucket Size key in
  insert_loop (Z.to_nat (Size + Overflow - 1 - homeBucket)) Size hashTable
    homeBucket key homeBucket {| e_key := key; e_wdl := wdl; e_dtz := dtz |}.

(** The probe of [get]: walk the entries from the home bucket on; running
    off the array is a read out of bounds ([None]). The second component
    is the number of entries passed over. *)
Fixpoint get_loop (T : TBType) (key : Z) (entries : list Entry) (steps : Z)
  : option (Z * Z) :=
  match entries with
  | [] => None
  | entry :: rest =>
      if (e_key entry =? key) || (entry_get T entry =? 0)
      then Some (entry_get T entry, steps)
      else get_loop T key rest (steps + 1)
  end.

(** [TBTable<Type>* TBTables::get(Key key)] *)
Definition TBTables_get (Size : Z) (hashTable : list Entry) (T : TBType)
    (key : Z) : option Z :=
  fst <$> get_loop T key (drop (Z.to_nat (home_bucket Size key)) hashTable) 0.

(** A sequence of insertions, as [TBTables::add] issues them. *)
Fixpoint insert_all (Size : Z) (hashTable : list Entry)
    (ins : list (Z * Z * Z)) : InsertResult :=
  match ins with
  | [] => Inserted hashTable
  | (key, wdl, dtz) :: rest =>
      match TBTables_insert Size hashTable key wdl dtz with
      | Inserted hashTable' => insert_all Size hashTable' rest
      | r => r
      end
  end.

End Catalog.
Export Catalog.

(** ** The probe driver *)

Module Probe.

(** What the driver asks of a position (position.h, movegen.h). [do_move]
    returns the position after the move, so that [undo_move] is the return
    to the caller's position. In a build without antichess [is_anti] is
    constantly false. *)
Class PositionOps (Position Move : Type) : Type := {
  legal_moves : Position -> list Move;    (* MoveList<LEGAL>(pos) *)
  capture_moves : Position -> list Move;  (* MoveList<CAPTURES>(pos) *)
  capture : Position -> Move -> bool;
  moved_pawn : Position -> Move -> bool;  (* type_of(pos.moved_piece(m)) == PAWN *)
  do_move : Position -> Move -> Position;
  checkers : Position -> bool;            (* pos.checkers() is not empty *)
  is_anti : Position -> bool;
  pos_variant : Position -> Variant;
  is_variant_end : Position -> bool;
  variant_result : Position -> Z;
  checkmate_value : Position -> Z;
  stalemate_value : Position -> Z;
  count_all : Position -> Z;              (* pos.count<ALL_PIECES>() *)
  popcount_all : Position -> Z;           (* popcount(pos.pieces()) *)
  popcount_them : Position -> Z;          (* popcount(pos.pieces(~stm)) *)
  only_pawns : Position -> bool;          (* pieces(stm) == pieces(stm, PAWN) *)
  material_key : Position -> Z
}.

(** The catalog and the tables behind it. [mapped] is the base address of
    the table's file once its [ready] flag is set (0 when the file could not
    be mapped); [do_probe_table] is taken as given, its DTZ instance
    answering [None] where the source sets [CHANGE_STM]. *)
Class TableOps (Position : Type) : Type := {
  hash_Size : Z;
  hashTable : list Entry;
  mapped : TBType -> Z -> Position -> Z;
  do_probe_table_wdl : Position -> Z -> WDLScore;
  do_probe_table_dtz : Position -> Z -> WDLScore -> option Z
}.

(** [int dtz_before_zeroing(WDLScore wdl)] *)
Definition dtz_before_zeroing (wdl : WDLScore) : Z :=
  if wdl_eqb wdl WDLWin then 1
  else if wdl_eqb wdl WDLCursedWin then 101
  else if wdl_eqb wdl WDLBlessedLoss then -101
  else if wdl_eqb wdl WDLLoss then -1
  else 0.

(** [result_to_score<WDL>] and [result_to_score<DTZ>]; [Ret(WDLDraw)] is
    the integer 0 in the second. *)
Definition result_to_score_wdl (value : Z) : WDLScore :=
  if 0 <? value then WDLWin else if value <? 0 then WDLLoss else WDLDraw.

Definition result_to_score_dtz (value : Z) : Z :=
  if 0 <? value then 1 else if value <? 0 then -1 else 0.

Definition nonempty {A : Type} (l : list A) : bool :=
  match l with [] => false | _ => true end.

Section Driver.

Context {Position Move : Type}.
Context `{PO : PositionOps Position Move} `{TO : TableOps Position}.

Definition end_value (pos : Position) : Z :=
  if checkers pos then checkmate_value pos else stalemate_value pos.

(** [probe_table<WDL>(pos, result)] *)
Definition probe_table_wdl (pos : Position) (result : ProbeState)
  : option (WDLScore * ProbeState) :=
  if is_variant_end pos then
    Some (result_to_score_wdl (variant_result pos), result)
  else if negb (variant_eqb (pos_variant pos) CHESS_VARIANT)
          && negb (nonempty (legal_moves pos)) then
    Some (result_to_score_wdl (end_value pos), result)
  else if negb (is_anti pos) && (count_all pos =? 2) then
    Some (WDLDraw, result)
  else
    entry ← TBTables_get hash_Size hashTable WDL (material_key pos);
    if (entry =? 0) || (mapped WDL entry pos =? 0) then Some (WDLDraw, FAIL)
    else Some (do_probe_table_wdl pos entry, result).

(** [probe_table<DTZ>(pos, result, wdl)] *)
Definition probe_table_dtz (pos : Position) (result : ProbeState)
    (wdl : WDLScore) : option (Z * ProbeState) :=
  if is_variant_end pos then
    Some (result_to_score_dtz (variant_result pos), result)
  else if negb (variant_eqb (pos_variant pos) CHESS_VARIANT)
          && negb (nonempty (legal_moves pos)) then
    Some (result_to_score_dtz (end_value pos), result)
  else if negb (is_anti pos) && (count_all pos =? 2) then
    Some (0, result)
  else
    entry ← TBTables_get hash_Size hashTable DTZ (material_key pos);
    if (entry =? 0) || (mapped DTZ entry pos =? 0) then Some (0, FAIL)
    else
      match do_probe_table_dtz pos entry wdl with
      | None => Some (0, CHANGE_STM)
      | Some dtz => Some (dtz, result)
      end.

(** *** Antichess: [sprobe_captures] and [sprobe_ab] *)

Definition SProbe : Type :=
  Position -> WDLScore -> WDLScore -> ProbeState -> option (WDLScore * ProbeState).

(** The loop of [sprobe_captures]: [inl] is the early [return WDLDraw],
    [inr] the state at the end of the loop or at its [break]. *)
Fixpoint captures_loop (rec : SProbe) (pos : Position) (moves : list Move)
    (alpha beta : WDLScore) (result : ProbeState)
  : option (WDLScore * ProbeState + WDLScore * ProbeState) :=
  match moves with
  | [] => Some (inr (alpha, result))
  | move :: rest =>
      '(v0, result) ← rec (do_move pos move) (wdl_neg beta) (wdl_neg alpha) result;
      let v := wdl_neg v0 in
      if ps_eqb result FAIL then Some (inl (WDLDraw, result))
      else if wdl_ltb alpha v then
        if wdl_leb beta v then Some (inr (v, result))
        else captures_loop rec pos rest v beta result
      else captures_loop rec pos rest alpha beta result
  end.

(** The loop over the legal moves in [sprobe_ab]; the running state is
    [(alpha, threatFound, result)]. *)
Fixpoint threat_loop (rec : SProbe) (pos : Position) (moves : list Move)
    (alpha beta : WDLScore) (threatFound : bool) (result : ProbeState)
  : option (WDLScore * ProbeState + WDLScore * bool * ProbeState) :=
  match moves with
  | [] => Some (inr (alpha, threatFound, result))
  | move :: rest =>
      '(v0, result) ← rec (do_move pos move) (wdl_neg beta) (wdl_neg alpha) result;
      let v := wdl_neg v0 in
      if ps_eqb result FAIL then Some (inl (WDLDraw, result))
      else if ps_eqb result ZEROING_BEST_MOVE && wdl_ltb alpha v then
        if wdl_leb beta v then Some (inl (v, THREAT))
        else threat_loop rec pos rest v beta true result
      else threat_loop rec pos rest alpha beta threatFound result
  end.

Fixpoint sprobe_captures (fuel : nat) (pos : Position)
    (alpha beta : WDLScore) (result : ProbeState) {struct fuel}
  : option (WDLScore * ProbeState) :=
  match fuel with
  | O => None
  | S fuel' =>
      let moveList := capture_moves pos in
      r ← captures_loop (sprobe_ab fuel' false) pos moveList alpha beta OK;
      match r with
      | inl out => Some out
      | inr (alpha, result) =>
          Some (alpha, if nonempty moveList then ZEROING_BEST_MOVE else result)
      end
  end
with sprobe_ab (fuel : nat) (Threats : bool) (pos : Position)
    (alpha beta : WDLScore) (result : ProbeState) {struct fuel}
  : option (WDLScore * ProbeState) :=
  match fuel with
  | O => None
  | S fuel' =>
      first ←
        (if 1 <? popcount_them pos then
           '(v, result) ← sprobe_captures fuel' pos alpha beta result;
           if ps_eqb result ZEROING_BEST_MOVE || ps_eqb result FAIL
           then Some (inl (v, result)) else Some (inr result)
         else if nonempty (capture_moves pos)
              then Some (inl (WDLLoss, ZEROING_BEST_MOVE))
              else Some (inr result));
      match first with
      | inl out => Some out
      | inr result =>
          second ←
            (if Threats || (6 <=? popcount_all pos)
             then threat_loop (sprobe_captures fuel') pos (legal_moves pos)
                    alpha beta false result
             else Some (inr (alpha, false, result))
             : option (WDLScore * ProbeState + WDLScore * bool * ProbeState));
          match second with
          | inl out => Some out
          | inr (alpha, threatFound, _) =>
              '(v, result) ← probe_table_wdl pos OK;
              if ps_eqb result FAIL then Some (WDLDraw, result)
              else if wdl_ltb alpha v then Some (v, result)
              else Some (alpha, if threatFound : bool then THREAT else result)
          end
      end
  end.

(** *** [search<CheckZeroingMoves>] *)

Definition Search : Type :=
  Position -> ProbeState -> option (WDLScore * ProbeState).

(** The loop over the legal moves; [inl] is a [return] from inside the
    loop, [inr] the state [(bestValue, moveCount, result)] after it. *)
Fixpoint search_loop (rec : Search) (CheckZeroingMoves : bool)
    (pos : Position) (moves : list Move)
    (bestValue : WDLScore) (moveCount : Z) (result : ProbeState)
  : option (WDLScore * ProbeState + WDLScore * Z * ProbeState) :=
  match moves with
  | [] => Some (inr (bestValue, moveCount, result))
  | move :: rest =>
      if negb (capture pos move)
         && (negb CheckZeroingMoves || negb (moved_pawn pos move))
      then search_loop rec CheckZeroingMoves pos rest bestValue moveCount result
      else
        let moveCount := moveCount + 1 in
        '(v0, result) ← rec (do_move pos move) result;
        let value := wdl_neg v0 in
        if ps_eqb result FAIL then Some (inl (WDLDraw, result))
        else if wdl_ltb bestValue value then
          if wdl_leb WDLWin value then Some (inl (value, ZEROING_BEST_MOVE))
          else search_loop rec CheckZeroingMoves pos rest value moveCount result
        else search_loop rec CheckZeroingMoves pos rest bestValue moveCount result
  end.

Fixpoint search (fuel : nat) (CheckZeroingMoves : bool) (pos : Position)
    (result : ProbeState) : option (WDLScore * ProbeState) :=
  match fuel with
  | O => None
  | S fuel' =>
      if is_anti pos then
        sprobe_ab fuel' CheckZeroingMoves pos WDLLoss WDLWin result
      else
        let moveList := legal_moves pos in
        let totalCount := Z.of_nat (length moveList) in
        r ← search_loop (search fuel' false) CheckZeroingMoves pos moveList
              WDLLoss 0 result;
        match r with
        | inl out => Some out
        | inr (bestValue, moveCount, result) =>
            let noMoreMoves :=
              negb (moveCount =? 0) && (moveCount =? totalCount) in
            '(value, result) ←
              (if noMoreMoves then Some (bestValue, result)
               else probe_table_wdl pos result);
            if negb noMoreMoves && ps_eqb result FAIL
            then Some (WDLDraw, result)
            else if wdl_leb value bestValue then
              Some (bestValue,
                    if wdl_ltb WDLDraw bestValue || noMoreMoves
                    then ZEROING_BEST_MOVE else OK)
            else Some (value, OK)
        end
  end.

(** [WDLScore Tablebases::probe_wdl(Position& pos, ProbeState* result)] *)
Definition probe_wdl (fuel : nat) (pos : Position)
  : option (WDLScore * ProbeState) :=
  search fuel false pos OK.

(** *** [probe_dtz] *)

(** The 1-ply loop of [probe_dtz] for a table stored for the other side;
    [inl] is the [return 0] after a failed probe, [inr] the state
    [(minDTZ, result)] after the loop. *)
Fixpoint dtz_loop (rec_search : Search)
    (rec_dtz : Position -> option (Z * ProbeState))
    (pos : Position) (wdl : WDLScore) (moves : list Move)
    (minDTZ : Z) (result : ProbeState)
  : option (Z * ProbeState + Z * ProbeState) :=
  match moves with
  | [] => Some (inr (minDTZ, result))
  | move :: rest =>
      let zeroing := capture pos move || moved_pawn pos move in
      let pos' := do_move pos move in
      '(dtz, result) ←
        (if zeroing then
           '(w, r) ← rec_search pos' result;
           Some (- dtz_before_zeroing w, r)
         else
           '(d, r) ← rec_dtz pos';
           Some (- d, r));
      let minDTZ :=
        if (dtz =? 1) && checkers pos' && negb (nonempty (legal_moves pos'))
        then 1 else minDTZ in
      let dtz := if negb zeroing then dtz + sign_of dtz else dtz in
      let minDTZ :=
        if (dtz <? minDTZ) && (sign_of dtz =? sign_of (wdl_int wdl))
        then dtz else minDTZ in
      if ps_eqb result FAIL then Some (inl (0, result))
      else dtz_loop rec_search rec_dtz pos wdl rest minDTZ result
  end.

(** [int Tablebases::probe_dtz(Position& pos, ProbeState* result)];
    [*result] is set to [OK] on entry, so it is not an argument. *)
Fixpoint probe_dtz (fuel : nat) (pos : Position) : option (Z * ProbeState) :=
  match fuel with
  | O => None
  | S fuel' =>
      '(wdl, result) ← search fuel true pos OK;
      if ps_eqb result FAIL || wdl_eqb wdl WDLDraw then Some (0, result)
      else if ps_eqb result ZEROING_BEST_MOVE
      then Some (dtz_before_zeroing wdl, result)
      else if is_anti pos && only_pawns pos
      then Some (dtz_before_zeroing wdl, result)
      else if is_anti pos && ps_eqb result THREAT && wdl_ltb WDLDraw wdl
      then Some (if wdl_eqb wdl WDLWin then 2 else 102, result)
      else
        '(dtz, result) ← probe_table_dtz pos result wdl;
        if ps_eqb result FAIL then Some (0, result)
        else if negb (ps_eqb result CHANGE_STM) then
          Some ((dtz + 100 * b2z (wdl_eqb wdl WDLBlessedLoss
                                  || wdl_eqb wdl WDLCursedWin))
                * sign_of (wdl_int wdl), result)
        else
          r ← dtz_loop (search fuel false) (probe_dtz fuel') pos wdl
                (legal_moves pos) 65535 result;
          match r with
          | inl out => Some out
          | inr (minDTZ, result) =>
              Some (if minDTZ =? 65535 then -1 else minDTZ, result)
          end
  end.

End Driver.

End Probe.
Export Probe.

(** ** Table discovery: [TBFile::TBFile], the [TBTable] constructors,
       [TBTables::add] and [Tablebases::init] *)

Module Registry.

(** Piece types and colours (types.h): [PAWN = 1 .. KING = 6],
    [WHITE = 0], [BLACK = 1]. *)
Definition PAWN : Z := 1.
Definition KNIGHT : Z := 2.
Definition BISHOP : Z := 3.
Definition ROOK : Z := 4.
Definition QUEEN : Z := 5.
Definition KING : Z := 6.
Definition WHITE : Z := 0.
Definition BLACK : Z := 1.

Definition PieceToChar : string := " PNBRQK  pnbrqk".

(** [for (PieceType pt : pts) code += PieceToChar[pt];] *)
Fixpoint append_pieces (code : string) (pts : list Z) : string :=
  match pts with
  | [] => code
  | pt :: rest =>
      append_pieces
        (code +:+ match String.get (Z.to_nat pt) PieceToChar with
                  | Some c => String c EmptyString
                  | None => EmptyString
                  end)
        rest
  end.

Definition code_of (w b : list Z) : string :=
  append_pieces (append_pieces EmptyString w +:+ "v") b.

(** [code.find("P") == std::string::npos] *)
Fixpoint has_no_P (code : string) : bool :=
  match code with
  | EmptyString => true
  | String c rest => if String.eqb (String c EmptyString) "P" then false else has_no_P rest
  end.

(** [WdlSuffixes[]] and [PawnlessWdlSuffixes[]]; [None] is [nullptr]. *)
Definition WdlSuffixes (v : Variant) : option string :=
  match v with
  | CHESS_VARIANT | TWOKINGS_VARIANT | TWOKINGSSYMMETRIC_VARIANT => Some ".rtbw"
  | ANTI_VARIANT | GIVEAWAY_VARIANT => Some ".gtbw"
  | ATOMIC_VARIANT => Some ".atbw"
  | SUICIDE_VARIANT => Some ".stbw"
  | _ => None
  end.

Definition PawnlessWdlSuffixes (v : Variant) : option string :=
  match v with
  | ANTI_VARIANT | GIVEAWAY_VARIANT => Some ".gtbw"
  | SUICIDE_VARIANT => Some ".stbw"
  | _ => None
  end.

(** What lies outside the file: whether [std::ifstream::open(fname)] leaves
    the stream open, and the position that [Position::set(code, c, variant,
    &st)] sets up, of which the constructor reads the material key and the
    number of pieces of each colour and type. *)
Record Material : Type := {
  m_key : Z;
  m_count : Z -> Z -> Z        (* popcount(pos.pieces(c, pt)) *)
}.

Class World : Type := {
  opens : string -> bool;
  set_code : Variant -> string -> Z -> Material
}.

(** The successive results of [std::getline(ss, path, SepChar)]: the pieces
    of [Paths] between separators; the read after the last separator fails
    when nothing is left. *)
Fixpoint getlines (s cur : string) : list string :=
  match s with
  | EmptyString => if String.eqb cur EmptyString then [] else [cur]
  | String c rest =>
      if String.eqb (String c EmptyString) ":" then cur :: getlines rest EmptyString
      else getlines rest (cur +:+ String c EmptyString)
  end.

Section WithWorld.

Context `{W : World}.

(** [TBFile::TBFile(const std::string& f)]: the name under which the file
    was opened, [None] when it is not open after the loop. *)
Definition TBFile_open (Paths f : string) : option string :=
  List.find opens (List.map (fun path => path +:+ "/" +:+ f) (getlines Paths EmptyString)).

(** The loops [for (Color c : { WHITE, BLACK }) for (PieceType pt = PAWN;
    pt <= KING; ++pt)] visit these pairs in this order. *)
Definition men : list (Z * Z) :=
  c ← [WHITE; BLACK]; pt ← range PAWN KING; [(c, pt)].

Definition count_men (pos : Material) : Z :=
  fold_left (fun n '(c, pt) => n + m_count pos c pt) men 0.

Definition blank_pairs : PairsData :=
  {| flags := 0; maxSymLen := 0; minSymLen := 0; blocksNum := 0;
     sizeofBlock := 0; span := 0; lowestSym := []; btree := [];
     blockLength := []; blockLengthSize := 0; sparseIndex := [];
     sparseIndexSize := 0; data := []; base64 := []; symlen := [];
     pieces := zeros 7; groupIdx := zeros 8; groupLen := zeros 8;
     map_idx := zeros 4 |}.

(** [TBTable<WDL>::TBTable(Variant v, const std::string& code)]; [pos] is
    the position set up with [WHITE] and [pos2] the one set up with [BLACK].
    The members of [items] are not read before [set] assigns them. *)
Definition TBTable_WDL (v : Variant) (pos pos2 : Material) : TBTable :=
  let numUniquePieces :=
    fold_left (fun n '(c, pt) => if m_count pos c pt =? 1 then n + 1 else n)
      men 0 in
  let minLikeMan :=
    fold_left
      (fun m '(c, pt) =>
         let count := m_count pos c pt in
         if (2 <=? count) && ((count <? m) || (m =? 0)) then count else m)
      men 0 in
  let c :=
    (m_count pos BLACK PAWN =? 0)
    || (negb (m_count pos WHITE PAWN =? 0)
        && (m_count pos WHITE PAWN <=? m_count pos BLACK PAWN)) in
  {| tbtype := WDL; map := []; variant := v;
     key := m_key pos; key2 := m_key pos2;
     pieceCount := count_men pos;
     hasPawns := negb ((m_count pos WHITE PAWN =? 0)
                       && (m_count pos BLACK PAWN =? 0));
     numUniquePieces := numUniquePieces;
     minLikeMan := minLikeMan;
     pawnCount := [u8 (m_count pos (if c then WHITE else BLACK) PAWN);
                   u8 (m_count pos (if c then BLACK else WHITE) PAWN)];
     items := replicate 2 (replicate 4 blank_pairs) |}.

(** [TBTable<DTZ>::TBTable(const TBTable<WDL>& wdl)] *)
Definition TBTable_DTZ (wdl : TBTable) : TBTable :=
  {| tbtype := DTZ; map := []; variant := variant wdl;
     key := key wdl; key2 := key2 wdl;
     pieceCount := pieceCount wdl; hasPawns := hasPawns wdl;
     numUniquePieces := numUniquePieces wdl; minLikeMan := minLikeMan wdl;
     pawnCount := [at1 (pawnCount wdl) 0; at1 (pawnCount wdl) 1];
     items := replicate 1 (replicate 4 blank_pairs) |}.

(** The object [TBTables] together with the two globals it is used with,
    [TBFile::Paths] and [MaxCardinality]. The elements of the two deques
    never move; the address of the [i]-th one (counted from 1) is carried as
    the number [i], which is not the null pointer. *)
Record State : Type := {
  Paths : string;
  hashTable : list Entry;
  wdlTable : list TBTable;
  dtzTable : list TBTable;
  MaxCardinality : Z
}.

(** How a call ends: it returns, the process exits in [insert] with
    "TB hash table size too low!", or [insert] leaves the array. *)
Inductive Outcome : Type :=
  | Done (s : State)
  | TooLow
  | OutOfArray.

(** [void TBTables::add(Variant variant, const std::vector<PieceType>& w,
    const std::vector<PieceType>& b)]; [Size] is the constant of the
    class. *)
Definition add (Size : Z) (s : State) (variant : Variant) (w b : list Z)
  : Outcome :=
  match WdlSuffixes variant with
  | None => Done s
  | Some suffix =>
      let code := code_of w b in
      let found :=
        match TBFile_open (Paths s) (code +:+ suffix) with
        | Some _ => true
        | None =>
            if negb (variant_eqb variant CHESS_VARIANT) && has_no_P code then
              match PawnlessWdlSuffixes variant with
              | Some pawnless =>
                  match TBFile_open (Paths s) (code +:+ pawnless) with
                  | Some _ => true
                  | None => false
                  end
              | None => false
              end
            else false
        end in
      if negb found then Done s
      else
        let maxCardinality :=
          Z.max (to_int (Z.of_nat (length w) + Z.of_nat (length b)))
            (MaxCardinality s) in
        let wdl := TBTable_WDL variant (set_code variant code WHITE)
                     (set_code variant code BLACK) in
        let wdlTable' := wdlTable s ++ [wdl] in
        let dtzTable' := dtzTable s ++ [TBTable_DTZ wdl] in
        let pw := Z.of_nat (length wdlTable') in
        let pd := Z.of_nat (length dtzTable') in
        match TBTables_insert Size (hashTable s) (key wdl) pw pd with
        | Inserted t1 =>
            match TBTables_insert Size t1 (key2 wdl) pw pd with
            | Inserted t2 =>
                Done {| Paths := Paths s; hashTable := t2;
                        wdlTable := wdlTable'; dtzTable := dtzTable';
                        MaxCardinality := maxCardinality |}
            | HashFull => TooLow
            | OutOfBounds => OutOfArray
            end
        | HashFull => TooLow
        | OutOfBounds => OutOfArray
        end
  end.

(** A run of calls of [add], in order. *)
Fixpoint add_all (Size : Z) (s : State) (variant : Variant)
    (sigs : list (list Z * list Z)) : Outcome :=
  match sigs with
  | [] => Done s
  | (w, b) :: rest =>
      match add Size s variant w b with
      | Done s' => add_all Size s' variant rest
      | r => r
      end
  end.

End WithWorld.

(** [for (PieceType p = lo; p <= hi; ++p)] around calls of [add]: the
    calls of the body, for each [p] in turn. *)
Definition each (lo hi : Z) (body : Z -> list (list Z * list Z))
  : list (list Z * list Z) :=
  p ← range lo hi; body p.

(** The calls of [add] that [init] makes for standard chess and the
    variants played with its tables, in order. [p < KING] is [p <= QUEEN]. *)
Definition standard_calls : list (list Z * list Z) :=
  each PAWN QUEEN (fun p1 =>
    [([KING; p1], [KING])]
    ++ each PAWN p1 (fun p2 =>
         [([KING; p1; p2], [KING]); ([KING; p1], [KING; p2])]
         ++ each PAWN QUEEN (fun p3 => [([KING; p1; p2], [KING; p3])])
         ++ each PAWN p2 (fun p3 =>
              [([KING; p1; p2; p3], [KING])]
              ++ each PAWN p3 (fun p4 =>
                   [([KING; p1; p2; p3; p4], [KING])]
                   ++ each PAWN p4 (fun p5 =>
                        [([KING; p1; p2; p3; p4; p5], [KING])])
                   ++ each PAWN QUEEN (fun p5 =>
                        [([KING; p1; p2; p3; p4], [KING; p5])]))
              ++ each PAWN QUEEN (fun p4 =>
                   [([KING; p1; p2; p3], [KING; p4])]
                   ++ each PAWN p4 (fun p5 =>
                        [([KING; p1; p2; p3], [KING; p4; p5])])))
         ++ each PAWN p1 (fun p3 =>
              each PAWN (if p1 =? p3 then p2 else p3) (fun p4 =>
                [([KING; p1; p2], [KING; p3; p4])])))).

(** The calls made for the antichess family, where the king is a piece like
    the others. *)
Definition anti_calls : list (list Z * list Z) :=
  each PAWN KING (fun p1 =>
    each PAWN p1 (fun p2 =>
      [([p1], [p2])]
      ++ each PAWN KING (fun p3 => [([p1; p2], [p3])])
      ++ each PAWN p2 (fun p3 =>
           each PAWN KING (fun p4 =>
             [([p1; p2; p3], [p4])]
             ++ each PAWN p4 (fun p5 => [([p1; p2; p3], [p4; p5])]))
           ++ each PAWN p3 (fun p4 =>
                each PAWN KING (fun p5 =>
                  [([p1; p2; p3; p4], [p5])]
                  ++ each PAWN p5 (fun p6 => [([p1; p2; p3; p4], [p5; p6])]))
                ++ each PAWN p4 (fun p5 =>
                     each PAWN KING (fun p6 =>
                       [([p1; p2; p3; p4; p5], [p6])])))
           ++ each PAWN p1 (fun p4 =>
                each PAWN (if p1 =? p4 then p2 else p4) (fun p5 =>
                  each PAWN (if (p1 =? p4) && (p5 =? p2) then p3 else p5)
                    (fun p6 => [([p1; p2; p3], [p4; p5; p6])]))))
      ++ each PAWN p1 (fun p3 =>
           each PAWN (if p1 =? p3 then p2 else p3) (fun p4 =>
             [([p1; p2], [p3; p4])])))).

Section Init.

Context `{W : World}.

(** [void Tablebases::init(Variant variant, const std::string& paths)]: the
    catalog it leaves. The encoder tables it fills are the constants of
    [Tables]; the closing "info string" line is not modelled. *)
Definition init (Size : Z) (variant : Variant) (paths : string) : Outcome :=
  let s0 := {| Paths := paths; hashTable := clear Size; wdlTable := [];
               dtzTable := []; MaxCardinality := 0 |} in
  if String.eqb paths EmptyString || String.eqb paths "<empty>" then Done s0
  else if variant_eqb (main_variant variant) ANTI_VARIANT
       then add_all Size s0 variant anti_calls
       else add_all Size s0 variant standard_calls.

End Init.

End Registry.

(** ** Reading the header of a table: [set_symlen], [set_sizes] and
       [set_dtz_map]

    A pointer into the mapped file is the file together with a byte offset;
    the mapping starts at a page boundary, so that the low bit of a pointer
    is the low bit of its offset. *)

Module Header.

(** The region that a pointer at offset [off] points to. *)
Definition region (file : list byte) (off : Z) : list byte :=
  drop (Z.to_nat off) file.

(** The statement [if (!visited[x]) d->symlen[x] = set_symlen(d, x,
    visited);], which occurs three times; [rec] is the call of [set_symlen]
    and the state is the pair of the vectors [d->symlen] and [visited]. *)
Definition visit
    (rec : Z -> list Z * list bool -> option (Z * (list Z * list bool)))
    (x : Z) (st : list Z * list bool) : option (list Z * list bool) :=
  v ← rd st.2 x;
  if v : bool then Some st
  else
    '(r, (symlen, visited)) ← rec x st;
    _ ← rd symlen x;
    Some (<[Z.to_nat x := r]> symlen, visited).

(** [uint8_t set_symlen(PairsData* d, Sym s, std::vector<bool>& visited)] *)
Fixpoint set_symlen (fuel : nat) (btree : list byte) (s : Z)
    (st : list Z * list bool) : option (Z * (list Z * list bool)) :=
  match fuel with
  | O => None
  | S fuel' =>
      let '(symlen, visited) := st in
      _ ← rd visited s;
      let visited := <[Z.to_nat s := true]> visited in
      sr ← LR_get Right btree s;
      if sr =? 4095 then Some (0, (symlen, visited))
      else
        sl ← LR_get Left btree s;
        st ← visit (set_symlen fuel' btree) sl (symlen, visited);
        st ← visit (set_symlen fuel' btree) sr st;
        a ← rd st.1 sl;
        b ← rd st.1 sr;
        Some (u8 (a + b + 1), st)
  end.

(** [for (Sym sym = 0; sym < d->symlen.size(); ++sym) if (!visited[sym])
    d->symlen[sym] = set_symlen(d, sym, visited);] *)
Fixpoint symlen_loop (fuel : nat) (btree : list byte) (syms : list Z)
    (st : list Z * list bool) : option (list Z * list bool) :=
  match syms with
  | [] => Some st
  | sym :: rest =>
      st ← visit (set_symlen fuel btree) sym st;
      symlen_loop fuel btree rest st
  end.

(** [std::find(d->groupLen, d->groupLen + 7, 0) - d->groupLen] *)
Fixpoint find_zero (groupLen : list Z) (n : nat) (i : Z) : option Z :=
  match n with
  | O => Some i
  | S n' =>
      g ← rd groupLen i;
      if g =? 0 then Some i else find_zero groupLen n' (i + 1)
  end.

(** The first loop over [base64], from [i] down to 0. *)
Fixpoint base64_down (n : nat) (lowestSym : list byte) (base64 : list Z)
  : option (list Z) :=
  match n with
  | O => Some base64
  | S i =>
      next ← base64 !! S i;
      lo ← number 2 LittleEndian lowestSym (2 * Z.of_nat i);
      hi ← number 2 LittleEndian lowestSym (2 * Z.of_nat (S i));
      base64_down i lowestSym (<[i := u64 (next + lo - hi) / 2]> base64)
  end.

(** [d->base64[i] <<= 64 - i - d->minSymLen], for the entry at index [i];
    a shift out of 0..63 is undefined. *)
Definition base64_shift (minSymLen : Z) (i : Z) (b : Z) : option Z :=
  let sh := 64 - i - minSymLen in
  if (sh <? 0) || (64 <=? sh) then None else Some (u64 (Z.shiftl b sh)).

Fixpoint base64_shifts (minSymLen : Z) (i : Z) (base64 : list Z)
  : option (list Z) :=
  match base64 with
  | [] => Some []
  | b :: rest =>
      b' ← base64_shift minSymLen i b;
      rest' ← base64_shifts minSymLen (i + 1) rest;
      Some (b' :: rest')
  end.

Definition with_single (d : PairsData) (fl v : Z) : PairsData :=
  {| flags := fl; maxSymLen := maxSymLen d; minSymLen := v; blocksNum := 0;
     sizeofBlock := sizeofBlock d; span := 0; lowestSym := lowestSym d;
     btree := btree d; blockLength := blockLength d; blockLengthSize := 0;
     sparseIndex := sparseIndex d; sparseIndexSize := 0; data := data d;
     base64 := base64 d; symlen := symlen d; pieces := pieces d;
     groupIdx := groupIdx d; groupLen := groupLen d; map_idx := map_idx d |}.

(** [uint8_t* set_sizes(PairsData* d, uint8_t* data)]; the result is the
    record and the offset returned. A shift by 64 or more in [1ULL << b], and
    a negative size given to [resize], end the run ([None]). *)
Definition set_sizes (d : PairsData) (file : list byte) (data : Z)
  : option (PairsData * Z) :=
  fl ← byte_val <$> rd file data;
  if has fl SingleValue then
    v ← byte_val <$> rd file (data + 1);
    Some (with_single d fl v, data + 2)
  else
    z ← find_zero (groupLen d) 7 0;
    tbSize ← rd (groupIdx d) z;
    bs ← byte_val <$> rd file (data + 1);
    sp ← byte_val <$> rd file (data + 2);
    if (64 <=? bs) || (64 <=? sp) then None
    else
      let sizeofBlock := Z.shiftl 1 bs in
      let span := Z.shiftl 1 sp in
      let sparseIndexSize := u64 (tbSize + span - 1) / span in
      padding ← number 1 LittleEndian file (data + 3);
      blocksNum ← number 4 LittleEndian file (data + 4);
      let blockLengthSize := u32 (blocksNum + padding) in
      maxSymLen ← byte_val <$> rd file (data + 8);
      minSymLen ← byte_val <$> rd file (data + 9);
      let lowestSym := region file (data + 10) in
      let h := maxSymLen - minSymLen + 1 in
      if h <? 0 then None
      else
        base64 ← base64_down (Z.to_nat h - 1) lowestSym (zeros (Z.to_nat h));
        base64 ← base64_shifts minSymLen 0 base64;
        let data := data + 10 + h * 2 in
        n ← number 2 LittleEndian file data;
        let data := data + 2 in
        let btree := region file data in
        '(symlen, _) ← symlen_loop (S (Z.to_nat n)) btree (range 0 (n - 1))
                         (zeros (Z.to_nat n), replicate (Z.to_nat n) false);
        Some ({| flags := fl; maxSymLen := maxSymLen; minSymLen := minSymLen;
                 blocksNum := blocksNum; sizeofBlock := sizeofBlock;
                 span := span; lowestSym := lowestSym; btree := btree;
                 blockLength := blockLength d;
                 blockLengthSize := blockLengthSize;
                 sparseIndex := sparseIndex d;
                 sparseIndexSize := sparseIndexSize; data := Pairs.data d;
                 base64 := base64; symlen := symlen; pieces := pieces d;
                 groupIdx := groupIdx d; groupLen := groupLen d;
                 map_idx := map_idx d |},
              data + n * 3 + Z.land n 1)
  .

(** Assignment to [e.get(i, f)->minSymLen]. *)
Definition with_minSymLen (d : PairsData) (v : Z) : PairsData :=
  {| flags := flags d; maxSymLen := maxSymLen d; minSymLen := v;
     blocksNum := blocksNum d; sizeofBlock := sizeofBlock d; span := span d;
     lowestSym := lowestSym d; btree := btree d; blockLength := blockLength d;
     blockLengthSize := blockLengthSize d; sparseIndex := sparseIndex d;
     sparseIndexSize := sparseIndexSize d; data := data d; base64 := base64 d;
     symlen := symlen d; pieces := pieces d; groupIdx := groupIdx d;
     groupLen := groupLen d; map_idx := map_idx d |}.

(** The body of the loop of [set] that reads the sizes of the record
    [e.get(i, f)]: [data = set_sizes(e.get(i, f), data); if (Type == DTZ &&
    main_variant(e.variant) == ANTI_VARIANT && e.get(i, f)->flags &
    TBFlag::SingleValue) e.get(i, f)->minSymLen = 1;]. [T] is the template
    parameter [Type] and [v] is [e.variant]; the result is the record as
    [set] leaves it and the pointer. *)
Definition set_record_sizes (T : TBType) (v : Variant) (d : PairsData)
    (file : list byte) (data : Z) : option (PairsData * Z) :=
  '(d, data) ← set_sizes d file data;
  if match T with DTZ => true | WDL => false end
     && variant_eqb (main_variant v) ANTI_VARIANT
     && has (flags d) SingleValue
  then Some (with_minSymLen d 1, data)
  else Some (d, data).

(** Assignment to [e.get(0, f)->map_idx] and to [e.map]. *)
Definition with_map_idx (d : PairsData) (mi : list Z) : PairsData :=
  {| flags := flags d; maxSymLen := maxSymLen d; minSymLen := minSymLen d;
     blocksNum := blocksNum d; sizeofBlock := sizeofBlock d; span := span d;
     lowestSym := lowestSym d; btree := btree d; blockLength := blockLength d;
     blockLengthSize := blockLengthSize d; sparseIndex := sparseIndex d;
     sparseIndexSize := sparseIndexSize d; data := data d; base64 := base64 d;
     symlen := symlen d; pieces := pieces d; groupIdx := groupIdx d;
     groupLen := groupLen d; map_idx := mi |}.

Definition with_items (e : TBTable) (m : list byte)
    (its : list (list PairsData)) : TBTable :=
  {| tbtype := tbtype e; map := m; variant := variant e; key := key e;
     key2 := key2 e; pieceCount := pieceCount e; hasPawns := hasPawns e;
     numUniquePieces := numUniquePieces e; minLikeMan := minLikeMan e;
     pawnCount := pawnCount e; items := its |}.

(** [*e.get(stm, f) = d] *)
Definition put (e : TBTable) (stm f : Z) (d : PairsData) : option TBTable :=
  let i := Z.rem stm (Sides (tbtype e)) in
  let j := if hasPawns e then f else 0 in
  row ← rd (items e) i;
  _ ← rd row j;
  Some (with_items e (map e)
          (<[Z.to_nat i := <[Z.to_nat j := d]> row]> (items e))).

(** The four rounds of the inner loops of [set_dtz_map] for one file;
    [data0] is the offset of [e.map]. *)
Fixpoint map_idx_loop (n : nat) (wide : bool) (file : list byte)
    (data0 data : Z) (i : Z) (mi : list Z) : option (list Z * Z) :=
  match n with
  | O => Some (mi, data)
  | S n' =>
      if wide then
        if Z.odd (data - data0) then None
        else
          len ← number 2 LittleEndian file data;
          map_idx_loop n' wide file data0 (data + (2 * len + 2)) (i + 1)
            (set1 mi i (u16 ((data - data0) / 2 + 1)))
      else
        len ← byte_val <$> rd file data;
        map_idx_loop n' wide file data0 (data + (len + 1)) (i + 1)
          (set1 mi i (u16 (data - data0 + 1)))
  end.

(** The loop over the files. *)
Fixpoint dtz_map_files (files : list Z) (e : TBTable) (file : list byte)
    (data0 data : Z) : option (TBTable * Z) :=
  match files with
  | [] => Some (e, data)
  | f :: rest =>
      d ← get e 0 f;
      if has (flags d) Mapped then
        let wide := has (flags d) Wide in
        let data := if wide then data + Z.land data 1 else data in
        '(mi, data) ← map_idx_loop 4 wide file data0 data 0 (map_idx d);
        e ← put e 0 f (with_map_idx d mi);
        dtz_map_files rest e file data0 data
      else dtz_map_files rest e file data0 data
  end.

(** [uint8_t* set_dtz_map(TBTable<DTZ>& e, uint8_t* data, File maxFile)];
    the overload for WDL tables returns [data]. *)
Definition set_dtz_map (e : TBTable) (file : list byte) (data : Z)
    (maxFile : Z) : option (TBTable * Z) :=
  match tbtype e with
  | WDL => Some (e, data)
  | DTZ =>
      let e := with_items e (region file data) (items e) in
      '(e, data) ← dtz_map_files (range 0 maxFile) e file data data;
      Some (e, data + Z.land data 1)
  end.

End Header.

(** ** Putting the men into the order of the table in [do_probe_table] *)

Module Reorder.

(** The inner loop [for (int j = i + 1; j < size; ++j) if (d->pieces[i] ==
    pieces[j])]: the first such [j], if there is one; [n] is the number of
    values of [j] left. *)
Fixpoint first_match (d_i : Z) (pieces : list Z) (j n : nat)
  : option (option nat) :=
  match n with
  | O => Some None
  | S n' =>
      p ← pieces !! j;
      if d_i =? p then Some (Some j) else first_match d_i pieces (S j) n'
  end.

(** [std::swap(a[i], a[j])] *)
Definition swap (i j : nat) (a : list Z) : option (list Z) :=
  x ← a !! i;
  y ← a !! j;
  Some (<[i := y]> (<[j := x]> a)).

(** The outer loop [for (int i = leadPawnsCnt; i < size - 1; ++i)], with
    [n] rounds left; the state is the pair of the arrays [pieces] and
    [squares]. *)
Fixpoint reorder (d_pieces : list Z) (size i n : nat)
    (pieces squares : list Z) : option (list Z * list Z) :=
  match n with
  | O => Some (pieces, squares)
  | S n' =>
      d_i ← d_pieces !! i;
      found ← first_match d_i pieces (S i) (size - S i);
      '(pieces, squares) ←
        match found with
        | Some j =>
            p ← swap i j pieces;
            s ← swap i j squares;
            Some (p, s)
        | None => Some (pieces, squares)
        end;
      reorder d_pieces size (S i) n' pieces squares
  end.

Definition reorder_pieces (d_pieces : list Z) (leadPawnsCnt size : nat)
    (pieces squares : list Z) : option (list Z * list Z) :=
  reorder d_pieces size leadPawnsCnt (size - 1 - leadPawnsCnt) pieces squares.

End Reorder.

(** ** The groups after the leading one in [do_probe_table] *)

Module Remaining.

(** [std::count_if(squares, groupSq, f)] for the closure
    [f(s) = groupSq[i] > s]; [before] holds the squares of the groups
    already encoded, [squares[0]] up to [groupSq]. *)
Definition count_before (before : list Z) (g : Z) : Z :=
  Z.of_nat (length (filter (fun s => s < g) before)).

(** The loop [for (int i = 0; i < d->groupLen[next]; ++i)] that adds up
    [n], over the sorted squares of the group. *)
Fixpoint group_code (before : list Z) (remainingPawns : bool)
    (groupSq : list Z) (i n : Z) : option Z :=
  match groupSq with
  | [] => Some n
  | g :: rest =>
      let adjust := count_before before g in
      row ← rd Binomial (i + 1);
      b ← rd row (g - adjust - 8 * b2z remainingPawns);
      group_code before remainingPawns rest (i + 1) (u64 (n + b))
  end.

(** One round of [while (d->groupLen[++next])] up to the value of [n]:
    [std::stable_sort] of the squares of the group, then the loop. *)
Definition remaining_group (before : list Z) (remainingPawns : bool)
    (group : list Z) : option Z :=
  group_code before remainingPawns (merge_sort Z.le group) 0 0.

(** The loop [while (d->groupLen[++next])]; [off] is [groupSq - squares],
    and [squares] is the set part of the array, so that a group that runs
    beyond it, or has a negative length, is an access outside it. The
    group is sorted in place, and [remainingPawns] is cleared after the
    first round. *)
Fixpoint remaining_loop (fuel : nat) (d : PairsData) (squares : list Z)
    (next : Z) (off : nat) (remainingPawns : bool) (idx : Z) : option Z :=
  match fuel with
  | O => None
  | S fuel' =>
      let next := next + 1 in
      len ← rd (groupLen d) next;
      if len =? 0 then Some idx
      else if (len <? 0) || (Z.of_nat (length squares) <? Z.of_nat off + len)
      then None
      else
        let group := take (Z.to_nat len) (drop off squares) in
        n ← remaining_group (take off squares) remainingPawns group;
        gi ← rd (groupIdx d) next;
        let squares :=
          take off squares ++ merge_sort Z.le group
          ++ drop (off + Z.to_nat len) squares in
        remaining_loop fuel' d squares next (off + Z.to_nat len) false
          (u64 (idx + u64 (n * gi)))
  end.

(** [do_probe_table] from the label [encode_remaining] to the index that
    is handed to [decompress_pairs]; [idx] is the index of the leading
    group. *)
Definition encode_remaining (fuel : nat) (e : TBTable) (d : PairsData)
    (squares : list Z) (idx : Z) : option Z :=
  gi0 ← rd (groupIdx d) 0;
  g0 ← rd (groupLen d) 0;
  pc1 ← rd (pawnCount e) 1;
  let remainingPawns := hasPawns e && negb (pc1 =? 0) in
  if g0 <? 0 then None
  else remaining_loop fuel d squares 0 (Z.to_nat g0) remainingPawns
         (u64 (idx * gi0)).

End Remaining.

(** ** The leading pawns in [do_probe_table] *)

Module LeadPawns.

(** [bool pawns_comp(Square i, Square j)] *)
Definition pawns_comp (i j : Z) : option bool :=
  a ← rd MapPawns i;
  b ← rd MapPawns j;
  Some (a <? b).

(** [std::max_element(first, last, pawns_comp)] as an index: the scan keeps
    the first of the greatest elements. *)
Fixpoint max_from (rest : list Z) (i : nat) (largest : nat * Z)
  : option (nat * Z) :=
  match rest with
  | [] => Some largest
  | s :: rest' =>
      c ← pawns_comp largest.2 s;
      max_from rest' (S i) (if c : bool then (i, s) else largest)
  end.

Definition max_element (squares : list Z) : option nat :=
  match squares with
  | [] => None
  | s :: rest => fst <$> max_from rest 1 (0%nat, s)
  end.

(** Modelled from the spec: [edge_distance] is declared in bitboard.h, which
    is not among the sources; the spec describes it as the pawn file A..D
    after horizontal mirroring. *)
Definition edge_distance (f : Z) : Z := Z.min f (7 - f).

(** [std::swap(squares[0], *std::max_element(squares, squares +
    leadPawnsCnt, pawns_comp)); tbFile = File(edge_distance(file_of(
    squares[0])));] on the squares of the leading pawns; the result is the
    array and [tbFile]. *)
Definition lead_first (squares : list Z) : option (list Z * Z) :=
  k ← max_element squares;
  s0 ← squares !! 0%nat;
  sk ← squares !! k;
  Some (<[0%nat := sk]> (<[k := s0]> squares), edge_distance (file_of sk)).

(** [if (file_of(squares[0]) > FILE_D) for (int i = 0; i < size; ++i)
    squares[i] = flip_file(squares[i]);] *)
Definition flip_files (squares : list Z) : option (list Z) :=
  s0 ← squares !! 0%nat;
  Some (if FILE_D <? file_of s0 then flip_file <$> squares else squares).

(** [std::stable_sort(squares + 1, squares + leadPawnsCnt, pawns_comp)]:
    an insertion sort that keeps the order of squares with equal entries. *)
Fixpoint insert_pawn (x : Z) (sorted : list Z) : option (list Z) :=
  match sorted with
  | [] => Some [x]
  | y :: rest =>
      c ← pawns_comp y x;
      if c : bool then r ← insert_pawn x rest; Some (y :: r)
      else Some (x :: sorted)
  end.

Fixpoint sort_pawns (squares : list Z) : option (list Z) :=
  match squares with
  | [] => Some []
  | x :: rest => sorted ← sort_pawns rest; insert_pawn x sorted
  end.

(** [for (int i = 1; i < leadPawnsCnt; ++i) idx += Binomial[i][MapPawns[
    squares[i]]];] *)
Fixpoint lead_pawns_sum (squares : list Z) (i : Z) (idx : Z) : option Z :=
  match squares with
  | [] => Some idx
  | s :: rest =>
      m ← rd MapPawns s;
      row ← rd Binomial i;
      b ← rd row m;
      lead_pawns_sum rest (i + 1) (u64 (idx + b))
  end.

(** The encoding of the leading pawns, [squares[0 .. leadPawnsCnt)]. *)
Definition lead_pawns_index (squares : list Z) (leadPawnsCnt : nat)
  : option Z :=
  s0 ← squares !! 0%nat;
  _ ← squares !! (leadPawnsCnt - 1)%nat;
  row ← rd LeadPawnIdx (Z.of_nat leadPawnsCnt);
  idx ← rd row s0;
  sorted ← sort_pawns (take (leadPawnsCnt - 1) (drop 1 squares));
  lead_pawns_sum sorted 1 (u64 idx).

End LeadPawns.

(** ** Ranking the root moves: [root_probe] and [root_probe_wdl] *)

Module Root.



(** [Search::RootMove], as far as the ranking uses it. *)
Record RootMove (Move : Type) : Type := {
  pv0 : Move;       (* m.pv[0] *)
  tbRank : Z;
  tbScore : Z
}.
Arguments pv0 {Move} _.
Arguments tbRank {Move} _.
Arguments tbScore {Move} _.

(** What the ranking asks of the position, of the options and of types.h,
    which are not among the sources. *)
Class RootOps (Position : Type) : Type := {
  subvariant : Position -> Variant;
  rule50_count : Position -> Z;
  has_repeated : Position -> bool;
  is_draw : Position -> Z -> bool;
  Syzygy50MoveRule : bool;          (* Options["Syzygy50MoveRule"] *)
  VALUE_DRAW : Z;
  VALUE_MATE : Z;
  MAX_PLY : Z;
  PawnValueEg : Z
}.

Section Ranking.

Context {Position Move : Type}.
Context `{PO : PositionOps Position Move} `{TO : TableOps Position}.
Context `{RO : RootOps Position}.

(** The value [r] of [root_probe]. *)
Definition tb_rank (dtz cnt50 : Z) (rep : bool) : Z :=
  if 0 <? dtz then
    if (dtz + cnt50 <=? 99) && negb rep then 1000 else 1000 - (dtz + cnt50)
  else if dtz <? 0 then
    if - dtz * 2 + cnt50 <? 100 then -1000 else -1000 + (- dtz + cnt50)
  else 0.

(** The value assigned to [m.tbScore] in [root_probe]; the division of
    [int]s rounds toward zero. *)
Definition tb_score (r bound : Z) : Z :=
  if bound <=? r then VALUE_MATE - MAX_PLY - 1
  else if 0 <? r then Z.quot (Z.max 3 (r - 800) * PawnValueEg) 200
  else if r =? 0 then VALUE_DRAW
  else if - bound <? r then Z.quot (Z.min (-3) (r + 800) * PawnValueEg) 200
  else - VALUE_MATE + MAX_PLY + 1.

(** The loop over the root moves. [result] is the local variable; it has no
    initialiser, so that it holds no value ([None]) until a probe has set
    it, and reading it then is undefined. The moves come back with their
    new ranks and scores; the flag is the value returned. *)
Fixpoint root_loop (fuel : nat) (pos : Position) (cnt50 : Z) (rep : bool)
    (bound : Z) (result : option ProbeState) (rootMoves : list (RootMove Move))
  : option (bool * list (RootMove Move)) :=
  match rootMoves with
  | [] => Some (true, [])
  | m :: rest =>
      let pos' := do_move pos (pv0 m) in
      '(dtz, result) ←
        (if rule50_count pos' =? 0 then
           '(w, r) ← probe_wdl fuel pos';
           Some (dtz_before_zeroing (wdl_neg w), Some r)
         else if is_draw pos' 1 then Some (0, result)
         else
           '(d, r) ← probe_dtz fuel pos';
           let dtz := - d in
           Some (if 0 <? dtz then dtz + 1
                 else if dtz <? 0 then dtz - 1 else dtz, Some r));
      let dtz :=
        if checkers pos' && (dtz =? 2) && negb (nonempty (legal_moves pos'))
        then 1 else dtz in
      result ← result;
      if ps_eqb result FAIL then Some (false, m :: rest)
      else
        let r := tb_rank dtz cnt50 rep in
        let m := {| pv0 := pv0 m; tbRank := r; tbScore := tb_score r bound |} in
        '(ok, rest) ← root_loop fuel pos cnt50 rep bound (Some result) rest;
        Some (ok, m :: rest)
  end.

(** [bool Tablebases::root_probe(Position& pos, Search::RootMoves& rootMoves)] *)
Definition root_probe (fuel : nat) (pos : Position)
    (rootMoves : list (RootMove Move)) : option (bool * list (RootMove Move)) :=
  match Registry.WdlSuffixes (subvariant pos) with
  | None => Some (false, rootMoves)
  | Some _ =>
      let cnt50 := rule50_count pos in
      let rep := has_repeated pos in
      let bound := if Syzygy50MoveRule then 900 else 1 in
      root_loop fuel pos cnt50 rep bound None rootMoves
  end.

(** [WDL_to_rank[]] of [root_probe_wdl] and [WDL_to_value[]]. *)
Definition WDL_to_rank : list Z := [-1000; -899; 0; 899; 1000].

Definition WDL_to_value : list Z :=
  [- VALUE_MATE + MAX_PLY + 1; VALUE_DRAW - 2; VALUE_DRAW; VALUE_DRAW + 2;
   VALUE_MATE - MAX_PLY - 1].

(** The loop of [root_probe_wdl]. *)
Fixpoint root_wdl_loop (fuel : nat) (pos : Position) (rule50 : bool)
    (result : option ProbeState) (rootMoves : list (RootMove Move))
  : option (bool * list (RootMove Move)) :=
  match rootMoves with
  | [] => Some (true, [])
  | m :: rest =>
      let pos' := do_move pos (pv0 m) in
      '(wdl, result) ←
        (if is_draw pos' 1 then Some (WDLDraw, result)
         else '(w, r) ← probe_wdl fuel pos'; Some (wdl_neg w, Some r));
      result ← result;
      if ps_eqb result FAIL then Some (false, m :: rest)
      else
        rank ← rd WDL_to_rank (wdl_int wdl + 2);
        let wdl :=
          if negb rule50 then
            if wdl_ltb WDLDraw wdl then WDLWin
            else if wdl_ltb wdl WDLDraw then WDLLoss else WDLDraw
          else wdl in
        score ← rd WDL_to_value (wdl_int wdl + 2);
        let m := {| pv0 := pv0 m; tbRank := rank; tbScore := score |} in
        '(ok, rest) ← root_wdl_loop fuel pos rule50 (Some result) rest;
        Some (ok, m :: rest)
  end.

(** [bool Tablebases::root_probe_wdl(Position& pos, Search::RootMoves& rootMoves)] *)
Definition root_probe_wdl (fuel : nat) (pos : Position)
    (rootMoves : list (RootMove Move)) : option (bool * list (RootMove Move)) :=
  match Registry.WdlSuffixes (subvariant pos) with
  | None => Some (false, rootMoves)
  | Some _ => root_wdl_loop fuel pos Syzygy50MoveRule None rootMoves
  end.

End Ranking.

End Root.

(** * Notions used in the statements

    The definitions of this part are not translations of the source: they
    name the properties, the well-formedness conditions and the examples
    that the theorems of the last part are about. *)

(** ** The remapping rules in the words of the specification *)

Module RemapSpec.

(** The rules of the remapping as the specification words them: flags are
    named bits of the flags byte, the remap table holds 8-bit entries or
    16-bit little-endian entries, and a value is stored in moves (and has to
    be doubled) for a win without [WinPlies], a loss without [LossPlies] and
    for every cursed win and blessed loss. *)
Definition flag_Mapped (flags : Z) : bool := Z.testbit flags 1.
Definition flag_WinPlies (flags : Z) : bool := Z.testbit flags 2.
Definition flag_LossPlies (flags : Z) : bool := Z.testbit flags 3.
Definition flag_Wide (flags : Z) : bool := Z.testbit flags 4.

Definition map_entry (wide : bool) (map : list byte) (i : Z) : option Z :=
  if wide then
    lo ← rd map (2 * i);
    hi ← rd map (2 * i + 1);
    Some (byte_val lo + 256 * byte_val hi)
  else
    b ← rd map i;
    Some (byte_val b).

Definition remapped (flags : Z) (map : list byte) (map_idx : list Z)
    (value : Z) (wdl : WDLScore) : option Z :=
  if flag_Mapped flags then
    w ← rd [1; 3; 0; 2; 0] (wdl_int wdl + 2);
    base ← rd map_idx w;
    map_entry (flag_Wide flags) map (base + value)
  else Some value.

Definition stored_in_moves (flags : Z) (wdl : WDLScore) : bool :=
  match wdl with
  | WDLWin => negb (flag_WinPlies flags)
  | WDLLoss => negb (flag_LossPlies flags)
  | WDLCursedWin | WDLBlessedLoss => true
  | WDLDraw => false
  end.

Definition map_score_spec (entry : TBTable) (f value : Z) (wdl : WDLScore)
  : option Z :=
  d ← get entry 0 f;
  v ← remapped (flags d) (map entry) (map_idx d) value wdl;
  let v := if stored_in_moves (flags d) wdl then 2 * v else v in
  Some (v + 1).

End RemapSpec.

(** ** Single-value tables and block tables *)

(** A record whose only meaningful members are the flags and the value: all
    regions are empty, as [set_sizes] leaves them for such a table. *)
Definition single_value_table (v : Z) : PairsData :=
  {| flags := SingleValue; maxSymLen := 0; minSymLen := v; blocksNum := 0;
     sizeofBlock := 0; span := 0; lowestSym := []; btree := [];
     blockLength := []; blockLengthSize := 0; sparseIndex := [];
     sparseIndexSize := 0; data := []; base64 := []; symlen := [];
     pieces := []; groupIdx := []; groupLen := []; map_idx := [] |}.

Module BlockIndex.

(** The number of entries of [blockLength[]], the entry of block [b] and the
    index of the first value of block [b], i.e. the number of values held by
    the blocks before it. *)
Definition num_blocks (d : PairsData) : Z :=
  Z.of_nat (length (blockLength d) / 2).

Definition block_len (d : PairsData) (b : Z) : Z :=
  default 0 (native 2 (blockLength d) b).

Fixpoint block_start (d : PairsData) (b : nat) : Z :=
  match b with
  | O => 0
  | S b' => block_start d b' + (block_len d (Z.of_nat b') + 1)
  end.

(** Well-formed block tables for a sub-table of [tb_size] values: the sizes
    fit the integer types of the code, every sparse-index entry [k] names a
    block and an offset whose absolute position is [k * span + span / 2],
    and the blocks hold at least [tb_size] values. *)
Record well_formed (d : PairsData) (tb_size : Z) : Prop := {
  wf_span : 0 < span d <= 2 ^ 31;
  wf_count : num_blocks d <= 2 ^ 32;
  wf_index : tb_size <= 2 ^ 32 * span d;
  wf_sparse : forall k, 0 <= k -> k * span d < tb_size ->
    exists b o,
      number 4 LittleEndian (sparseIndex d) (6 * k) = Some b
      /\ number 2 LittleEndian (sparseIndex d) (6 * k + 4) = Some o
      /\ b < num_blocks d
      /\ block_start d (Z.to_nat b) + o = k * span d + span d / 2;
  wf_total : tb_size <= block_start d (Z.to_nat (num_blocks d))
}.

End BlockIndex.

(** A table of five values in blocks of 2, 3 and 10 values (the last one is
    padding), with [span = 4] and the two sparse entries for the absolute
    positions 2 and 6. *)
Definition example_blocks : PairsData :=
  {| flags := 0; maxSymLen := 0; minSymLen := 0; blocksNum := 2;
     sizeofBlock := 32; span := 4; lowestSym := []; btree := [];
     blockLength := [x01; x00; x02; x00; x09; x00];
     blockLengthSize := 3;
     sparseIndex := [x01; x00; x00; x00; x00; x00;
                     x02; x00; x00; x00; x01; x00];
     sparseIndexSize := 2; data := []; base64 := []; symlen := [];
     pieces := []; groupIdx := []; groupLen := []; map_idx := [] |}.

(** ** Normalised squares of the leading group *)

Module LeadingGroup.

Definition on_board (s : Z) : Prop := 0 <= s < 64.

(** The first square lies in the a1-d1-d4 triangle. *)
Definition in_triangle (s0 : Z) : bool :=
  (file_of s0 <=? FILE_D) && (rank_of s0 <=? RANK_4) && (off_A1H8 s0 <=? 0).

(** The diagonal flip has been applied: the first of the three squares that
    is off the a1-h8 diagonal lies below it. *)
Definition diag_normal (s0 s1 s2 : Z) : bool :=
  if negb (off_A1H8 s0 =? 0) then off_A1H8 s0 <? 0
  else if negb (off_A1H8 s1 =? 0) then off_A1H8 s1 <? 0
  else if negb (off_A1H8 s2 =? 0) then off_A1H8 s2 <? 0
  else true.

Definition distinct3 (s0 s1 s2 : Z) : bool :=
  negb (s0 =? s1) && negb (s0 =? s2) && negb (s1 =? s2).

Definition normalized3 (s0 s1 s2 : Z) : bool :=
  in_triangle s0 && diag_normal s0 s1 s2 && distinct3 s0 s1 s2.

(** The four branches of the formula, the first index of the range of each
    and the number of indices it has. *)
Inductive Branch : Set := FirstOff | SecondOff | ThirdOff | AllOn.

Definition branch_of (s0 s1 s2 : Z) : Branch :=
  if negb (off_A1H8 s0 =? 0) then FirstOff
  else if negb (off_A1H8 s1 =? 0) then SecondOff
  else if negb (off_A1H8 s2 =? 0) then ThirdOff
  else AllOn.

Definition branch_lo (b : Branch) : Z :=
  match b with
  | FirstOff => 0
  | SecondOff => 23436
  | ThirdOff => 30380
  | AllOn => 31164
  end.

Definition branch_size (b : Branch) : Z :=
  match b with
  | FirstOff => 6 * 63 * 62
  | SecondOff => 4 * 28 * 62
  | ThirdOff => 4 * 7 * 28
  | AllOn => 4 * 7 * 6
  end.

Definition in_branch_range (b : Branch) (idx : Z) : Prop :=
  branch_lo b <= idx < branch_lo b + branch_size b.

Definition check_triple (s0 s1 s2 : Z) : bool :=
  implb (normalized3 s0 s1 s2)
    match lead_index_unique3 [s0; s1; s2] with
    | Some idx =>
        let b := branch_of s0 s1 s2 in
        (branch_lo b <=? idx) && (idx <? branch_lo b + branch_size b)
    | None => false
    end.

Definition check_normalize (s0 s1 s2 : Z) : bool :=
  implb (distinct3 s0 s1 s2)
    match normalize_pawnless 3 [s0; s1; s2] with
    | [t0; t1; t2] => normalized3 t0 t1 t2
    | _ => false
    end.

(** The inverse of the formula: the squares that an index stands for. The
    first square is read off the triangle or the diagonal, the others are
    the [k]-th squares not yet taken. *)
Definition triangle_squares : list Z := [1; 2; 3; 10; 11; 19].

Definition below_diagonal : list Z :=
  List.filter (fun s => off_A1H8 s <? 0) all_squares.

Definition skip1 (taken k : Z) : Z := if taken <=? k then k + 1 else k.

Definition skip2 (a b k : Z) : Z :=
  skip1 (Z.max a b) (skip1 (Z.min a b) k).

Definition decode3 (idx : Z) : Z * Z * Z :=
  if idx <? 23436 then
    let s0 := at1 triangle_squares (idx / (63 * 62)) in
    let s1 := skip1 s0 (idx mod (63 * 62) / 62) in
    (s0, s1, skip2 s0 s1 (idx mod 62))
  else if idx <? 30380 then
    let j := idx - 23436 in
    let s0 := 9 * (j / 62 / 28) in
    let s1 := at1 below_diagonal (j / 62 mod 28) in
    (s0, s1, skip2 s0 s1 (j mod 62))
  else if idx <? 31164 then
    let j := idx - 30380 in
    let r0 := j / (7 * 28) in
    let r1 := skip1 r0 (j mod (7 * 28) / 28) in
    (9 * r0, 9 * r1, at1 below_diagonal (j mod 28))
  else
    let j := idx - 31164 in
    let r0 := j / (7 * 6) in
    let r1 := skip1 r0 (j mod (7 * 6) / 6) in
    (9 * r0, 9 * r1, 9 * skip2 r0 r1 (j mod 6)).

Definition is_square (s : Z) : bool := (0 <=? s) && (s <? 64).

Definition check_decode (idx : Z) : bool :=
  let '(s0, s1, s2) := decode3 idx in
  is_square s0 && is_square s1 && is_square s2
  && normalized3 s0 s1 s2
  && match lead_index_unique3 [s0; s1; s2] with
     | Some i => i =? idx
     | None => false
     end.

Definition check_encode (s0 s1 s2 : Z) : bool :=
  implb (normalized3 s0 s1 s2)
    match lead_index_unique3 [s0; s1; s2] with
    | Some idx =>
        let '(t0, t1, t2) := decode3 idx in
        (t0 =? s0) && (t1 =? s1) && (t2 =? s2)
    | None => false
    end.

Definition for_all_triples (check : Z -> Z -> Z -> bool) : bool :=
  forallb (fun s0 =>
    forallb (fun s1 => forallb (check s0 s1) all_squares) all_squares)
    all_squares.

End LeadingGroup.

(** A table with three unique pieces (KRvK) and the squares b1, e4, h8. *)
Definition example_KRvK : TBTable :=
  {| tbtype := WDL; map := []; variant := CHESS_VARIANT; key := 1; key2 := 2;
     pieceCount := 3; hasPawns := false; numUniquePieces := 3;
     minLikeMan := 0; pawnCount := [0; 0]; items := [] |}.

Module KingPair.

Import LeadingGroup.

(** With connected kings the three-branch formula stays below 518 on a
    normalised pair of squares. *)
Definition normalized2 (s0 s1 : Z) : bool :=
  in_triangle s0
  && (if negb (off_A1H8 s0 =? 0) then off_A1H8 s0 <? 0
      else if negb (off_A1H8 s1 =? 0) then off_A1H8 s1 <? 0 else true)
  && negb (s0 =? s1).

Definition check_pair (s0 s1 : Z) : bool :=
  implb (normalized2 s0 s1)
    match lead_index_unique2 ATOMIC_VARIANT [s0; s1] with
    | Some idx => (0 <=? idx) && (idx <? 518)
    | None => false
    end.

(** The table KNNvK (two unique pieces, the kings) of a variant [v], and
    its piece sequence K k N N with the leading group first. *)
Definition example_KNNvK (v : Variant) : TBTable :=
  {| tbtype := WDL; map := []; variant := v; key := 1; key2 := 2;
     pieceCount := 4; hasPawns := false; numUniquePieces := 2;
     minLikeMan := 2; pawnCount := [0; 0]; items := [] |}.

Definition example_KNNvK_pairs : PairsData :=
  {| flags := 0; maxSymLen := 0; minSymLen := 0; blocksNum := 0;
     sizeofBlock := 0; span := 0; lowestSym := []; btree := [];
     blockLength := []; blockLengthSize := 0; sparseIndex := [];
     sparseIndexSize := 0; data := []; base64 := []; symlen := [];
     pieces := [6; 14; 2; 2; 0; 0; 0];
     groupIdx := zeros 8; groupLen := zeros 8; map_idx := zeros 4 |}.

Definition groups_of (v : Variant) : option (list Z * list Z) :=
  d ← set_groups (example_KNNvK v) example_KNNvK_pairs [0; 15] 0;
  Some (groupLen d, groupIdx d).

End KingPair.

(** ** Files presented to [TBFile::map] *)

(** A file is presented to [map] after [::open] succeeded, with the bytes
    [fstat] counts. *)
Definition presented (f : OsFile) (magic : list byte) : Prop :=
  os_open f = true
  /\ Z.of_nat (length (content f)) = st_size f
  /\ length magic = 4%nat.

(** The three-way case analysis that leaves out a failing [mmap]: a bad size
    exits; otherwise a wrong magic unmaps and returns null; otherwise the
    pointer past the magic is returned. *)
Definition three_outcomes (f : OsFile) (mapping0 : Z) (magic : list byte) : Prop :=
  (Z.rem (st_size f) 64 <> 16 ->
   exists trace, TBFile_map f mapping0 magic = Exited trace)
  /\ (Z.rem (st_size f) 64 = 16 ->
      bytes_equal (take 4 (content f)) magic = false ->
      exists base trace m,
        TBFile_map f mapping0 magic
        = Returned {| ret := None; baseAddress := None; mapping := m |} trace
        /\ In (Munmap base (st_size f)) trace)
  /\ (Z.rem (st_size f) 64 = 16 ->
      bytes_equal (take 4 (content f)) magic = true ->
      exists base m,
        TBFile_map f mapping0 magic
        = Returned {| ret := Some (base + 4); baseAddress := Some base;
                      mapping := m |} []).

Definition wdl_magic : list byte := [x71; xe8; x23; x5d].

(** An 80-byte file that starts with the WDL magic, and the same file when
    the kernel refuses to map it. *)
Definition good_file : OsFile :=
  {| os_open := true; st_size := 80; os_mmap := Some 4096;
     content := wdl_magic ++ replicate 76 x00 |}.

Definition unmappable_file : OsFile :=
  {| os_open := true; st_size := 80; os_mmap := None;
     content := wdl_magic ++ replicate 76 x00 |}.

(** ** The invariant of the catalog *)

Module CatalogInv.

(** A stored entry carries two non-null table pointers, as [TBTables::add]
    inserts them. *)
Definition stored (e : Entry) : Prop := e_wdl e <> 0 /\ e_dtz e <> 0.

(** The invariant of the hash table: it has [Size + Overflow] buckets, the
    last one is empty, and every bucket is empty or holds a stored entry at
    or after its home bucket and before the last bucket. *)
Record table_ok (Size : Z) (hashTable : list Entry) : Prop := {
  ok_length : Z.of_nat (length hashTable) = Size + Overflow;
  ok_last : rd hashTable Size = Some empty_entry;
  ok_slots : forall i e, rd hashTable i = Some e ->
    e = empty_entry
    \/ (stored e /\ home_bucket Size (e_key e) <= i < Size)
}.

End CatalogInv.

Definition nonnull (i : Z * Z * Z) : Prop := i.1.2 <> 0 /\ i.2 <> 0.

(** Three insertions into a table of four buckets (and the overflow
    bucket); the keys 5 and 9 share the home bucket 1, and the second of
    them displaces the entry of key 2. *)
Definition example_insertions : list (Z * Z * Z) :=
  [(5, 100, 200); (2, 101, 201); (9, 102, 202)].

Definition example_table : list Entry :=
  [empty_entry;
   {| e_key := 5; e_wdl := 100; e_dtz := 200 |};
   {| e_key := 9; e_wdl := 102; e_dtz := 202 |};
   {| e_key := 2; e_wdl := 101; e_dtz := 201 |};
   empty_entry].

(** ** Notions about the driver *)

Section DriverNotions.

Context {Position Move : Type}.
Context `{PO : PositionOps Position Move} `{TO : TableOps Position}.

Definition fail_is_draw (out : WDLScore * ProbeState) : Prop :=
  out.2 = FAIL -> out.1 = WDLDraw.

(** The moves [search] follows. *)
Definition followed (czm : bool) (pos : Position) (m : Move) : bool :=
  capture pos m || (czm && moved_pawn pos m).

(** A position whose DTZ table is stored for the side to move. *)
Definition dtz_direct (pos : Position) : Prop :=
  forall e w,
    TBTables_get hash_Size hashTable DTZ (material_key pos) = Some e ->
    do_probe_table_dtz pos e w <> None.

Definition settled (r : ProbeState) : Prop := r <> CHANGE_STM.

End DriverNotions.

Module Termination.

Import CatalogInv.

(** What termination rests on: a capture takes a piece off the board, no
    move adds one, the catalog is a table built by [insert], and a DTZ table
    that is stored for the other side is stored for the side to move after
    a move that is neither a capture nor a pawn move. *)
Record shrinking_model {Position Move : Type}
    `{PO : PositionOps Position Move} `{TO : TableOps Position} : Prop := {
  count_nonneg : forall p, 0 <= count_all p;
  capture_shrinks : forall p m,
    In m (legal_moves p) -> capture p m = true ->
    count_all (do_move p m) < count_all p;
  captures_shrink : forall p m,
    In m (capture_moves p) -> count_all (do_move p m) < count_all p;
  no_growth : forall p m,
    In m (legal_moves p) -> count_all (do_move p m) <= count_all p;
  catalog_ok : 1 <= hash_Size /\ table_ok hash_Size hashTable;
  one_sided : forall p m e e' w w',
    In m (legal_moves p) -> capture p m = false -> moved_pawn p m = false ->
    TBTables_get hash_Size hashTable DTZ (material_key p) = Some e ->
    do_probe_table_dtz p e w = None ->
    TBTables_get hash_Size hashTable DTZ (material_key (do_move p m)) = Some e' ->
    do_probe_table_dtz (do_move p m) e' w' <> None
}.

End Termination.

(** ** A small model of positions *)

Module Toy.

(** Six positions: a checkmate of atomic chess; a position of standard
    chess whose material has no table; a position with a winning capture,
    the position after the capture and the one after a quiet reply to it; a
    checkmate of standard chess. *)
Inductive Pos : Set :=
  AtomicMate | Orphan | Capturing | Captured | Replied | StdMate.
Inductive Mv : Set := Quiet | Take.

Definition toy_legal (p : Pos) : list Mv :=
  match p with
  | Orphan => [Quiet]
  | Capturing => [Quiet; Take]
  | Captured => [Quiet]
  | Replied => [Quiet]
  | AtomicMate | StdMate => []
  end.

Definition toy_key (p : Pos) : Z :=
  match p with
  | AtomicMate => 1 | Orphan => 2 | Capturing => 3
  | Captured | Replied | StdMate => 5
  end.

#[export] Instance toy_position : PositionOps Pos Mv := {|
  legal_moves := toy_legal;
  capture_moves p := match p with Capturing => [Take] | _ => [] end;
  capture _ m := match m with Take => true | Quiet => false end;
  moved_pawn _ _ := false;
  do_move p m :=
    match p, m with
    | Capturing, Take => Captured
    | Captured, Quiet => Replied
    | Replied, Quiet => Captured
    | _, _ => p
    end;
  checkers p := match p with AtomicMate | StdMate => true | _ => false end;
  is_anti _ := false;
  pos_variant p := match p with AtomicMate => ATOMIC_VARIANT | _ => CHESS_VARIANT end;
  is_variant_end _ := false;
  variant_result _ := 0;
  checkmate_value _ := -32000;
  stalemate_value _ := 0;
  count_all p := match p with Capturing => 4 | _ => 3 end;
  popcount_all p := match p with Capturing => 4 | _ => 3 end;
  popcount_them p := match p with Capturing => 2 | _ => 1 end;
  only_pawns _ := false;
  material_key := toy_key
|}.

(** The catalog holds the tables of the keys 1, 3 and 5. The WDL table of
    key 5 stores a loss for the side to move in [Captured] and [StdMate];
    its DTZ table is stored for the other side, the one to move in
    [Replied]. *)
Definition toy_hash : list Entry :=
  match insert_all 4 (clear 4) [(1, 100, 101); (3, 300, 301); (5, 500, 501)] with
  | Inserted t => t
  | _ => clear 4
  end.

#[export] Instance toy_tables : TableOps Pos := {|
  hash_Size := 4;
  hashTable := toy_hash;
  mapped _ entry _ := entry;
  do_probe_table_wdl p _ :=
    match p with Captured | StdMate => WDLLoss | _ => WDLWin end;
  do_probe_table_dtz p _ _ :=
    match p with Captured | StdMate => None | _ => Some 7 end
|}.

End Toy.

(** ** The catalog as a finite map *)

Module CatalogMap.

Import CatalogInv.

(** Bucket [i] of the table holds the stored entry [e]. *)
Definition holds (t : list Entry) (i : Z) (e : Entry) : Prop :=
  rd t i = Some e /\ stored e.

(** The order Robin-Hood insertion keeps, on top of [table_ok]: there is no
    empty bucket between the home bucket of a stored entry and the bucket it
    sits in, the home buckets of the stored entries do not decrease along
    the array, and no key is stored twice. *)
Record sorted_ok (Size : Z) (t : list Entry) : Prop := {
  so_ok : table_ok Size t;
  so_reach : forall i j e,
    holds t i e -> home_bucket Size (e_key e) <= j <= i ->
    exists e', holds t j e';
  so_sorted : forall i j e e',
    holds t i e -> holds t j e' -> i < j ->
    home_bucket Size (e_key e) <= home_bucket Size (e_key e');
  so_unique : forall i j e e',
    holds t i e -> holds t j e' -> e_key e = e_key e' -> i = j
}.

Definition members (t : list Entry) (e : Entry) : Prop :=
  exists i, holds t i e.

(** The pointer that the insertions [ins], made in this order, leave under
    [key]: the one of the last insertion with that key, [acc] when there is
    none. *)
Fixpoint latest (ins : list (Z * Z * Z)) (T : TBType) (key acc : Z) : Z :=
  match ins with
  | [] => acc
  | (k, wdl, dtz) :: rest =>
      latest rest T key
        (if k =? key then match T with WDL => wdl | DTZ => dtz end else acc)
  end.

(** Two insertions into a table of eight buckets, the table they give, and
    the table after the insertion of key 17, whose home bucket is that of
    key 9: the entry of key 10 has moved from bucket 2 to bucket 3. *)
Definition displacing_insertions : list (Z * Z * Z) :=
  [(9, 1, 2); (10, 3, 4)].

Definition displaced_before : list Entry :=
  [empty_entry;
   {| e_key := 9; e_wdl := 1; e_dtz := 2 |};
   {| e_key := 10; e_wdl := 3; e_dtz := 4 |};
   empty_entry; empty_entry; empty_entry; empty_entry; empty_entry;
   empty_entry].

Definition displaced_after : list Entry :=
  [empty_entry;
   {| e_key := 9; e_wdl := 1; e_dtz := 2 |};
   {| e_key := 17; e_wdl := 5; e_dtz := 6 |};
   {| e_key := 10; e_wdl := 3; e_dtz := 4 |};
   empty_entry; empty_entry; empty_entry; empty_entry; empty_entry].

End CatalogMap.

(** ** The registry of tables *)

Module RegistryInv.

Import CatalogInv CatalogMap Registry.

(** The table that the pointer [p] of a catalog entry stands for. *)
Definition deref (tables : list TBTable) (p : Z) : option TBTable :=
  if p <=? 0 then None else tables !! Z.to_nat (p - 1).

(** What [add] keeps: the hash table is an ordered Robin-Hood table, and
    every stored entry points to a WDL table and to its DTZ twin, which were
    built for the key of the entry. *)
Record registry_ok (Size : Z) (s : State) : Prop := {
  ro_sorted : sorted_ok Size (hashTable s);
  ro_entries : forall e, members (hashTable s) e ->
    exists wdl,
      deref (wdlTable s) (e_wdl e) = Some wdl
      /\ deref (dtzTable s) (e_dtz e) = Some (TBTable_DTZ wdl)
      /\ (key wdl = e_key e \/ key2 wdl = e_key e)
}.

(** The key [k] is registered. *)
Definition registered (s : State) (k : Z) : Prop :=
  exists e, members (hashTable s) e /\ e_key e = k.

(** The signatures with up to five men besides the kings: the men of each
    side in non-increasing order of piece type, White with more men than
    Black, or with as many and not behind Black in the lexicographic
    order. *)
Fixpoint nonincreasing (l : list Z) : bool :=
  match l with
  | a :: (b :: _) as rest => (b <=? a) && nonincreasing rest
  | _ => true
  end.

Fixpoint lex_geb (a b : list Z) : bool :=
  match a, b with
  | x :: a', y :: b' => (y <? x) || ((x =? y) && lex_geb a' b')
  | _, _ => true
  end.

Definition canonical (w b : list Z) : bool :=
  forallb (fun p => (PAWN <=? p) && (p <=? QUEEN)) (w ++ b)
  && nonincreasing w && nonincreasing b
  && (1 <=? length w)%nat && (length w + length b <=? 5)%nat
  && ((length b <? length w)%nat
      || ((length b =? length w)%nat && lex_geb w b)).

Fixpoint list_eqb (x y : list Z) : bool :=
  match x, y with
  | [], [] => true
  | a :: x', b :: y' => (a =? b) && list_eqb x' y'
  | _, _ => false
  end.

Definition sig_eqb (x y : list Z * list Z) : bool :=
  list_eqb x.1 y.1 && list_eqb x.2 y.2.

(** The lists of at most [n] piece types between pawn and queen. *)
Fixpoint lists_upto (n : nat) : list (list Z) :=
  match n with
  | O => [[]]
  | S n' => [] :: (l ← lists_upto n'; p ← range PAWN QUEEN; [p :: l])
  end.

Definition check_canonical_listed : bool :=
  forallb (fun w =>
    forallb (fun b =>
      if canonical w b
      then existsb (sig_eqb (KING :: w, KING :: b)) standard_calls
      else true)
      (lists_upto (5 - length w)))
    (lists_upto 5).

Definition check_listed_canonical : bool :=
  forallb (fun '(w, b) =>
    match w, b with
    | k :: w', k' :: b' => (k =? KING) && (k' =? KING) && canonical w' b'
    | _, _ => false
    end) standard_calls.

Fixpoint nodupb (l : list (list Z * list Z)) : bool :=
  match l with
  | [] => true
  | x :: rest => negb (existsb (sig_eqb x) rest) && nodupb rest
  end.

(** The bodies of the three loops of the constructor over the men: the
    least number of like men, the number of unique men, the number of
    men. *)
Definition mlm_step (count : Z -> Z -> Z) (m : Z) (x : Z * Z) : Z :=
  let '(c, pt) := x in
  let n := count c pt in
  if (2 <=? n) && ((n <? m) || (m =? 0)) then n else m.

Definition uniq_step (count : Z -> Z -> Z) (n : Z) (x : Z * Z) : Z :=
  let '(c, pt) := x in if count c pt =? 1 then n + 1 else n.

Definition sum_step (count : Z -> Z -> Z) (n : Z) (x : Z * Z) : Z :=
  let '(c, pt) := x in n + count c pt.

(** The state in which [init] starts to add tables, and the WDL table that
    [add] builds for a signature. *)
Definition init_state (Size : Z) (paths : string) : State :=
  {| Paths := paths; hashTable := clear Size; wdlTable := [];
     dtzTable := []; MaxCardinality := 0 |}.

Definition table_for `{W : World} (v : Variant) (w b : list Z) : TBTable :=
  TBTable_WDL v (set_code v (code_of w b) WHITE)
    (set_code v (code_of w b) BLACK).

(** The calls of [add] that [init] makes for the variant [v]. *)
Definition calls_of (v : Variant) : list (list Z * list Z) :=
  if variant_eqb (main_variant v) ANTI_VARIANT then anti_calls
  else standard_calls.

(** A disk with the one file tb/KQvK.rtbw, and keys that tell the codes
    and the colours apart by their length. *)
Module ToyDisk.

#[export] Instance toy_world : World := {|
  opens fname := String.eqb fname "tb/KQvK.rtbw";
  set_code _ code c :=
    {| m_key := 10 * Z.of_nat (String.length code) + c + 1;
       m_count c' pt :=
         if (pt =? KING) || ((c' =? c) && (pt =? QUEEN)) then 1 else 0 |}
|}.

Definition toy_state : State :=
  match init 4 CHESS_VARIANT "tb" with
  | Done s => s
  | _ => init_state 4 "tb"
  end.

Definition toy_added : State :=
  match add 4 (init_state 4 "tb") CHESS_VARIANT [KING; QUEEN] [KING] with
  | Done s => s
  | _ => init_state 4 "tb"
  end.

End ToyDisk.

End RegistryInv.

(** ** Well-formed symbol trees *)

Module SymbolTree.

(** The recursive-pairing tree of a table with [length (symlen d)] symbols:
    every symbol has its three bytes in [btree]; the symbols with
    [symlen = 0] are the leaves; every other symbol has two children that
    are symbols, and stands for as many values as its children together. *)
Record tree_ok (d : PairsData) : Prop := {
  tree_entries : forall sym, 0 <= sym < Z.of_nat (length (symlen d)) ->
    is_Some (bytes_at (btree d) (3 * sym) 3);
  tree_bytes : forall sym n, rd (symlen d) sym = Some n -> 0 <= n <= 255;
  tree_pairs : forall sym n left right,
    rd (symlen d) sym = Some n -> n <> 0 ->
    LR_get Left (btree d) sym = Some left ->
    LR_get Right (btree d) sym = Some right ->
    exists nl nr,
      rd (symlen d) left = Some nl /\ rd (symlen d) right = Some nr
      /\ n = nl + nr + 1
}.

(** A tree of three symbols: the leaves 0 and 1, with the values 7 and 8,
    and the pair 2 = (0, 1). *)
Definition example_tree : PairsData :=
  {| flags := 0; maxSymLen := 0; minSymLen := 0; blocksNum := 0;
     sizeofBlock := 0; span := 0; lowestSym := [];
     btree := [x07; xf0; xff; x08; xf0; xff; x00; x10; x00];
     blockLength := []; blockLengthSize := 0; sparseIndex := [];
     sparseIndexSize := 0; data := []; base64 := []; symlen := [0; 0; 1];
     pieces := []; groupIdx := []; groupLen := []; map_idx := [] |}.

End SymbolTree.

(** ** Headers of sub-tables *)

Module HeaderExamples.

Import Header.

(** The record that [set] hands to [set_sizes] for a table with one group
    of ten positions. *)
Definition ten_positions : PairsData :=
  {| flags := 0; maxSymLen := 0; minSymLen := 0; blocksNum := 0;
     sizeofBlock := 0; span := 0; lowestSym := []; btree := [];
     blockLength := []; blockLengthSize := 0; sparseIndex := [];
     sparseIndexSize := 0; data := []; base64 := []; symlen := [];
     pieces := zeros 7; groupIdx := [1; 10; 0; 0; 0; 0; 0; 0];
     groupLen := [2; 0; 0; 0; 0; 0; 0; 0]; map_idx := zeros 4 |}.

(** The header of a single-value table with the value 3. *)
Definition single_header : list byte := [x80; x03].

(** A header with blocks of 32 bytes, a sparse entry every 4 positions, one
    block, symbols of one bit, and three symbols: two leaves and their
    pair. *)
Definition block_header : list byte :=
  [x00; x05; x02; x00; x01; x00; x00; x00; x01; x01;
   x00; x00;
   x03; x00;
   x07; xf0; xff; x08; xf0; xff; x00; x10; x00;
   x00].

(** The record that [set_sizes] makes of that header. *)
Definition ten_read : PairsData :=
  default ten_positions (fst <$> set_sizes ten_positions block_header 0).

(** The number of symbols not yet visited. *)
Definition unvisited (visited : list bool) : nat :=
  length (List.filter negb visited).

(** Every entry of a tree of [n] symbols lies in the file, and the children
    of a pair are symbols. *)
Definition children_in_range (btree : list byte) (n : Z) : Prop :=
  forall s, 0 <= s < n ->
    exists l r,
      LR_get Left btree s = Some l /\ LR_get Right btree s = Some r
      /\ (r = 4095 \/ (l < n /\ r < n)).

(** What a call of [set_symlen] on a symbol not yet visited does to the two
    vectors of a table of [N] symbols: it returns, keeps their sizes and
    leaves fewer symbols unvisited. *)
Definition visits (btree : list byte) (N : nat) (fuel : nat) : Prop :=
  forall s symlen visited,
    length symlen = N -> length visited = N ->
    0 <= s < Z.of_nat N -> rd visited s = Some false ->
    (unvisited visited <= fuel)%nat ->
    exists r symlen' visited',
      Header.set_symlen fuel btree s (symlen, visited)
        = Some (r, (symlen', visited'))
      /\ length symlen' = N /\ length visited' = N
      /\ (unvisited visited' < unvisited visited)%nat.

End HeaderExamples.

(** ** The layout of the remap tables of a DTZ file *)

Module DtzLayout.

(** A remap table of 8-bit entries in the file: its length in one byte, then
    its entries. *)
Definition sub_table (t : list byte) : list byte :=
  byte_of (Z.of_nat (length t)) :: t.

(** The four remap tables of one file of the board, one after the other. *)
Definition four_tables (t0 t1 t2 t3 : list byte) : list byte :=
  sub_table t0 ++ sub_table t1 ++ sub_table t2 ++ sub_table t3.

(** The table that belongs to a WDL score. *)
Definition table_of (wdl : WDLScore) (t0 t1 t2 t3 : list byte) : list byte :=
  match wdl with
  | WDLLoss => t1
  | WDLBlessedLoss => t3
  | WDLDraw => t0
  | WDLCursedWin => t2
  | WDLWin => t0
  end.

(** A DTZ table without pawns whose only record has the flags [fl], and a
    file that holds, from offset 3 on, the four tables [7], [], [5; 6] and
    [9]. *)
Definition example_record (fl : Z) : PairsData :=
  {| flags := fl; maxSymLen := 0; minSymLen := 0; blocksNum := 0;
     sizeofBlock := 0; span := 0; lowestSym := []; btree := [];
     blockLength := []; blockLengthSize := 0; sparseIndex := [];
     sparseIndexSize := 0; data := []; base64 := []; symlen := [];
     pieces := []; groupIdx := []; groupLen := []; map_idx := [0; 0; 0; 0] |}.

Definition example_dtz (fl : Z) : TBTable :=
  {| tbtype := DTZ; map := []; variant := CHESS_VARIANT; key := 1; key2 := 2;
     pieceCount := 3; hasPawns := false; numUniquePieces := 3;
     minLikeMan := 0; pawnCount := [0; 0]; items := [[example_record fl]] |}.

Definition example_file : list byte :=
  [xaa; xbb; xcc] ++ four_tables [x07] [] [x05; x06] [x09] ++ [xdd].

End DtzLayout.

(** ** The men of a position and the men of a table *)

Module ReorderInv.

(** From index [lead] on, the [size] men of the position are the men that
    the table lists, in some order. *)
Definition same_men (d_pieces pieces : list Z) (lead size : nat) : Prop :=
  length pieces = size /\ (lead <= size <= length d_pieces)%nat
  /\ drop lead pieces ≡ₚ drop lead (take size d_pieces).

(** K, k, N, N as the table KNNvK lists them, and a position that has
    them as N, k, N, K. *)
Definition example_d_pieces : list Z := [6; 14; 2; 2; 0; 0; 0].
Definition example_men : list Z := [2; 14; 2; 6].
Definition example_squares : list Z := [10; 60; 33; 4].

End ReorderInv.

(** ** Placements of a group of like men *)

Module Placement.

(** The squares a man of the group can stand on: the ranks 2 to 7 for the
    pawns of the second side, the whole board otherwise. *)
Definition first_square (remainingPawns : bool) : Z :=
  if remainingPawns then 8 else 0.
Definition num_squares (remainingPawns : bool) : Z :=
  if remainingPawns then 48 else 64.

(** The men before the group and the men of the group stand on different
    squares, all of them squares a man of the group can stand on. *)
Definition placed (remainingPawns : bool) (before group : list Z) : Prop :=
  NoDup (before ++ group)
  /\ Forall (fun s => first_square remainingPawns <= s
                      < first_square remainingPawns + num_squares remainingPawns)
       (before ++ group).

(** The checks of the table [Binomial] that the proofs rest on. *)
Definition check_pascal : bool :=
  forallb (fun k =>
    forallb (fun n =>
      at2 Binomial (k + 1) (n + 1) =? at2 Binomial (k + 1) n + at2 Binomial k n)
      (range 0 62))
    (range 0 4).

Definition check_first_row : bool :=
  forallb (fun n => at2 Binomial 0 n =? 1) (range 0 63).

Definition check_nonneg : bool :=
  forallb (fun k =>
    forallb (fun n => (0 <=? at2 Binomial k n) && (at2 Binomial k n <? 2 ^ 23))
      (range 0 63))
    (range 0 5).

(** The number of squares below [g] that a man of the group can stand on
    and that no man before the group stands on. *)
Definition free_below (before : list Z) (remainingPawns : bool) (g : Z) : Z :=
  g - Remaining.count_before before g - 8 * b2z remainingPawns.

(** A square on which a man of the group can be put. *)
Definition fits (before : list Z) (remainingPawns : bool) (g : Z) : Prop :=
  (g ∉ before)
  /\ first_square remainingPawns <= g
     < first_square remainingPawns + num_squares remainingPawns.

(** A group of three men on c1, a1 and h8 behind two men on b1 and e1. *)
Definition example_before : list Z := [1; 4].
Definition example_group : list Z := [2; 0; 63].

End Placement.

(** ** Placements of the leading pawns *)

Module PawnPlacement.

(** The pawns of one colour: up to five distinct squares on the ranks 2
    to 7. *)
Definition pawns_ok (pawns : list Z) : Prop :=
  NoDup pawns /\ Forall (fun s => 8 <= s <= 55) pawns
  /\ (1 <= length pawns <= 5)%nat.

(** The checks of the tables of [init] that the proofs rest on: mirroring
    a pawn square changes its number by one, upwards from the files e..h;
    and on the files a..d the index of a leading pawn, advanced by the
    number of placements of the other pawns below it, stays within the size
    of its file. *)
Definition check_mirror : bool :=
  forallb (fun s =>
    (at1 MapPawns (flip_file s)
     =? at1 MapPawns s + (if FILE_D <? file_of s then 1 else -1))
    && (0 <=? at1 MapPawns s) && (at1 MapPawns s <=? 47))
    (range 8 55).

Definition check_lead_sizes : bool :=
  forallb (fun cnt =>
    forallb (fun s =>
      (FILE_D <? file_of s)
      || ((0 <=? at2 LeadPawnIdx cnt s)
          && (at2 LeadPawnIdx cnt s + at2 Binomial (cnt - 1) (at1 MapPawns s)
              <=? at2 LeadPawnsSize cnt (file_of s))
          && (at2 LeadPawnsSize cnt (file_of s) <? 2 ^ 31)))
      (range 8 55))
    (range 1 5).

Definition check_distinct : bool :=
  forallb (fun s =>
    forallb (fun s' => implb (at1 MapPawns s =? at1 MapPawns s') (s =? s'))
      (range 8 55))
    (range 8 55).

Definition example_pawns : list Z := [12; 15; 50].

End PawnPlacement.

(** ** The groups of a piece sequence *)

Module GroupsInv.

Fixpoint sum_list (l : list Z) : Z :=
  match l with
  | [] => 0
  | x :: r => x + sum_list r
  end.

(** The first [m] entries of [groupLen] are the lengths of [m] groups that
    hold [total] pieces together, and the entry after them is the
    terminating zero. *)
Definition groups_cover (groupLen : list Z) (m : nat) (total : Z) : Prop :=
  Forall (fun g => 1 <= g) (take m groupLen)
  /\ sum_list (take m groupLen) = total
  /\ groupLen !! m = Some 0.

End GroupsInv.

(** ** The index space of a table without pawns *)

Module IndexSpace.

Import GroupsInv.

(** The number of men in the groups before group [j]. *)
Definition men_before (gl : list Z) (j : nat) : Z := sum_list (take j gl).

(** The number of placements of group [j], from 1 on, on the squares that
    the groups before it leave free. *)
Definition group_factor (gl : list Z) (j : nat) : Z :=
  at2 Binomial (at1 gl (Z.of_nat j)) (64 - men_before gl j).

(** The greatest contribution of the [c] groups from group [j] on. *)
Fixpoint tail_max (gl gi : list Z) (j c : nat) : Z :=
  match c with
  | O => 0
  | S c' =>
      (group_factor gl j - 1) * at1 gi (Z.of_nat j) + tail_max gl gi (S j) c'
  end.

(** What the second loop of [set_groups] keeps, for a table without pawns:
    the running product is one more than the greatest index that the groups
    already numbered can produce. [lead] tells whether the leading group is
    among them, and [next] is the first group not yet numbered. *)
Definition numbered (gl gi : list Z) (F0 : Z) (lead : bool) (next : nat)
    (idx : Z) : Prop :=
  idx = 1 + (if lead then (F0 - 1) * at1 gi 0 else 0)
        + tail_max gl gi 1 (next - 1)
  /\ 0 <= idx <= (if lead then F0 else 1) * 64 ^ (men_before gl next - at1 gl 0)
  /\ (lead = true -> 0 <= at1 gi 0)
  /\ (forall j, (1 <= j < next)%nat ->
        0 <= at1 gi (Z.of_nat j) /\ at1 gl (Z.of_nat j) <= 5).

Definition check_pow : bool :=
  forallb (fun k =>
    forallb (fun n =>
      (at2 Binomial k n <=? 64 ^ k) && ((n <? k) || (1 <=? at2 Binomial k n)))
      (range 0 63))
    (range 0 5).

(** The table KNNvK of standard chess with its groups numbered, and a
    position of its four men. *)
Definition example_numbered : PairsData :=
  default KingPair.example_KNNvK_pairs
    (set_groups (KingPair.example_KNNvK CHESS_VARIANT)
       KingPair.example_KNNvK_pairs [0; 15] 0).

Definition example_position : list Z := [4; 60; 10; 20].

End IndexSpace.

(** ** Root positions for the examples *)

Module RootExamples.

Import Root Toy.

(** The constants of types.h in a build of the engine, and the toy
    positions as root positions: no move has been repeated, and the counter
    of the 50-move rule stands at 3 everywhere. *)
#[export] Instance toy_root : RootOps Pos := {|
  subvariant := pos_variant;
  rule50_count _ := 3;
  has_repeated _ := false;
  is_draw _ _ := false;
  Syzygy50MoveRule := true;
  VALUE_DRAW := 0;
  VALUE_MATE := 32000;
  MAX_PLY := 246;
  PawnValueEg := 208
|}.

Definition toy_moves : list (RootMove Mv) :=
  [{| pv0 := Quiet; tbRank := 0; tbScore := 0 |};
   {| pv0 := Take; tbRank := 0; tbScore := 0 |}].

End RootExamples.

(** ** What the tables of [Tablebases::init] hold *)

Module TableFacts.

Fixpoint factorial (n : nat) : Z :=
  match n with
  | O => 1
  | S n' => Z.of_nat n * factorial n'
  end.

(** The entry [Binomial[k][n]] is the number of ways to choose [k] out of
    [n]. *)
Definition check_choose (k n : Z) : bool :=
  if k <=? n then
    at2 Binomial k n * (factorial (Z.to_nat k) * factorial (Z.to_nat (n - k)))
    =? factorial (Z.to_nat n)
  else at2 Binomial k n =? 0.

(** The squares a2 .. h7 that [MapPawns] sends to [v]. *)
Definition pawn_squares_of (v : Z) : list Z :=
  List.filter (fun s => at1 MapPawns s =? v) (range 8 55).

End TableFacts.

(** * Properties *)

#[local] Arguments Z.testbit : simpl never.

(** ** Flags and loads *)

Section FlagFacts.

(** The mask test of the C++ code against the bit it names. *)
Lemma has_pow2 (flags : Z) (k : Z) :
  0 <= k -> has flags (2 ^ k) = Z.testbit flags k.
Proof.
  intros Hk. unfold has.
  assert (E : Z.land flags (2 ^ k) = Z.b2z (Z.testbit flags k) * 2 ^ k).
  { apply Z.bits_inj'. intros n Hn.
    rewrite Z.land_spec, Z.pow2_bits_eqb by lia.
    destruct (Z.eqb_spec k n) as [->|Hne].
    - rewrite Bool.andb_true_r.
      destruct (Z.testbit flags n) eqn:E; simpl.
      + rewrite Z.mul_1_l, Z.pow2_bits_true by lia. reflexivity.
      + rewrite Z.testbit_0_l. reflexivity.
    - rewrite Bool.andb_false_r.
      destruct (Z.testbit flags k); simpl.
      + rewrite Z.mul_1_l, Z.pow2_bits_false by lia. reflexivity.
      + rewrite Z.testbit_0_l. reflexivity. }
  rewrite E. destruct (Z.testbit flags k); simpl.
  - assert (0 < 2 ^ k) by (apply Z.pow_pos_nonneg; lia).
    destruct (Z.eqb_spec (1 * 2 ^ k) 0); [lia | reflexivity].
  - reflexivity.
Qed.

Lemma has_Mapped flags : has flags Mapped = Z.testbit flags 1.
Proof. apply (has_pow2 flags 1). lia. Qed.
Lemma has_WinPlies flags : has flags WinPlies = Z.testbit flags 2.
Proof. apply (has_pow2 flags 2). lia. Qed.
Lemma has_LossPlies flags : has flags LossPlies = Z.testbit flags 3.
Proof. apply (has_pow2 flags 3). lia. Qed.
Lemma has_Wide flags : has flags Wide = Z.testbit flags 4.
Proof. apply (has_pow2 flags 4). lia. Qed.
Lemma has_SingleValue flags : has flags SingleValue = Z.testbit flags 7.
Proof. apply (has_pow2 flags 7). lia. Qed.

Lemma byte_val_range b : 0 <= byte_val b < 256.
Proof. destruct b; vm_compute; split; congruence. Qed.

Lemma le_val_nonneg bs : 0 <= le_val bs.
Proof.
  induction bs as [|b r IH]; simpl; [lia|].
  pose proof (byte_val_range b). lia.
Qed.

Lemma le_val_bound bs : le_val bs < 256 ^ Z.of_nat (length bs).
Proof.
  induction bs as [|b r IH]; [simpl; lia|].
  cbn [le_val length]. rewrite Nat2Z.inj_succ, Z.pow_succ_r by lia.
  pose proof (byte_val_range b). pose proof (le_val_nonneg r). lia.
Qed.

Lemma bytes_at_length m off n bs :
  bytes_at m off n = Some bs -> length bs = n.
Proof.
  unfold bytes_at. destruct (off <? 0); [discriminate|].
  destruct (Nat.eqb_spec (length (take n (drop (Z.to_nat off) m))) n);
    intros [= <-]; assumption.
Qed.

(** A one-byte and a two-byte load, in terms of the single bytes. *)
Lemma bytes_at_1 m off :
  bytes_at m off 1 = (b ← rd m off; Some [b]).
Proof.
  unfold bytes_at, rd. destruct (off <? 0); [reflexivity|].
  generalize (Z.to_nat off) as i. intros i.
  assert (m !! i = drop i m !! 0%nat) as ->
    by (rewrite lookup_drop; f_equal; lia).
  destruct (drop i m) as [|b r]; simpl; rewrite ?take_0; reflexivity.
Qed.

Lemma rd_drop {A} (m : list A) (i j : nat) :
  drop i m !! j = m !! (i + j)%nat.
Proof. apply lookup_drop. Qed.

Lemma bytes_at_2 m off :
  bytes_at m off 2 = (b0 ← rd m off; b1 ← rd m (off + 1); Some [b0; b1]).
Proof.
  unfold bytes_at, rd.
  destruct (Z.ltb_spec off 0) as [Hneg|Hpos].
  - reflexivity.
  - destruct (Z.ltb_spec (off + 1) 0); [lia|].
    replace (Z.to_nat (off + 1)) with (S (Z.to_nat off)) by lia.
    generalize (Z.to_nat off) as i. intros i.
    assert (m !! i = drop i m !! 0%nat) as ->
      by (rewrite lookup_drop; f_equal; lia).
    assert (m !! S i = drop i m !! 1%nat) as ->
      by (rewrite lookup_drop; f_equal; lia).
    destruct (drop i m) as [|b0 [|b1 r]]; simpl; rewrite ?take_0; reflexivity.
Qed.

End FlagFacts.

(** ** The DTZ remapping [map_score] *)

Section MapScore.

Import RemapSpec.

Lemma native_1 m i : native 1 m i = (b ← rd m i; Some (byte_val b)).
Proof.
  unfold native. replace (Z.of_nat 1 * i) with i by lia.
  rewrite bytes_at_1. destruct (rd m i); simpl; [|reflexivity].
  f_equal. lia.
Qed.

Lemma native_2 m i :
  native 2 m i =
  (lo ← rd m (2 * i); hi ← rd m (2 * i + 1);
   Some (byte_val lo + 256 * byte_val hi)).
Proof.
  unfold native. replace (Z.of_nat 2 * i) with (2 * i) by lia.
  rewrite bytes_at_2.
  destruct (rd m (2 * i)); simpl; [|reflexivity].
  destruct (rd m (2 * i + 1)); simpl; [|reflexivity].
  f_equal. lia.
Qed.

Lemma doubling_rule flags wdl :
  (wdl_eqb wdl WDLWin && negb (has flags WinPlies))
  || (wdl_eqb wdl WDLLoss && negb (has flags LossPlies))
  || wdl_eqb wdl WDLCursedWin
  || wdl_eqb wdl WDLBlessedLoss
  = stored_in_moves flags wdl.
Proof.
  rewrite has_WinPlies, has_LossPlies.
  unfold stored_in_moves, flag_WinPlies, flag_LossPlies.
  generalize (Z.testbit flags 2) (Z.testbit flags 3).
  intros [] []; destruct wdl; reflexivity.
Qed.

(** The source's [map_score] against the rules of the specification. *)
Lemma map_score_dtz_rules (entry : TBTable) (f value : Z)
    (wdl : WDLScore) :
  map_score_dtz entry f value wdl = map_score_spec entry f value wdl.
Proof.
  unfold map_score_dtz, map_score_spec.
  destruct (get entry 0 f) as [d|]; simpl; [|reflexivity].
  unfold remapped, flag_Mapped, flag_Wide.
  rewrite has_Mapped, has_Wide, doubling_rule.
  assert (Hread :
    (if Z.testbit (flags d) 1
     then w ← rd WDLMap (wdl_int wdl + 2);
          i ← rd (map_idx d) w;
          (if Z.testbit (flags d) 4
           then native 2 (map entry) (i + value)
           else native 1 (map entry) (i + value))
     else Some value)
    = (if Z.testbit (flags d) 1
       then w ← rd [1; 3; 0; 2; 0] (wdl_int wdl + 2);
            base ← rd (map_idx d) w;
            map_entry (Z.testbit (flags d) 4) (map entry) (base + value)
       else Some value)).
  { destruct (Z.testbit (flags d) 1); [|reflexivity].
    unfold WDLMap.
    destruct (rd [1; 3; 0; 2; 0] (wdl_int wdl + 2)) as [w|]; simpl; [|reflexivity].
    destruct (rd (map_idx d) w) as [i|]; simpl; [|reflexivity].
    unfold map_entry. destruct (Z.testbit (flags d) 4).
    - apply native_2.
    - apply native_1. }
  rewrite Hread.
  match goal with |- (?m ≫= _) = (?m ≫= _) => destruct m as [v|] end;
    simpl; [|reflexivity].
  destruct (stored_in_moves (flags d) wdl); f_equal; lia.
Qed.

(** C3. For every DTZ table, file, raw value and WDL score, [map_score]
    computes what the three rules of the specification describe: when the
    [Mapped] flag is set the value is first replaced by the entry
    [map[map_idx[WDLMap[wdl+2]] + value]] of the remap table (a 16-bit entry
    if [Wide] is set, an 8-bit one otherwise, with [WDLMap = [1,3,0,2,0]]);
    the value is then doubled for a win without [WinPlies], a loss without
    [LossPlies], a cursed win or a blessed loss; the result is the value
    plus one. *)
Theorem map_score_dtz_meets_spec (entry : TBTable) (f value : Z)
    (wdl : WDLScore) :
  map_score_dtz entry f value wdl = map_score_spec entry f value wdl.
Proof. apply map_score_dtz_rules. Qed.

(** The remap offset used for each score: [map_idx] is laid out as wins,
    losses, cursed wins, blessed losses. *)
Lemma WDLMap_offsets :
  List.map (fun wdl => rd WDLMap (wdl_int wdl + 2))
    [WDLWin; WDLLoss; WDLCursedWin; WDLBlessedLoss; WDLDraw]
  = [Some 0; Some 1; Some 2; Some 3; Some 0].
Proof. reflexivity. Qed.

(** Without the [Mapped] flag the result is [value + 1] or [2 * value + 1]. *)
Lemma map_score_dtz_unmapped entry f d value wdl :
  get entry 0 f = Some d -> Z.testbit (flags d) 1 = false ->
  map_score_dtz entry f value wdl
  = Some ((if stored_in_moves (flags d) wdl then 2 * value else value) + 1).
Proof.
  intros Hd Hm. rewrite map_score_dtz_rules.
  unfold map_score_spec, remapped, flag_Mapped. rewrite Hd. simpl.
  rewrite Hm. reflexivity.
Qed.

(** A remapped value is a byte or a 16-bit number, so the result of
    [map_score] is at least 1 for a stored value that is not negative. *)
Lemma map_score_dtz_positive entry f value wdl v :
  0 <= value -> map_score_dtz entry f value wdl = Some v -> 1 <= v.
Proof.
  intros Hv. rewrite map_score_dtz_rules. unfold map_score_spec.
  destruct (get entry 0 f) as [d|]; simpl; [|discriminate].
  destruct (remapped (flags d) (map entry) (map_idx d) value wdl) as [r|] eqn:E;
    simpl; [|discriminate].
  assert (Hr : 0 <= r).
  { unfold remapped in E. destruct (flag_Mapped (flags d)).
    - destruct (rd [1; 3; 0; 2; 0] (wdl_int wdl + 2)) as [w|]; simpl in E;
        [|discriminate].
      destruct (rd (map_idx d) w) as [i|]; simpl in E; [|discriminate].
      unfold map_entry in E. destruct (flag_Wide (flags d)).
      + destruct (rd (map entry) (2 * (i + value))) as [lo|]; simpl in E;
          [|discriminate].
        destruct (rd (map entry) (2 * (i + value) + 1)) as [hi|]; simpl in E;
          [|discriminate].
        injection E as <-.
        pose proof (byte_val_range lo). pose proof (byte_val_range hi). lia.
      + destruct (rd (map entry) (i + value)) as [b|]; simpl in E;
          [|discriminate].
        injection E as <-. pose proof (byte_val_range b). lia.
    - injection E as <-. exact Hv. }
  intros [= <-]. destruct (stored_in_moves (flags d) wdl); lia.
Qed.

End MapScore.

(** ** [decompress_pairs]: the single-value tables *)

Section SingleValueTables.

(** The first test of [decompress_pairs]. *)
Lemma single_value_short_circuit (d : PairsData) (idx : Z) (fuel : nat) :
  Z.testbit (flags d) 7 = true ->
  decompress_pairs fuel d idx = Some (minSymLen d).
Proof.
  intros H. unfold decompress_pairs.
  rewrite has_SingleValue, H. reflexivity.
Qed.

(** C4. When the flags of a [PairsData] record contain [SingleValue] (bit 7
    of the flags byte), [decompress_pairs] returns [minSymLen], the stored
    single value, for every index; the result needs no fuel for the block
    walk or the decoding loops and does not depend on any region of the
    mapped file, that is, no block is located and nothing is decoded. *)
Theorem decompress_pairs_single_value (d : PairsData) (idx : Z) (fuel : nat) :
  Z.testbit (flags d) 7 = true ->
  decompress_pairs fuel d idx = Some (minSymLen d).
Proof. apply single_value_short_circuit. Qed.

Lemma decompress_pairs_single_value_witness :
  Z.testbit (flags (single_value_table 3)) 7 = true
  /\ decompress_pairs 0 (single_value_table 3) 12345 = Some 3.
Proof.
  split; [reflexivity|].
  apply (decompress_pairs_single_value (single_value_table 3) 12345 0).
  reflexivity.
Defined.

(** The answer is the same for any two indices and any two records that
    agree on the flags and on [minSymLen]. *)
Lemma decompress_pairs_single_value_indep d d' idx idx' fuel fuel' :
  Z.testbit (flags d) 7 = true ->
  flags d' = flags d -> minSymLen d' = minSymLen d ->
  decompress_pairs fuel d idx = decompress_pairs fuel' d' idx'.
Proof.
  intros H Hf Hm.
  rewrite !single_value_short_circuit by (rewrite ?Hf; assumption).
  rewrite Hm. reflexivity.
Qed.

End SingleValueTables.

(** ** [decompress_pairs]: locating the block *)

Section LocateBlock.

Import BlockIndex.

Lemma to_int_small x : - 2 ^ 31 <= x < 2 ^ 31 -> to_int x = x.
Proof.
  intros H. unfold to_int.
  destruct (Z.ltb_spec (x mod 2 ^ 32) (2 ^ 31)); Z.div_mod_to_equations; lia.
Qed.

Lemma to_int_u64 x : - 2 ^ 31 <= x < 2 ^ 31 -> to_int (u64 x) = x.
Proof.
  intros H. unfold to_int, u64.
  destruct (Z.ltb_spec ((x mod 2 ^ 64) mod 2 ^ 32) (2 ^ 31));
    Z.div_mod_to_equations; lia.
Qed.

Lemma u32_small x : 0 <= x < 2 ^ 32 -> u32 x = x.
Proof. intros H. unfold u32. apply Z.mod_small. lia. Qed.

Lemma number_nonneg n e m off v : number n e m off = Some v -> 0 <= v.
Proof.
  unfold number. destruct (bytes_at m off n) as [bs|]; simpl; [|discriminate].
  intros [= <-]. apply le_val_nonneg.
Qed.

Lemma number_2_bound e m off v : number 2 e m off = Some v -> v < 2 ^ 16.
Proof.
  unfold number. destruct (bytes_at m off 2) as [bs|] eqn:E; simpl; [|discriminate].
  apply bytes_at_length in E. intros [= <-].
  destruct e; simpl.
  - pose proof (le_val_bound (rev bs)) as B. rewrite length_rev, E in B. apply B.
  - pose proof (le_val_bound bs) as B. rewrite E in B. apply B.
Qed.

Variable d : PairsData.

Lemma block_len_range b : 0 <= block_len d b < 2 ^ 16.
Proof.
  unfold block_len, native.
  destruct (bytes_at (blockLength d) (Z.of_nat 2 * b) 2) as [bs|] eqn:E;
    simpl; [|lia].
  apply bytes_at_length in E.
  pose proof (le_val_nonneg bs). pose proof (le_val_bound bs) as B.
  rewrite E in B. simpl in B. lia.
Qed.

Lemma block_len_read b :
  0 <= b < num_blocks d ->
  native 2 (blockLength d) b = Some (block_len d b).
Proof.
  intros [H0 H1]. unfold block_len.
  enough (is_Some (native 2 (blockLength d) b)) as [v ->] by reflexivity.
  rewrite native_2. unfold num_blocks in H1.
  assert (Hlen : (2 * Z.to_nat b + 1 < length (blockLength d))%nat).
  { pose proof (Nat.div_mod_eq (length (blockLength d)) 2).
    pose proof (Nat.mod_upper_bound (length (blockLength d)) 2). lia. }
  unfold rd.
  destruct (Z.ltb_spec (2 * b) 0); [lia|].
  destruct (Z.ltb_spec (2 * b + 1) 0); [lia|].
  destruct (lookup_lt_is_Some_2 (blockLength d) (Z.to_nat (2 * b))) as [x ->]; [lia|].
  destruct (lookup_lt_is_Some_2 (blockLength d) (Z.to_nat (2 * b + 1))) as [y ->]; [lia|].
  simpl. eauto.
Qed.

Lemma block_start_S b :
  block_start d (S b) = block_start d b + (block_len d (Z.of_nat b) + 1).
Proof. reflexivity. Qed.

Lemma block_start_mono (a b : nat) :
  (a <= b)%nat -> block_start d a + Z.of_nat (b - a) <= block_start d b.
Proof.
  induction 1 as [|b Hle IH].
  - rewrite Nat.sub_diag. simpl. lia.
  - rewrite block_start_S. pose proof (block_len_range (Z.of_nat b)).
    replace (S b - a)%nat with (S (b - a)) by lia. lia.
Qed.

Lemma block_start_nonneg b : 0 <= block_start d b.
Proof. pose proof (block_start_mono 0 b). simpl in *. lia. Qed.

Lemma block_start_pred b :
  0 < b ->
  block_start d (Z.to_nat b)
  = block_start d (Z.to_nat (b - 1)) + (block_len d (b - 1) + 1).
Proof.
  intros Hb. replace (Z.to_nat b) with (S (Z.to_nat (b - 1))) by lia.
  rewrite block_start_S. repeat f_equal. lia.
Qed.

(** The backward loop: it stops, at a block not after the one it started
    from, with a non-negative offset that names the same absolute index. *)
Lemma walk_back_ok (idx : Z) (fuel : nat) :
  num_blocks d <= 2 ^ 32 -> 0 <= idx ->
  forall block offset,
    0 <= block <= num_blocks d -> - 2 ^ 31 <= offset < 2 ^ 31 ->
    block_start d (Z.to_nat block) + offset = idx ->
    (Z.to_nat block <= fuel)%nat ->
    exists block' offset',
      walk_back fuel d block offset = Some (block', offset')
      /\ 0 <= block' <= block /\ 0 <= offset' < 2 ^ 31
      /\ block_start d (Z.to_nat block') + offset' = idx.
Proof.
  intros HN Hidx. induction fuel as [|fuel IH]; intros block offset Hb Ho Hinv Hf.
  - assert (block = 0) as -> by lia. simpl in Hinv.
    exists 0, offset. simpl. destruct (Z.ltb_spec offset 0); [lia|].
    repeat split; lia.
  - cbn [walk_back]. destruct (Z.ltb_spec offset 0) as [Hneg|Hpos].
    + assert (Hb1 : 0 < block).
      { destruct (Z.eq_dec block 0) as [->|]; [simpl in Hinv; lia|lia]. }
      rewrite u32_small by lia.
      rewrite block_len_read by lia. simpl.
      pose proof (block_len_range (block - 1)) as Hr.
      rewrite to_int_small by lia.
      destruct (IH (block - 1) (offset + (block_len d (block - 1) + 1)))
        as (b' & o' & E & Hb' & Ho' & Hinv'); try lia.
      { rewrite block_start_pred in Hinv by lia. lia. }
      exists b', o'. repeat split; try assumption; lia.
    + exists block, offset. repeat split; lia.
Qed.

(** The forward loop: it stops inside the table, at the block that holds
    the index. *)
Lemma walk_fwd_ok (idx : Z) (fuel : nat) :
  num_blocks d <= 2 ^ 32 ->
  idx < block_start d (Z.to_nat (num_blocks d)) ->
  forall block offset,
    0 <= block -> 0 <= offset < 2 ^ 31 ->
    block_start d (Z.to_nat block) + offset = idx ->
    (Z.to_nat (num_blocks d - block) < fuel)%nat ->
    exists block' offset',
      walk_fwd fuel d block offset = Some (block', offset')
      /\ block <= block' < num_blocks d
      /\ 0 <= offset' <= block_len d block'
      /\ block_start d (Z.to_nat block') + offset' = idx.
Proof.
  intros HN Htot. induction fuel as [|fuel IH]; intros block offset Hb Ho Hinv Hf.
  - lia.
  - assert (Hlt : block < num_blocks d).
    { destruct (Z.lt_ge_cases block (num_blocks d)) as [?|Hge]; [assumption|].
      pose proof (block_start_mono (Z.to_nat (num_blocks d)) (Z.to_nat block)).
      lia. }
    cbn [walk_fwd]. rewrite block_len_read by lia. simpl.
    pose proof (block_len_range block) as Hr.
    destruct (Z.ltb_spec (block_len d block) offset) as [Hgt|Hle].
    + assert (Hnext : block_start d (Z.to_nat (block + 1))
                      = block_start d (Z.to_nat block) + (block_len d block + 1)).
      { rewrite (block_start_pred (block + 1)) by lia.
        replace (block + 1 - 1) with block by lia. reflexivity. }
      assert (Hlt' : block + 1 < num_blocks d).
      { destruct (Z.lt_ge_cases (block + 1) (num_blocks d)) as [?|Hge]; [assumption|].
        pose proof (block_start_mono (Z.to_nat (num_blocks d)) (Z.to_nat (block + 1))).
        lia. }
      rewrite u32_small by lia. rewrite to_int_small by lia.
      destruct (IH (block + 1) (offset - (block_len d block + 1)))
        as (b' & o' & E & Hb' & Ho' & Hinv'); try lia.
      exists b', o'. repeat split; try assumption; lia.
    + exists block, offset. repeat split; lia.
Qed.

(** C5. For a well-formed [PairsData] and an index inside the table, the
    two block-adjustment loops of [decompress_pairs] terminate (a fuel of one
    more than the number of blocks is enough for each), and the block [b] and
    the offset they end with satisfy [0 <= offset <= blockLength[b]]; the
    block is inside the table and the pair names the index asked for. *)
Theorem locate_block_in_range (tb_size idx : Z) (fuel : nat) :
  well_formed d tb_size ->
  0 <= idx < tb_size ->
  (Z.to_nat (num_blocks d) < fuel)%nat ->
  exists block0 offset0 block1 offset1 b offset,
    number 4 LittleEndian (sparseIndex d) (6 * (idx / span d)) = Some block0
    /\ number 2 LittleEndian (sparseIndex d) (6 * (idx / span d) + 4) = Some offset0
    /\ walk_back fuel d block0
         (offset0 + (idx mod span d - span d / 2)) = Some (block1, offset1)
    /\ walk_fwd fuel d block1 offset1 = Some (b, offset)
    /\ locate_block fuel d idx = Some (b, offset)
    /\ 0 <= b < num_blocks d
    /\ native 2 (blockLength d) b = Some (block_len d b)
    /\ 0 <= offset <= block_len d b
    /\ block_start d (Z.to_nat b) + offset = idx.
Proof.
  intros [Hspan HN Hix Hsp Htot] Hidx Hfuel.
  assert (Hk : 0 <= idx / span d < 2 ^ 32).
  { split; [apply Z.div_pos; lia|].
    apply Z.div_lt_upper_bound; lia. }
  assert (Hkm : idx = span d * (idx / span d) + idx mod span d)
    by (apply Z.div_mod; lia).
  remember (idx / span d) as k eqn:Ek.
  assert (Hmod : 0 <= idx mod span d < span d) by (apply Z.mod_pos_bound; lia).
  destruct (Hsp k) as (b0 & o0 & Eb & Eo & Hb0 & Hpos); [lia|nia|].
  pose proof (number_nonneg _ _ _ _ _ Eb) as Hb0n.
  pose proof (number_nonneg _ _ _ _ _ Eo) as Ho0n.
  pose proof (number_2_bound _ _ _ _ Eo) as Ho0b.
  assert (Hhalf : 0 <= span d / 2 <= 2 ^ 30).
  { split; [apply Z.div_pos; lia|].
    apply Z.div_le_upper_bound; lia. }
  assert (H2 : span d <= 2 * (span d / 2) + 1).
  { pose proof (Z.div_mod (span d) 2). pose proof (Z.mod_pos_bound (span d) 2). lia. }
  remember (idx mod span d - span d / 2) as diff eqn:Ediff.
  assert (Hdiff : - 2 ^ 30 <= diff < 2 ^ 30) by lia.
  rewrite (Z.mul_comm k) in Hpos.
  destruct (walk_back_ok idx fuel HN ltac:(lia) b0 (o0 + diff))
    as (b1 & o1 & Eback & Hb1 & Ho1 & Hinv1); try lia.
  destruct (walk_fwd_ok idx fuel HN ltac:(lia) b1 o1)
    as (b & o & Efwd & Hb & Ho & Hinv); try lia.
  exists b0, o0, b1, o1, b, o.
  repeat match goal with |- _ /\ _ => split end;
    try assumption; try lia.
  - unfold locate_block.
    destruct (Z.eqb_spec (span d) 0); [lia|].
    rewrite <- Ek, (u32_small k) by lia. rewrite Eb, Eo. simpl.
    rewrite <- Ediff. rewrite to_int_u64 by lia. rewrite to_int_small by lia.
    rewrite Eback. simpl. exact Efwd.
  - apply block_len_read. lia.
Qed.

End LocateBlock.

Section LocateBlockExample.

Import BlockIndex.

Lemma locate_block_in_range_witness :
  exists block0 offset0 block1 offset1 b offset,
    number 4 LittleEndian (sparseIndex example_blocks)
      (6 * (4 / span example_blocks)) = Some block0
    /\ number 2 LittleEndian (sparseIndex example_blocks)
         (6 * (4 / span example_blocks) + 4) = Some offset0
    /\ walk_back 4 example_blocks block0
         (offset0 + (4 mod span example_blocks - span example_blocks / 2))
       = Some (block1, offset1)
    /\ walk_fwd 4 example_blocks block1 offset1 = Some (b, offset)
    /\ locate_block 4 example_blocks 4 = Some (b, offset)
    /\ 0 <= b < num_blocks example_blocks
    /\ native 2 (blockLength example_blocks) b
       = Some (block_len example_blocks b)
    /\ 0 <= offset <= block_len example_blocks b
    /\ block_start example_blocks (Z.to_nat b) + offset = 4.
Proof.
  apply (locate_block_in_range example_blocks 5 4 4).
  - split.
    + vm_compute. split; [reflexivity | discriminate].
    + vm_compute. discriminate.
    + vm_compute. discriminate.
    + intros k Hk0 Hk. cbn [span example_blocks] in Hk.
      assert (Hcases : k = 0 \/ k = 1) by lia.
      destruct Hcases as [-> | ->].
      * exists 1, 0. vm_compute. repeat split; discriminate.
      * exists 2, 1. vm_compute. repeat split; discriminate.
    + vm_compute. discriminate.
  - lia.
  - vm_compute. lia.
Defined.

Example locate_block_example :
  List.map (locate_block 4 example_blocks) [0; 1; 2; 3; 4]
  = [Some (0, 0); Some (0, 1); Some (1, 0); Some (1, 1); Some (1, 2)].
Proof. reflexivity. Qed.

End LocateBlockExample.

(** ** The leading group of a pawnless table with three unique pieces *)

Section LeadingGroupFacts.

Import LeadingGroup.

Lemma In_count_from n : forall lo s,
  lo <= s < lo + Z.of_nat n -> In s (count_from n lo).
Proof.
  induction n as [|n IH]; intros lo s H; [lia|].
  cbn [count_from]. destruct (Z.eq_dec lo s) as [->|Hne]; [left; reflexivity|].
  right. apply IH. lia.
Qed.

Lemma In_range lo hi s : lo <= s <= hi -> In s (range lo hi).
Proof. intros H. unfold range. apply In_count_from. lia. Qed.

Lemma on_board_In s : on_board s -> In s all_squares.
Proof. intros [H0 H1]. apply In_range. lia. Qed.

Lemma for_all_triples_spec check :
  for_all_triples check = true ->
  forall s0 s1 s2, on_board s0 -> on_board s1 -> on_board s2 ->
                   check s0 s1 s2 = true.
Proof.
  intros H s0 s1 s2 H0 H1 H2. unfold for_all_triples in H.
  rewrite forallb_forall in H. specialize (H s0 (on_board_In _ H0)).
  rewrite forallb_forall in H. specialize (H s1 (on_board_In _ H1)).
  rewrite forallb_forall in H. exact (H s2 (on_board_In _ H2)).
Qed.

Lemma all_triples_in_range : for_all_triples check_triple = true.
Proof. vm_compute. reflexivity. Qed.

Lemma all_triples_normalize : for_all_triples check_normalize = true.
Proof. vm_compute. reflexivity. Qed.

(** The ranges of two different branches have no index in common, and
    together they have 31332 indices. *)
Lemma branch_ranges_disjoint b b' idx :
  b <> b' -> in_branch_range b idx -> ~ in_branch_range b' idx.
Proof.
  unfold in_branch_range.
  destruct b, b'; simpl; intros Hne H H'; try lia; congruence.
Qed.

Lemma branch_sizes_total :
  branch_size FirstOff + branch_size SecondOff
  + branch_size ThirdOff + branch_size AllOn = 31332.
Proof. reflexivity. Qed.

(** The three normalisation steps of [do_probe_table] bring any three
    distinct squares into the normal form assumed below. *)
Lemma normalize_pawnless_normalized s0 s1 s2 :
  on_board s0 -> on_board s1 -> on_board s2 ->
  distinct3 s0 s1 s2 = true ->
  exists t0 t1 t2,
    normalize_pawnless 3 [s0; s1; s2] = [t0; t1; t2]
    /\ normalized3 t0 t1 t2 = true.
Proof.
  intros H0 H1 H2 Hd.
  pose proof (for_all_triples_spec _ all_triples_normalize s0 s1 s2 H0 H1 H2) as C.
  unfold check_normalize in C. rewrite Hd in C. simpl in C.
  destruct (normalize_pawnless 3 [s0; s1; s2]) as [|t0 [|t1 [|t2 [|? ?]]]];
    try discriminate.
  exists t0, t1, t2. split; [reflexivity | assumption].
Qed.

(** The formula is one-to-one on the normalised triples and reaches every
    index below 31332, so the range of each branch has exactly the size
    given above. *)
Lemma all_indices_decode : forallb check_decode (range 0 31331) = true.
Proof. vm_compute. reflexivity. Qed.

Lemma all_triples_encode : for_all_triples check_encode = true.
Proof. vm_compute. reflexivity. Qed.

Lemma is_square_on_board s : is_square s = true -> on_board s.
Proof.
  unfold is_square, on_board. intros H. apply andb_prop in H.
  destruct H as [A B]. apply Z.leb_le in A. apply Z.ltb_lt in B. lia.
Qed.

Lemma lead_index_unique3_onto idx :
  0 <= idx < 31332 ->
  exists s0 s1 s2,
    on_board s0 /\ on_board s1 /\ on_board s2
    /\ normalized3 s0 s1 s2 = true
    /\ lead_index_unique3 [s0; s1; s2] = Some idx.
Proof.
  intros H. pose proof all_indices_decode as C.
  rewrite forallb_forall in C.
  assert (Hin : In idx (range 0 31331)) by (apply In_range; lia).
  specialize (C idx Hin). unfold check_decode in C.
  destruct (decode3 idx) as [[s0 s1] s2].
  apply andb_prop in C as [C E]. apply andb_prop in C as [C N].
  apply andb_prop in C as [C S2]. apply andb_prop in C as [S0 S1].
  exists s0, s1, s2.
  split; [apply is_square_on_board; exact S0|].
  split; [apply is_square_on_board; exact S1|].
  split; [apply is_square_on_board; exact S2|].
  split; [exact N|].
  destruct (lead_index_unique3 [s0; s1; s2]) as [i|]; [|discriminate].
  apply Z.eqb_eq in E. congruence.
Qed.

Lemma lead_index_unique3_one_to_one s0 s1 s2 t0 t1 t2 idx :
  on_board s0 -> on_board s1 -> on_board s2 ->
  on_board t0 -> on_board t1 -> on_board t2 ->
  normalized3 s0 s1 s2 = true -> normalized3 t0 t1 t2 = true ->
  lead_index_unique3 [s0; s1; s2] = Some idx ->
  lead_index_unique3 [t0; t1; t2] = Some idx ->
  (s0, s1, s2) = (t0, t1, t2).
Proof.
  intros Hs0 Hs1 Hs2 Ht0 Ht1 Ht2 Hs Ht Es Et.
  pose proof (for_all_triples_spec _ all_triples_encode s0 s1 s2 Hs0 Hs1 Hs2) as A.
  pose proof (for_all_triples_spec _ all_triples_encode t0 t1 t2 Ht0 Ht1 Ht2) as B.
  unfold check_encode in A, B. rewrite Hs, Es in A. rewrite Ht, Et in B.
  simpl implb in A, B.
  destruct (decode3 idx) as [[u0 u1] u2].
  apply andb_prop in A as [A A2]. apply andb_prop in A as [A0 A1].
  apply andb_prop in B as [B B2]. apply andb_prop in B as [B0 B1].
  apply Z.eqb_eq in A0, A1, A2, B0, B1, B2. congruence.
Qed.

(** The index of a normalised triple lies in the range of its branch. *)
Lemma lead_index_unique3_in_branch s0 s1 s2 idx :
  on_board s0 -> on_board s1 -> on_board s2 ->
  normalized3 s0 s1 s2 = true ->
  lead_index_unique3 [s0; s1; s2] = Some idx ->
  in_branch_range (branch_of s0 s1 s2) idx.
Proof.
  intros H0 H1 H2 Hn E.
  pose proof (for_all_triples_spec _ all_triples_in_range s0 s1 s2 H0 H1 H2) as C.
  unfold check_triple in C. rewrite Hn, E in C. simpl implb in C.
  apply andb_prop in C. destruct C as [Clo Chi].
  apply Z.leb_le in Clo. apply Z.ltb_lt in Chi. split; assumption.
Qed.

Lemma branch_eq_dec (b b' : Branch) : b = b' \/ b <> b'.
Proof. destruct b, b'; (left; reflexivity) || (right; discriminate). Qed.

(** Every index of the range of a branch is the index of a normalised
    triple of that branch. *)
Lemma branch_range_filled b i :
  in_branch_range b i ->
  exists t0 t1 t2,
    on_board t0 /\ on_board t1 /\ on_board t2
    /\ normalized3 t0 t1 t2 = true
    /\ branch_of t0 t1 t2 = b
    /\ lead_index_unique3 [t0; t1; t2] = Some i.
Proof.
  intros Hin.
  assert (Hi : 0 <= i < 31332)
    by (unfold in_branch_range in Hin; destruct b; simpl in Hin; lia).
  destruct (lead_index_unique3_onto i Hi)
    as (t0 & t1 & t2 & H0 & H1 & H2 & Hn & E).
  exists t0, t1, t2. repeat (split; [assumption|]). split; [|exact E].
  pose proof (lead_index_unique3_in_branch t0 t1 t2 i H0 H1 H2 Hn E) as Hb.
  destruct (branch_eq_dec (branch_of t0 t1 t2) b) as [Heq|Hne];
    [exact Heq|].
  exfalso. exact (branch_ranges_disjoint _ _ _ Hne Hb Hin).
Qed.

(** C6. For a pawnless table with at least three unique pieces and a
    normalised triple of squares (the first one in the a1-d1-d4 triangle,
    the diagonal flip applied), the four-branch formula yields an index in
    [0, 31332). Each branch has a range of indices of its own: the index of
    a triple lies in the range of its branch and in no other range, no
    other normalised triple has the same index, and every index of the
    range of a branch is the index of a normalised triple of that branch.
    So the branches produce pairwise disjoint sets of indices with as many
    indices as their ranges have, and these sizes add up to 31332, the
    factor [set_groups] stores for the leading group of such a table. *)
Theorem lead_index_unique3_ranges (e : TBTable) (groupLen0 f : Z)
    (s0 s1 s2 : Z) (rest : list Z) :
  hasPawns e = false -> 3 <= numUniquePieces e ->
  on_board s0 -> on_board s1 -> on_board s2 ->
  normalized3 s0 s1 s2 = true ->
  exists idx,
    lead_index_unique3 (s0 :: s1 :: s2 :: rest) = Some idx
    /\ 0 <= idx < 31332
    /\ in_branch_range (branch_of s0 s1 s2) idx
    /\ (forall b, b <> branch_of s0 s1 s2 -> ~ in_branch_range b idx)
    /\ (forall t0 t1 t2,
          on_board t0 -> on_board t1 -> on_board t2 ->
          normalized3 t0 t1 t2 = true ->
          lead_index_unique3 [t0; t1; t2] = Some idx ->
          (t0, t1, t2) = (s0, s1, s2))
    /\ (forall b i, in_branch_range b i ->
          exists t0 t1 t2,
            on_board t0 /\ on_board t1 /\ on_board t2
            /\ normalized3 t0 t1 t2 = true
            /\ branch_of t0 t1 t2 = b
            /\ lead_index_unique3 [t0; t1; t2] = Some i)
    /\ lead_factor e groupLen0 f
       = Some (branch_size FirstOff + branch_size SecondOff
               + branch_size ThirdOff + branch_size AllOn)
    /\ lead_factor e groupLen0 f = Some 31332.
Proof.
  intros Hp Hu H0 H1 H2 Hn.
  pose proof (for_all_triples_spec _ all_triples_in_range s0 s1 s2 H0 H1 H2) as C.
  unfold check_triple in C. rewrite Hn in C. simpl implb in C.
  assert (E : lead_index_unique3 (s0 :: s1 :: s2 :: rest)
              = lead_index_unique3 [s0; s1; s2]) by reflexivity.
  rewrite E.
  destruct (lead_index_unique3 [s0; s1; s2]) as [idx|] eqn:Eidx;
    [|discriminate].
  clear C.
  assert (Hf : lead_factor e groupLen0 f = Some 31332).
  { unfold lead_factor. rewrite Hp.
    destruct (Z.leb_spec 3 (numUniquePieces e)); [reflexivity | lia]. }
  exists idx. split; [reflexivity|].
  pose proof (lead_index_unique3_in_branch s0 s1 s2 idx H0 H1 H2 Hn Eidx)
    as Hin.
  split.
  { unfold in_branch_range in Hin.
    destruct (branch_of s0 s1 s2); simpl in Hin; lia. }
  split; [exact Hin|].
  split.
  { intros b Hb. apply (branch_ranges_disjoint (branch_of s0 s1 s2) b idx);
      [congruence | exact Hin]. }
  split.
  { intros t0 t1 t2 Ht0 Ht1 Ht2 Ht Et.
    exact (lead_index_unique3_one_to_one t0 t1 t2 s0 s1 s2 idx
             Ht0 Ht1 Ht2 H0 H1 H2 Ht Hn Et Eidx). }
  split; [exact branch_range_filled|].
  split; [rewrite Hf; reflexivity | exact Hf].
Qed.

Lemma lead_index_unique3_ranges_witness :
  exists idx,
    lead_index_unique3 (1 :: 28 :: 63 :: []) = Some idx
    /\ 0 <= idx < 31332
    /\ in_branch_range (branch_of 1 28 63) idx
    /\ (forall b, b <> branch_of 1 28 63 -> ~ in_branch_range b idx)
    /\ (forall t0 t1 t2,
          on_board t0 -> on_board t1 -> on_board t2 ->
          normalized3 t0 t1 t2 = true ->
          lead_index_unique3 [t0; t1; t2] = Some idx ->
          (t0, t1, t2) = (1, 28, 63))
    /\ (forall b i, in_branch_range b i ->
          exists t0 t1 t2,
            on_board t0 /\ on_board t1 /\ on_board t2
            /\ normalized3 t0 t1 t2 = true
            /\ branch_of t0 t1 t2 = b
            /\ lead_index_unique3 [t0; t1; t2] = Some i)
    /\ lead_factor example_KRvK 3 0
       = Some (branch_size FirstOff + branch_size SecondOff
               + branch_size ThirdOff + branch_size AllOn)
    /\ lead_factor example_KRvK 3 0 = Some 31332.
Proof.
  apply (lead_index_unique3_ranges example_KRvK 3 0 1 28 63 []).
  - reflexivity.
  - simpl. lia.
  - unfold on_board. lia.
  - unfold on_board. lia.
  - unfold on_board. lia.
  - reflexivity.
Defined.

Example lead_index_unique3_examples :
  List.map lead_index_unique3
    [[1; 28; 63]; [0; 1; 2]; [0; 9; 1]; [0; 9; 18]; [27; 63; 54]]
  = [Some 1735; Some 23436; Some 30380; Some 31164; Some 31331].
Proof. reflexivity. Qed.

End LeadingGroupFacts.

(** ** The leading group of a pawnless table with two unique pieces *)

Section KingPairFactor.

Import LeadingGroup KingPair.

(** What [set_groups] multiplies by for such a table: 462 for standard
    chess, 518 for every other variant. *)
Lemma lead_factor_unique2 (e : TBTable) (groupLen0 f : Z) :
  hasPawns e = false -> numUniquePieces e = 2 ->
  lead_factor e groupLen0 f
  = Some (if variant_eqb (variant e) CHESS_VARIANT then 462 else 518).
Proof.
  intros Hp Hu. unfold lead_factor. rewrite Hp, Hu. reflexivity.
Qed.

Lemma variant_eqb_eq a b : variant_eqb a b = true <-> a = b.
Proof. destruct a, b; simpl; split; intros H; congruence. Qed.

Lemma lead_factor_unique2_chess (e : TBTable) (groupLen0 f : Z) :
  hasPawns e = false -> numUniquePieces e = 2 ->
  variant e = CHESS_VARIANT ->
  lead_factor e groupLen0 f = Some 462.
Proof.
  intros Hp Hu Hv. rewrite lead_factor_unique2, Hv by assumption. reflexivity.
Qed.

Lemma lead_factor_unique2_other (e : TBTable) (groupLen0 f : Z) :
  hasPawns e = false -> numUniquePieces e = 2 ->
  variant e <> CHESS_VARIANT ->
  lead_factor e groupLen0 f = Some 518.
Proof.
  intros Hp Hu Hv. rewrite lead_factor_unique2 by assumption.
  destruct (variant_eqb (variant e) CHESS_VARIANT) eqn:E; [|reflexivity].
  apply variant_eqb_eq in E. contradiction.
Qed.

(** The variants for which [do_probe_table] takes the connected-kings
    formula. *)
Lemma connectedKings_variants v :
  connectedKings v = true
  <-> v = ATOMIC_VARIANT \/ v = ANTI_VARIANT
      \/ v = GIVEAWAY_VARIANT \/ v = SUICIDE_VARIANT.
Proof.
  destruct v; simpl; split; intros H; try discriminate; try reflexivity;
    try (repeat (destruct H as [H|H]; try discriminate)); tauto.
Qed.

(** Every entry of [MapKK] is one of the 462 codes 0..461. *)
Lemma MapKK_bound m row s idx :
  rd MapKK m = Some row -> rd row s = Some idx -> 0 <= idx < 462.
Proof.
  assert (H : forallb (forallb (fun x => (0 <=? x) && (x <? 462))) MapKK = true)
    by (vm_compute; reflexivity).
  unfold rd. destruct (m <? 0); [discriminate|].
  destruct (s <? 0); [intros _; discriminate|].
  intros Hrow Hidx.
  rewrite forallb_forall in H.
  assert (Hin : In row MapKK).
  { apply list_elem_of_In. eapply list_elem_of_lookup_2. eassumption. }
  specialize (H row Hin). rewrite forallb_forall in H.
  assert (Hin' : In idx row).
  { apply list_elem_of_In. eapply list_elem_of_lookup_2. eassumption. }
  specialize (H idx Hin'). apply andb_prop in H. destruct H as [A B].
  apply Z.leb_le in A. apply Z.ltb_lt in B. lia.
Qed.

(** Without connected kings the encoder's king-pair index is below 462. *)
Lemma lead_index_unique2_standard v squares idx :
  connectedKings v = false ->
  lead_index_unique2 v squares = Some idx -> 0 <= idx < 462.
Proof.
  intros Hc. unfold lead_index_unique2. rewrite Hc.
  destruct (rd squares 0) as [s0|]; simpl; [|discriminate].
  destruct (rd squares 1) as [s1|]; simpl; [|discriminate].
  destruct (rd MapA1D1D4 s0) as [m|]; simpl; [|discriminate].
  destruct (rd MapKK m) as [row|] eqn:Er; simpl; [|discriminate].
  intros Hi. eapply MapKK_bound; eassumption.
Qed.

Lemma all_pairs_in_range :
  forallb (fun s0 => forallb (check_pair s0) all_squares) all_squares = true.
Proof. vm_compute. reflexivity. Qed.

Lemma lead_index_unique2_connected v s0 s1 rest :
  connectedKings v = true ->
  on_board s0 -> on_board s1 -> normalized2 s0 s1 = true ->
  exists idx,
    lead_index_unique2 v (s0 :: s1 :: rest) = Some idx /\ 0 <= idx < 518.
Proof.
  intros Hc H0 H1 Hn.
  pose proof all_pairs_in_range as C.
  rewrite forallb_forall in C. specialize (C s0 (on_board_In _ H0)).
  rewrite forallb_forall in C. specialize (C s1 (on_board_In _ H1)).
  unfold check_pair in C. rewrite Hn in C. simpl implb in C.
  assert (E : lead_index_unique2 v (s0 :: s1 :: rest)
              = lead_index_unique2 ATOMIC_VARIANT [s0; s1]).
  { unfold lead_index_unique2. rewrite Hc. reflexivity. }
  rewrite E.
  destruct (lead_index_unique2 ATOMIC_VARIANT [s0; s1]) as [idx|]; [|discriminate].
  apply andb_prop in C. destruct C as [A B].
  apply Z.leb_le in A. apply Z.ltb_lt in B. eauto.
Qed.

(** C7. The table KNNvK of the two-kings variant, a variant without
    connected kings whose tables are the standard ones: [set_groups] gives
    its leading group the factor 518 (the group indices become 1, 518 and
    518 * 1891), where the standard-chess table gets 462; the encoder takes
    the [MapKK] formula for this variant, all of whose codes are below 462
    (the last one, 461, is the one of the kings on d4 and h8). *)
Theorem set_groups_twokings_factor :
  connectedKings TWOKINGS_VARIANT = false
  /\ lead_factor (example_KNNvK TWOKINGS_VARIANT) 2 0 = Some 518
  /\ groups_of TWOKINGS_VARIANT
     = Some ([2; 2; 0; 0; 0; 0; 0; 0], [1; 518; 979538; 0; 0; 0; 0; 0])
  /\ groups_of CHESS_VARIANT
     = Some ([2; 2; 0; 0; 0; 0; 0; 0], [1; 462; 873642; 0; 0; 0; 0; 0])
  /\ forallb (forallb (fun code => (0 <=? code) && (code <? 462))) MapKK = true
  /\ lead_index_unique2 TWOKINGS_VARIANT [27; 63] = Some 461.
Proof.
  split; [reflexivity|].
  split; [reflexivity|].
  split; [vm_compute; reflexivity|].
  split; [vm_compute; reflexivity|].
  split; vm_compute; reflexivity.
Qed.

End KingPairFactor.

(** ** [TBFile::map] *)

Section FileMap.

Variable f : OsFile.
Variable mapping0 : Z.
Variable magic : list byte.

Hypothesis opened : os_open f = true.
Hypothesis whole : Z.of_nat (length (content f)) = st_size f.
Hypothesis four : length magic = 4%nat.

Lemma bytes_at_0_4 (m : list byte) :
  (4 <= length m)%nat -> bytes_at m 0 4 = Some (take 4 m).
Proof.
  intros H. unfold bytes_at. simpl. rewrite drop_0.
  rewrite length_take. rewrite Nat.min_l by lia. reflexivity.
Qed.

Lemma map_bad_size :
  Z.rem (st_size f) 64 <> 16 -> TBFile_map f mapping0 magic = Exited [CerrCorruptFile].
Proof.
  intros H. unfold TBFile_map. rewrite opened. simpl.
  destruct (Z.eqb_spec (Z.rem (st_size f) 64) 16); [contradiction | reflexivity].
Qed.

Lemma map_mmap_failed :
  Z.rem (st_size f) 64 = 16 -> os_mmap f = None ->
  TBFile_map f mapping0 magic = Exited [CerrMmapFailed].
Proof.
  intros H Hm. unfold TBFile_map. rewrite opened, H, Hm. reflexivity.
Qed.

Lemma size_at_least_4 : Z.rem (st_size f) 64 = 16 -> (4 <= length (content f))%nat.
Proof.
  intros H. assert (0 <= st_size f) by lia.
  pose proof (Z.rem_bound_pos (st_size f) 64).
  pose proof (Z.quot_rem' (st_size f) 64).
  pose proof (Z.quot_pos (st_size f) 64). lia.
Qed.

Lemma map_mapped base :
  Z.rem (st_size f) 64 = 16 -> os_mmap f = Some base ->
  TBFile_map f mapping0 magic
  = if bytes_equal (take 4 (content f)) magic
    then Returned {| ret := Some (base + 4); baseAddress := Some base;
                     mapping := st_size f |} []
    else Returned {| ret := None; baseAddress := None; mapping := st_size f |}
           [CerrCorruptTable; Munmap base (st_size f)].
Proof.
  intros H Hm. unfold TBFile_map. rewrite opened, H, Hm. simpl.
  rewrite (bytes_at_0_4 (content f)) by (apply size_at_least_4; assumption).
  rewrite (bytes_at_0_4 magic) by lia.
  rewrite (take_ge magic) by lia. reflexivity.
Qed.

End FileMap.

Section FileMapClaims.

(** C8, as stated, fails: a file of a good size whose [mmap] fails makes
    [map] exit, where the three-way case analysis promises a pointer. *)
Lemma TBFile_map_three_outcomes_fails :
  presented unmappable_file wdl_magic
  /\ ~ three_outcomes unmappable_file 0 wdl_magic.
Proof.
  split.
  - repeat split.
  - intros (_ & _ & H).
    destruct (H eq_refl eq_refl) as (base & m & E).
    vm_compute in E. discriminate.
Qed.

(** C8, amended. For a file that [::open] opened: a size that is not 16
    modulo 64 makes [map] exit with an error; otherwise a failing [mmap]
    makes it exit with an error; otherwise, when the first four bytes differ
    from the expected magic, [map] unmaps the file, sets the base address to
    null and returns null; otherwise it returns the address four bytes past
    the start of the mapping, which stays mapped. *)
Theorem TBFile_map_outcomes (f : OsFile) (mapping0 : Z) (magic : list byte) :
  presented f magic ->
  (Z.rem (st_size f) 64 <> 16 ->
   TBFile_map f mapping0 magic = Exited [CerrCorruptFile])
  /\ (Z.rem (st_size f) 64 = 16 -> os_mmap f = None ->
      TBFile_map f mapping0 magic = Exited [CerrMmapFailed])
  /\ (forall base,
        Z.rem (st_size f) 64 = 16 -> os_mmap f = Some base ->
        bytes_equal (take 4 (content f)) magic = false ->
        TBFile_map f mapping0 magic
        = Returned {| ret := None; baseAddress := None; mapping := st_size f |}
            [CerrCorruptTable; Munmap base (st_size f)])
  /\ (forall base,
        Z.rem (st_size f) 64 = 16 -> os_mmap f = Some base ->
        bytes_equal (take 4 (content f)) magic = true ->
        TBFile_map f mapping0 magic
        = Returned {| ret := Some (base + 4); baseAddress := Some base;
                      mapping := st_size f |} []).
Proof.
  intros (Ho & Hw & H4).
  split; [apply map_bad_size; assumption|].
  split; [apply map_mmap_failed; assumption|].
  split; intros base Hs Hm He;
    rewrite (map_mapped f mapping0 magic Ho Hw H4 base Hs Hm), He; reflexivity.
Qed.

Lemma TBFile_map_outcomes_witness :
  presented good_file wdl_magic
  /\ TBFile_map good_file 0 wdl_magic
     = Returned {| ret := Some (4096 + 4); baseAddress := Some 4096;
                   mapping := 80 |} [].
Proof.
  assert (P : presented good_file wdl_magic) by (repeat split).
  split; [exact P|].
  destruct (TBFile_map_outcomes good_file 0 wdl_magic P) as (_ & _ & _ & H).
  apply (H 4096); reflexivity.
Defined.

Example TBFile_map_wrong_magic :
  TBFile_map good_file 0 [xd7; x66; x0c; xa5]
  = Returned {| ret := None; baseAddress := None; mapping := 80 |}
      [CerrCorruptTable; Munmap 4096 80].
Proof. reflexivity. Qed.

End FileMapClaims.

(** ** The catalog: invariants of the Robin-Hood table *)

Section CatalogFacts.

Import CatalogInv.

Lemma land_le_l a b : 0 <= a -> Z.land a b <= a.
Proof.
  intros Ha.
  assert (Hz : Z.land (Z.ldiff a b) (Z.land a b) = 0).
  { apply Z.bits_inj'. intros n Hn.
    rewrite !Z.land_spec, Z.ldiff_spec, Z.bits_0.
    destruct (Z.testbit a n), (Z.testbit b n); reflexivity. }
  assert (E : a = Z.ldiff a b + Z.land a b).
  { rewrite Z.add_nocarry_lxor by exact Hz.
    rewrite Z.lxor_lor by exact Hz.
    symmetry. apply Z.lor_ldiff_and. }
  assert (0 <= Z.ldiff a b) by (apply Z.ldiff_nonneg; lia).
  lia.
Qed.

Variable Size : Z.
Hypothesis Size_pos : 1 <= Size.

Lemma home_bucket_range key : 0 <= home_bucket Size key < Size.
Proof.
  unfold home_bucket. split.
  - apply Z.land_nonneg. right. lia.
  - rewrite Z.land_comm. pose proof (land_le_l (Size - 1) (u32 key)). lia.
Qed.

Lemma rd_Some {A} (l : list A) i x :
  rd l i = Some x -> 0 <= i < Z.of_nat (length l).
Proof.
  unfold rd. destruct (Z.ltb_spec i 0); [discriminate|].
  intros Hl. apply lookup_lt_Some in Hl. lia.
Qed.

Lemma rd_in_range {A} (l : list A) i :
  0 <= i < Z.of_nat (length l) -> exists x, rd l i = Some x.
Proof.
  intros H. unfold rd. destruct (Z.ltb_spec i 0); [lia|].
  apply lookup_lt_is_Some_2. lia.
Qed.

Lemma rd_insert_eq {A} (l : list A) i x :
  0 <= i < Z.of_nat (length l) -> rd (<[Z.to_nat i := x]> l) i = Some x.
Proof.
  intros H. unfold rd. destruct (Z.ltb_spec i 0); [lia|].
  apply list_lookup_insert_eq. lia.
Qed.

Lemma rd_insert_ne {A} (l : list A) i j x :
  0 <= i -> i <> j -> rd (<[Z.to_nat i := x]> l) j = rd l j.
Proof.
  intros Hi H. unfold rd. destruct (Z.ltb_spec j 0); [reflexivity|].
  apply list_lookup_insert_ne. lia.
Qed.

Lemma clear_ok : table_ok Size (clear Size).
Proof.
  unfold clear, Overflow. split.
  - rewrite length_replicate. unfold Overflow. lia.
  - unfold rd. destruct (Z.ltb_spec Size 0); [lia|].
    apply lookup_replicate_2. lia.
  - intros i e H. left. unfold rd in H. destruct (i <? 0); [discriminate|].
    apply lookup_replicate in H. tauto.
Qed.

(** Writing a stored entry into a bucket between its home and the last
    bucket keeps the invariant. *)
Lemma write_ok hashTable bucket entry :
  table_ok Size hashTable -> stored entry ->
  home_bucket Size (e_key entry) <= bucket < Size ->
  table_ok Size (<[Z.to_nat bucket := entry]> hashTable).
Proof.
  intros [Hlen Hlast Hslots] Hst Hb.
  pose proof (home_bucket_range (e_key entry)) as Hh.
  split.
  - rewrite length_insert. exact Hlen.
  - rewrite rd_insert_ne by lia. exact Hlast.
  - intros i e Hi. destruct (Z.eq_dec bucket i) as [<-|Hne].
    + rewrite rd_insert_eq in Hi by (unfold Overflow in Hlen; lia).
      injection Hi as <-. right. split; [assumption | lia].
    + rewrite rd_insert_ne in Hi by lia. apply Hslots. exact Hi.
Qed.

(** One run of the loop of [insert]: it never leaves the array, and when it
    ends by storing, the invariant holds again. *)
Lemma insert_loop_ok (n : nat) :
  forall hashTable bucket entry,
    table_ok Size hashTable -> stored entry ->
    home_bucket Size (e_key entry) <= bucket ->
    bucket + Z.of_nat n = Size ->
    match insert_loop n Size hashTable bucket (e_key entry)
            (home_bucket Size (e_key entry)) entry with
    | Inserted hashTable' => table_ok Size hashTable'
    | HashFull => True
    | OutOfBounds => False
    end.
Proof.
  induction n as [|n IH]; intros hashTable bucket entry Hok Hst Hb Hn.
  - exact I.
  - cbn [insert_loop].
    pose proof (home_bucket_range (e_key entry)) as Hh.
    pose proof (ok_length _ _ Hok) as Hlen. unfold Overflow in Hlen.
    destruct (rd_in_range hashTable bucket) as [other Ho]; [lia|].
    rewrite Ho.
    destruct ((e_key other =? e_key entry) || (entry_get WDL other =? 0)) eqn:Ehit.
    + apply write_ok; [assumption | assumption | lia].
    + apply Bool.orb_false_iff in Ehit. destruct Ehit as [_ Hw].
      apply Z.eqb_neq in Hw. simpl in Hw.
      destruct (ok_slots _ _ Hok bucket other Ho) as [->|[Hso Hho]];
        [simpl in Hw; congruence|].
      destruct (Z.ltb_spec (home_bucket Size (e_key entry))
                           (home_bucket Size (e_key other))).
      * apply IH; [|assumption|lia|lia].
        apply write_ok; [assumption | assumption | lia].
      * apply IH; [assumption|assumption|lia|lia].
Qed.

Lemma insert_ok hashTable key wdl dtz :
  table_ok Size hashTable -> wdl <> 0 -> dtz <> 0 ->
  match TBTables_insert Size hashTable key wdl dtz with
  | Inserted hashTable' => table_ok Size hashTable'
  | HashFull => True
  | OutOfBounds => False
  end.
Proof.
  intros Hok Hw Hd. unfold TBTables_insert.
  pose proof (home_bucket_range key) as Hh.
  apply (insert_loop_ok _ hashTable (home_bucket Size key)
           {| e_key := key; e_wdl := wdl; e_dtz := dtz |});
    [assumption | split; assumption | simpl; lia | unfold Overflow; simpl; lia].
Qed.

Lemma insert_all_ok ins :
  forall hashTable,
    table_ok Size hashTable -> Forall nonnull ins ->
    match insert_all Size hashTable ins with
    | Inserted hashTable' => table_ok Size hashTable'
    | HashFull => True
    | OutOfBounds => False
    end.
Proof.
  induction ins as [|[[key wdl] dtz] ins IH]; intros hashTable Hok Hall.
  - exact Hok.
  - inversion Hall as [|? ? [Hw Hd] Hrest]; subst. simpl in Hw, Hd.
    cbn [insert_all].
    pose proof (insert_ok hashTable key wdl dtz Hok Hw Hd) as H1.
    destruct (TBTables_insert Size hashTable key wdl dtz); try exact H1.
    apply IH; assumption.
Qed.

(** The probe of [get] over a list that has a stopping entry at position
    [j]: it stops at or before [j], at an entry with the key asked for or
    with a null pointer. *)
Lemma get_loop_stops T key (entries : list Entry) :
  forall steps j stop,
    entries !! j = Some stop -> entry_get T stop = 0 ->
    exists p i e,
      get_loop T key entries steps = Some (p, steps + Z.of_nat i)
      /\ (i <= j)%nat /\ entries !! i = Some e /\ p = entry_get T e
      /\ (e_key e = key \/ entry_get T e = 0).
Proof.
  induction entries as [|entry rest IH]; intros steps j stop Hj Hstop.
  - rewrite lookup_nil in Hj. discriminate.
  - cbn [get_loop].
    destruct ((e_key entry =? key) || (entry_get T entry =? 0)) eqn:Ehit.
    + exists (entry_get T entry), 0%nat, entry.
      rewrite Z.add_0_r. repeat split; [lia|].
      apply Bool.orb_true_iff in Ehit.
      destruct Ehit as [H|H]; apply Z.eqb_eq in H; tauto.
    + destruct j as [|j].
      * simpl in Hj. injection Hj as ->.
        apply Bool.orb_false_iff in Ehit. destruct Ehit as [_ H].
        apply Z.eqb_neq in H. contradiction.
      * simpl in Hj.
        destruct (IH (steps + 1) j stop Hj Hstop) as (p & i & e & E & Hi & He & Hp & Hk).
        exists p, (S i), e.
        split; [rewrite E; do 2 f_equal; lia|].
        split; [lia|].
        split; [exact He|].
        split; assumption.
Qed.

Lemma get_ok hashTable T key :
  table_ok Size hashTable ->
  exists p steps e,
    get_loop T key (drop (Z.to_nat (home_bucket Size key)) hashTable) 0
    = Some (p, steps)
    /\ TBTables_get Size hashTable T key = Some p
    /\ 0 <= steps /\ home_bucket Size key + steps <= Size
    /\ rd hashTable (home_bucket Size key + steps) = Some e
    /\ p = entry_get T e
    /\ (e = empty_entry \/ (stored e /\ e_key e = key)).
Proof.
  intros Hok.
  pose proof (home_bucket_range key) as Hh.
  pose proof (ok_last _ _ Hok) as Hlast.
  set (h := Z.to_nat (home_bucket Size key)).
  assert (Hj : drop h hashTable !! (Z.to_nat Size - h)%nat = Some empty_entry).
  { rewrite lookup_drop. unfold rd in Hlast.
    destruct (Z.ltb_spec Size 0); [lia|].
    replace (h + (Z.to_nat Size - h))%nat with (Z.to_nat Size) by lia.
    exact Hlast. }
  destruct (get_loop_stops T key _ 0 _ empty_entry Hj)
    as (p & i & e & E & Hi & He & Hp & Hk); [destruct T; reflexivity|].
  rewrite lookup_drop in He.
  assert (Hrd : rd hashTable (home_bucket Size key + Z.of_nat i) = Some e).
  { unfold rd. destruct (Z.ltb_spec (home_bucket Size key + Z.of_nat i) 0); [lia|].
    replace (Z.to_nat (home_bucket Size key + Z.of_nat i)) with (h + i)%nat by lia.
    exact He. }
  exists p, (Z.of_nat i), e. simpl in E.
  split; [exact E|].
  split; [unfold TBTables_get; fold h; rewrite E; reflexivity|].
  split; [lia|]. split; [lia|]. split; [exact Hrd|]. split; [exact Hp|].
  destruct (ok_slots _ _ Hok _ e Hrd) as [->|[Hst _]]; [left; reflexivity|].
  right. split; [exact Hst|].
  destruct Hk as [Hk|Hk]; [exact Hk|].
  destruct Hst as [Hw Hd]. destruct T; simpl in Hk; congruence.
Qed.

End CatalogFacts.

Section CatalogClaim.

Import CatalogInv.

Lemma TBTables_Size_pos (ANTI : bool) : 1 <= TBTables_Size ANTI.
Proof. destruct ANTI; vm_compute; discriminate. Qed.

(** C9. After any sequence of insertions of non-null tables that completes
    without aborting, starting from the cleared table: the last (overflow)
    bucket still holds the empty entry, so it was never written; every
    probe of [get] ends inside the array, at an entry with the key asked
    for or at an empty bucket; and every stored entry is at a bucket at or
    after the home bucket of its key. *)
Theorem catalog_invariants (Size : Z) (ins : list (Z * Z * Z))
    (hashTable : list Entry) :
  1 <= Size ->
  Forall nonnull ins ->
  insert_all Size (clear Size) ins = Inserted hashTable ->
  rd hashTable Size = Some empty_entry
  /\ (forall T key, exists p steps e,
        get_loop T key (drop (Z.to_nat (home_bucket Size key)) hashTable) 0
        = Some (p, steps)
        /\ TBTables_get Size hashTable T key = Some p
        /\ 0 <= steps /\ home_bucket Size key + steps <= Size
        /\ rd hashTable (home_bucket Size key + steps) = Some e
        /\ p = entry_get T e
        /\ (e = empty_entry \/ (stored e /\ e_key e = key)))
  /\ (forall i e, rd hashTable i = Some e -> e <> empty_entry ->
        stored e /\ home_bucket Size (e_key e) <= i < Size).
Proof.
  intros HS Hall Hins.
  pose proof (insert_all_ok Size HS ins (clear Size) (clear_ok Size HS) Hall) as Hok.
  rewrite Hins in Hok.
  split; [exact (ok_last _ _ Hok)|].
  split; [intros T key; apply get_ok; assumption|].
  intros i e Hi Hne.
  destruct (ok_slots _ _ Hok i e Hi) as [->|H]; [contradiction | exact H].
Qed.

(** The insertions never read or write outside the array, whatever their
    number: the only failure is the abort for a full table. *)
Lemma insert_all_in_bounds (Size : Z) (ins : list (Z * Z * Z)) :
  1 <= Size -> Forall nonnull ins ->
  insert_all Size (clear Size) ins <> OutOfBounds.
Proof.
  intros HS Hall E.
  pose proof (insert_all_ok Size HS ins (clear Size) (clear_ok Size HS) Hall) as Hok.
  rewrite E in Hok. exact Hok.
Qed.

Lemma catalog_invariants_witness :
  rd example_table 4 = Some empty_entry
  /\ (forall T key, exists p steps e,
        get_loop T key (drop (Z.to_nat (home_bucket 4 key)) example_table) 0
        = Some (p, steps)
        /\ TBTables_get 4 example_table T key = Some p
        /\ 0 <= steps /\ home_bucket 4 key + steps <= 4
        /\ rd example_table (home_bucket 4 key + steps) = Some e
        /\ p = entry_get T e
        /\ (e = empty_entry \/ (stored e /\ e_key e = key)))
  /\ (forall i e, rd example_table i = Some e -> e <> empty_entry ->
        stored e /\ home_bucket 4 (e_key e) <= i < 4).
Proof.
  apply (catalog_invariants 4 example_insertions example_table).
  - lia.
  - repeat constructor; simpl; discriminate.
  - reflexivity.
Defined.

Example overfull_table_aborts :
  insert_all 4 (clear 4) [(3, 1, 1); (7, 2, 2)] = HashFull.
Proof. reflexivity. Qed.

End CatalogClaim.

(** ** The probe driver *)

Lemma ps_eqb_eq a b : ps_eqb a b = true <-> a = b.
Proof. destruct a, b; simpl; split; intros H; congruence. Qed.

Lemma ps_eqb_neq a b : ps_eqb a b = false <-> a <> b.
Proof. destruct a, b; simpl; split; intros H; congruence. Qed.

Lemma wdl_eqb_eq a b : wdl_eqb a b = true <-> a = b.
Proof. destruct a, b; cbn; split; intros H; congruence. Qed.

(** One step through a definition written with binds and conditionals. *)
Ltac bind_step H :=
  match type of H with
  | (match ?m with _ => _ end) = Some _ =>
      let E := fresh "E" in
      destruct m eqn:E; try discriminate H
  | (?m ≫= _) = Some _ =>
      let E := fresh "E" in
      destruct m eqn:E; [cbn [mbind option_bind] in H | discriminate H]
  | (let '(_, _) := ?p in _) = Some _ => destruct p
  end.

Section DriverFacts.

Context {Position Move : Type}.
Context `{PO : PositionOps Position Move} `{TO : TableOps Position}.

(** *** A failed probe carries the draw value *)

(** [probe_table] reports [FAIL] only by its own [return *result = FAIL,
    Ret()], that is, with the value-initialised score, when the catalog has
    no table for the material or the table's file is not mapped. *)
Lemma probe_table_wdl_fail pos result v :
  probe_table_wdl pos result = Some (v, FAIL) -> result <> FAIL ->
  v = WDLDraw
  /\ exists entry,
       TBTables_get hash_Size hashTable WDL (material_key pos) = Some entry
       /\ (entry = 0 \/ mapped WDL entry pos = 0).
Proof.
  unfold probe_table_wdl. intros H Hr.
  destruct (is_variant_end pos); [injection H as _ Hres; contradiction|].
  destruct (negb (variant_eqb (pos_variant pos) CHESS_VARIANT)
            && negb (nonempty (legal_moves pos)));
    [injection H as _ Hres; contradiction|].
  destruct (negb (is_anti pos) && (count_all pos =? 2));
    [injection H as _ Hres; contradiction|].
  destruct (TBTables_get hash_Size hashTable WDL (material_key pos))
    as [entry|] eqn:Eget; [|discriminate].
  cbn [mbind option_bind] in H.
  destruct ((entry =? 0) || (mapped WDL entry pos =? 0)) eqn:Ec.
  - injection H as <-. split; [reflexivity|]. exists entry. split; [reflexivity|].
    apply Bool.orb_true_iff in Ec.
    destruct Ec as [Ec|Ec]; apply Z.eqb_eq in Ec; tauto.
  - injection H as _ Hres. contradiction.
Qed.

Lemma probe_table_dtz_fail pos result wdl v :
  probe_table_dtz pos result wdl = Some (v, FAIL) -> result <> FAIL ->
  v = 0.
Proof.
  unfold probe_table_dtz. intros H Hr.
  destruct (is_variant_end pos); [injection H as _ Hres; contradiction|].
  destruct (negb (variant_eqb (pos_variant pos) CHESS_VARIANT)
            && negb (nonempty (legal_moves pos)));
    [injection H as _ Hres; contradiction|].
  destruct (negb (is_anti pos) && (count_all pos =? 2));
    [injection H as _ Hres; contradiction|].
  destruct (TBTables_get hash_Size hashTable DTZ (material_key pos))
    as [entry|]; [|discriminate].
  cbn [mbind option_bind] in H.
  destruct ((entry =? 0) || (mapped DTZ entry pos =? 0)).
  - injection H as <-. reflexivity.
  - destruct (do_probe_table_dtz pos entry wdl).
    + injection H as _ Hres. contradiction.
    + discriminate.
Qed.

Lemma captures_loop_out (rec : SProbe) pos moves :
  forall alpha beta result out,
    captures_loop rec pos moves alpha beta result = Some out ->
    match out with
    | inl o => o = (WDLDraw, FAIL)
    | inr (_, r) => r = FAIL -> result = FAIL
    end.
Proof.
  induction moves as [|move rest IH]; intros alpha beta result out H.
  - injection H as <-. tauto.
  - cbn [captures_loop] in H. bind_step H. destruct p as [v0 r].
    destruct (ps_eqb r FAIL) eqn:Ef.
    + apply ps_eqb_eq in Ef. subst r. injection H as <-. reflexivity.
    + apply ps_eqb_neq in Ef.
      destruct (wdl_ltb alpha (wdl_neg v0)).
      * destruct (wdl_leb beta (wdl_neg v0)).
        -- injection H as <-. intros ->. contradiction.
        -- specialize (IH _ _ _ _ H). destruct out as [o|[a r']]; [assumption|].
           intros Hr. specialize (IH Hr). contradiction.
      * specialize (IH _ _ _ _ H). destruct out as [o|[a r']]; [assumption|].
        intros Hr. specialize (IH Hr). contradiction.
Qed.

Lemma threat_loop_out (rec : SProbe) pos moves :
  forall alpha beta tf result out,
    threat_loop rec pos moves alpha beta tf result = Some out ->
    match out with
    | inl o => fail_is_draw o
    | inr _ => True
    end.
Proof.
  induction moves as [|move rest IH]; intros alpha beta tf result out H.
  - injection H as <-. exact I.
  - cbn [threat_loop] in H. bind_step H. destruct p as [v0 r].
    destruct (ps_eqb r FAIL) eqn:Ef.
    + injection H as <-. intros _. reflexivity.
    + destruct (ps_eqb r ZEROING_BEST_MOVE && wdl_ltb alpha (wdl_neg v0)).
      * destruct (wdl_leb beta (wdl_neg v0)).
        -- injection H as <-. intros Hf. discriminate Hf.
        -- exact (IH _ _ _ _ _ H).
      * exact (IH _ _ _ _ _ H).
Qed.

Lemma sprobe_fail (fuel : nat) :
  (forall pos alpha beta result out,
      sprobe_captures fuel pos alpha beta result = Some out -> fail_is_draw out)
  /\ (forall Threats pos alpha beta result out,
        sprobe_ab fuel Threats pos alpha beta result = Some out -> fail_is_draw out).
Proof.
  induction fuel as [|fuel [IHc IHa]]; [split; intros; discriminate|].
  split.
  - intros pos alpha beta result out H. cbn [sprobe_captures] in H.
    bind_step H. pose proof (captures_loop_out _ _ _ _ _ _ _ E) as Hl.
    destruct s as [o|[a r]].
    + injection H as <-. subst o. intros _. reflexivity.
    + injection H as <-. intros Hf. simpl in Hf.
      destruct (nonempty (capture_moves pos)); [discriminate|].
      specialize (Hl Hf). discriminate.
  - intros Threats pos alpha beta result out H. cbn [sprobe_ab] in H.
    bind_step H. destruct s as [o|r1].
    + injection H as <-.
      destruct (1 <? popcount_them pos).
      * bind_step E. destruct p as [v r].
        destruct (ps_eqb r ZEROING_BEST_MOVE || ps_eqb r FAIL);
          [|discriminate].
        injection E as <-. exact (IHc _ _ _ _ _ E0).
      * destruct (nonempty (capture_moves pos)); [|discriminate].
        injection E as <-. intros Hf. discriminate.
    + bind_step H. destruct s as [o|[[a tf] r2]].
      * injection H as <-.
        destruct (Threats || (6 <=? popcount_all pos)); [|discriminate].
        exact (threat_loop_out _ _ _ _ _ _ _ _ E0).
      * bind_step H. destruct p as [v r].
        destruct (ps_eqb r FAIL) eqn:Ef.
        -- injection H as <-. intros _. reflexivity.
        -- apply ps_eqb_neq in Ef.
           destruct (wdl_ltb a v).
           ++ injection H as <-. intros Hf. simpl in Hf. contradiction.
           ++ injection H as <-. intros Hf. simpl in Hf.
              destruct tf; [discriminate | contradiction].
Qed.

Lemma search_loop_out (rec : Search) czm pos moves :
  forall bestValue moveCount result out,
    search_loop rec czm pos moves bestValue moveCount result = Some out ->
    match out with
    | inl o => fail_is_draw o
    | inr _ => True
    end.
Proof.
  induction moves as [|move rest IH]; intros bestValue moveCount result out H.
  - injection H as <-. exact I.
  - cbn [search_loop] in H.
    destruct (negb (capture pos move) && (negb czm || negb (moved_pawn pos move))).
    + exact (IH _ _ _ _ H).
    + bind_step H. destruct p as [v0 r].
      destruct (ps_eqb r FAIL).
      * injection H as <-. intros _. reflexivity.
      * destruct (wdl_ltb bestValue (wdl_neg v0)).
        -- destruct (wdl_leb WDLWin (wdl_neg v0)).
           ++ injection H as <-. intros Hf. discriminate.
           ++ exact (IH _ _ _ _ H).
        -- exact (IH _ _ _ _ H).
Qed.

Lemma search_fail (fuel : nat) czm pos result out :
  search fuel czm pos result = Some out -> fail_is_draw out.
Proof.
  destruct fuel as [|fuel]; [discriminate|]. cbn [search]. intros H.
  destruct (is_anti pos).
  - exact (proj2 (sprobe_fail fuel) _ _ _ _ _ _ H).
  - bind_step H. pose proof (search_loop_out _ _ _ _ _ _ _ _ E) as Hl.
    destruct s as [o|[[bv mc] r]].
    + injection H as <-. exact Hl.
    + bind_step H. destruct p as [v r'].
      destruct (negb (negb (mc =? 0) && (mc =? Z.of_nat (length (legal_moves pos))))
                && ps_eqb r' FAIL).
      * injection H as <-. intros _. reflexivity.
      * destruct (wdl_leb v bv).
        -- injection H as <-. intros Hf. simpl in Hf.
           destruct (wdl_ltb WDLDraw bv || _); discriminate.
        -- injection H as <-. intros Hf. discriminate.
Qed.

Lemma dtz_loop_out (rs : Search) (rd : Position -> option (Z * ProbeState))
    pos wdl moves :
  forall minDTZ result out,
    dtz_loop rs rd pos wdl moves minDTZ result = Some out ->
    match out with
    | inl o => o = (0, FAIL)
    | inr (_, r) => r = FAIL -> result = FAIL
    end.
Proof.
  induction moves as [|move rest IH]; intros minDTZ result out H.
  - injection H as <-. tauto.
  - cbn [dtz_loop] in H. bind_step H. destruct p as [dtz r].
    destruct (ps_eqb r FAIL) eqn:Ef.
    + apply ps_eqb_eq in Ef. subst r. injection H as <-. reflexivity.
    + apply ps_eqb_neq in Ef. specialize (IH _ _ _ H).
      destruct out as [o|[m r']]; [assumption|].
      intros Hr. specialize (IH Hr). contradiction.
Qed.

Lemma probe_dtz_fail (fuel : nat) pos v :
  probe_dtz fuel pos = Some (v, FAIL) -> v = 0.
Proof.
  destruct fuel as [|fuel]; [discriminate|]. cbn [probe_dtz]. intros H.
  bind_step H. destruct p as [wdl r].
  destruct (ps_eqb r FAIL || wdl_eqb wdl WDLDraw) eqn:E1.
  { injection H as <- _. reflexivity. }
  apply Bool.orb_false_iff in E1. destruct E1 as [Er _].
  apply ps_eqb_neq in Er.
  destruct (ps_eqb r ZEROING_BEST_MOVE); [injection H as _ ->; contradiction|].
  destruct (is_anti pos && only_pawns pos); [injection H as _ ->; contradiction|].
  destruct (is_anti pos && ps_eqb r THREAT && wdl_ltb WDLDraw wdl);
    [injection H as _ ->; contradiction|].
  bind_step H. destruct p as [dtz r'].
  destruct (ps_eqb r' FAIL) eqn:Ef.
  { injection H as <- _. reflexivity. }
  apply ps_eqb_neq in Ef.
  destruct (negb (ps_eqb r' CHANGE_STM)); [injection H as _ ->; contradiction|].
  bind_step H. pose proof (dtz_loop_out _ _ _ _ _ _ _ _ E1) as Hl.
  destruct s as [o|[m r'']].
  - subst o. injection H as <-. reflexivity.
  - injection H as _ ->. specialize (Hl eq_refl). contradiction.
Qed.

End DriverFacts.

Section DriverResults.

Context {Position Move : Type}.
Context `{PO : PositionOps Position Move} `{TO : TableOps Position}.

(** *** [probe_dtz] after the zeroing-aware search *)

Lemma probe_dtz_draw (fuel : nat) pos result :
  search fuel true pos OK = Some (WDLDraw, result) ->
  probe_dtz fuel pos = Some (0, result).
Proof.
  destruct fuel as [|fuel]; [discriminate|]. intros H.
  cbn [probe_dtz]. rewrite H. cbn [mbind option_bind].
  rewrite Bool.orb_true_r. reflexivity.
Qed.

Lemma dtz_before_zeroing_values wdl :
  wdl <> WDLDraw ->
  dtz_before_zeroing wdl = 1 \/ dtz_before_zeroing wdl = 101
  \/ dtz_before_zeroing wdl = -101 \/ dtz_before_zeroing wdl = -1.
Proof. destruct wdl; cbn; intros H; try tauto. Qed.

Lemma dtz_before_zeroing_sign wdl :
  sign_of (dtz_before_zeroing wdl) = sign_of (wdl_int wdl).
Proof. destruct wdl; reflexivity. Qed.

Lemma probe_dtz_zeroing (fuel : nat) pos wdl :
  search fuel true pos OK = Some (wdl, ZEROING_BEST_MOVE) ->
  probe_dtz fuel pos = Some (dtz_before_zeroing wdl, ZEROING_BEST_MOVE).
Proof.
  destruct fuel as [|fuel]; [discriminate|]. intros H.
  cbn [probe_dtz]. rewrite H. cbn [mbind option_bind].
  destruct wdl; reflexivity.
Qed.

(** A position without legal moves: [search] is the table probe, with the
    state [OK] unless the probe fails. *)
Lemma search_no_moves (fuel : nat) czm pos v r :
  is_anti pos = false -> legal_moves pos = [] ->
  probe_table_wdl pos OK = Some (v, r) -> r <> FAIL ->
  search (S fuel) czm pos OK = Some (v, OK).
Proof.
  intros Ha Hm Hp Hr. cbn [search]. rewrite Ha, Hm.
  cbn [search_loop mbind option_bind length]. simpl negb. simpl andb.
  rewrite Hp. cbn [mbind option_bind].
  apply ps_eqb_neq in Hr. rewrite Hr.
  destruct v; reflexivity.
Qed.

(** In standard chess, a mated position whose WDL table holds a loss and
    whose DTZ table either is stored for the other side or holds the
    distance 1 gets the DTZ value -1. *)
Lemma probe_dtz_mate_standard (fuel : nat) pos dtz r :
  is_anti pos = false -> legal_moves pos = [] ->
  probe_table_wdl pos OK = Some (WDLLoss, OK) ->
  probe_table_dtz pos OK WDLLoss = Some (dtz, r) ->
  r = CHANGE_STM \/ (r = OK /\ dtz = 1) ->
  probe_dtz (S fuel) pos = Some (-1, r).
Proof.
  intros Ha Hm Hw Hd Hr. cbn [probe_dtz].
  rewrite (search_no_moves fuel true pos WDLLoss OK Ha Hm Hw) by discriminate.
  cbn [mbind option_bind]. rewrite Ha. simpl.
  rewrite Hd. cbn [mbind option_bind].
  destruct Hr as [->|[-> ->]].
  - simpl. rewrite Hm. reflexivity.
  - reflexivity.
Qed.

(** Where the table is probed directly and holds a positive distance, the
    result has the sign of the score found by the search. *)
Lemma probe_dtz_direct_sign (fuel : nat) pos wdl r dtz r' :
  search (S fuel) true pos OK = Some (wdl, r) ->
  r <> FAIL -> wdl <> WDLDraw -> r <> ZEROING_BEST_MOVE -> is_anti pos = false ->
  probe_table_dtz pos r wdl = Some (dtz, r') ->
  r' <> FAIL -> r' <> CHANGE_STM -> 1 <= dtz ->
  exists v,
    probe_dtz (S fuel) pos = Some (v, r')
    /\ sign_of v = sign_of (wdl_int wdl).
Proof.
  intros Hs Hr Hw Hz Ha Hp Hf Hc Hd. cbn [probe_dtz].
  rewrite Hs. cbn [mbind option_bind].
  apply ps_eqb_neq in Hr, Hz, Hf, Hc. rewrite Hr, Hz, Ha.
  assert (Ew : wdl_eqb wdl WDLDraw = false).
  { destruct (wdl_eqb wdl WDLDraw) eqn:E; [|reflexivity].
    apply wdl_eqb_eq in E. contradiction. }
  rewrite Ew. simpl. rewrite Hp. cbn [mbind option_bind]. rewrite Hf, Hc.
  simpl. eexists. split; [reflexivity|].
  destruct wdl; try contradiction; unfold sign_of; cbn;
    repeat match goal with
           | |- context [?a <? ?b] => destruct (Z.ltb_spec a b)
           end; lia.
Qed.

(** *** The end positions of the variants *)

(** A position of a variant other than standard chess in which the side to
    move has no legal move, is in check, and for which [checkmate_value] is
    negative: the WDL probe reports the loss, and the DTZ probe the value
    +1. [probe_table<DTZ>] answers -1 through [result_to_score], and
    [probe_dtz] multiplies that by the sign of the loss. *)
Lemma variant_mate_probe (fuel : nat) pos :
  is_anti pos = false -> is_variant_end pos = false ->
  pos_variant pos <> CHESS_VARIANT ->
  legal_moves pos = [] -> checkers pos = true -> checkmate_value pos < 0 ->
  probe_wdl (S fuel) pos = Some (WDLLoss, OK)
  /\ probe_table_dtz pos OK WDLLoss = Some (-1, OK)
  /\ probe_dtz (S fuel) pos = Some (1, OK).
Proof.
  intros Ha He Hv Hm Hc Hval.
  assert (Hne : variant_eqb (pos_variant pos) CHESS_VARIANT = false).
  { destruct (variant_eqb (pos_variant pos) CHESS_VARIANT) eqn:E; [|reflexivity].
    apply variant_eqb_eq in E. contradiction. }
  assert (Hw : probe_table_wdl pos OK = Some (WDLLoss, OK)).
  { unfold probe_table_wdl, end_value, result_to_score_wdl.
    rewrite He, Hne, Hm, Hc. simpl.
    destruct (Z.ltb_spec 0 (checkmate_value pos)); [lia|].
    destruct (Z.ltb_spec (checkmate_value pos) 0); [reflexivity|lia]. }
  assert (Hd : probe_table_dtz pos OK WDLLoss = Some (-1, OK)).
  { unfold probe_table_dtz, end_value, result_to_score_dtz.
    rewrite He, Hne, Hm, Hc. simpl.
    destruct (Z.ltb_spec 0 (checkmate_value pos)); [lia|].
    destruct (Z.ltb_spec (checkmate_value pos) 0); [reflexivity|lia]. }
  split; [|split; [exact Hd|]].
  - unfold probe_wdl. apply (search_no_moves fuel false pos WDLLoss OK); try assumption.
    discriminate.
  - cbn [probe_dtz].
    rewrite (search_no_moves fuel true pos WDLLoss OK Ha Hm Hw) by discriminate.
    cbn [mbind option_bind]. rewrite Ha. simpl.
    rewrite Hd. reflexivity.
Qed.

End DriverResults.

(** *** Termination of the driver *)

Section DriverTermination.

Import Termination CatalogInv.

Context {Position Move : Type}.
Context `{PO : PositionOps Position Move} `{TO : TableOps Position}.

Lemma captures_loop_total (rec : SProbe) pos moves :
  (forall m, In m moves -> forall a b r, is_Some (rec (do_move pos m) a b r)) ->
  forall alpha beta result,
    is_Some (captures_loop rec pos moves alpha beta result).
Proof.
  induction moves as [|move rest IH]; intros Hrec alpha beta result.
  - eexists. reflexivity.
  - cbn [captures_loop].
    destruct (Hrec move (or_introl eq_refl) (wdl_neg beta) (wdl_neg alpha) result)
      as [[v0 r] ->].
    cbn [mbind option_bind].
    assert (Hrest : forall m, In m rest ->
                     forall a b r, is_Some (rec (do_move pos m) a b r))
      by (intros m Hm; apply Hrec; right; exact Hm).
    destruct (ps_eqb r FAIL); [eexists; reflexivity|].
    destruct (wdl_ltb alpha (wdl_neg v0)); [|apply IH; exact Hrest].
    destruct (wdl_leb beta (wdl_neg v0)); [eexists; reflexivity|].
    apply IH; exact Hrest.
Qed.

Lemma threat_loop_total (rec : SProbe) pos moves :
  (forall m, In m moves -> forall a b r, is_Some (rec (do_move pos m) a b r)) ->
  forall alpha beta tf result,
    is_Some (threat_loop rec pos moves alpha beta tf result).
Proof.
  induction moves as [|move rest IH]; intros Hrec alpha beta tf result.
  - eexists. reflexivity.
  - cbn [threat_loop].
    destruct (Hrec move (or_introl eq_refl) (wdl_neg beta) (wdl_neg alpha) result)
      as [[v0 r] ->].
    cbn [mbind option_bind].
    assert (Hrest : forall m, In m rest ->
                     forall a b r, is_Some (rec (do_move pos m) a b r))
      by (intros m Hm; apply Hrec; right; exact Hm).
    destruct (ps_eqb r FAIL); [eexists; reflexivity|].
    destruct (ps_eqb r ZEROING_BEST_MOVE && wdl_ltb alpha (wdl_neg v0));
      [|apply IH; exact Hrest].
    destruct (wdl_leb beta (wdl_neg v0)); [eexists; reflexivity|].
    apply IH; exact Hrest.
Qed.

Lemma search_loop_total (rec : Search) czm pos moves :
  (forall m, In m moves -> followed czm pos m = true ->
             forall r, is_Some (rec (do_move pos m) r)) ->
  forall bestValue moveCount result,
    is_Some (search_loop rec czm pos moves bestValue moveCount result).
Proof.
  induction moves as [|move rest IH]; intros Hrec bestValue moveCount result.
  - eexists. reflexivity.
  - cbn [search_loop].
    assert (Hrest : forall m, In m rest -> followed czm pos m = true ->
                     forall r, is_Some (rec (do_move pos m) r))
      by (intros m Hm; apply Hrec; right; exact Hm).
    destruct (negb (capture pos move) && (negb czm || negb (moved_pawn pos move)))
      eqn:Eskip; [apply IH; exact Hrest|].
    assert (Hf : followed czm pos move = true).
    { unfold followed. destruct (capture pos move), czm, (moved_pawn pos move);
        simpl in *; congruence. }
    destruct (Hrec move (or_introl eq_refl) Hf result) as [[v0 r] ->].
    cbn [mbind option_bind].
    destruct (ps_eqb r FAIL); [eexists; reflexivity|].
    destruct (wdl_ltb bestValue (wdl_neg v0)); [|apply IH; exact Hrest].
    destruct (wdl_leb WDLWin (wdl_neg v0)); [eexists; reflexivity|].
    apply IH; exact Hrest.
Qed.

Lemma dtz_loop_total (rs : Search) (rdz : Position -> option (Z * ProbeState))
    pos wdl moves :
  (forall m, In m moves -> capture pos m || moved_pawn pos m = true ->
             forall r, is_Some (rs (do_move pos m) r)) ->
  (forall m, In m moves -> capture pos m || moved_pawn pos m = false ->
             is_Some (rdz (do_move pos m))) ->
  forall minDTZ result,
    is_Some (dtz_loop rs rdz pos wdl moves minDTZ result).
Proof.
  induction moves as [|move rest IH]; intros Hs Hd minDTZ result.
  - eexists. reflexivity.
  - cbn [dtz_loop].
    assert (Hs' : forall m, In m rest -> capture pos m || moved_pawn pos m = true ->
                   forall r, is_Some (rs (do_move pos m) r))
      by (intros m Hm; apply Hs; right; exact Hm).
    assert (Hd' : forall m, In m rest -> capture pos m || moved_pawn pos m = false ->
                   is_Some (rdz (do_move pos m)))
      by (intros m Hm; apply Hd; right; exact Hm).
    destruct (capture pos move || moved_pawn pos move) eqn:Ez.
    + destruct (Hs move (or_introl eq_refl) Ez result) as [[w r] ->].
      cbn [mbind option_bind].
      destruct (ps_eqb r FAIL); [eexists; reflexivity|].
      apply IH; assumption.
    + destruct (Hd move (or_introl eq_refl) Ez) as [[dz r] ->].
      cbn [mbind option_bind].
      destruct (ps_eqb r FAIL); [eexists; reflexivity|].
      apply IH; assumption.
Qed.

Hypothesis WF : shrinking_model.

Lemma probe_table_wdl_total pos result : is_Some (probe_table_wdl pos result).
Proof.
  unfold probe_table_wdl.
  destruct (is_variant_end pos); [eexists; reflexivity|].
  destruct (negb _ && negb _); [eexists; reflexivity|].
  destruct (negb _ && _); [eexists; reflexivity|].
  destruct (catalog_ok WF) as [HS Hok].
  destruct (get_ok hash_Size HS hashTable WDL (material_key pos) Hok)
    as (p & steps & e & _ & -> & _).
  cbn [mbind option_bind].
  destruct ((p =? 0) || _); eexists; reflexivity.
Qed.

Lemma probe_table_dtz_total pos result wdl :
  is_Some (probe_table_dtz pos result wdl).
Proof.
  unfold probe_table_dtz.
  destruct (is_variant_end pos); [eexists; reflexivity|].
  destruct (negb _ && negb _); [eexists; reflexivity|].
  destruct (negb _ && _); [eexists; reflexivity|].
  destruct (catalog_ok WF) as [HS Hok].
  destruct (get_ok hash_Size HS hashTable DTZ (material_key pos) Hok)
    as (p & steps & e & _ & -> & _).
  cbn [mbind option_bind].
  destruct ((p =? 0) || _); [eexists; reflexivity|].
  destruct (do_probe_table_dtz pos p wdl); eexists; reflexivity.
Qed.

Lemma sprobe_captures_S fuel pos alpha beta result :
  sprobe_captures (S fuel) pos alpha beta result
  = (r ← captures_loop (sprobe_ab fuel false) pos (capture_moves pos)
           alpha beta OK;
     match r with
     | inl out => Some out
     | inr (alpha, result) =>
         Some (alpha, if nonempty (capture_moves pos)
                      then ZEROING_BEST_MOVE else result)
     end).
Proof. reflexivity. Qed.

Lemma sprobe_captures_step fuel (n : Z) :
  (forall T pos a b r, count_all pos <= n - 1 ->
                       is_Some (sprobe_ab fuel T pos a b r)) ->
  forall pos a b r, count_all pos <= n ->
                    is_Some (sprobe_captures (S fuel) pos a b r).
Proof.
  intros Hab pos a b r Hn. rewrite sprobe_captures_S.
  destruct (captures_loop_total (sprobe_ab fuel false) pos (capture_moves pos))
    with (alpha := a) (beta := b) (result := OK) as [out ->].
  { intros m Hm a' b' r'. apply Hab.
    pose proof (captures_shrink WF pos m Hm). lia. }
  cbn [mbind option_bind]. destruct out as [o|[a' r']]; eexists; reflexivity.
Qed.

Lemma sprobe_ab_step fuel (n : Z) :
  (forall pos a b r, count_all pos <= n ->
                     is_Some (sprobe_captures fuel pos a b r)) ->
  forall T pos a b r, count_all pos <= n ->
                      is_Some (sprobe_ab (S fuel) T pos a b r).
Proof.
  intros Hc T pos a b r Hn. cbn [sprobe_ab].
  destruct (Hc pos a b r Hn) as [[v r1] E1].
  match goal with
  | |- is_Some (?first ≫= _) =>
      assert (Hfirst : is_Some first)
  end.
  { destruct (1 <? popcount_them pos).
    - match goal with |- is_Some (?m ≫= _) => replace m with (Some (v, r1)) end.
      cbn [mbind option_bind].
      destruct (ps_eqb r1 ZEROING_BEST_MOVE || ps_eqb r1 FAIL);
        eexists; reflexivity.
    - destruct (nonempty (capture_moves pos)); eexists; reflexivity. }
  destruct Hfirst as [first ->]. cbn [mbind option_bind].
  destruct first as [o|r2]; [eexists; reflexivity|].
  match goal with
  | |- is_Some (?second ≫= _) =>
      assert (Hsecond : is_Some second)
  end.
  { destruct (T || (6 <=? popcount_all pos)); [|eexists; reflexivity].
    apply threat_loop_total. intros m Hm a' b' r'. apply Hc.
    pose proof (no_growth WF pos m Hm). lia. }
  destruct Hsecond as [second ->]. cbn [mbind option_bind].
  destruct second as [o|[[a' tf] r3]]; [eexists; reflexivity|].
  destruct (probe_table_wdl_total pos OK) as [[v' r'] ->].
  cbn [mbind option_bind].
  destruct (ps_eqb r' FAIL); [eexists; reflexivity|].
  destruct (wdl_ltb a' v'); eexists; reflexivity.
Qed.

(** The antichess search returns for every position, given two units of
    fuel per piece on the board. *)
Lemma sprobe_total (n : nat) :
  (forall fuel pos alpha beta result,
      count_all pos <= Z.of_nat n -> (2 * n + 1 <= fuel)%nat ->
      is_Some (sprobe_captures fuel pos alpha beta result))
  /\ (forall fuel Threats pos alpha beta result,
        count_all pos <= Z.of_nat n -> (2 * n + 2 <= fuel)%nat ->
        is_Some (sprobe_ab fuel Threats pos alpha beta result)).
Proof.
  assert (Hstep : forall n : nat,
    (forall fuel pos alpha beta result,
        count_all pos <= Z.of_nat n -> (2 * n + 1 <= fuel)%nat ->
        is_Some (sprobe_captures fuel pos alpha beta result)) ->
    forall fuel Threats pos alpha beta result,
      count_all pos <= Z.of_nat n -> (2 * n + 2 <= fuel)%nat ->
      is_Some (sprobe_ab fuel Threats pos alpha beta result)).
  { intros k Hc fuel T pos a b r Hn Hf.
    destruct fuel as [|fuel]; [lia|].
    apply (sprobe_ab_step fuel (Z.of_nat k)); [|exact Hn].
    intros p a' b' r' Hp. apply Hc; [exact Hp | lia]. }
  induction n as [|n [IHc IHa]].
  - assert (Hc : forall fuel pos alpha beta result,
               count_all pos <= Z.of_nat 0 -> (2 * 0 + 1 <= fuel)%nat ->
               is_Some (sprobe_captures fuel pos alpha beta result)).
    { intros fuel pos a b r Hn Hf. destruct fuel as [|fuel]; [lia|].
      apply (sprobe_captures_step fuel 0); [|exact Hn].
      intros T p a' b' r' Hp. pose proof (count_nonneg WF p). lia. }
    split; [exact Hc | exact (Hstep 0%nat Hc)].
  - assert (Hc : forall fuel pos alpha beta result,
               count_all pos <= Z.of_nat (S n) -> (2 * S n + 1 <= fuel)%nat ->
               is_Some (sprobe_captures fuel pos alpha beta result)).
    { intros fuel pos a b r Hn Hf. destruct fuel as [|fuel]; [lia|].
      apply (sprobe_captures_step fuel (Z.of_nat (S n))); [|exact Hn].
      intros T p a' b' r' Hp. apply IHa; lia. }
    split; [exact Hc | exact (Hstep (S n) Hc)].
Qed.

Lemma search_step fuel czm (n : Z) :
  (forall T pos a b r, count_all pos <= n ->
                       is_Some (sprobe_ab fuel T pos a b r)) ->
  (forall pos m r, count_all pos <= n -> In m (legal_moves pos) ->
                   followed czm pos m = true ->
                   is_Some (search fuel false (do_move pos m) r)) ->
  forall pos r, count_all pos <= n -> is_Some (search (S fuel) czm pos r).
Proof.
  intros Hab Hrec pos r Hn. cbn [search].
  destruct (is_anti pos); [apply Hab; exact Hn|].
  destruct (search_loop_total (search fuel false) czm pos (legal_moves pos))
    with (bestValue := WDLLoss) (moveCount := 0) (result := r) as [out ->].
  { intros m Hm Hf r'. apply Hrec; assumption. }
  cbn [mbind option_bind].
  destruct out as [o|[[bv mc] r1]]; [eexists; reflexivity|].
  destruct (negb (mc =? 0) && (mc =? Z.of_nat (length (legal_moves pos)))).
  - cbn [mbind option_bind negb andb].
    destruct (wdl_leb bv bv); eexists; reflexivity.
  - destruct (probe_table_wdl_total pos r1) as [[v r2] ->].
    cbn [mbind option_bind negb andb].
    destruct (ps_eqb r2 FAIL); [eexists; reflexivity|].
    destruct (wdl_leb v bv); eexists; reflexivity.
Qed.

(** [search<false>] returns for every position: it follows captures only,
    and each one takes a piece off the board. *)
Lemma search_false_total (n : nat) :
  forall fuel pos r,
    count_all pos <= Z.of_nat n -> (2 * n + 3 <= fuel)%nat ->
    is_Some (search fuel false pos r).
Proof.
  induction n as [|n IH]; intros fuel pos r Hn Hf;
    (destruct fuel as [|fuel]; [lia|]).
  - apply (search_step fuel false 0); [| |exact Hn].
    + intros T p a b r' Hp. apply (proj2 (sprobe_total 0)); [exact Hp | lia].
    + intros p m r' Hp Hm Hfol. unfold followed in Hfol. simpl in Hfol.
      rewrite Bool.orb_false_r in Hfol.
      pose proof (capture_shrinks WF p m Hm Hfol).
      pose proof (count_nonneg WF (do_move p m)). lia.
  - apply (search_step fuel false (Z.of_nat (S n))); [| |exact Hn].
    + intros T p a b r' Hp. apply (proj2 (sprobe_total (S n))); [exact Hp | lia].
    + intros p m r' Hp Hm Hfol. unfold followed in Hfol. simpl in Hfol.
      rewrite Bool.orb_false_r in Hfol.
      pose proof (capture_shrinks WF p m Hm Hfol).
      apply IH; lia.
Qed.

(** [search] returns for every position and both template arguments. *)
Lemma search_total (n : nat) czm fuel pos r :
  count_all pos <= Z.of_nat n -> (2 * n + 4 <= fuel)%nat ->
  is_Some (search fuel czm pos r).
Proof.
  intros Hn Hf. destruct fuel as [|fuel]; [lia|].
  apply (search_step fuel czm (Z.of_nat n)); [| |exact Hn].
  - intros T p a b r' Hp. apply (proj2 (sprobe_total n)); [exact Hp | lia].
  - intros p m r' Hp Hm _. apply (search_false_total n); [|lia].
    pose proof (no_growth WF p m Hm). lia.
Qed.

Lemma probe_wdl_total (n : nat) fuel pos :
  count_all pos <= Z.of_nat n -> (2 * n + 4 <= fuel)%nat ->
  is_Some (probe_wdl fuel pos).
Proof. apply search_total. Qed.

Lemma probe_table_dtz_direct pos result wdl v r :
  dtz_direct pos -> result <> CHANGE_STM ->
  probe_table_dtz pos result wdl = Some (v, r) -> r <> CHANGE_STM.
Proof.
  intros Hd Hr. unfold probe_table_dtz.
  destruct (is_variant_end pos); [intros [= _ <-]; exact Hr|].
  destruct (negb _ && negb _); [intros [= _ <-]; exact Hr|].
  destruct (negb _ && _); [intros [= _ <-]; exact Hr|].
  destruct (TBTables_get hash_Size hashTable DTZ (material_key pos))
    as [e|] eqn:Eg; [|discriminate].
  cbn [mbind option_bind].
  destruct ((e =? 0) || _); [intros [= _ <-]; discriminate|].
  destruct (do_probe_table_dtz pos e wdl) eqn:Ep.
  - intros [= _ <-]. exact Hr.
  - exfalso. exact (Hd e wdl Eg Ep).
Qed.

Lemma probe_table_dtz_change_stm pos result wdl v :
  result <> CHANGE_STM ->
  probe_table_dtz pos result wdl = Some (v, CHANGE_STM) ->
  exists e,
    TBTables_get hash_Size hashTable DTZ (material_key pos) = Some e
    /\ do_probe_table_dtz pos e wdl = None.
Proof.
  intros Hr. unfold probe_table_dtz.
  destruct (is_variant_end pos); [intros [= _ ->]; contradiction|].
  destruct (negb _ && negb _); [intros [= _ ->]; contradiction|].
  destruct (negb _ && _); [intros [= _ ->]; contradiction|].
  destruct (TBTables_get hash_Size hashTable DTZ (material_key pos))
    as [e|] eqn:Eg; [|discriminate].
  cbn [mbind option_bind].
  destruct ((e =? 0) || _); [discriminate|].
  destruct (do_probe_table_dtz pos e wdl) eqn:Ep.
  - intros [= _ ->]. contradiction.
  - intros _. exists e. split; [reflexivity | exact Ep].
Qed.

Lemma probe_table_wdl_state pos v r :
  probe_table_wdl pos OK = Some (v, r) -> r = OK \/ r = FAIL.
Proof.
  unfold probe_table_wdl.
  destruct (is_variant_end pos); [intros [= _ <-]; tauto|].
  destruct (negb _ && negb _); [intros [= _ <-]; tauto|].
  destruct (negb _ && _); [intros [= _ <-]; tauto|].
  destruct (TBTables_get hash_Size hashTable WDL (material_key pos))
    as [e|]; [|discriminate].
  cbn [mbind option_bind].
  destruct ((e =? 0) || _); intros [= _ <-]; tauto.
Qed.

(** The states [search] can end with when it is entered with [OK]. *)
Lemma threat_loop_state (rec : SProbe) pos moves :
  forall alpha beta tf result v r,
    threat_loop rec pos moves alpha beta tf result = Some (inl (v, r)) ->
    r = FAIL \/ r = THREAT.
Proof.
  induction moves as [|move rest IH]; intros alpha beta tf result v r H.
  - discriminate.
  - cbn [threat_loop] in H. bind_step H. destruct p as [v0 r0].
    destruct (ps_eqb r0 FAIL) eqn:Ef.
    + apply ps_eqb_eq in Ef. injection H as _ <-. tauto.
    + destruct (ps_eqb r0 ZEROING_BEST_MOVE && wdl_ltb alpha (wdl_neg v0)).
      * destruct (wdl_leb beta (wdl_neg v0)).
        -- injection H as _ <-. tauto.
        -- exact (IH _ _ _ _ _ _ H).
      * exact (IH _ _ _ _ _ _ H).
Qed.

Lemma search_loop_state (rec : Search) czm pos moves :
  forall bestValue moveCount result v r,
    search_loop rec czm pos moves bestValue moveCount result = Some (inl (v, r)) ->
    r = FAIL \/ r = ZEROING_BEST_MOVE.
Proof.
  induction moves as [|move rest IH]; intros bestValue moveCount result v r H.
  - discriminate.
  - cbn [search_loop] in H.
    destruct (negb (capture pos move) && (negb czm || negb (moved_pawn pos move))).
    + exact (IH _ _ _ _ _ H).
    + bind_step H. destruct p as [v0 r0].
      destruct (ps_eqb r0 FAIL) eqn:Ef.
      * apply ps_eqb_eq in Ef. injection H as _ <-. tauto.
      * destruct (wdl_ltb bestValue (wdl_neg v0)).
        -- destruct (wdl_leb WDLWin (wdl_neg v0)).
           ++ injection H as _ <-. tauto.
           ++ exact (IH _ _ _ _ _ H).
        -- exact (IH _ _ _ _ _ H).
Qed.

Lemma sprobe_ab_state fuel T pos alpha beta result v r :
  sprobe_ab fuel T pos alpha beta result = Some (v, r) -> settled r.
Proof.
  destruct fuel as [|fuel]; [discriminate|]. cbn [sprobe_ab]. intros H.
  bind_step H. destruct s as [o|r1].
  - injection H as ->.
    destruct (1 <? popcount_them pos).
    + bind_step E. destruct p as [v1 r2].
      destruct (ps_eqb r2 ZEROING_BEST_MOVE || ps_eqb r2 FAIL) eqn:Et;
        [|discriminate].
      injection E as <- <-.
      apply Bool.orb_true_iff in Et.
      destruct Et as [Et|Et]; apply ps_eqb_eq in Et; subst r2; discriminate.
    + destruct (nonempty (capture_moves pos)); [|discriminate].
      injection E as _ <-. discriminate.
  - bind_step H. destruct s as [o|[[a tf] r2]].
    + injection H as ->.
      destruct (T || (6 <=? popcount_all pos)); [|discriminate].
      destruct (threat_loop_state _ _ _ _ _ _ _ _ _ E0) as [->| ->]; discriminate.
    + bind_step H. destruct p as [v' r'].
      destruct (probe_table_wdl_state _ _ _ E1) as [->| ->]; simpl in H.
      * destruct (wdl_ltb a v'); injection H as _ <-; [discriminate|].
        destruct tf; discriminate.
      * injection H as _ <-. discriminate.
Qed.

Lemma search_state fuel czm pos result v r :
  search fuel czm pos result = Some (v, r) -> settled r.
Proof.
  destruct fuel as [|fuel]; [discriminate|]. cbn [search]. intros H.
  destruct (is_anti pos); [exact (sprobe_ab_state _ _ _ _ _ _ _ _ H)|].
  bind_step H. destruct s as [o|[[bv mc] r1]].
  - injection H as ->.
    destruct (search_loop_state _ _ _ _ _ _ _ _ _ E) as [->| ->]; discriminate.
  - bind_step H. destruct p as [v' r'].
    destruct (negb _ && ps_eqb r' FAIL) eqn:Ef.
    + apply Bool.andb_true_iff in Ef. destruct Ef as [_ Ef].
      apply ps_eqb_eq in Ef. injection H as _ <-. subst r'. discriminate.
    + destruct (wdl_leb v' bv); injection H as _ <-; [|discriminate].
      destruct (wdl_ltb WDLDraw bv || _); discriminate.
Qed.

(** [probe_dtz] returns for a position whose DTZ table is stored for the
    side to move: the 1-ply loop is not entered. *)
Lemma probe_dtz_direct_total (n : nat) fuel pos :
  dtz_direct pos ->
  count_all pos <= Z.of_nat n -> (2 * n + 4 <= fuel)%nat ->
  is_Some (probe_dtz fuel pos).
Proof.
  intros Hd Hn Hf. destruct fuel as [|fuel]; [lia|]. cbn [probe_dtz].
  destruct (search_total n true (S fuel) pos OK Hn Hf) as [[wdl r] Es].
  rewrite Es. cbn [mbind option_bind].
  pose proof (search_state _ _ _ _ _ _ Es) as Hs.
  destruct (ps_eqb r FAIL || wdl_eqb wdl WDLDraw); [eexists; reflexivity|].
  destruct (ps_eqb r ZEROING_BEST_MOVE); [eexists; reflexivity|].
  destruct (is_anti pos && only_pawns pos); [eexists; reflexivity|].
  destruct (is_anti pos && ps_eqb r THREAT && wdl_ltb WDLDraw wdl);
    [eexists; reflexivity|].
  destruct (probe_table_dtz_total pos r wdl) as [[dtz r'] Ep].
  rewrite Ep. cbn [mbind option_bind].
  pose proof (probe_table_dtz_direct _ _ _ _ _ Hd Hs Ep) as Hr'.
  destruct (ps_eqb r' FAIL); [eexists; reflexivity|].
  destruct (ps_eqb r' CHANGE_STM) eqn:Ec; [|eexists; reflexivity].
  apply ps_eqb_eq in Ec. contradiction.
Qed.

(** [probe_dtz] returns for every position: two units of fuel per piece
    and five more are enough. *)
Lemma probe_dtz_total (n : nat) fuel pos :
  count_all pos <= Z.of_nat n -> (2 * n + 5 <= fuel)%nat ->
  is_Some (probe_dtz fuel pos).
Proof.
  intros Hn Hf. destruct fuel as [|fuel]; [lia|]. cbn [probe_dtz].
  destruct (search_total n true (S fuel) pos OK Hn ltac:(lia)) as [[wdl r] Es].
  rewrite Es. cbn [mbind option_bind].
  pose proof (search_state _ _ _ _ _ _ Es) as Hs.
  destruct (ps_eqb r FAIL || wdl_eqb wdl WDLDraw); [eexists; reflexivity|].
  destruct (ps_eqb r ZEROING_BEST_MOVE); [eexists; reflexivity|].
  destruct (is_anti pos && only_pawns pos); [eexists; reflexivity|].
  destruct (is_anti pos && ps_eqb r THREAT && wdl_ltb WDLDraw wdl);
    [eexists; reflexivity|].
  destruct (probe_table_dtz_total pos r wdl) as [[dtz r'] Ep].
  rewrite Ep. cbn [mbind option_bind].
  destruct (ps_eqb r' FAIL); [eexists; reflexivity|].
  destruct (ps_eqb r' CHANGE_STM) eqn:Ec; [|eexists; reflexivity].
  apply ps_eqb_eq in Ec. subst r'. cbn [negb].
  destruct (probe_table_dtz_change_stm _ _ _ _ Hs Ep) as (e & Eg & Enone).
  destruct (dtz_loop_total (search (S fuel) false) (probe_dtz fuel) pos wdl
              (legal_moves pos)) with (minDTZ := 65535) (result := CHANGE_STM)
    as [out ->].
  - intros m Hm _ r0. apply (search_total n); [|lia].
    pose proof (no_growth WF pos m Hm). lia.
  - intros m Hm Hz. apply Bool.orb_false_iff in Hz. destruct Hz as [Hc Hp].
    apply (probe_dtz_direct_total n); [| |lia].
    + intros e' w' Eg'. exact (one_sided WF pos m e e' wdl w' Hm Hc Hp Eg Enone Eg').
    + pose proof (no_growth WF pos m Hm). lia.
  - cbn [mbind option_bind]. destruct out as [o|[m r0]]; eexists; reflexivity.
Qed.

End DriverTermination.

(** *** The driver on the small model, and its failure values *)

Section DriverClaims.

Import Toy Termination.

Example toy_probe_wdl :
  List.map (probe_wdl 3)
    [AtomicMate; Orphan; Capturing; Captured; Replied; StdMate]
  = [Some (WDLLoss, OK); Some (WDLDraw, FAIL);
     Some (WDLWin, ZEROING_BEST_MOVE); Some (WDLLoss, OK);
     Some (WDLWin, OK); Some (WDLLoss, OK)].
Proof. reflexivity. Qed.

Example toy_probe_dtz :
  List.map (probe_dtz 3)
    [AtomicMate; Orphan; Capturing; Captured; Replied; StdMate]
  = [Some (1, OK); Some (0, FAIL); Some (1, ZEROING_BEST_MOVE);
     Some (-8, OK); Some (7, OK); Some (-1, CHANGE_STM)].
Proof. reflexivity. Qed.

(** The small model meets the conditions of termination. *)
Lemma toy_shrinking_model : shrinking_model (Position := Pos) (Move := Mv).
Proof.
  split.
  - intros []; simpl; lia.
  - intros [] [] Hin Hc; simpl in *; try lia; try discriminate;
      intuition discriminate.
  - intros [] [] Hin; simpl in *; try lia; intuition discriminate.
  - intros [] [] Hin; simpl in *; lia.
  - split; [simpl; lia|].
    assert (E : insert_all 4 (clear 4) [(1, 100, 101); (3, 300, 301); (5, 500, 501)]
                = Inserted toy_hash) by reflexivity.
    pose proof (insert_all_ok 4 ltac:(lia)
                  [(1, 100, 101); (3, 300, 301); (5, 500, 501)]
                  (clear 4) (clear_ok 4 ltac:(lia))) as H.
    rewrite E in H. apply H.
    repeat constructor; simpl; discriminate.
  - intros [] [] e e' w w' Hin Hc Hp Hg Hn Hg'; simpl in *;
      try discriminate; intuition discriminate.
Qed.

(** C10. With enough fuel [search], [probe_wdl] and [probe_dtz] return,
    and whenever the state they return is [FAIL] the score is [WDLDraw]
    for the first two and 0 for [probe_dtz]; [probe_table] sets [FAIL] only
    together with the value-initialised score, the draw, when the catalog
    has no table for the material or the table's file is not mapped. *)
Theorem failed_probe_is_draw {Position Move : Type}
    `{PO : PositionOps Position Move} `{TO : TableOps Position}
    (n fuel : nat) (pos : Position) :
  shrinking_model ->
  count_all pos <= Z.of_nat n -> (2 * n + 5 <= fuel)%nat ->
  (forall czm result, exists v r,
      search fuel czm pos result = Some (v, r) /\ (r = FAIL -> v = WDLDraw))
  /\ (exists v r,
        probe_wdl fuel pos = Some (v, r) /\ (r = FAIL -> v = WDLDraw))
  /\ (exists v r,
        probe_dtz fuel pos = Some (v, r) /\ (r = FAIL -> v = 0))
  /\ (forall result v,
        result <> FAIL -> probe_table_wdl pos result = Some (v, FAIL) ->
        v = WDLDraw
        /\ exists entry,
             TBTables_get hash_Size hashTable WDL (material_key pos) = Some entry
             /\ (entry = 0 \/ mapped WDL entry pos = 0))
  /\ (forall result wdl v,
        result <> FAIL -> probe_table_dtz pos result wdl = Some (v, FAIL) ->
        v = 0).
Proof.
  intros WF Hn Hf.
  assert (Hs : forall czm result, exists v r,
             search fuel czm pos result = Some (v, r)
             /\ (r = FAIL -> v = WDLDraw)).
  { intros czm result.
    destruct (search_total WF n czm fuel pos result Hn ltac:(lia)) as [[v r] E].
    exists v, r. split; [exact E|]. intros ->.
    exact (search_fail _ _ _ _ _ E eq_refl). }
  split; [exact Hs|].
  split; [exact (Hs false OK)|].
  split.
  { destruct (probe_dtz_total WF n fuel pos Hn Hf) as [[v r] E].
    exists v, r. split; [exact E|]. intros ->. exact (probe_dtz_fail _ _ _ E). }
  split.
  - intros result v Hr H. exact (probe_table_wdl_fail _ _ _ H Hr).
  - intros result wdl v Hr H. exact (probe_table_dtz_fail _ _ _ _ H Hr).
Qed.

Lemma failed_probe_is_draw_witness :
  (exists v r, probe_wdl 13 Orphan = Some (v, r) /\ (r = FAIL -> v = WDLDraw))
  /\ (exists v r, probe_dtz 13 Orphan = Some (v, r) /\ (r = FAIL -> v = 0))
  /\ probe_wdl 13 Orphan = Some (WDLDraw, FAIL)
  /\ probe_dtz 13 Orphan = Some (0, FAIL).
Proof.
  destruct (failed_probe_is_draw 4 13 Orphan toy_shrinking_model) as (_ & Hw & Hd & _).
  - simpl. lia.
  - lia.
  - split; [exact Hw|]. split; [exact Hd|]. split; reflexivity.
Defined.

(** C1. A checkmated position of atomic chess whose tables are present:
    the side to move has no legal move and is in check, and [probe_dtz]
    returns +1 with the state [OK], not -1. (For the checkmate [StdMate] of
    standard chess the value is -1.) *)
Theorem probe_dtz_mated_variant_position :
  legal_moves AtomicMate = [] /\ checkers AtomicMate = true
  /\ TBTables_get hash_Size hashTable DTZ (material_key AtomicMate) = Some 101
  /\ mapped DTZ 101 AtomicMate = 101
  /\ probe_dtz 1 AtomicMate = Some (1, OK)
  /\ probe_dtz 1 StdMate = Some (-1, CHANGE_STM).
Proof.
  split; [reflexivity|]. split; [reflexivity|].
  split; [reflexivity|]. split; [reflexivity|]. split.
  - apply (variant_mate_probe 0 AtomicMate); try reflexivity. discriminate.
  - reflexivity.
Qed.

(** C2. For the same position neither probe fails, [probe_wdl] reports a
    loss and [probe_dtz] a positive value: the signs differ. *)
Theorem probe_dtz_sign_differs_from_wdl :
  exists wdl dtz,
    probe_wdl 1 AtomicMate = Some (wdl, OK)
    /\ probe_dtz 1 AtomicMate = Some (dtz, OK)
    /\ sign_of (wdl_int wdl) = -1
    /\ sign_of dtz = 1.
Proof.
  exists WDLLoss, 1.
  destruct (variant_mate_probe 0 AtomicMate) as (Hw & _ & Hd);
    try reflexivity; try discriminate.
  repeat split; assumption.
Qed.

End DriverClaims.

(** * Further properties of the code *)

Section CatalogMapFacts.

Import CatalogInv CatalogMap.

Variable Size : Z.
Hypothesis Size_pos : 1 <= Size.

#[local] Abbreviation home e := (home_bucket Size (e_key e)).

Lemma clear_sorted : sorted_ok Size (clear Size).
Proof.
  assert (Hno : forall i e, ~ holds (clear Size) i e).
  { intros i e [Hi [Hw _]]. unfold clear, rd in Hi.
    destruct (i <? 0); [discriminate|].
    apply lookup_replicate in Hi. destruct Hi as [-> _]. apply Hw. reflexivity. }
  split.
  - apply clear_ok. exact Size_pos.
  - intros i j e H. destruct (Hno _ _ H).
  - intros i j e e' H. destruct (Hno _ _ H).
  - intros i j e e' H. destruct (Hno _ _ H).
Qed.

Lemma stored_not_empty e : stored e -> e <> empty_entry.
Proof. intros [Hw _] ->. apply Hw. reflexivity. Qed.

Lemma holds_range t i e : table_ok Size t -> holds t i e -> home e <= i < Size.
Proof.
  intros Hok [Hi Hst].
  destruct (ok_slots _ _ Hok i e Hi) as [->|[_ H]]; [|exact H].
  destruct (stored_not_empty _ Hst). reflexivity.
Qed.

Lemma holds_insert t b c i e :
  0 <= b < Z.of_nat (length t) -> stored c ->
  holds (<[Z.to_nat b := c]> t) i e
  <-> (i = b /\ e = c) \/ (i <> b /\ holds t i e).
Proof.
  intros Hb Hc. unfold holds. destruct (Z.eq_dec b i) as [<-|Hne].
  - rewrite rd_insert_eq by exact Hb. split.
    + intros [E _]. injection E as <-. left. split; reflexivity.
    + intros [[_ ->]|[Hn _]]; [split; [reflexivity|exact Hc] | contradiction].
  - rewrite rd_insert_ne by lia. split.
    + intros H. right. split; [lia | exact H].
    + intros [[-> _]|[_ H]]; [contradiction | exact H].
Qed.

(** Writing [c] into bucket [b] keeps the order when the buckets from the
    home of [c] to [b] are taken by entries that do not come after [c], and
    the entries behind [b] do not come before it. *)
Lemma place_sorted t b c :
  sorted_ok Size t -> stored c -> home c <= b < Size ->
  (forall j, home c <= j < b -> exists e, holds t j e) ->
  (forall j e, holds t j e -> j < b -> home e <= home c /\ e_key e <> e_key c) ->
  (forall j e, holds t j e -> b < j -> home c <= home e /\ e_key e <> e_key c) ->
  sorted_ok Size (<[Z.to_nat b := c]> t).
Proof.
  intros [Hok Hreach Hsorted Huniq] Hc Hb Hfill Hbefore Hafter.
  pose proof (home_bucket_range Size Size_pos (e_key c)) as Hh.
  pose proof (ok_length _ _ Hok) as Hlen. unfold Overflow in Hlen.
  assert (Hin : 0 <= b < Z.of_nat (length t)) by lia.
  split.
  - apply write_ok; assumption.
  - intros i j e He Hj. apply (holds_insert t b c) in He; [|assumption..].
    destruct (Z.eq_dec j b) as [->|Hjb].
    { exists c. apply holds_insert; [assumption..|]. left. split; reflexivity. }
    assert (exists e', holds t j e') as [e' He'].
    { destruct He as [[-> ->]|[Hib He]].
      - apply Hfill. lia.
      - apply (Hreach i j e He Hj). }
    exists e'. apply holds_insert; [assumption..|]. right. split; assumption.
  - intros i j e e' He He' Hij.
    apply (holds_insert t b c) in He; [|assumption..].
    apply (holds_insert t b c) in He'; [|assumption..].
    destruct He as [[-> ->]|[Hib He]], He' as [[-> ->]|[Hjb He']].
    + lia.
    + apply (Hafter j e' He'). lia.
    + apply (Hbefore i e He). lia.
    + apply (Hsorted i j e e' He He' Hij).
  - intros i j e e' He He' Hk.
    apply (holds_insert t b c) in He; [|assumption..].
    apply (holds_insert t b c) in He'; [|assumption..].
    destruct He as [[-> ->]|[Hib He]], He' as [[-> ->]|[Hjb He']].
    + reflexivity.
    + exfalso. destruct (Z.lt_total j b) as [Hlt|[Heq|Hgt]]; [|contradiction|].
      * apply (Hbefore j e' He' Hlt). symmetry. exact Hk.
      * apply (Hafter j e' He' Hgt). symmetry. exact Hk.
    + exfalso. destruct (Z.lt_total i b) as [Hlt|[Heq|Hgt]]; [|contradiction|].
      * apply (Hbefore i e He Hlt). exact Hk.
      * apply (Hafter i e He Hgt). exact Hk.
    + apply (Huniq i j e e' He He' Hk).
Qed.

Lemma place_members t b c e :
  0 <= b < Z.of_nat (length t) -> stored c ->
  members (<[Z.to_nat b := c]> t) e
  <-> e = c \/ exists i, i <> b /\ holds t i e.
Proof.
  intros Hb Hc. unfold members. split.
  - intros [i Hi]. apply holds_insert in Hi; [|assumption..].
    destruct Hi as [[_ ->]|[Hib Hi]]; [left; reflexivity|].
    right. exists i. split; assumption.
  - intros [->|[i [Hib Hi]]].
    + exists b. apply holds_insert; [assumption..|]. left. split; reflexivity.
    + exists i. apply holds_insert; [assumption..|]. right. split; assumption.
Qed.

(** The loop of [insert], started at bucket [b] with the entry [c] in hand:
    when it stores, the table is ordered again and holds [c] and the entries
    it held before under other keys. *)
Lemma insert_loop_sorted (n : nat) :
  forall t b c,
    sorted_ok Size t -> stored c -> home c <= b -> b + Z.of_nat n = Size ->
    (forall j, home c <= j < b -> exists e, holds t j e) ->
    (forall j e, holds t j e -> j < b -> home e <= home c /\ e_key e <> e_key c) ->
    match insert_loop n Size t b (e_key c) (home c) c with
    | Inserted t' =>
        sorted_ok Size t'
        /\ forall e, members t' e <-> e = c \/ (members t e /\ e_key e <> e_key c)
    | HashFull => True
    | OutOfBounds => False
    end.
Proof.
  induction n as [|n IH]; intros t b c Hso Hc Hb Hn Hfill Hbefore.
  - exact I.
  - cbn [insert_loop].
    pose proof Hso as [Hok Hreach Hsorted Huniq].
    pose proof (home_bucket_range Size Size_pos (e_key c)) as Hh.
    pose proof (ok_length _ _ Hok) as Hlen. unfold Overflow in Hlen.
    assert (Hin : 0 <= b < Z.of_nat (length t)) by lia.
    destruct (rd_in_range t b) as [other Ho]; [lia|].
    rewrite Ho.
    destruct ((e_key other =? e_key c) || (entry_get WDL other =? 0)) eqn:Ehit.
    + (* the entry is stored in bucket [b] *)
      assert (Hafter : forall j e, holds t j e -> b < j ->
                home c <= home e /\ e_key e <> e_key c).
      { intros j e He Hj.
        destruct (ok_slots _ _ Hok b other Ho) as [->|[Hso' _]].
        - assert (b < home e).
          { destruct (Z.lt_ge_cases b (home e)) as [|Hle]; [assumption|].
            destruct (Hreach j b e He) as [e' [He' Hst']]; [lia|].
            unfold rd in He', Ho. rewrite Ho in He'. injection He' as <-.
            destruct (stored_not_empty _ Hst'). reflexivity. }
          split; [lia|]. intros Hk. rewrite Hk in *. lia.
        - apply Bool.orb_true_iff in Ehit. destruct Ehit as [Hk|Hw].
          + apply Z.eqb_eq in Hk. split.
            * rewrite <- Hk. apply (Hsorted b j other e); [split; assumption|assumption|lia].
            * intros Hke.
              assert (b = j); [|lia].
              apply (Huniq b j other e); [split; assumption|assumption|congruence].
          + apply Z.eqb_eq in Hw. destruct Hso' as [Hw' _]. simpl in Hw. contradiction. }
      split.
      * apply place_sorted; try assumption. lia.
      * intros e. rewrite place_members by assumption. split.
        -- intros [->|[i [Hib Hi]]]; [left; reflexivity|].
           right. split; [exists i; exact Hi|].
           destruct (Z.lt_total i b) as [Hlt|[Heq|Hgt]]; [|contradiction|].
           ++ apply (Hbefore i e Hi Hlt).
           ++ apply (Hafter i e Hi Hgt).
        -- intros [->|[[i Hi] Hk]]; [left; reflexivity|].
           right. exists i. split; [|exact Hi].
           intros ->. destruct Hi as [Hi Hst]. rewrite Ho in Hi. injection Hi as ->.
           apply Bool.orb_true_iff in Ehit. destruct Ehit as [Hk'|Hw].
           ++ apply Z.eqb_eq in Hk'. contradiction.
           ++ apply Z.eqb_eq in Hw. destruct Hst as [Hw' _]. simpl in Hw. contradiction.
    + apply Bool.orb_false_iff in Ehit. destruct Ehit as [Hk Hw].
      apply Z.eqb_neq in Hk. apply Z.eqb_neq in Hw. simpl in Hw.
      destruct (ok_slots _ _ Hok b other Ho) as [->|[Hso' Hho]];
        [simpl in Hw; congruence|].
      assert (Hother : holds t b other) by (split; assumption).
      destruct (Z.ltb_spec (home c) (home other)) as [Hlt|Hge].
      * (* swap: [c] is stored, [other] is carried on *)
        assert (Hafter : forall j e, holds t j e -> b < j ->
                  home c <= home e /\ e_key e <> e_key c).
        { intros j e He Hj.
          pose proof (Hsorted b j other e Hother He Hj) as Hle.
          split; [lia|]. intros Hke. rewrite Hke in *. lia. }
        assert (Hso1 : sorted_ok Size (<[Z.to_nat b := c]> t)).
        { apply place_sorted; try assumption. lia. }
        specialize (IH (<[Z.to_nat b := c]> t) (b + 1) other Hso1 Hso').
        destruct (insert_loop n Size (<[Z.to_nat b := c]> t) (b + 1)
                    (e_key other) (home other) other) as [t'| |] eqn:El.
        -- destruct IH as [Hso2 Hmem]; [lia|lia| | |].
           { intros j Hj. destruct (Z.eq_dec j b) as [->|Hjb].
             - exists c. apply holds_insert; [assumption..|]. left. split; reflexivity.
             - destruct (Hreach b j other Hother) as [e He]; [lia|].
               exists e. apply holds_insert; [assumption..|]. right. split; assumption. }
           { intros j e He Hj. apply holds_insert in He; [|assumption..].
             destruct He as [[-> ->]|[Hjb He]].
             - split; [lia|]. congruence.
             - destruct (Hbefore j e He) as [H1 H2]; [lia|].
               split; [lia|]. intros Hke.
               assert (j = b); [|lia].
               apply (Huniq j b e other He Hother Hke). }
           split; [exact Hso2|].
           intros e. rewrite Hmem. rewrite place_members by assumption. split.
           ++ intros [->|[[->|[i [Hib Hi]]] Hke]].
              ** right. split; [exists b; exact Hother | exact Hk].
              ** left. reflexivity.
              ** right. split; [exists i; exact Hi|].
                 destruct (Z.lt_total i b) as [Hl|[Heq|Hg]]; [|contradiction|].
                 --- apply (Hbefore i e Hi Hl).
                 --- apply (Hafter i e Hi Hg).
           ++ intros [->|[[i Hi] Hke]].
              ** right. split; [left; reflexivity | congruence].
              ** destruct (Z.eq_dec i b) as [->|Hib].
                 --- left. destruct Hi as [Hi _]. rewrite Ho in Hi. injection Hi as ->.
                     reflexivity.
                 --- right. split; [right; exists i; split; assumption|].
                     intros Hke'. apply Hib.
                     apply (Huniq i b e other Hi Hother Hke').
        -- exact I.
        -- destruct IH; [lia|lia| | ].
           { intros j Hj. destruct (Z.eq_dec j b) as [->|Hjb].
             - exists c. apply holds_insert; [assumption..|]. left. split; reflexivity.
             - destruct (Hreach b j other Hother) as [e He]; [lia|].
               exists e. apply holds_insert; [assumption..|]. right. split; assumption. }
           { intros j e He Hj. apply holds_insert in He; [|assumption..].
             destruct He as [[-> ->]|[Hjb He]].
             - split; [lia|]. congruence.
             - destruct (Hbefore j e He) as [H1 H2]; [lia|].
               split; [lia|]. intros Hke.
               assert (j = b); [|lia].
               apply (Huniq j b e other He Hother Hke). }
      * (* the entry in bucket [b] stays, the walk goes on *)
        apply IH; try assumption; try lia.
        -- intros j Hj. destruct (Z.eq_dec j b) as [->|Hjb].
           ++ exists other. exact Hother.
           ++ apply Hfill. lia.
        -- intros j e He Hj. destruct (Z.eq_dec j b) as [->|Hjb].
           ++ destruct He as [He _]. rewrite Ho in He. injection He as <-.
              split; [lia | exact Hk].
           ++ apply (Hbefore j e He). lia.
Qed.

Lemma insert_sorted t key wdl dtz :
  sorted_ok Size t -> wdl <> 0 -> dtz <> 0 ->
  match TBTables_insert Size t key wdl dtz with
  | Inserted t' =>
      sorted_ok Size t'
      /\ forall e, members t' e
                   <-> e = {| e_key := key; e_wdl := wdl; e_dtz := dtz |}
                       \/ (members t e /\ e_key e <> key)
  | HashFull => True
  | OutOfBounds => False
  end.
Proof.
  intros Hso Hw Hd. unfold TBTables_insert.
  pose proof (home_bucket_range Size Size_pos key) as Hh.
  set (c := {| e_key := key; e_wdl := wdl; e_dtz := dtz |}).
  change key with (e_key c) at 1 2 3.
  apply insert_loop_sorted.
  - exact Hso.
  - split; assumption.
  - simpl. lia.
  - unfold Overflow. simpl. lia.
  - intros j Hj. simpl in Hj. lia.
  - intros j e He Hj.
    pose proof (holds_range t j e (so_ok _ _ Hso) He) as Hr.
    split; [lia|]. intros Hk. rewrite Hk in Hr. lia.
Qed.

(** The probe of [get] stops at the first entry that has the key asked for
    or a null pointer. *)
Lemma get_loop_first T key (entries : list Entry) :
  forall steps (j : nat) s,
    entries !! j = Some s ->
    (e_key s = key \/ entry_get T s = 0) ->
    (forall i x, (i < j)%nat -> entries !! i = Some x ->
                 e_key x <> key /\ entry_get T x <> 0) ->
    get_loop T key entries steps = Some (entry_get T s, steps + Z.of_nat j).
Proof.
  induction entries as [|entry rest IH]; intros steps j s Hj Hs Hbefore.
  - rewrite lookup_nil in Hj. discriminate.
  - cbn [get_loop]. destruct j as [|j].
    + simpl in Hj. injection Hj as ->.
      replace ((e_key s =? key) || (entry_get T s =? 0)) with true.
      * rewrite Z.add_0_r. reflexivity.
      * symmetry. apply Bool.orb_true_iff.
        destruct Hs as [H|H]; [left|right]; apply Z.eqb_eq; exact H.
    + destruct (Hbefore 0%nat entry) as [H1 H2]; [lia|reflexivity|].
      apply Z.eqb_neq in H1, H2. rewrite H1, H2. simpl.
      rewrite (IH (steps + 1) j s Hj Hs).
      * do 2 f_equal. lia.
      * intros i x Hi Hx. apply (Hbefore (S i) x); [lia | exact Hx].
Qed.

Lemma stored_get T e : stored e -> entry_get T e <> 0.
Proof. intros [Hw Hd]. destruct T; assumption. Qed.

(** A key that is stored is found. *)
Lemma get_present t T p e :
  sorted_ok Size t -> holds t p e ->
  TBTables_get Size t T (e_key e) = Some (entry_get T e).
Proof.
  intros [Hok Hreach Hsorted Huniq] He.
  pose proof (holds_range t p e Hok He) as Hp.
  pose proof (home_bucket_range Size Size_pos (e_key e)) as Hh.
  unfold TBTables_get.
  set (h := home_bucket Size (e_key e)) in *.
  rewrite (get_loop_first T (e_key e) _ 0 (Z.to_nat (p - h)) e).
  - reflexivity.
  - rewrite lookup_drop. destruct He as [He _]. unfold rd in He.
    destruct (Z.ltb_spec p 0); [lia|].
    replace (Z.to_nat h + Z.to_nat (p - h))%nat with (Z.to_nat p) by lia.
    exact He.
  - left. reflexivity.
  - intros i x Hi Hx. rewrite lookup_drop in Hx.
    assert (Hx' : rd t (h + Z.of_nat i) = Some x).
    { unfold rd. destruct (Z.ltb_spec (h + Z.of_nat i) 0); [lia|].
      replace (Z.to_nat (h + Z.of_nat i)) with (Z.to_nat h + i)%nat by lia.
      exact Hx. }
    destruct (Hreach p (h + Z.of_nat i) e He) as [x' Hx'']; [fold h; lia|].
    pose proof Hx'' as [Hrd Hst]. rewrite Hx' in Hrd. injection Hrd as <-.
    split; [|apply stored_get; exact Hst].
    intros Hk.
    assert (h + Z.of_nat i = p); [|lia].
    apply (Huniq _ _ x e Hx'' He Hk).
Qed.

(** A key that is not stored yields the null pointer. *)
Lemma get_absent t T key :
  sorted_ok Size t ->
  (forall p e, holds t p e -> e_key e <> key) ->
  TBTables_get Size t T key = Some 0.
Proof.
  intros Hso Habs.
  destruct (get_ok Size Size_pos t T key (so_ok _ _ Hso))
    as (p & steps & e & _ & Hget & _ & _ & Hrd & Hp & [->|[Hst Hk]]).
  - rewrite Hget, Hp. destruct T; reflexivity.
  - destruct (Habs _ e (conj Hrd Hst) Hk).
Qed.

(** Either a key is stored or it is not. *)
Lemma present_or_absent t key :
  sorted_ok Size t ->
  (exists p e, holds t p e /\ e_key e = key)
  \/ (forall p e, holds t p e -> e_key e <> key).
Proof.
  intros Hso.
  destruct (get_ok Size Size_pos t WDL key (so_ok _ _ Hso))
    as (p & steps & e & _ & Hget & _ & _ & Hrd & Hp & [->|[Hst Hk]]).
  - right. intros q e He Hk. subst key.
    rewrite (get_present t WDL q e Hso He) in Hget.
    injection Hget as Hget.
    apply (stored_get WDL e); [apply He|].
    simpl. rewrite Hget, Hp. reflexivity.
  - left. exists (home_bucket Size key + steps), e. split; [split|]; assumption.
Qed.

Lemma insert_get_same t t' T key wdl dtz :
  sorted_ok Size t -> wdl <> 0 -> dtz <> 0 ->
  TBTables_insert Size t key wdl dtz = Inserted t' ->
  TBTables_get Size t' T key
  = Some (match T with WDL => wdl | DTZ => dtz end).
Proof.
  intros Hso Hw Hd Hins.
  pose proof (insert_sorted t key wdl dtz Hso Hw Hd) as H.
  rewrite Hins in H. destruct H as [Hso' Hmem].
  destruct (proj2 (Hmem _) (or_introl eq_refl)) as [p Hp].
  pose proof (get_present t' T p _ Hso' Hp) as G. simpl in G.
  rewrite G. destruct T; reflexivity.
Qed.

Lemma insert_get_other t t' T key wdl dtz key' :
  sorted_ok Size t -> wdl <> 0 -> dtz <> 0 ->
  TBTables_insert Size t key wdl dtz = Inserted t' ->
  key' <> key ->
  TBTables_get Size t' T key' = TBTables_get Size t T key'.
Proof.
  intros Hso Hw Hd Hins Hne.
  pose proof (insert_sorted t key wdl dtz Hso Hw Hd) as H.
  rewrite Hins in H. destruct H as [Hso' Hmem].
  destruct (present_or_absent t key' Hso) as [(p & e & He & Hk)|Habs].
  - subst key'. rewrite (get_present t T p e Hso He).
    destruct (proj2 (Hmem e)) as [q Hq].
    { right. split; [exists p; exact He | exact Hne]. }
    apply (get_present t' T q e Hso' Hq).
  - rewrite (get_absent t T key' Hso Habs).
    apply get_absent; [exact Hso'|].
    intros q e Hq Hk.
    destruct (proj1 (Hmem e) (ex_intro _ q Hq)) as [->|[[p Hp] _]].
    + simpl in Hk. congruence.
    + apply (Habs p e Hp Hk).
Qed.

Lemma insert_all_sorted ins :
  forall t,
    sorted_ok Size t -> Forall nonnull ins ->
    match insert_all Size t ins with
    | Inserted t' => sorted_ok Size t'
    | HashFull => True
    | OutOfBounds => False
    end.
Proof.
  induction ins as [|[[key wdl] dtz] ins IH]; intros t Hso Hall.
  - exact Hso.
  - inversion Hall as [|? ? [Hw Hd] Hrest]; subst. simpl in Hw, Hd.
    cbn [insert_all].
    pose proof (insert_sorted t key wdl dtz Hso Hw Hd) as H1.
    destruct (TBTables_insert Size t key wdl dtz); try exact H1.
    apply IH; [apply H1 | assumption].
Qed.

Lemma insert_all_latest ins :
  forall t t' T key v,
    sorted_ok Size t -> Forall nonnull ins ->
    insert_all Size t ins = Inserted t' ->
    TBTables_get Size t T key = Some v ->
    TBTables_get Size t' T key = Some (latest ins T key v).
Proof.
  induction ins as [|[[k wdl] dtz] ins IH]; intros t t' T key v Hso Hall Hins Hv.
  - injection Hins as <-. exact Hv.
  - inversion Hall as [|? ? [Hw Hd] Hrest]; subst. simpl in Hw, Hd.
    cbn [insert_all] in Hins. cbn [latest].
    pose proof (insert_sorted t k wdl dtz Hso Hw Hd) as H1.
    destruct (TBTables_insert Size t k wdl dtz) as [t1| |] eqn:E1; try discriminate.
    apply (IH t1 t' T key _ (proj1 H1) Hrest Hins).
    destruct (Z.eqb_spec k key) as [->|Hne].
    + apply (insert_get_same t t1 T key wdl dtz Hso Hw Hd E1).
    + rewrite (insert_get_other t t1 T k wdl dtz key Hso Hw Hd E1) by congruence.
      exact Hv.
Qed.

End CatalogMapFacts.

Section CatalogMapTheorems.

Import CatalogInv CatalogMap.

(** X1. In a catalog built by insertions into the cleared table, a further
    insertion of non-null tables under [key] that completes makes
    [get<WDL>(key)] and [get<DTZ>(key)] return the two pointers just
    inserted. *)
Theorem insert_then_get (Size : Z) (ins : list (Z * Z * Z))
    (t t' : list Entry) (key wdl dtz : Z) :
  1 <= Size -> Forall nonnull ins ->
  insert_all Size (clear Size) ins = Inserted t ->
  wdl <> 0 -> dtz <> 0 ->
  TBTables_insert Size t key wdl dtz = Inserted t' ->
  TBTables_get Size t' WDL key = Some wdl
  /\ TBTables_get Size t' DTZ key = Some dtz.
Proof.
  intros HS Hall Hins Hw Hd Hone.
  pose proof (insert_all_sorted Size HS ins _ (clear_sorted Size HS) Hall) as Hso.
  rewrite Hins in Hso.
  split.
  - apply (insert_get_same Size HS t t' WDL key wdl dtz Hso Hw Hd Hone).
  - apply (insert_get_same Size HS t t' DTZ key wdl dtz Hso Hw Hd Hone).
Qed.

Lemma insert_then_get_witness :
  TBTables_get 4 (<[0%nat := {| e_key := 4; e_wdl := 7; e_dtz := 8 |}]> example_table)
    WDL 4 = Some 7
  /\ TBTables_get 4 (<[0%nat := {| e_key := 4; e_wdl := 7; e_dtz := 8 |}]> example_table)
       DTZ 4 = Some 8.
Proof.
  apply (insert_then_get 4 example_insertions example_table).
  - lia.
  - repeat constructor; simpl; discriminate.
  - reflexivity.
  - discriminate.
  - discriminate.
  - reflexivity.
Defined.

(** X2. Such an insertion under [key] does not change what [get] returns
    for any other key, although Robin-Hood insertion may move the entries of
    other keys to later buckets. *)
Theorem insert_keeps_other_keys (Size : Z) (ins : list (Z * Z * Z))
    (t t' : list Entry) (key wdl dtz key' : Z) (T : TBType) :
  1 <= Size -> Forall nonnull ins ->
  insert_all Size (clear Size) ins = Inserted t ->
  wdl <> 0 -> dtz <> 0 ->
  TBTables_insert Size t key wdl dtz = Inserted t' ->
  key' <> key ->
  TBTables_get Size t' T key' = TBTables_get Size t T key'.
Proof.
  intros HS Hall Hins Hw Hd Hone Hne.
  pose proof (insert_all_sorted Size HS ins _ (clear_sorted Size HS) Hall) as Hso.
  rewrite Hins in Hso.
  apply (insert_get_other Size HS t t' T key wdl dtz key' Hso Hw Hd Hone Hne).
Qed.

Lemma insert_keeps_other_keys_witness :
  TBTables_get 8 displaced_after DTZ 10 = TBTables_get 8 displaced_before DTZ 10.
Proof.
  apply (insert_keeps_other_keys 8 displacing_insertions displaced_before
           displaced_after 17 5 6 10 DTZ).
  - lia.
  - repeat constructor; simpl; discriminate.
  - reflexivity.
  - discriminate.
  - discriminate.
  - reflexivity.
  - discriminate.
Defined.

(** X3. A catalog built from the cleared table by a completed sequence of
    insertions of non-null tables is the finite map of that sequence:
    [get<Type>(key)] returns the pointer of the last insertion made under
    [key], and the null pointer when there was none. *)
Theorem catalog_is_finite_map (Size : Z) (ins : list (Z * Z * Z))
    (t : list Entry) (T : TBType) (key : Z) :
  1 <= Size -> Forall nonnull ins ->
  insert_all Size (clear Size) ins = Inserted t ->
  TBTables_get Size t T key = Some (latest ins T key 0).
Proof.
  intros HS Hall Hins.
  apply (insert_all_latest Size HS ins (clear Size) t T key 0
           (clear_sorted Size HS) Hall Hins).
  apply get_absent; [exact HS | apply clear_sorted; exact HS |].
  intros p e [Hrd [Hw _]] _. unfold clear, rd in Hrd.
  destruct (p <? 0); [discriminate|].
  apply lookup_replicate in Hrd. destruct Hrd as [-> _]. apply Hw. reflexivity.
Qed.

Lemma catalog_is_finite_map_witness :
  TBTables_get 4 example_table WDL 9 = Some (latest example_insertions WDL 9 0).
Proof.
  apply (catalog_is_finite_map 4 example_insertions example_table WDL 9).
  - lia.
  - repeat constructor; simpl; discriminate.
  - reflexivity.
Defined.

End CatalogMapTheorems.

Section ConstructorFacts.

Import Registry RegistryInv.

Variable count : Z -> Z -> Z.
Hypothesis count_nonneg : forall c pt, 0 <= count c pt.

Lemma mlm_fold (l : list (Z * Z)) :
  forall m0, m0 = 0 \/ 2 <= m0 ->
    let r := fold_left (mlm_step count) l m0 in
    (r = 0 \/ 2 <= r)
    /\ (m0 <> 0 -> 2 <= r <= m0)
    /\ (forall c pt, In (c, pt) l -> 2 <= count c pt -> 2 <= r <= count c pt)
    /\ (r = m0 \/ exists c pt, In (c, pt) l /\ count c pt = r).
Proof.
  induction l as [|[c0 pt0] l IH]; intros m0 Hm0; cbn [fold_left].
  - split; [lia|]. split; [intros; lia|]. split; [intros ? ? []|].
    left; reflexivity.
  - set (m1 := mlm_step count m0 (c0, pt0)).
    assert (Hm1 : (m1 = 0 \/ 2 <= m1) /\ (m0 <> 0 -> 2 <= m1 <= m0)
                  /\ (2 <= count c0 pt0 -> 2 <= m1 <= count c0 pt0)
                  /\ (m1 = m0 \/ m1 = count c0 pt0)).
    { unfold m1, mlm_step.
      destruct (Z.leb_spec 2 (count c0 pt0)), (Z.ltb_spec (count c0 pt0) m0),
        (Z.eqb_spec m0 0); simpl; lia. }
    destruct Hm1 as (H1 & H2 & H3 & H4).
    destruct (IH m1 H1) as (I1 & I2 & I3 & I4).
    split; [exact I1|]. split; [|split].
    + intros Hne. specialize (H2 Hne). assert (m1 <> 0) by lia.
      specialize (I2 H). lia.
    + intros c' pt' [E|Hin] Hc.
      * injection E as <- <-. specialize (H3 Hc).
        assert (m1 <> 0) by lia. specialize (I2 H). lia.
      * apply (I3 c' pt' Hin Hc).
    + destruct I4 as [E|(c' & pt' & Hin & E)].
      * destruct H4 as [E'|E'].
        -- left. lia.
        -- right. exists c0, pt0. split; [left; reflexivity | lia].
      * right. exists c', pt'. split; [right; exact Hin | exact E].
Qed.

Lemma uniq_step_le n x : n <= uniq_step count n x.
Proof. destruct x as [c pt]. unfold uniq_step. destruct (count c pt =? 1); lia. Qed.

Lemma uniq_step_one n x : count x.1 x.2 = 1 -> uniq_step count n x = n + 1.
Proof. destruct x as [c pt]. simpl. intros E. unfold uniq_step. rewrite E. reflexivity. Qed.

Lemma uniq_fold_mono (l : list (Z * Z)) :
  forall n0, n0 <= fold_left (uniq_step count) l n0.
Proof.
  induction l as [|x l IH]; intros n0; cbn [fold_left]; [lia|].
  specialize (IH (uniq_step count n0 x)). pose proof (uniq_step_le n0 x). lia.
Qed.

Lemma uniq_fold_one (l : list (Z * Z)) :
  forall n0 x, In x l -> count x.1 x.2 = 1 -> n0 + 1 <= fold_left (uniq_step count) l n0.
Proof.
  induction l as [|y l IH]; intros n0 x Hin Hx; [destruct Hin|].
  cbn [fold_left]. destruct Hin as [<-|Hin].
  - rewrite (uniq_step_one n0 y Hx). apply uniq_fold_mono.
  - specialize (IH (uniq_step count n0 y) x Hin Hx).
    pose proof (uniq_step_le n0 y). lia.
Qed.

Lemma uniq_fold_two (l : list (Z * Z)) :
  forall n0 x y, In x l -> In y l -> x <> y ->
    count x.1 x.2 = 1 -> count y.1 y.2 = 1 ->
    n0 + 2 <= fold_left (uniq_step count) l n0.
Proof.
  induction l as [|z l IH]; intros n0 x y Hx Hy Hne Cx Cy; [destruct Hx|].
  cbn [fold_left]. destruct Hx as [<-|Hx], Hy as [<-|Hy].
  - contradiction.
  - rewrite (uniq_step_one n0 z Cx).
    pose proof (uniq_fold_one l (n0 + 1) y Hy Cy). lia.
  - rewrite (uniq_step_one n0 z Cy).
    pose proof (uniq_fold_one l (n0 + 1) x Hx Cx). lia.
  - specialize (IH (uniq_step count n0 z) x y Hx Hy Hne Cx Cy).
    pose proof (uniq_step_le n0 z). lia.
Qed.

Lemma sum_step_eq n x : sum_step count n x = n + count x.1 x.2.
Proof. destruct x. reflexivity. Qed.

Lemma sum_fold_mono (l : list (Z * Z)) :
  forall n0, n0 <= fold_left (sum_step count) l n0.
Proof.
  induction l as [|x l IH]; intros n0; cbn [fold_left]; [lia|].
  specialize (IH (sum_step count n0 x)). pose proof (sum_step_eq n0 x).
  pose proof (count_nonneg x.1 x.2). lia.
Qed.

Lemma sum_fold_one (l : list (Z * Z)) :
  forall n0 x, In x l -> n0 + count x.1 x.2 <= fold_left (sum_step count) l n0.
Proof.
  induction l as [|y l IH]; intros n0 x Hin; [destruct Hin|].
  cbn [fold_left]. pose proof (sum_step_eq n0 y).
  pose proof (count_nonneg y.1 y.2). destruct Hin as [<-|Hin].
  - pose proof (sum_fold_mono l (sum_step count n0 y)). lia.
  - specialize (IH (sum_step count n0 y) x Hin). lia.
Qed.

Lemma sum_fold_two (l : list (Z * Z)) :
  forall n0 x y, In x l -> In y l -> x <> y ->
    n0 + count x.1 x.2 + count y.1 y.2 <= fold_left (sum_step count) l n0.
Proof.
  induction l as [|z l IH]; intros n0 x y Hx Hy Hne; [destruct Hx|].
  cbn [fold_left]. pose proof (sum_step_eq n0 z).
  pose proof (count_nonneg z.1 z.2). destruct Hx as [<-|Hx], Hy as [<-|Hy].
  - contradiction.
  - pose proof (sum_fold_one l (sum_step count n0 z) y Hy). lia.
  - pose proof (sum_fold_one l (sum_step count n0 z) x Hx). lia.
  - specialize (IH (sum_step count n0 z) x y Hx Hy Hne). lia.
Qed.

End ConstructorFacts.

Lemma at1_pair0 a b : at1 [a; b] 0 = a.
Proof. reflexivity. Qed.

Lemma at1_pair1 a b : at1 [a; b] 1 = b.
Proof. reflexivity. Qed.

Section ConstructorTheorems.

Import Registry RegistryInv.

Context `{W : World}.

Lemma TBTable_WDL_minLikeMan v pos pos2 :
  minLikeMan (TBTable_WDL v pos pos2)
  = fold_left (mlm_step (m_count pos)) men 0.
Proof.
  reflexivity.
Qed.

Lemma TBTable_WDL_numUniquePieces v pos pos2 :
  numUniquePieces (TBTable_WDL v pos pos2)
  = fold_left (uniq_step (m_count pos)) men 0.
Proof.
  reflexivity.
Qed.

Lemma count_men_sum pos :
  count_men pos = fold_left (sum_step (m_count pos)) men 0.
Proof. reflexivity. Qed.

Lemma In_men c pt :
  (c = WHITE \/ c = BLACK) -> PAWN <= pt <= KING -> In (c, pt) men.
Proof.
  unfold WHITE, BLACK, PAWN, KING. intros Hc Hpt.
  assert (pt = 1 \/ pt = 2 \/ pt = 3 \/ pt = 4 \/ pt = 5 \/ pt = 6) as Hp by lia.
  vm_compute.
  destruct Hc as [->| ->];
    destruct Hp as [->|[->|[->|[->|[->| ->]]]]]; tauto.
Qed.

(** X4. The constructor of a WDL table, for a position whose piece counts are
    bytes: the leading colour [pawnCount[0]] has a pawn whenever the table
    has pawns, and when both colours have pawns it is the colour with the
    fewer pawns (so the assertion [!pp || e.pawnCount[0]] of [set] holds);
    [minLikeMan] is 0 when no man occurs twice, and otherwise the least
    number, from 2 on, of like men. *)
Theorem TBTable_WDL_counts (v : Variant) (pos pos2 : Material) :
  (forall c pt, 0 <= m_count pos c pt < 256) ->
  let e := TBTable_WDL v pos pos2 in
  (hasPawns e = true <-> 1 <= at1 (pawnCount e) 0)
  /\ (1 <= at1 (pawnCount e) 1 ->
      1 <= at1 (pawnCount e) 0 <= at1 (pawnCount e) 1)
  /\ at1 (pawnCount e) 0 + at1 (pawnCount e) 1
     = m_count pos WHITE PAWN + m_count pos BLACK PAWN
  /\ (minLikeMan e = 0 <-> forall c pt, In (c, pt) men -> m_count pos c pt < 2)
  /\ (minLikeMan e <> 0 ->
      (exists c pt, In (c, pt) men /\ m_count pos c pt = minLikeMan e)
      /\ forall c pt, In (c, pt) men -> 2 <= m_count pos c pt ->
                      2 <= minLikeMan e <= m_count pos c pt).
Proof.
  intros Hc e.
  assert (Hnn : forall c pt, 0 <= m_count pos c pt) by (intros; apply Hc).
  pose proof (Hc WHITE PAWN) as Hw. pose proof (Hc BLACK PAWN) as Hb.
  assert (Hpawns :
    (hasPawns e = true <-> 1 <= at1 (pawnCount e) 0)
    /\ (1 <= at1 (pawnCount e) 1 ->
        1 <= at1 (pawnCount e) 0 <= at1 (pawnCount e) 1)
    /\ at1 (pawnCount e) 0 + at1 (pawnCount e) 1
       = m_count pos WHITE PAWN + m_count pos BLACK PAWN).
  { unfold e, TBTable_WDL. cbn [hasPawns pawnCount].
    rewrite !at1_pair0, !at1_pair1. unfold u8.
    destruct (Z.eqb_spec (m_count pos BLACK PAWN) 0) as [Eb|Eb];
      destruct (Z.eqb_spec (m_count pos WHITE PAWN) 0) as [Ew|Ew];
      destruct (Z.leb_spec (m_count pos WHITE PAWN) (m_count pos BLACK PAWN));
      cbn [orb andb negb]; rewrite !Z.mod_small by lia;
      (split; [split; intros; first [reflexivity | discriminate | lia]
              | split; intros; lia]). }
  destruct Hpawns as (P1 & P2 & P3).
  split; [exact P1|]. split; [exact P2|]. split; [exact P3|].
  unfold e. rewrite TBTable_WDL_minLikeMan.
  destruct (mlm_fold (m_count pos) men 0 (or_introl eq_refl))
    as (I1 & _ & I3 & I4).
  cbv zeta in I1, I3, I4.
  set (r := fold_left (mlm_step (m_count pos)) men 0) in *.
  split.
  - split.
    + intros Hr c pt Hin.
      destruct (Z.lt_ge_cases (m_count pos c pt) 2) as [|Hge]; [assumption|].
      specialize (I3 c pt Hin Hge). lia.
    + intros Hall. destruct I4 as [E|(c & pt & Hin & E)]; [exact E|].
      specialize (Hall c pt Hin). destruct I1 as [|I1]; [assumption|]. lia.
  - intros Hne. split.
    + destruct I4 as [E|H]; [contradiction | exact H].
    + exact I3.
Qed.

Lemma TBTable_WDL_counts_witness :
  let pos := {| m_key := 1;
                m_count c pt := if (pt =? KING) || ((c =? WHITE) && (pt =? PAWN))
                                then 1 else 0 |} in
  let e := TBTable_WDL CHESS_VARIANT pos pos in
  (hasPawns e = true <-> 1 <= at1 (pawnCount e) 0)
  /\ (1 <= at1 (pawnCount e) 1 ->
      1 <= at1 (pawnCount e) 0 <= at1 (pawnCount e) 1)
  /\ at1 (pawnCount e) 0 + at1 (pawnCount e) 1
     = m_count pos WHITE PAWN + m_count pos BLACK PAWN
  /\ (minLikeMan e = 0 <-> forall c pt, In (c, pt) men -> m_count pos c pt < 2)
  /\ (minLikeMan e <> 0 ->
      (exists c pt, In (c, pt) men /\ m_count pos c pt = minLikeMan e)
      /\ forall c pt, In (c, pt) men -> 2 <= m_count pos c pt ->
                      2 <= minLikeMan e <= m_count pos c pt).
Proof.
  intros pos. apply (TBTable_WDL_counts CHESS_VARIANT pos pos).
  intros c pt. simpl.
  destruct ((pt =? KING) || ((c =? WHITE) && (pt =? PAWN))); lia.
Defined.

(** X5. The factor of the leading group is defined for every pawnless table
    of at most six men that has men of both colours: with fewer than two
    unique pieces some man occurs twice or more and at most five times, so
    that [MultFactor[e.minLikeMan - 1]] is read inside the array. *)
Theorem lead_factor_defined (v : Variant) (pos pos2 : Material)
    (ptw ptb groupLen0 f : Z) :
  (forall c pt, 0 <= m_count pos c pt < 256) ->
  PAWN <= ptw <= KING -> 1 <= m_count pos WHITE ptw ->
  PAWN <= ptb <= KING -> 1 <= m_count pos BLACK ptb ->
  count_men pos <= 6 ->
  hasPawns (TBTable_WDL v pos pos2) = false ->
  exists factor,
    lead_factor (TBTable_WDL v pos pos2) groupLen0 f = Some factor
    /\ 1 <= factor.
Proof.
  intros Hc Hpw Hw Hpb Hb Hsum Hnp.
  assert (Hnn : forall c pt, 0 <= m_count pos c pt) by (intros; apply Hc).
  unfold lead_factor. rewrite Hnp.
  destruct (Z.leb_spec 3 (numUniquePieces (TBTable_WDL v pos pos2))) as [|Hu3].
  { exists 31332. split; [reflexivity | lia]. }
  destruct (Z.eqb_spec (numUniquePieces (TBTable_WDL v pos pos2)) 2) as [|Hu2].
  { destruct (variant_eqb _ _); eexists; (split; [reflexivity | lia]). }
  destruct (Z.eqb_spec (minLikeMan (TBTable_WDL v pos pos2)) 2) as [|Hm2].
  { exists 278. split; [reflexivity | lia]. }
  rewrite TBTable_WDL_numUniquePieces in Hu3, Hu2.
  rewrite TBTable_WDL_minLikeMan in *.
  rewrite count_men_sum in Hsum.
  pose proof (In_men WHITE ptw (or_introl eq_refl) Hpw) as Iw.
  pose proof (In_men BLACK ptb (or_intror eq_refl) Hpb) as Ib.
  assert (Hwb : (WHITE, ptw) <> (BLACK, ptb)) by (unfold WHITE, BLACK; congruence).
  destruct (mlm_fold (m_count pos) men 0 (or_introl eq_refl))
    as (I1 & _ & I3 & I4).
  cbv zeta in I1, I3, I4.
  set (r := fold_left (mlm_step (m_count pos)) men 0) in *.
  pose proof (uniq_fold_mono (m_count pos) men 0) as Hu0.
  assert (Hr : 3 <= r <= 5).
  { destruct I4 as [E|(c & pt & Hin & E)].
    - (* no man occurs twice: both men above are unique *)
      exfalso.
      assert (C1 : m_count pos WHITE ptw = 1).
      { destruct (Z.lt_ge_cases (m_count pos WHITE ptw) 2) as [|Hge]; [lia|].
        specialize (I3 _ _ Iw Hge). lia. }
      assert (C2 : m_count pos BLACK ptb = 1).
      { destruct (Z.lt_ge_cases (m_count pos BLACK ptb) 2) as [|Hge]; [lia|].
        specialize (I3 _ _ Ib Hge). lia. }
      pose proof (uniq_fold_two (m_count pos) men 0 _ _ Iw Ib Hwb C1 C2) as H2.
      lia.
    - destruct I1 as [E0|I1].
      + exfalso.
        assert (C1 : m_count pos WHITE ptw = 1).
        { destruct (Z.lt_ge_cases (m_count pos WHITE ptw) 2) as [|Hge]; [lia|].
          specialize (I3 _ _ Iw Hge). lia. }
        assert (C2 : m_count pos BLACK ptb = 1).
        { destruct (Z.lt_ge_cases (m_count pos BLACK ptb) 2) as [|Hge]; [lia|].
          specialize (I3 _ _ Ib Hge). lia. }
        pose proof (uniq_fold_two (m_count pos) men 0 _ _ Iw Ib Hwb C1 C2) as H2.
        lia.
      + split; [lia|].
        destruct (decide ((c, pt) = (WHITE, ptw))) as [Ec|Ec].
        * assert (Hne : (c, pt) <> (BLACK, ptb)) by congruence.
          pose proof (sum_fold_two (m_count pos) Hnn men 0 _ _ Hin Ib Hne) as H2.
          cbn [fst snd] in H2. lia.
        * pose proof (sum_fold_two (m_count pos) Hnn men 0 _ _ Hin Iw Ec) as H2.
          cbn [fst snd] in H2. lia. }
  assert (r = 3 \/ r = 4 \/ r = 5) as [-> |[-> | ->]] by lia;
    eexists; (split; [reflexivity | lia]).
Qed.

Lemma lead_factor_defined_witness :
  exists factor,
    lead_factor
      (TBTable_WDL ANTI_VARIANT
         {| m_key := 1;
            m_count c pt := if (c =? WHITE) && (pt =? ROOK) then 3
                            else if (c =? BLACK) && (pt =? KNIGHT) then 3
                            else 0 |}
         {| m_key := 2; m_count _ _ := 0 |}) 3 0 = Some factor
    /\ 1 <= factor.
Proof.
  apply (lead_factor_defined ANTI_VARIANT _ _ ROOK KNIGHT 3 0).
  - intros c pt. simpl.
    destruct ((c =? WHITE) && (pt =? ROOK)); [lia|].
    destruct ((c =? BLACK) && (pt =? KNIGHT)); lia.
  - unfold PAWN, ROOK, KING. lia.
  - simpl. lia.
  - unfold PAWN, KNIGHT, KING. lia.
  - simpl. lia.
  - vm_compute. discriminate.
  - reflexivity.
Defined.

End ConstructorTheorems.

Section RegistryFacts.

Import CatalogInv CatalogMap Registry RegistryInv.

Context `{W : World}.
Variable Size : Z.
Hypothesis Size_pos : 1 <= Size.

Lemma deref_app_l tables p x extra :
  deref tables p = Some x -> deref (tables ++ extra) p = Some x.
Proof.
  unfold deref. destruct (p <=? 0); [discriminate|].
  intros H. apply lookup_app_l_Some. exact H.
Qed.

Lemma deref_last tables x :
  deref (tables ++ [x]) (Z.of_nat (length (tables ++ [x]))) = Some x.
Proof.
  unfold deref. rewrite length_app. simpl.
  destruct (Z.leb_spec (Z.of_nat (length tables + 1)) 0); [lia|].
  replace (Z.to_nat (Z.of_nat (length tables + 1) - 1)) with (length tables) by lia.
  apply list_lookup_middle. reflexivity.
Qed.

Lemma init_state_ok paths : registry_ok Size (init_state Size paths).
Proof.
  split.
  - apply clear_sorted. exact Size_pos.
  - intros e [i [Hrd [Hw _]]]. exfalso. simpl in Hrd. unfold clear, rd in Hrd.
    destruct (i <? 0); [discriminate|].
    apply lookup_replicate in Hrd. destruct Hrd as [-> _]. apply Hw. reflexivity.
Qed.

(** The two ways in which a call of [add] returns. *)
Lemma add_cases s v w b s' :
  add Size s v w b = Done s' ->
  s' = s
  \/ exists t1 t2,
       let wdl := table_for v w b in
       let pw := Z.of_nat (length (wdlTable s ++ [wdl])) in
       let pd := Z.of_nat (length (dtzTable s ++ [TBTable_DTZ wdl])) in
       TBTables_insert Size (hashTable s) (key wdl) pw pd = Inserted t1
       /\ TBTables_insert Size t1 (key2 wdl) pw pd = Inserted t2
       /\ s' = {| Paths := Paths s; hashTable := t2;
                  wdlTable := wdlTable s ++ [wdl];
                  dtzTable := dtzTable s ++ [TBTable_DTZ wdl];
                  MaxCardinality :=
                    Z.max (to_int (Z.of_nat (length w) + Z.of_nat (length b)))
                      (MaxCardinality s) |}.
Proof.
  unfold add. destruct (WdlSuffixes v) as [suffix|].
  2:{ intros E. injection E as <-. left. reflexivity. }
  match goal with |- (if negb ?f then _ else _) = _ -> _ => destruct f end;
    cbn [negb].
  2:{ intros E. injection E as <-. left. reflexivity. }
  fold (table_for v w b).
  destruct (TBTables_insert Size (hashTable s) _ _ _) as [t1| |] eqn:E1;
    try discriminate.
  destruct (TBTables_insert Size t1 _ _ _) as [t2| |] eqn:E2; try discriminate.
  intros E. injection E as <-. right. exists t1, t2.
  split; [first [exact E1 | reflexivity]|].
  split; [first [exact E2 | reflexivity]|]. reflexivity.
Qed.

Lemma add_found s v w b suffix fname :
  WdlSuffixes v = Some suffix ->
  TBFile_open (Paths s) (code_of w b +:+ suffix) = Some fname ->
  forall s', add Size s v w b = Done s' -> s' <> s \/ True ->
  exists t1 t2,
    let wdl := table_for v w b in
    let pw := Z.of_nat (length (wdlTable s ++ [wdl])) in
    let pd := Z.of_nat (length (dtzTable s ++ [TBTable_DTZ wdl])) in
    TBTables_insert Size (hashTable s) (key wdl) pw pd = Inserted t1
    /\ TBTables_insert Size t1 (key2 wdl) pw pd = Inserted t2
    /\ s' = {| Paths := Paths s; hashTable := t2;
               wdlTable := wdlTable s ++ [wdl];
               dtzTable := dtzTable s ++ [TBTable_DTZ wdl];
               MaxCardinality :=
                 Z.max (to_int (Z.of_nat (length w) + Z.of_nat (length b)))
                   (MaxCardinality s) |}.
Proof.
  intros Hs Hf s'. unfold add. rewrite Hs, Hf. cbn [negb].
  fold (table_for v w b).
  destruct (TBTables_insert Size (hashTable s) _ _ _) as [t1| |] eqn:E1;
    try discriminate.
  destruct (TBTables_insert Size t1 _ _ _) as [t2| |] eqn:E2; try discriminate.
  intros E _. injection E as <-. exists t1, t2.
  split; [first [exact E1 | reflexivity]|].
  split; [first [exact E2 | reflexivity]|]. reflexivity.
Qed.

Lemma length_snoc_nonzero {A} (l : list A) x : Z.of_nat (length (l ++ [x])) <> 0.
Proof. rewrite length_app. simpl. lia. Qed.

(** What two successive insertions of the same pair of pointers under
    [k1] and [k2] leave. *)
Lemma insert_twice t t1 t2 k1 k2 pw pd :
  sorted_ok Size t -> pw <> 0 -> pd <> 0 ->
  TBTables_insert Size t k1 pw pd = Inserted t1 ->
  TBTables_insert Size t1 k2 pw pd = Inserted t2 ->
  sorted_ok Size t2
  /\ (forall e, members t2 e ->
        e = {| e_key := k1; e_wdl := pw; e_dtz := pd |}
        \/ e = {| e_key := k2; e_wdl := pw; e_dtz := pd |}
        \/ members t e)
  /\ (forall e, members t e -> exists e', members t2 e' /\ e_key e' = e_key e)
  /\ (forall T k, k = k1 \/ k = k2 ->
        TBTables_get Size t2 T k = Some (match T with WDL => pw | DTZ => pd end))
  /\ (forall T k, k <> k1 -> k <> k2 ->
        TBTables_get Size t2 T k = TBTables_get Size t T k).
Proof.
  intros Hso Hw Hd E1 E2.
  pose proof (insert_sorted Size Size_pos t k1 pw pd Hso Hw Hd) as H1.
  rewrite E1 in H1. destruct H1 as [Hso1 Hm1].
  pose proof (insert_sorted Size Size_pos t1 k2 pw pd Hso1 Hw Hd) as H2.
  rewrite E2 in H2. destruct H2 as [Hso2 Hm2].
  split; [exact Hso2|]. split; [|split; [|split]].
  - intros e He. apply Hm2 in He. destruct He as [->|[He _]]; [tauto|].
    apply Hm1 in He. destruct He as [->|[He _]]; tauto.
  - intros e He.
    destruct (Z.eq_dec (e_key e) k2) as [Ek2|Nk2].
    { exists {| e_key := k2; e_wdl := pw; e_dtz := pd |}.
      split; [apply Hm2; left; reflexivity | simpl; congruence]. }
    destruct (Z.eq_dec (e_key e) k1) as [Ek1|Nk1].
    { exists {| e_key := k1; e_wdl := pw; e_dtz := pd |}.
      split; [|simpl; congruence].
      apply Hm2. right. split; [apply Hm1; left; reflexivity | simpl; congruence]. }
    exists e. split; [|reflexivity].
    apply Hm2. right. split; [|exact Nk2]. apply Hm1. right. split; assumption.
  - intros T k Hk.
    destruct (Z.eq_dec k k2) as [->|Nk2].
    + apply (insert_get_same Size Size_pos t1 t2 T k2 pw pd Hso1 Hw Hd E2).
    + destruct Hk as [->|Hk]; [|contradiction].
      rewrite (insert_get_other Size Size_pos t1 t2 T k2 pw pd k1 Hso1 Hw Hd E2 Nk2).
      apply (insert_get_same Size Size_pos t t1 T k1 pw pd Hso Hw Hd E1).
  - intros T k N1 N2.
    rewrite (insert_get_other Size Size_pos t1 t2 T k2 pw pd k Hso1 Hw Hd E2 N2).
    apply (insert_get_other Size Size_pos t t1 T k1 pw pd k Hso Hw Hd E1 N1).
Qed.

Lemma add_ok s v w b s' :
  registry_ok Size s -> add Size s v w b = Done s' ->
  registry_ok Size s'
  /\ (forall k, registered s k -> registered s' k)
  /\ Paths s' = Paths s.
Proof.
  intros [Hso Hent] Hadd.
  destruct (add_cases s v w b s' Hadd) as [->|(t1 & t2 & E1 & E2 & ->)].
  { split; [split; assumption|]. split; [tauto | reflexivity]. }
  cbv zeta in E1, E2.
  destruct (insert_twice _ _ _ _ _ _ _ Hso (length_snoc_nonzero _ _)
              (length_snoc_nonzero _ _) E1 E2) as (Hso2 & Hm & Hkeep & _ & _).
  split; [split|split].
  - exact Hso2.
  - cbn [hashTable wdlTable dtzTable]. intros e He.
    destruct (Hm e He) as [->|[->|Hold]].
    + exists (table_for v w b). cbn [e_wdl e_dtz e_key].
      split; [apply deref_last|]. split; [apply deref_last|]. left; reflexivity.
    + exists (table_for v w b). cbn [e_wdl e_dtz e_key].
      split; [apply deref_last|]. split; [apply deref_last|]. right; reflexivity.
    + destruct (Hent e Hold) as (wdl & D1 & D2 & K).
      exists wdl. split; [apply deref_app_l; exact D1|].
      split; [apply deref_app_l; exact D2 | exact K].
  - intros k (e & He & Hk). destruct (Hkeep e He) as (e' & He' & Hk').
    exists e'. split; [exact He' | congruence].
  - reflexivity.
Qed.

Lemma add_all_ok sigs :
  forall s v s',
    registry_ok Size s -> add_all Size s v sigs = Done s' ->
    registry_ok Size s'
    /\ (forall k, registered s k -> registered s' k)
    /\ Paths s' = Paths s.
Proof.
  induction sigs as [|[w b] sigs IH]; intros s v s' Hok Hall.
  - injection Hall as <-. split; [exact Hok|]. split; [tauto | reflexivity].
  - cbn [add_all] in Hall.
    destruct (add Size s v w b) as [s1| |] eqn:E1; try discriminate.
    destruct (add_ok s v w b s1 Hok E1) as (Hok1 & Hk1 & Hp1).
    destruct (IH s1 v s' Hok1 Hall) as (Hok' & Hk' & Hp').
    split; [exact Hok'|]. split; [|congruence].
    intros k Hk. apply Hk', Hk1, Hk.
Qed.

Lemma add_all_found sigs :
  forall s v s' w b suffix fname,
    registry_ok Size s -> add_all Size s v sigs = Done s' ->
    In (w, b) sigs ->
    WdlSuffixes v = Some suffix ->
    TBFile_open (Paths s) (code_of w b +:+ suffix) = Some fname ->
    registered s' (key (table_for v w b))
    /\ registered s' (key2 (table_for v w b)).
Proof.
  induction sigs as [|[w0 b0] sigs IH];
    intros s v s' w b suffix fname Hok Hall Hin Hs Hf; [destruct Hin|].
  cbn [add_all] in Hall.
  destruct (add Size s v w0 b0) as [s1| |] eqn:E1; try discriminate.
  destruct (add_ok s v w0 b0 s1 Hok E1) as (Hok1 & Hk1 & Hp1).
  destruct Hin as [E|Hin].
  - injection E as -> ->.
    destruct (add_found s v w b suffix fname Hs Hf s1 E1 (or_intror I))
      as (t1 & t2 & I1 & I2 & ->).
    cbv zeta in I1, I2.
    destruct Hok as [Hso Hent].
    destruct (insert_twice _ _ _ _ _ _ _ Hso (length_snoc_nonzero _ _)
                (length_snoc_nonzero _ _) I1 I2) as (Hso2 & _ & _ & Hget & _).
    destruct (add_all_ok sigs _ v s' Hok1 Hall) as (_ & Hkeep & _).
    assert (Hreg : forall k, k = key (table_for v w b) \/ k = key2 (table_for v w b) ->
                     registered s' k).
    { intros k Hk. apply Hkeep. unfold registered. cbn [hashTable].
      destruct (present_or_absent Size Size_pos t2 k Hso2)
        as [(p & e & He & Ek)|Habs].
      - exists e. split; [exists p; exact He | exact Ek].
      - exfalso. pose proof (Hget WDL k Hk) as G.
        rewrite (get_absent Size Size_pos t2 WDL k Hso2 Habs) in G.
        injection G as G. symmetry in G.
        apply (length_snoc_nonzero _ _ G). }
    split; apply Hreg; [left|right]; reflexivity.
  - apply (IH s1 v s' w b suffix fname Hok1 Hall Hin Hs).
    rewrite Hp1. exact Hf.
Qed.

Lemma registry_lookup s T k p :
  registry_ok Size s ->
  TBTables_get Size (hashTable s) T k = Some p -> p <> 0 ->
  exists wdl,
    (key wdl = k \/ key2 wdl = k)
    /\ match T with
       | WDL => deref (wdlTable s) p = Some wdl
       | DTZ => deref (dtzTable s) p = Some (TBTable_DTZ wdl)
       end.
Proof.
  intros [Hso Hent] Hget Hp.
  destruct (get_ok Size Size_pos (hashTable s) T k (so_ok _ _ Hso))
    as (p' & steps & e & _ & Hget' & _ & _ & Hrd & Hp' & [->|[Hst Hk]]).
  - rewrite Hget in Hget'. injection Hget' as ->.
    exfalso. apply Hp. rewrite Hp'. destruct T; reflexivity.
  - rewrite Hget in Hget'. injection Hget' as ->.
    destruct (Hent e (ex_intro _ _ (conj Hrd Hst))) as (wdl & D1 & D2 & K).
    exists wdl. split; [rewrite <- Hk; exact K|].
    rewrite Hp'. destruct T; assumption.
Qed.

Lemma registered_get s T k :
  registry_ok Size s -> registered s k ->
  exists p, TBTables_get Size (hashTable s) T k = Some p /\ p <> 0.
Proof.
  intros [Hso _] (e & [i He] & <-).
  exists (entry_get T e). split.
  - apply (get_present Size Size_pos _ T i e Hso He).
  - apply stored_get. apply He.
Qed.

End RegistryFacts.

Section RegistryTheorems.

Import CatalogInv CatalogMap Registry RegistryInv.

Context `{W : World}.

(** X6. In a catalog that [init] has begun to fill, a call of [add] for a
    signature whose WDL file opens appends one WDL table and its DTZ twin to
    the two lists and registers them under both material keys of the
    signature: [get] returns the new pair for [key] and for [key2], returns
    what it returned before for every other key, and [MaxCardinality] is
    raised to the number of men of the signature. *)
Theorem add_registers (Size : Z) (paths : string) (v : Variant)
    (sigs : list (list Z * list Z)) (s s' : State)
    (w b : list Z) (suffix fname : string) :
  1 <= Size ->
  add_all Size (init_state Size paths) v sigs = Done s ->
  WdlSuffixes v = Some suffix ->
  TBFile_open paths (code_of w b +:+ suffix) = Some fname ->
  add Size s v w b = Done s' ->
  let wdl := table_for v w b in
  wdlTable s' = wdlTable s ++ [wdl]
  /\ dtzTable s' = dtzTable s ++ [TBTable_DTZ wdl]
  /\ (forall k, k = key wdl \/ k = key2 wdl ->
        TBTables_get Size (hashTable s') WDL k
        = Some (Z.of_nat (length (wdlTable s')))
        /\ TBTables_get Size (hashTable s') DTZ k
           = Some (Z.of_nat (length (dtzTable s'))))
  /\ (forall T k, k <> key wdl -> k <> key2 wdl ->
        TBTables_get Size (hashTable s') T k
        = TBTables_get Size (hashTable s) T k)
  /\ MaxCardinality s'
     = Z.max (to_int (Z.of_nat (length w) + Z.of_nat (length b)))
         (MaxCardinality s).
Proof.
  intros HS Hall Hs Hf Hadd wdl.
  destruct (add_all_ok Size HS sigs _ v s (init_state_ok Size HS paths) Hall)
    as (Hok & _ & Hp).
  simpl in Hp. rewrite <- Hp in Hf.
  destruct (add_found Size s v w b suffix fname Hs Hf s' Hadd (or_intror I))
    as (t1 & t2 & I1 & I2 & ->).
  cbv zeta in I1, I2. destruct Hok as [Hso Hent].
  destruct (insert_twice Size HS _ _ _ _ _ _ _ Hso (length_snoc_nonzero _ _)
              (length_snoc_nonzero _ _) I1 I2) as (_ & _ & _ & Hget & Hother).
  cbn [wdlTable dtzTable hashTable MaxCardinality].
  split; [reflexivity|]. split; [reflexivity|].
  split; [|split; [|reflexivity]].
  - intros k Hk. split; [apply (Hget WDL k Hk) | apply (Hget DTZ k Hk)].
  - intros T k N1 N2. apply (Hother T k N1 N2).
Qed.

(** X7. After [Tablebases::init], whatever files it found: a non-null result
    of [get<WDL>(key)] points into [wdlTable], to a table whose [key] or
    [key2] is the key asked for, and a non-null result of [get<DTZ>(key)]
    points into [dtzTable], to the DTZ twin of such a table. *)
Theorem init_lookup_sound (Size : Z) (v : Variant) (paths : string)
    (s : State) (T : TBType) (k p : Z) :
  1 <= Size ->
  init Size v paths = Done s ->
  TBTables_get Size (hashTable s) T k = Some p -> p <> 0 ->
  exists wdl,
    (key wdl = k \/ key2 wdl = k)
    /\ match T with
       | WDL => deref (wdlTable s) p = Some wdl
       | DTZ => deref (dtzTable s) p = Some (TBTable_DTZ wdl)
       end.
Proof.
  intros HS Hinit Hget Hp.
  apply (registry_lookup Size HS s T k p); [|assumption..].
  unfold init in Hinit. fold (init_state Size paths) in Hinit.
  destruct (String.eqb paths EmptyString || String.eqb paths "<empty>").
  - injection Hinit as <-. apply init_state_ok. exact HS.
  - destruct (variant_eqb (main_variant v) ANTI_VARIANT);
      apply (add_all_ok Size HS _ _ v s (init_state_ok Size HS paths) Hinit).
Qed.

(** X8. After [Tablebases::init] with a list of directories: every signature
    of the loops of [init] whose WDL file opens is registered, that is,
    [get<WDL>] and [get<DTZ>] return non-null tables for both of its
    material keys. *)
Theorem init_registers_found (Size : Z) (v : Variant) (paths : string)
    (s : State) (w b : list Z) (suffix fname : string) (T : TBType) (k : Z) :
  1 <= Size ->
  String.eqb paths EmptyString || String.eqb paths "<empty>" = false ->
  init Size v paths = Done s ->
  In (w, b) (calls_of v) ->
  WdlSuffixes v = Some suffix ->
  TBFile_open paths (code_of w b +:+ suffix) = Some fname ->
  k = key (table_for v w b) \/ k = key2 (table_for v w b) ->
  exists p, TBTables_get Size (hashTable s) T k = Some p /\ p <> 0.
Proof.
  intros HS Hpaths Hinit Hin Hs Hf Hk.
  unfold init in Hinit. fold (init_state Size paths) in Hinit.
  rewrite Hpaths in Hinit. unfold calls_of in Hin.
  destruct (variant_eqb (main_variant v) ANTI_VARIANT).
  - destruct (add_all_ok Size HS _ _ v s (init_state_ok Size HS paths) Hinit)
      as (Hok & _ & _).
    destruct (add_all_found Size HS _ _ v s w b suffix fname
                (init_state_ok Size HS paths) Hinit Hin Hs Hf) as [R1 R2].
    apply (registered_get Size HS s T k Hok).
    destruct Hk as [-> | ->]; assumption.
  - destruct (add_all_ok Size HS _ _ v s (init_state_ok Size HS paths) Hinit)
      as (Hok & _ & _).
    destruct (add_all_found Size HS _ _ v s w b suffix fname
                (init_state_ok Size HS paths) Hinit Hin Hs Hf) as [R1 R2].
    apply (registered_get Size HS s T k Hok).
    destruct Hk as [-> | ->]; assumption.
Qed.

End RegistryTheorems.

Section Enumeration.

Import Registry RegistryInv.

Lemma list_eqb_eq x : forall y, list_eqb x y = true <-> x = y.
Proof.
  induction x as [|a x IH]; intros [|b y]; simpl; try (split; [discriminate|congruence]).
  - tauto.
  - rewrite Bool.andb_true_iff, Z.eqb_eq, IH. split; [intros [-> ->]; reflexivity|].
    intros E. injection E as -> ->. tauto.
Qed.

Lemma sig_eqb_eq x y : sig_eqb x y = true <-> x = y.
Proof.
  unfold sig_eqb. rewrite Bool.andb_true_iff, !list_eqb_eq.
  destruct x, y; simpl. split; [intros [-> ->]; reflexivity|].
  intros E. injection E as -> ->. tauto.
Qed.

Lemma existsb_sig_In x l : existsb (sig_eqb x) l = true <-> In x l.
Proof.
  rewrite existsb_exists. split.
  - intros (y & Hy & E). apply sig_eqb_eq in E. subst. exact Hy.
  - intros H. exists x. split; [exact H | apply sig_eqb_eq; reflexivity].
Qed.

Lemma nodupb_NoDup l : nodupb l = true -> List.NoDup l.
Proof.
  induction l as [|x l IH]; simpl; [constructor|].
  rewrite Bool.andb_true_iff, Bool.negb_true_iff. intros [Hx Hl].
  constructor; [|apply IH; exact Hl].
  intros Hin. apply existsb_sig_In in Hin. congruence.
Qed.

Lemma lists_upto_complete (n : nat) :
  forall l, (length l <= n)%nat ->
    forallb (fun p => (PAWN <=? p) && (p <=? QUEEN)) l = true ->
    In l (lists_upto n).
Proof.
  induction n as [|n IH]; intros l Hlen Hall.
  - destruct l; [left; reflexivity | simpl in Hlen; lia].
  - destruct l as [|p l]; [left; reflexivity|].
    right. simpl in Hlen, Hall. apply Bool.andb_true_iff in Hall.
    destruct Hall as [Hp Hall].
    change (In (p :: l) (lists_upto n ≫= (fun l => range PAWN QUEEN ≫= (fun p => [p :: l])))).
    apply list_elem_of_In, list_elem_of_bind. exists l.
    split; [|apply list_elem_of_In, IH; [lia | exact Hall]].
    apply list_elem_of_bind. exists p. split; [apply list_elem_of_singleton; reflexivity|].
    apply list_elem_of_In, In_range.
    apply Bool.andb_true_iff in Hp. destruct Hp as [H1 H2].
    apply Z.leb_le in H1, H2. lia.
Qed.

(** X9. The loops of [init] for standard chess call [add] once for each
    signature of up to seven men in which both sides have a king, White has
    at least one man besides the king, the other men of each side are
    listed from the heaviest to the lightest, and White has more men than
    Black or as many and not lighter ones; there are 1511 of them. *)
Theorem standard_calls_exact :
  (forall w b,
      In (w, b) standard_calls
      <-> exists w' b',
            w = KING :: w' /\ b = KING :: b' /\ canonical w' b' = true)
  /\ List.NoDup standard_calls
  /\ length standard_calls = 1511%nat.
Proof.
  split; [|split].
  - intros w b. split.
    + intros Hin.
      assert (H : check_listed_canonical = true) by (vm_compute; reflexivity).
      unfold check_listed_canonical in H. rewrite forallb_forall in H.
      specialize (H (w, b) Hin). simpl in H.
      destruct w as [|k w']; [discriminate|]. destruct b as [|k' b']; [discriminate|].
      apply Bool.andb_true_iff in H. destruct H as [H Hc].
      apply Bool.andb_true_iff in H. destruct H as [H1 H2].
      apply Z.eqb_eq in H1, H2. subst. exists w', b'. tauto.
    + intros (w' & b' & -> & -> & Hc).
      assert (H : check_canonical_listed = true) by (vm_compute; reflexivity).
      unfold check_canonical_listed in H. rewrite forallb_forall in H.
      pose proof Hc as Hc'. unfold canonical in Hc'.
      repeat (apply Bool.andb_true_iff in Hc'; destruct Hc' as [Hc' ?]).
      rewrite forallb_app in Hc'. apply Bool.andb_true_iff in Hc'.
      destruct Hc' as [Hw Hb].
      match goal with H : (_ + _ <=? 5)%nat = true |- _ => apply Nat.leb_le in H end.
      specialize (H w'). rewrite forallb_forall in H.
      assert (In w' (lists_upto 5)) as Hw5 by (apply lists_upto_complete; [lia | exact Hw]).
      specialize (H Hw5 b').
      assert (In b' (lists_upto (5 - length w'))) as Hb5
        by (apply lists_upto_complete; [lia | exact Hb]).
      specialize (H Hb5). rewrite Hc in H.
      apply existsb_sig_In in H. exact H.
  - apply nodupb_NoDup. vm_compute. reflexivity.
  - vm_compute. reflexivity.
Qed.

End Enumeration.

Section RegistryWitnesses.

Import Registry RegistryInv ToyDisk.

Lemma add_registers_witness :
  TBTables_get 4 (hashTable toy_added) WDL 41 = Some 1
  /\ TBTables_get 4 (hashTable toy_added) DTZ 42 = Some 1.
Proof.
  destruct (add_registers 4 "tb" CHESS_VARIANT [] (init_state 4 "tb") toy_added
              [KING; QUEEN] [KING] ".rtbw" "tb/KQvK.rtbw")
    as (_ & _ & H & _).
  - lia.
  - reflexivity.
  - reflexivity.
  - reflexivity.
  - vm_compute. reflexivity.
  - split.
    + apply (H 41). left. reflexivity.
    + apply (H 42). right. reflexivity.
Defined.

Lemma init_lookup_sound_witness :
  exists wdl,
    (key wdl = 42 \/ key2 wdl = 42)
    /\ deref (dtzTable toy_state) 1 = Some (TBTable_DTZ wdl).
Proof.
  apply (init_lookup_sound 4 CHESS_VARIANT "tb" toy_state DTZ 42 1).
  - lia.
  - vm_compute. reflexivity.
  - vm_compute. reflexivity.
  - discriminate.
Defined.

Lemma init_registers_found_witness :
  exists p, TBTables_get 4 (hashTable toy_state) WDL 42 = Some p /\ p <> 0.
Proof.
  apply (init_registers_found 4 CHESS_VARIANT "tb" toy_state
           [KING; QUEEN] [KING] ".rtbw" "tb/KQvK.rtbw" WDL 42).
  - lia.
  - reflexivity.
  - vm_compute. reflexivity.
  - apply existsb_sig_In. vm_compute. reflexivity.
  - reflexivity.
  - reflexivity.
  - right. reflexivity.
Defined.

End RegistryWitnesses.

Section NothingToFind.

Import Registry RegistryInv CatalogInv CatalogMap.

Context `{W : World}.

Lemma TBFile_open_none (paths f : string) :
  (forall name, opens name = false) -> TBFile_open paths f = None.
Proof.
  intros Hno. unfold TBFile_open.
  induction (List.map _ (getlines paths EmptyString)) as [|x l IH];
    [reflexivity|].
  simpl. rewrite Hno. exact IH.
Qed.

Lemma add_nothing (Size : Z) (s : State) (v : Variant) (w b : list Z) :
  (forall name, opens name = false) -> add Size s v w b = Done s.
Proof.
  intros Hno. unfold add.
  destruct (WdlSuffixes v); [|reflexivity].
  rewrite (TBFile_open_none _ _ Hno).
  destruct (negb (variant_eqb v CHESS_VARIANT) && has_no_P (code_of w b));
    [|reflexivity].
  destruct (PawnlessWdlSuffixes v); [|reflexivity].
  rewrite (TBFile_open_none _ _ Hno). reflexivity.
Qed.

Lemma add_all_nothing (Size : Z) (s : State) (v : Variant)
    (sigs : list (list Z * list Z)) :
  (forall name, opens name = false) -> add_all Size s v sigs = Done s.
Proof.
  intros Hno. induction sigs as [|[w b] sigs IH]; [reflexivity|].
  cbn [add_all]. rewrite (add_nothing Size s v w b Hno). exact IH.
Qed.

(** X10. [Tablebases::init] leaves an empty catalog when there is nothing to
    find: for an empty path list, for the path list "<empty>", and when no
    file of any signature opens, it returns with no table in the two lists
    and [MaxCardinality = 0], and [get] answers the null pointer for every
    key. *)
Theorem init_nothing_to_find (Size : Z) (v : Variant) (paths : string)
    (T : TBType) (k : Z) :
  1 <= Size ->
  paths = EmptyString \/ paths = "<empty>"
  \/ (forall name, opens name = false) ->
  exists s,
    init Size v paths = Done s
    /\ wdlTable s = [] /\ dtzTable s = [] /\ MaxCardinality s = 0
    /\ TBTables_get Size (hashTable s) T k = Some 0.
Proof.
  intros HS Hcase.
  assert (Hget : TBTables_get Size (clear Size) T k = Some 0).
  { apply get_absent; [exact HS | apply clear_sorted; exact HS |].
    intros p e [Hrd [Hw _]] _. unfold clear, rd in Hrd.
    destruct (p <? 0); [discriminate|].
    apply lookup_replicate in Hrd. destruct Hrd as [-> _]. apply Hw.
    reflexivity. }
  exists (init_state Size paths).
  split; [|repeat split; exact Hget].
  unfold init. fold (init_state Size paths).
  destruct Hcase as [->|[->|Hno]]; try reflexivity.
  destruct (String.eqb paths EmptyString || String.eqb paths "<empty>");
    [reflexivity|].
  destruct (variant_eqb (main_variant v) ANTI_VARIANT);
    apply add_all_nothing; exact Hno.
Qed.

End NothingToFind.

Section NothingToFindWitness.

Import Registry RegistryInv ToyDisk.

Lemma init_nothing_to_find_witness :
  exists s,
    init 4 CHESS_VARIANT "<empty>" = Done s
    /\ wdlTable s = [] /\ dtzTable s = [] /\ MaxCardinality s = 0
    /\ TBTables_get 4 (hashTable s) WDL 41 = Some 0.
Proof.
  apply (init_nothing_to_find 4 CHESS_VARIANT "<empty>" WDL 41).
  - lia.
  - right. left. reflexivity.
Defined.

End NothingToFindWitness.

Section Bits.

Lemma land_shiftl_small a b n :
  0 <= n -> 0 <= b < 2 ^ n -> Z.land (Z.shiftl a n) b = 0.
Proof.
  intros Hn Hb. apply Z.bits_inj'. intros m Hm.
  rewrite Z.land_spec, Z.bits_0.
  destruct (Z.lt_ge_cases m n) as [Hlt|Hge].
  - rewrite Z.shiftl_spec_low by exact Hlt. reflexivity.
  - destruct (Z.eq_dec b 0) as [->|Hb0].
    + rewrite Z.bits_0. apply Bool.andb_false_r.
    + rewrite (Z.bits_above_log2 b m); [apply Bool.andb_false_r | lia |].
      apply Z.log2_lt_pow2; [lia|].
      apply Z.lt_le_trans with (2 ^ n); [lia|].
      apply Z.pow_le_mono_r; lia.
Qed.

Lemma lor_shiftl_add a b n :
  0 <= n -> 0 <= b < 2 ^ n -> Z.lor (Z.shiftl a n) b = a * 2 ^ n + b.
Proof.
  intros Hn Hb.
  pose proof (land_shiftl_small a b n Hn Hb) as Hz.
  rewrite <- Z.lxor_lor by exact Hz.
  rewrite <- Z.add_nocarry_lxor by exact Hz.
  rewrite Z.shiftl_mul_pow2 by exact Hn. reflexivity.
Qed.

End Bits.

Section Symbols.

Import SymbolTree.

Lemma LR_split (b0 b1 b2 : byte) :
  let left := Z.lor (Z.shiftl (Z.land (byte_val b1) 15) 8) (byte_val b0) in
  let right := Z.lor (Z.shiftl (byte_val b2) 4) (Z.shiftr (byte_val b1) 4) in
  0 <= left < 4096 /\ 0 <= right < 4096
  /\ left + 4096 * right = le_val [b0; b1; b2].
Proof.
  intros left right. unfold left, right.
  pose proof (byte_val_range b0) as H0.
  pose proof (byte_val_range b1) as H1.
  pose proof (byte_val_range b2) as H2.
  change 15 with (Z.ones 4). rewrite Z.land_ones by lia.
  rewrite Z.shiftr_div_pow2 by lia.
  rewrite (lor_shiftl_add _ (byte_val b0) 8) by (try lia; change (2 ^ 8) with 256; lia).
  assert (Hq : 0 <= byte_val b1 / 2 ^ 4 < 2 ^ 4).
  { change (2 ^ 4) with 16. split.
    - apply Z.div_pos; lia.
    - apply Z.div_lt_upper_bound; lia. }
  rewrite (lor_shiftl_add _ (byte_val b1 / 2 ^ 4) 4) by (try lia; exact Hq).
  cbn [le_val].
  change (2 ^ 4) with 16 in *. change (2 ^ 8) with 256.
  pose proof (Z.mod_pos_bound (byte_val b1) 16 ltac:(lia)) as Hm.
  pose proof (Z.div_mod (byte_val b1) 16 ltac:(lia)) as Hd.
  lia.
Qed.

Lemma LR_get_range (bt : list byte) (sym : Z) :
  is_Some (bytes_at bt (3 * sym) 3) ->
  exists left right,
    LR_get Left bt sym = Some left /\ LR_get Right bt sym = Some right
    /\ 0 <= left < 4096 /\ 0 <= right < 4096.
Proof.
  intros [lr Hlr]. unfold LR_get. rewrite Hlr. cbn [mbind option_bind].
  pose proof (bytes_at_length _ _ _ _ Hlr) as Hlen.
  destruct lr as [|b0 [|b1 [|b2 [|? ?]]]]; try discriminate.
  destruct (LR_split b0 b1 b2) as (Hl & Hr & _).
  eexists. eexists. split; [reflexivity|]. split; [reflexivity|].
  split; assumption.
Qed.

(** X11. The two symbols of a [btree] entry are the two halves of its three
    bytes read as one 24-bit little-endian number: the left symbol is the
    low 12 bits and the right symbol the high 12 bits, so both lie in
    0..4095 and the entry is recovered from them. *)
Theorem LR_get_halves (bt : list byte) (sym : Z) (lr : list byte) :
  bytes_at bt (3 * sym) 3 = Some lr ->
  exists left right,
    LR_get Left bt sym = Some left
    /\ LR_get Right bt sym = Some right
    /\ 0 <= left < 4096 /\ 0 <= right < 4096
    /\ left + 4096 * right = le_val lr.
Proof.
  intros Hlr. unfold LR_get. rewrite Hlr. cbn [mbind option_bind].
  pose proof (bytes_at_length _ _ _ _ Hlr) as Hlen.
  destruct lr as [|b0 [|b1 [|b2 [|? ?]]]]; try discriminate.
  destruct (LR_split b0 b1 b2) as (Hl & Hr & Hsum).
  eexists. eexists. split; [reflexivity|]. split; [reflexivity|].
  split; [exact Hl|]. split; [exact Hr | exact Hsum].
Qed.

Lemma LR_get_halves_witness :
  exists left right,
    LR_get Left (btree example_tree) 2 = Some left
    /\ LR_get Right (btree example_tree) 2 = Some right
    /\ 0 <= left < 4096 /\ 0 <= right < 4096
    /\ left + 4096 * right = le_val [x00; x10; x00].
Proof.
  apply (LR_get_halves (btree example_tree) 2 [x00; x10; x00]).
  reflexivity.
Defined.

End Symbols.

Section SymbolsTheorems.

Import SymbolTree.

(** X12. On a well-formed symbol tree the expansion loop of
    [decompress_pairs] ends: started at a symbol that stands for [n + 1]
    values with an offset between 0 and [n], it reaches a leaf within
    [n + 1] rounds and returns the left half of that leaf's entry, a value
    in 0..4095. *)
Theorem expand_reaches_leaf (d : PairsData) (fuel : nat) (sym offset n : Z) :
  tree_ok d ->
  rd (symlen d) sym = Some n -> 0 <= offset <= n -> (Z.to_nat n < fuel)%nat ->
  exists v leaf,
    expand fuel d sym offset = Some v
    /\ rd (symlen d) leaf = Some 0
    /\ LR_get Left (btree d) leaf = Some v
    /\ 0 <= v < 4096.
Proof.
  intros Hok. revert sym offset n.
  induction fuel as [|fuel IH]; intros sym offset n Hn Hoff Hfuel; [lia|].
  cbn [expand]. rewrite Hn. cbn [mbind option_bind].
  pose proof (tree_bytes d Hok sym n Hn) as Hb.
  destruct (LR_get_range (btree d) sym
              (tree_entries d Hok sym (rd_Some _ _ _ Hn)))
    as (left & right & HL & HR & HLr & HRr).
  destruct (Z.eqb_spec n 0) as [->|Hn0].
  - exists left, sym. tauto.
  - rewrite HL. cbn [mbind option_bind].
    destruct (tree_pairs d Hok sym n left right Hn Hn0 HL HR)
      as (nl & nr & Hnl & Hnr & Hsum).
    pose proof (tree_bytes d Hok left nl Hnl) as Hbl.
    pose proof (tree_bytes d Hok right nr Hnr) as Hbr.
    rewrite Hnl. cbn [mbind option_bind].
    destruct (Z.ltb_spec offset (nl + 1)) as [Hlt|Hge].
    + apply (IH left offset nl Hnl); lia.
    + rewrite HR. cbn [mbind option_bind].
      rewrite to_int_small by lia.
      apply (IH right (offset - (nl + 1)) nr Hnr); lia.
Qed.

Lemma example_tree_ok : tree_ok example_tree.
Proof.
  split.
  - intros sym Hs. simpl in Hs.
    assert (sym = 0 \/ sym = 1 \/ sym = 2) as [->|[->| ->]] by lia;
      vm_compute; eauto.
  - intros sym n Hn. pose proof (rd_Some _ _ _ Hn) as Hr. simpl in Hr.
    assert (sym = 0 \/ sym = 1 \/ sym = 2) as [->|[->| ->]] by lia;
      vm_compute in Hn; injection Hn as <-; lia.
  - intros sym n left right Hn Hn0 HL HR.
    pose proof (rd_Some _ _ _ Hn) as Hr. simpl in Hr.
    assert (sym = 0 \/ sym = 1 \/ sym = 2) as [->|[->| ->]] by lia;
      vm_compute in Hn; injection Hn as <-; try contradiction.
    vm_compute in HL, HR. injection HL as <-. injection HR as <-.
    exists 0, 0. repeat split.
Qed.

Lemma expand_reaches_leaf_witness :
  exists v leaf,
    expand 2 example_tree 2 1 = Some v
    /\ rd (symlen example_tree) leaf = Some 0
    /\ LR_get Left (btree example_tree) leaf = Some v
    /\ 0 <= v < 4096.
Proof.
  apply (expand_reaches_leaf example_tree 2 2 1 1).
  - exact example_tree_ok.
  - reflexivity.
  - lia.
  - simpl. lia.
Defined.

End SymbolsTheorems.

Section SetSizes.

Import Header HeaderExamples.

Lemma find_zero_range groupLen (n : nat) :
  forall i z, find_zero groupLen n i = Some z -> i <= z <= i + Z.of_nat n.
Proof.
  induction n as [|n IH]; intros i z H; cbn [find_zero] in H.
  - injection H as <-. lia.
  - bind_step H. destruct (z0 =? 0).
    + injection H as <-. lia.
    + apply IH in H. lia.
Qed.

Lemma base64_down_length (n : nat) lowestSym :
  forall b b', base64_down n lowestSym b = Some b' -> length b' = length b.
Proof.
  induction n as [|n IH]; intros b b' H; cbn [base64_down] in H.
  - injection H as <-. reflexivity.
  - repeat bind_step H. apply IH in H. rewrite length_insert in H. exact H.
Qed.

(** The first loop over [base64] writes below index [n] only. *)
Lemma base64_down_above (n : nat) lowestSym :
  forall b b' (j : nat),
    base64_down n lowestSym b = Some b' -> (n <= j)%nat -> b' !! j = b !! j.
Proof.
  induction n as [|n IH]; intros b b' j H Hj; cbn [base64_down] in H.
  - injection H as <-. reflexivity.
  - repeat bind_step H. rewrite (IH _ _ j H) by lia.
    apply list_lookup_insert_ne. lia.
Qed.

Lemma base64_shifts_length minSymLen b :
  forall i b', base64_shifts minSymLen i b = Some b' -> length b' = length b.
Proof.
  induction b as [|x b IH]; intros i b' H; cbn [base64_shifts] in H.
  - injection H as <-. reflexivity.
  - repeat bind_step H. injection H as <-. simpl. f_equal. eapply IH. eassumption.
Qed.

Lemma base64_shifts_zero minSymLen b :
  forall i b' (j : nat),
    base64_shifts minSymLen i b = Some b' -> b !! j = Some 0 -> b' !! j = Some 0.
Proof.
  induction b as [|x b IH]; intros i b' j H Hj; cbn [base64_shifts] in H.
  - rewrite lookup_nil in Hj. discriminate.
  - repeat bind_step H. injection H as <-. destruct j as [|j].
    + simpl in Hj. injection Hj as ->. simpl.
      unfold base64_shift in E. destruct (_ || _); [discriminate|].
      injection E as <-. rewrite Z.shiftl_0_l. reflexivity.
    + simpl in *. eapply IH; eassumption.
Qed.

(** What a run of [set_sizes] on a header without [SingleValue] fixes. *)
Lemma set_sizes_cases d file data d' data' :
  set_sizes d file data = Some (d', data') ->
  (has (flags d') SingleValue = true /\ data' = data + 2)
  \/
  has (flags d') SingleValue = false /\
  exists z tbSize sp n,
    find_zero (groupLen d) 7 0 = Some z
    /\ rd (groupIdx d) z = Some tbSize
    /\ 0 <= sp < 64
    /\ span d' = 2 ^ sp
    /\ sparseIndexSize d' = u64 (tbSize + span d' - 1) / span d'
    /\ 0 <= maxSymLen d' - minSymLen d' + 1
    /\ length (base64 d') = Z.to_nat (maxSymLen d' - minSymLen d' + 1)
    /\ (1 <= maxSymLen d' - minSymLen d' + 1 ->
        base64 d' !! (Z.to_nat (maxSymLen d' - minSymLen d' + 1) - 1)%nat = Some 0)
    /\ 0 <= n
    /\ data' = data + 10 + (maxSymLen d' - minSymLen d' + 1) * 2 + 2
               + n * 3 + Z.land n 1.
Proof.
  intros H. unfold set_sizes in H.
  destruct (rd file data) as [b|] eqn:Efl; [|discriminate H].
  cbn [fmap option_fmap option_map mbind option_bind] in H.
  destruct (has (byte_val b) SingleValue) eqn:Esv.
  { destruct (rd file (data + 1)); [|discriminate H].
    cbn [fmap option_fmap option_map mbind option_bind] in H.
    injection H as <- <-. left. split; [exact Esv | reflexivity]. }
  destruct (find_zero (groupLen d) 7 0) as [z|] eqn:Ez; [|discriminate H].
  cbn [mbind option_bind] in H.
  destruct (rd (groupIdx d) z) as [tbSize|] eqn:Etb; [|discriminate H].
  cbn [mbind option_bind] in H.
  destruct (rd file (data + 1)) as [bs|] eqn:Ebs; [|discriminate H].
  cbn [fmap option_fmap option_map mbind option_bind] in H.
  destruct (rd file (data + 2)) as [sp|] eqn:Esp; [|discriminate H].
  cbn [fmap option_fmap option_map mbind option_bind] in H.
  destruct ((64 <=? byte_val bs) || (64 <=? byte_val sp)) eqn:E64; [discriminate H|].
  apply Bool.orb_false_iff in E64. destruct E64 as [_ Hsp]. apply Z.leb_gt in Hsp.
  destruct (number 1 LittleEndian file (data + 3)) as [padding|]; [|discriminate H].
  cbn [mbind option_bind] in H.
  destruct (number 4 LittleEndian file (data + 4)) as [blocks|]; [|discriminate H].
  cbn [mbind option_bind] in H.
  destruct (rd file (data + 8)) as [mx|] eqn:Emx; [|discriminate H].
  cbn [fmap option_fmap option_map mbind option_bind] in H.
  destruct (rd file (data + 9)) as [mn|] eqn:Emn; [|discriminate H].
  cbn [fmap option_fmap option_map mbind option_bind] in H.
  destruct (Z.ltb_spec (byte_val mx - byte_val mn + 1) 0) as [|Hh]; [discriminate H|].
  set (h := byte_val mx - byte_val mn + 1) in *.
  destruct (base64_down _ _ _) as [b1|] eqn:Eb1; [|discriminate H].
  cbn [mbind option_bind] in H.
  destruct (base64_shifts _ _ _) as [b2|] eqn:Eb2; [|discriminate H].
  cbn [mbind option_bind] in H.
  destruct (number 2 LittleEndian file (data + 10 + h * 2)) as [n|] eqn:En;
    [|discriminate H].
  cbn [mbind option_bind] in H.
  destruct (symlen_loop _ _ _ _) as [[sl vis]|]; [|discriminate H].
  cbn [mbind option_bind] in H.
  injection H as <- <-. right. split; [exact Esv|].
  cbn [span sparseIndexSize maxSymLen minSymLen base64].
  pose proof (byte_val_range sp) as Hspr.
  exists z, tbSize, (byte_val sp), n.
  split; [first [exact Ez | reflexivity]|].
  split; [first [exact Etb | reflexivity]|]. split; [lia|].
  split; [rewrite Z.shiftl_1_l; reflexivity|].
  split; [reflexivity|]. split; [exact Hh|].
  pose proof (base64_down_length _ _ _ _ Eb1) as L1.
  pose proof (base64_shifts_length _ _ _ _ Eb2) as L2.
  unfold zeros in L1. rewrite length_replicate in L1.
  split; [rewrite L2, L1; reflexivity|]. split.
  - intros Hh1. fold h. apply (base64_shifts_zero _ _ _ _ _ Eb2).
    rewrite (base64_down_above _ _ _ _ _ Eb1) by lia.
    unfold zeros. apply lookup_replicate_2. lia.
  - split; [apply (number_nonneg _ _ _ _ _ En) | fold h; lia].
Qed.

End SetSizes.

Section SetSizesTheorems.

Import Header HeaderExamples.

(** X13. A header whose flags byte has [SingleValue] set takes two bytes:
    [set_sizes] stores the second byte as the value, with no block and no
    sparse index, and returns the pointer past it. [set] keeps that record,
    except for a DTZ table of the antichess family, where it overwrites the
    value with 1. From then on [decompress_pairs] answers, for every index,
    the byte of the header, and 1 for a DTZ table of the antichess
    family. *)
Theorem set_sizes_single_value (T : TBType) (vr : Variant) (d : PairsData)
    (file : list byte) (data : Z) (fl v : byte) :
  rd file data = Some fl -> rd file (data + 1) = Some v ->
  has (byte_val fl) SingleValue = true ->
  exists d0 d',
    set_sizes d file data = Some (d0, data + 2)
    /\ minSymLen d0 = byte_val v
    /\ set_record_sizes T vr d file data = Some (d', data + 2)
    /\ blocksNum d' = 0 /\ sparseIndexSize d' = 0
    /\ forall fuel idx,
         decompress_pairs fuel d' idx
         = Some (match T with
                 | DTZ => if variant_eqb (main_variant vr) ANTI_VARIANT
                          then 1 else byte_val v
                 | WDL => byte_val v
                 end).
Proof.
  intros Hfl Hv Hsv.
  assert (E : set_sizes d file data
              = Some (with_single d (byte_val fl) (byte_val v), data + 2)).
  { unfold set_sizes. rewrite Hfl.
    cbn [fmap option_fmap option_map mbind option_bind]. rewrite Hsv, Hv.
    reflexivity. }
  exists (with_single d (byte_val fl) (byte_val v)).
  unfold set_record_sizes. rewrite E. cbn [mbind option_bind].
  cbn [flags with_single]. rewrite Hsv, Bool.andb_true_r.
  destruct T.
  - eexists. split; [reflexivity|]. split; [reflexivity|].
    cbn [andb]. split; [reflexivity|]. split; [reflexivity|].
    split; [reflexivity|].
    intros fuel idx. unfold decompress_pairs. cbn [flags with_single minSymLen].
    rewrite Hsv. reflexivity.
  - cbn [andb]. destruct (variant_eqb (main_variant vr) ANTI_VARIANT).
    + eexists. split; [reflexivity|]. split; [reflexivity|].
      split; [reflexivity|]. split; [reflexivity|]. split; [reflexivity|].
      intros fuel idx. unfold decompress_pairs.
      cbn [flags with_single with_minSymLen minSymLen].
      rewrite Hsv. reflexivity.
    + eexists. split; [reflexivity|]. split; [reflexivity|].
      split; [reflexivity|]. split; [reflexivity|]. split; [reflexivity|].
      intros fuel idx. unfold decompress_pairs.
      cbn [flags with_single minSymLen].
      rewrite Hsv. reflexivity.
Qed.

Lemma set_sizes_single_value_witness :
  exists d0 d',
    set_sizes ten_positions single_header 0 = Some (d0, 0 + 2)
    /\ minSymLen d0 = byte_val x03
    /\ set_record_sizes DTZ GIVEAWAY_VARIANT ten_positions single_header 0
       = Some (d', 0 + 2)
    /\ blocksNum d' = 0 /\ sparseIndexSize d' = 0
    /\ forall fuel idx,
         decompress_pairs fuel d' idx
         = Some (match DTZ with
                 | DTZ => if variant_eqb (main_variant GIVEAWAY_VARIANT)
                               ANTI_VARIANT
                          then 1 else byte_val x03
                 | WDL => byte_val x03
                 end).
Proof.
  apply (set_sizes_single_value DTZ GIVEAWAY_VARIANT ten_positions
           single_header 0 x80 x03);
    reflexivity.
Defined.

Lemma land_1_mod n : Z.land n 1 = n mod 2.
Proof. change 1 with (Z.ones 1). rewrite Z.land_ones by lia. reflexivity. Qed.

(** X14. [set_sizes] advances the pointer by an even number of bytes, for
    every header it accepts: a pointer that is word aligned before the call,
    as [set] makes it, is word aligned after it. *)
Theorem set_sizes_keeps_alignment (d : PairsData) (file : list byte)
    (data : Z) (d' : PairsData) (data' : Z) :
  set_sizes d file data = Some (d', data') ->
  data < data' /\ (data' - data) mod 2 = 0.
Proof.
  intros H.
  destruct (set_sizes_cases d file data d' data' H)
    as [[_ ->]|[_ (z & tb & sp & n & _ & _ & _ & _ & _ & Hh & _ & _ & Hn & ->)]].
  - split; [lia|]. replace (data + 2 - data) with 2 by lia. reflexivity.
  -     rewrite land_1_mod.
    pose proof (Z.mod_pos_bound n 2 ltac:(lia)) as Hm.
    pose proof (Z.div_mod n 2 ltac:(lia)) as Hd.
    split; [lia|].
    replace (data + 10 + (maxSymLen d' - minSymLen d' + 1) * 2 + 2 + n * 3
             + n mod 2 - data)
      with ((6 + (maxSymLen d' - minSymLen d' + 1) + n + n / 2 + n mod 2) * 2)
      by lia.
    apply Z.mod_mul. lia.
Qed.

Lemma set_sizes_keeps_alignment_witness :
  0 < 24 /\ (24 - 0) mod 2 = 0.
Proof.
  apply (set_sizes_keeps_alignment ten_positions block_header 0
           ten_read
           24).
  vm_compute. reflexivity.
Defined.

(** X15. For a header with blocks, [set_sizes] sizes the sparse index so that
    it has an entry for every index of the table: with [tbSize] the last
    group index, every [idx] below [tbSize] has [idx / span] below
    [sparseIndexSize], the number of entries that [set] reserves, and
    [span] is a power of two. *)
Theorem set_sizes_sparse_cover (d : PairsData) (file : list byte)
    (data : Z) (d' : PairsData) (data' : Z) :
  set_sizes d file data = Some (d', data') ->
  has (flags d') SingleValue = false ->
  exists z tbSize sp,
    find_zero (groupLen d) 7 0 = Some z
    /\ rd (groupIdx d) z = Some tbSize
    /\ 0 <= sp < 64 /\ span d' = 2 ^ sp
    /\ (0 <= tbSize < 2 ^ 63 ->
        forall idx, 0 <= idx < tbSize ->
                    0 <= idx / span d' < sparseIndexSize d').
Proof.
  intros H Hns.
  destruct (set_sizes_cases d file data d' data' H)
    as [[E _]|[_ (z & tb & sp & n & Hz & Htb & Hsp & Hspan & Hsis & _)]];
    [congruence|].
  exists z, tb, sp. split; [exact Hz|]. split; [exact Htb|].
  split; [exact Hsp|]. split; [exact Hspan|].
  intros Htbr idx Hidx.
  assert (Hpos : 0 < span d') by (rewrite Hspan; apply Z.pow_pos_nonneg; lia).
  assert (Hle : span d' <= 2 ^ 63)
    by (rewrite Hspan; apply Z.pow_le_mono_r; lia).
  rewrite Hsis. unfold u64.
  rewrite Z.mod_small by (change (2 ^ 64) with (2 * 2 ^ 63); lia).
  replace (tb + span d' - 1) with (tb - 1 + 1 * span d') by lia.
  rewrite Z.div_add by lia.
  split; [apply Z.div_pos; lia|].
  assert (idx / span d' <= (tb - 1) / span d')
    by (apply Z.div_le_mono; lia).
  lia.
Qed.

Lemma set_sizes_sparse_cover_witness :
  exists z tbSize sp,
    find_zero (groupLen ten_positions) 7 0 = Some z
    /\ rd (groupIdx ten_positions) z = Some tbSize
    /\ 0 <= sp < 64
    /\ span ten_read
       = 2 ^ sp
    /\ (0 <= tbSize < 2 ^ 63 ->
        forall idx, 0 <= idx < tbSize ->
          0 <= idx / span ten_read
          < sparseIndexSize ten_read).
Proof.
  apply (set_sizes_sparse_cover ten_positions block_header 0 _ 24).
  - vm_compute. reflexivity.
  - vm_compute. reflexivity.
Defined.

Lemma find_len_stops d buf64 (j : nat) :
  base64 d !! j = Some 0 -> 0 <= buf64 ->
  forall (n : nat) len,
    0 <= len <= Z.of_nat j -> (j - Z.to_nat len < n)%nat ->
    exists r, find_len n d buf64 len = Some r /\ len <= r <= Z.of_nat j.
Proof.
  intros Hj Hb. induction n as [|n IH]; intros len Hlen Hn; [lia|].
  cbn [find_len].
  destruct (rd_in_range (base64 d) len) as [b Eb].
  { apply lookup_lt_Some in Hj. lia. }
  rewrite Eb. cbn [mbind option_bind].
  destruct (Z.ltb_spec buf64 b) as [Hlt|Hge].
  - assert (len <> Z.of_nat j).
    { intros ->. unfold rd in Eb. destruct (Z.ltb_spec (Z.of_nat j) 0); [lia|].
      rewrite Nat2Z.id in Eb. rewrite Hj in Eb. injection Eb as <-. lia. }
    destruct (IH (len + 1)) as (r & Hr & Hrr); [lia|lia|].
    exists r. split; [exact Hr | lia].
  - exists len. split; [reflexivity | lia].
Qed.



End SetSizesTheorems.

Section SymlenTermination.

Import Header HeaderExamples.

Lemma LR_get_nonneg S bt s v : LR_get S bt s = Some v -> 0 <= v.
Proof.
  unfold LR_get. destruct (bytes_at bt (3 * s) 3) as [lr|]; [|discriminate].
  cbn [mbind option_bind].
  destruct lr as [|b0 [|b1 [|b2 [|? ?]]]]; try discriminate.
  intros E. injection E as <-.
  pose proof (byte_val_range b0). pose proof (byte_val_range b1).
  pose proof (byte_val_range b2).
  destruct S; apply Z.lor_nonneg; split;
    try apply Z.shiftl_nonneg; try apply Z.shiftr_nonneg;
    try (apply Z.land_nonneg; left); lia.
Qed.

Lemma unvisited_insert (v : list bool) :
  forall i : nat, v !! i = Some false ->
    (unvisited (<[i := true]> v) + 1 = unvisited v)%nat.
Proof.
  unfold unvisited. induction v as [|b v IH]; intros i Hi.
  - rewrite lookup_nil in Hi. discriminate.
  - destruct i as [|i]; simpl in *.
    + injection Hi as ->. simpl. lia.
    + specialize (IH i Hi). destruct b; simpl; lia.
Qed.

Lemma unvisited_le_length v : (unvisited v <= length v)%nat.
Proof.
  unfold unvisited. induction v as [|b v IH]; simpl; [lia|].
  destruct b; simpl; lia.
Qed.

Variable btree : list byte.
Variable N : nat.
Hypothesis Hchildren : children_in_range btree (Z.of_nat N).

Lemma visit_total fuel :
  visits btree N fuel ->
  forall x symlen visited,
    length symlen = N -> length visited = N ->
    0 <= x < Z.of_nat N -> (unvisited visited <= fuel)%nat ->
    exists symlen' visited',
      visit (set_symlen fuel btree) x (symlen, visited) = Some (symlen', visited')
      /\ length symlen' = N /\ length visited' = N
      /\ (unvisited visited' <= unvisited visited)%nat.
Proof.
  intros IH x symlen visited Hs Hv Hx Hu. unfold visit. cbn [snd].
  destruct (rd_in_range visited x) as [vb Evb]; [lia|].
  rewrite Evb. cbn [mbind option_bind]. destruct vb.
  - exists symlen, visited. repeat split; try assumption. lia.
  - destruct (IH x symlen visited Hs Hv Hx Evb Hu)
      as (r & s1 & v1 & E & Hs1 & Hv1 & Hlt).
    rewrite E. cbn [mbind option_bind].
    destruct (rd_in_range s1 x) as [old Eold]; [lia|].
    rewrite Eold. cbn [mbind option_bind].
    exists (<[Z.to_nat x := r]> s1), v1.
    split; [reflexivity|]. rewrite length_insert. repeat split; try assumption. lia.
Qed.

Lemma set_symlen_total (fuel : nat) : visits btree N fuel.
Proof.
  induction fuel as [|fuel IH]; intros s symlen visited Hs Hv Hsr Hvis Hu.
  - exfalso. unfold rd in Hvis. destruct (Z.ltb_spec s 0); [lia|].
    pose proof (unvisited_insert visited _ Hvis). lia.
  - cbn [set_symlen]. rewrite Hvis. cbn [mbind option_bind].
    assert (Hvis' : visited !! Z.to_nat s = Some false).
    { unfold rd in Hvis. destruct (Z.ltb_spec s 0); [lia | exact Hvis]. }
    pose proof (unvisited_insert visited _ Hvis') as Hdec.
    set (v1 := <[Z.to_nat s := true]> visited) in *.
    assert (Hv1 : length v1 = N) by (unfold v1; rewrite length_insert; exact Hv).
    destruct (Hchildren s Hsr) as (l & r & HL & HR & Hlr).
    rewrite HR. cbn [mbind option_bind].
    destruct (Z.eqb_spec r 4095) as [->|Hne].
    + exists 0, symlen, v1. repeat split; try assumption. lia.
    + destruct Hlr as [|[Hl Hr]]; [contradiction|].
      pose proof (LR_get_nonneg _ _ _ _ HL) as Hl0.
      pose proof (LR_get_nonneg _ _ _ _ HR) as Hr0.
      rewrite HL. cbn [mbind option_bind].
      destruct (visit_total fuel IH l symlen v1 Hs Hv1 ltac:(lia) ltac:(lia))
        as (s2 & v2 & E2 & Hs2 & Hv2 & Hu2).
      rewrite E2. cbn [mbind option_bind].
      destruct (visit_total fuel IH r s2 v2 Hs2 Hv2 ltac:(lia) ltac:(lia))
        as (s3 & v3 & E3 & Hs3 & Hv3 & Hu3).
      rewrite E3. cbn [mbind option_bind fst].
      destruct (rd_in_range s3 l) as [a Ea]; [lia|].
      destruct (rd_in_range s3 r) as [b Eb]; [lia|].
      rewrite Ea, Eb. cbn [mbind option_bind].
      exists (u8 (a + b + 1)), s3, v3. repeat split; try assumption. lia.
Qed.

Lemma symlen_loop_total (syms : list Z) :
  (forall s, In s syms -> 0 <= s < Z.of_nat N) ->
  forall symlen visited,
    length symlen = N -> length visited = N ->
    exists symlen' visited',
      symlen_loop (S N) btree syms (symlen, visited) = Some (symlen', visited')
      /\ length symlen' = N /\ length visited' = N.
Proof.
  induction syms as [|s syms IH]; intros Hin symlen visited Hs Hv.
  - exists symlen, visited. repeat split; assumption.
  - cbn [symlen_loop].
    pose proof (unvisited_le_length visited) as Hu.
    destruct (visit_total (S N) (set_symlen_total (S N)) s symlen visited Hs Hv)
      as (s1 & v1 & E & Hs1 & Hv1 & _); [apply Hin; left; reflexivity | lia |].
    rewrite E. cbn [mbind option_bind].
    apply IH; [|assumption..].
    intros x Hx. apply Hin. right. exact Hx.
Qed.

End SymlenTermination.

Section SymlenTheorem.

Import Header HeaderExamples.

(** X17. The computation of [symlen] in [set_sizes] ends for every tree of
    [n] symbols whose entries lie in the file and whose pairs have children
    among the [n] symbols, whether or not the tree is acyclic: a symbol is
    marked as visited before its children are looked at, so that no call of
    [set_symlen] nests deeper than [n]. Both vectors keep their size. *)
Theorem symlen_loop_returns (btree : list byte) (n : nat) :
  children_in_range btree (Z.of_nat n) ->
  exists symlen visited,
    symlen_loop (S n) btree (range 0 (Z.of_nat n - 1))
      (zeros n, replicate n false) = Some (symlen, visited)
    /\ length symlen = n /\ length visited = n.
Proof.
  intros Hc. apply (symlen_loop_total btree n Hc).
  - intros s Hs. unfold range in Hs.
    assert (G : forall m lo x, In x (count_from m lo) -> lo <= x < lo + Z.of_nat m).
    { induction m as [|m IHm]; intros lo x Hx; [destruct Hx|].
      destruct Hx as [<-|Hx]; [lia|]. apply IHm in Hx. lia. }
    apply G in Hs. lia.
  - unfold zeros. apply length_replicate.
  - apply length_replicate.
Qed.

(** A tree of two symbols that are each other's children. *)
Lemma symlen_loop_returns_witness :
  exists symlen visited,
    symlen_loop 3 [x01; x10; x00; x00; x00; x00] (range 0 (Z.of_nat 2 - 1))
      (zeros 2, replicate 2 false) = Some (symlen, visited)
    /\ length symlen = 2%nat /\ length visited = 2%nat.
Proof.
  apply (symlen_loop_returns [x01; x10; x00; x00; x00; x00] 2).
  intros s Hs.
  assert (s = 0 \/ s = 1) as [->| ->] by lia.
  - exists 1, 1. vm_compute. split; [reflexivity|]. split; [reflexivity|].
    right. split; reflexivity.
  - exists 0, 0. vm_compute. split; [reflexivity|]. split; [reflexivity|].
    right. split; reflexivity.
Defined.

End SymlenTheorem.

Section DtzMapFacts.

Import Header DtzLayout RemapSpec.

Lemma byte_val_of z : 0 <= z <= 255 -> byte_val (byte_of z) = z.
Proof.
  intros Hz. unfold byte_val, byte_of.
  rewrite Z.mod_small by lia.
  destruct (Byte.of_N (Z.to_N z)) as [b|] eqn:E.
  - simpl. apply Byte.to_of_N in E. rewrite E. lia.
  - apply Byte.of_N_None_iff in E. lia.
Qed.

Lemma rd_region {A} (file pre rest : list A) data b :
  0 <= data -> drop (Z.to_nat data) file = pre ++ b :: rest ->
  rd file (data + Z.of_nat (length pre)) = Some b.
Proof.
  intros Hd E. unfold rd. destruct (Z.ltb_spec (data + Z.of_nat (length pre)) 0); [lia|].
  replace (Z.to_nat (data + Z.of_nat (length pre)))
    with (Z.to_nat data + length pre)%nat by lia.
  rewrite <- lookup_drop, E.
  rewrite lookup_app_r by lia. rewrite Nat.sub_diag. reflexivity.
Qed.

Lemma region_shift (file pre rest : list byte) data :
  0 <= data -> region file data = pre ++ rest ->
  region file (data + Z.of_nat (length pre)) = rest.
Proof.
  unfold region. intros Hd E.
  replace (Z.to_nat (data + Z.of_nat (length pre)))
    with (Z.to_nat data + length pre)%nat by lia.
  rewrite <- drop_drop, E. rewrite drop_app_length. reflexivity.
Qed.

Lemma map_idx_step n file data0 data i mi t rest :
  0 <= data -> (length t <= 255)%nat ->
  region file data = sub_table t ++ rest ->
  map_idx_loop (S n) false file data0 data i mi
  = map_idx_loop n false file data0 (data + (Z.of_nat (length t) + 1)) (i + 1)
      (set1 mi i (u16 (data - data0 + 1)))
  /\ region file (data + (Z.of_nat (length t) + 1)) = rest.
Proof.
  intros Hd Ht E. split.
  - cbn [map_idx_loop].
    pose proof (rd_region file [] (t ++ rest) data _ Hd E) as R.
    simpl in R. rewrite Z.add_0_r in R. rewrite R.
    cbn [fmap option_fmap option_map mbind option_bind].
    rewrite byte_val_of by lia. reflexivity.
  - pose proof (region_shift file (sub_table t) rest data Hd E) as R.
    unfold sub_table in R. simpl length in R.
    rewrite <- R. f_equal. lia.
Qed.

Lemma native1_at (m pre t post : list byte) (value : Z) (b : byte) :
  m = pre ++ t ++ post -> rd t value = Some b ->
  native 1 m (Z.of_nat (length pre) + value) = Some (byte_val b).
Proof.
  intros -> Hb. pose proof (rd_Some _ _ _ Hb) as Hr.
  unfold rd in Hb. destruct (Z.ltb_spec value 0); [lia|].
  unfold native, bytes_at.
  destruct (Z.ltb_spec (Z.of_nat 1 * (Z.of_nat (length pre) + value)) 0); [lia|].
  replace (Z.to_nat (Z.of_nat 1 * (Z.of_nat (length pre) + value)))
    with (length pre + Z.to_nat value)%nat by lia.
  rewrite <- drop_drop, drop_app_length.
  rewrite drop_app_le by lia.
  apply list_elem_of_split_length in Hb as (l1 & l2 & -> & Hl).
  rewrite Hl, drop_app_length. simpl. f_equal. lia.
Qed.

Lemma stored_in_moves_code fl wdl :
  ((wdl_eqb wdl WDLWin && negb (has fl WinPlies))
   || (wdl_eqb wdl WDLLoss && negb (has fl LossPlies))
   || wdl_eqb wdl WDLCursedWin
   || wdl_eqb wdl WDLBlessedLoss)
  = match wdl with
    | WDLWin => negb (has fl WinPlies)
    | WDLLoss => negb (has fl LossPlies)
    | WDLCursedWin | WDLBlessedLoss => true
    | WDLDraw => false
    end.
Proof. destruct wdl; simpl; rewrite ?orb_false_r; reflexivity. Qed.

Lemma get_put e d0 d :
  tbtype e = DTZ -> hasPawns e = false -> get e 0 0 = Some d0 ->
  exists e',
    put e 0 0 d = Some e' /\ get e' 0 0 = Some d /\ map e' = map e.
Proof.
  intros HT HP Hg. unfold get in Hg. unfold put.
  rewrite HT, HP in *. simpl Sides in *. change (Z.rem 0 1) with 0 in *.
  destruct (rd (items e) 0) as [row|] eqn:Er; [|discriminate].
  cbn [mbind option_bind] in *. rewrite Hg. cbn [mbind option_bind].
  eexists. split; [reflexivity|]. split; [|reflexivity].
  unfold get. cbn [tbtype hasPawns items with_items]. rewrite HT, HP.
  simpl Sides. change (Z.rem 0 1) with 0.
  unfold rd in *. simpl in *.
  destruct (items e) as [|r its]; [discriminate|]. simpl in *.
  injection Er as ->. destruct row; [discriminate|]. reflexivity.
Qed.

(** X18. Reading back what [set_dtz_map] has indexed. For a DTZ table without
    pawns whose record is [Mapped] and not [Wide], and a file that holds at
    [data] four remap tables, each as a length byte followed by at most 255
    entries: [set_dtz_map] returns the first even offset at or after the end
    of the four tables, and afterwards [map_score] of a stored value [value]
    is entry number [value] of the table of the WDL score (table 0 for a win
    and for a draw, 1 for a loss, 2 for a cursed win, 3 for a blessed loss),
    doubled where the table counts moves, plus 1. *)
Theorem set_dtz_map_round_trip (e : TBTable) (d : PairsData)
    (file : list byte) (data : Z) (t0 t1 t2 t3 rest : list byte) :
  tbtype e = DTZ -> hasPawns e = false -> get e 0 0 = Some d ->
  has (flags d) Mapped = true -> has (flags d) Wide = false ->
  length (map_idx d) = 4%nat ->
  0 <= data ->
  Forall (fun t => (length t <= 255)%nat) [t0; t1; t2; t3] ->
  region file data = four_tables t0 t1 t2 t3 ++ rest ->
  exists e',
    set_dtz_map e file data 0
    = Some (e', data + Z.of_nat (length (four_tables t0 t1 t2 t3))
                + Z.land (data + Z.of_nat (length (four_tables t0 t1 t2 t3))) 1)
    /\ forall wdl value b,
         rd (table_of wdl t0 t1 t2 t3) value = Some b ->
         map_score_dtz e' 0 value wdl
         = Some ((if stored_in_moves (flags d) wdl
                  then 2 * byte_val b else byte_val b) + 1).
Proof.
  intros HT HP Hg HM HW Hmi Hd Hlen E.
  set (stop := data + Z.of_nat (length (four_tables t0 t1 t2 t3))).
  apply Forall_cons in Hlen as [L0 Hlen]. apply Forall_cons in Hlen as [L1 Hlen].
  apply Forall_cons in Hlen as [L2 Hlen]. apply Forall_cons in Hlen as [L3 _].
  unfold four_tables in E. rewrite <- !app_assoc in E.
  destruct (map_idx_step 3 file data data 0 (map_idx d) t0 _ Hd L0 E) as [S0 E1].
  pose proof (fun H => map_idx_step 2 file data _ 1
              (set1 (map_idx d) 0 (u16 (data - data + 1))) t1 _ H L1 E1) as P1.
  destruct (P1 ltac:(lia)) as [S1 E2]. clear P1.
  pose proof (fun H => map_idx_step 1 file data _ 2
              (set1 (set1 (map_idx d) 0 (u16 (data - data + 1))) 1
                 (u16 (data + (Z.of_nat (length t0) + 1) - data + 1)))
              t2 _ H L2 E2) as P2.
  destruct (P2 ltac:(lia)) as [S2 E3]. clear P2.
  pose proof (fun H => map_idx_step 0 file data _ 3
              (set1 (set1 (set1 (map_idx d) 0 (u16 (data - data + 1))) 1
                 (u16 (data + (Z.of_nat (length t0) + 1) - data + 1))) 2
                 (u16 (data + (Z.of_nat (length t0) + 1)
                       + (Z.of_nat (length t1) + 1) - data + 1)))
              t3 _ H L3 E3) as P3.
  destruct (P3 ltac:(lia)) as [S3 _]. clear P3.
  change (0 + 1) with 1 in *. change (1 + 1) with 2 in *.
  change (2 + 1) with 3 in *. change (3 + 1) with 4 in *.
  change (map_idx_loop 0 false file data ?x 4 ?m) with (Some (m, x)) in S3.
  set (e1 := with_items e (region file data) (items e)).
  assert (Hg1 : get e1 0 0 = Some d) by exact Hg.
  match type of S3 with _ = Some (?m, ?x) =>
    set (mi := m) in *; set (stop' := x) in * end.
  assert (Hstop : stop' = stop).
  { unfold stop', stop, four_tables, sub_table.
    rewrite !length_app. simpl length. lia. }
  destruct (get_put e1 d (with_map_idx d mi) HT HP Hg1) as (e2 & Hput & Hg2 & Hmap).
  exists e2. split.
  - unfold set_dtz_map. rewrite HT. fold e1.
    change (range 0 0) with [0]. cbn [dtz_map_files].
    rewrite Hg1. cbn [mbind option_bind]. rewrite HM, HW.
    rewrite S0, S1, S2, S3. cbn [mbind option_bind].
    rewrite Hput. cbn [mbind option_bind]. rewrite Hstop. reflexivity.
  - intros wdl value b Hb.
    unfold map_score_dtz. rewrite Hg2. cbn [mbind option_bind].
    cbn [flags map_idx with_map_idx]. rewrite HM, HW, Hmap.
    cbn [map e1 with_items].
    rewrite stored_in_moves_code.
    assert (Hsm : stored_in_moves (flags d) wdl
                  = match wdl with
                    | WDLWin => negb (has (flags d) WinPlies)
                    | WDLLoss => negb (has (flags d) LossPlies)
                    | WDLCursedWin | WDLBlessedLoss => true
                    | WDLDraw => false
                    end).
    { unfold stored_in_moves, flag_WinPlies, flag_LossPlies.
      rewrite has_WinPlies, has_LossPlies. reflexivity. }
    rewrite <- Hsm. clear Hsm.
    destruct (map_idx d) as [|m0 [|m1 [|m2 [|m3 [|? ?]]]]] eqn:Emi;
      try discriminate.
    assert (U : forall z, 0 <= z < 65536 -> u16 z = z).
    { intros z Hz. unfold u16. apply Z.mod_small. change (2 ^ 16) with 65536. lia. }
    assert (N : forall k pre t post,
               region file data = pre ++ t ++ post ->
               rd t value = Some b -> k = Z.of_nat (length pre) ->
               native 1 (region file data) (k + value) = Some (byte_val b)).
    { intros k pre t post Ereg Hbt ->. eapply native1_at; eassumption. }
    assert (R0 : rd mi 0 = Some 1).
    { unfold mi, set1, rd. simpl. f_equal. rewrite U; lia. }
    assert (R1 : rd mi 1 = Some (Z.of_nat (length (sub_table t0)) + 1)).
    { unfold mi, set1, rd, sub_table. simpl length. simpl. f_equal. rewrite U; lia. }
    assert (R2 : rd mi 2
                 = Some (Z.of_nat (length (sub_table t0 ++ sub_table t1)) + 1)).
    { unfold mi, set1, rd, sub_table. rewrite !length_app. simpl length.
      simpl. f_equal. rewrite U; lia. }
    assert (R3 : rd mi 3
                 = Some (Z.of_nat (length (sub_table t0 ++ sub_table t1
                                           ++ sub_table t2)) + 1)).
    { unfold mi, set1, rd, sub_table. rewrite !length_app. simpl length.
      simpl. f_equal. rewrite U; lia. }
    clearbody mi.
    destruct wdl; simpl in Hb.
    + change (rd WDLMap (wdl_int WDLLoss + 2)) with (Some 1).
      cbn [mbind option_bind]. rewrite R1. cbn [mbind option_bind].
      rewrite (N _ (sub_table t0 ++ [byte_of (Z.of_nat (length t1))]) t1
                 (sub_table t2 ++ sub_table t3 ++ rest)).
      * cbn [mbind option_bind]. f_equal; try (destruct (stored_in_moves _ _); lia).
      * rewrite E. unfold sub_table.
        repeat first [rewrite <- app_assoc | rewrite <- app_comm_cons].
        reflexivity.
      * exact Hb.
      * rewrite !length_app. simpl length. lia.
    + change (rd WDLMap (wdl_int WDLBlessedLoss + 2)) with (Some 3).
      cbn [mbind option_bind]. rewrite R3. cbn [mbind option_bind].
      rewrite (N _ (sub_table t0 ++ sub_table t1 ++ sub_table t2
                    ++ [byte_of (Z.of_nat (length t3))]) t3 rest).
      * cbn [mbind option_bind]. f_equal; try (destruct (stored_in_moves _ _); lia).
      * rewrite E. unfold sub_table.
        repeat first [rewrite <- app_assoc | rewrite <- app_comm_cons].
        reflexivity.
      * exact Hb.
      * rewrite !length_app. simpl length. lia.
    + change (rd WDLMap (wdl_int WDLDraw + 2)) with (Some 0).
      cbn [mbind option_bind]. rewrite R0. cbn [mbind option_bind].
      rewrite (N _ [byte_of (Z.of_nat (length t0))] t0
                 (sub_table t1 ++ sub_table t2 ++ sub_table t3 ++ rest)).
      * cbn [mbind option_bind]. f_equal; try (destruct (stored_in_moves _ _); lia).
      * rewrite E. reflexivity.
      * exact Hb.
      * reflexivity.
    + change (rd WDLMap (wdl_int WDLCursedWin + 2)) with (Some 2).
      cbn [mbind option_bind]. rewrite R2. cbn [mbind option_bind].
      rewrite (N _ (sub_table t0 ++ sub_table t1
                    ++ [byte_of (Z.of_nat (length t2))]) t2
                 (sub_table t3 ++ rest)).
      * cbn [mbind option_bind]. f_equal; try (destruct (stored_in_moves _ _); lia).
      * rewrite E. unfold sub_table.
        repeat first [rewrite <- app_assoc | rewrite <- app_comm_cons].
        reflexivity.
      * exact Hb.
      * rewrite !length_app. simpl length. lia.
    + change (rd WDLMap (wdl_int WDLWin + 2)) with (Some 0).
      cbn [mbind option_bind]. rewrite R0. cbn [mbind option_bind].
      rewrite (N _ [byte_of (Z.of_nat (length t0))] t0
                 (sub_table t1 ++ sub_table t2 ++ sub_table t3 ++ rest)).
      * cbn [mbind option_bind]. f_equal; try (destruct (stored_in_moves _ _); lia).
      * rewrite E. reflexivity.
      * exact Hb.
      * reflexivity.
Qed.

End DtzMapFacts.

Section DtzMapTheorems.

Import Header DtzLayout RemapSpec.


Lemma set_dtz_map_round_trip_witness :
  exists e',
    set_dtz_map (example_dtz 2) example_file 3 0
    = Some (e', 3 + Z.of_nat (length (four_tables [x07] [] [x05; x06] [x09]))
                + Z.land (3 + Z.of_nat (length (four_tables [x07] []
                                                   [x05; x06] [x09]))) 1)
    /\ forall wdl value b,
         rd (table_of wdl [x07] [] [x05; x06] [x09]) value = Some b ->
         map_score_dtz e' 0 value wdl
         = Some ((if stored_in_moves (flags (example_record 2)) wdl
                  then 2 * byte_val b else byte_val b) + 1).
Proof.
  apply (set_dtz_map_round_trip (example_dtz 2) (example_record 2)
           example_file 3 [x07] [] [x05; x06] [x09] [xdd]).
  - reflexivity.
  - reflexivity.
  - reflexivity.
  - reflexivity.
  - reflexivity.
  - reflexivity.
  - lia.
  - repeat (apply Forall_cons; split; [simpl; lia|]). apply Forall_nil. exact I.
  - reflexivity.
Defined.

End DtzMapTheorems.

Section ReorderFacts.

Import Reorder ReorderInv.

Lemma first_match_spec (d_i : Z) (pieces : list Z) (n : nat) :
  forall j,
    (j + n <= length pieces)%nat ->
    exists r,
      first_match d_i pieces j n = Some r
      /\ match r with
         | Some k => (j <= k < j + n)%nat /\ pieces !! k = Some d_i
         | None => forall k, (j <= k < j + n)%nat -> pieces !! k <> Some d_i
         end.
Proof.
  induction n as [|n IH]; intros j Hj.
  - exists None. split; [reflexivity|]. intros k Hk. lia.
  - cbn [first_match].
    destruct (lookup_lt_is_Some_2 pieces j ltac:(lia)) as [p Hp].
    rewrite Hp. cbn [mbind option_bind].
    destruct (Z.eqb_spec d_i p) as [->|Hne].
    + exists (Some j). split; [reflexivity|]. split; [lia | exact Hp].
    + destruct (IH (S j) ltac:(lia)) as (r & -> & Hr).
      exists r. split; [reflexivity|].
      destruct r as [k|].
      * destruct Hr as [Hk Hpk]. split; [lia | exact Hpk].
      * intros k Hk. destruct (Nat.eq_dec k j) as [->|Hkj].
        -- rewrite Hp. intros [= ->]. contradiction.
        -- apply Hr. lia.
Qed.

(** A swap of two entries, written out on the three parts of the list. *)
Lemma swap_split (a : list Z) (i j : nat) (x y : Z) :
  (i < j)%nat -> a !! i = Some x -> a !! j = Some y ->
  exists l1 l2 l3,
    a = l1 ++ x :: l2 ++ y :: l3
    /\ length l1 = i /\ length l2 = (j - S i)%nat
    /\ swap i j a = Some (l1 ++ y :: l2 ++ x :: l3).
Proof.
  intros Hij Hi Hj.
  pose proof Hi as Hi'.
  apply list_elem_of_split_length in Hi' as (l1 & r & -> & Hl1).
  assert (Hj' : r !! (j - S i)%nat = Some y).
  { rewrite lookup_app_r in Hj by lia.
    replace (j - length l1)%nat with (S (j - S i)) in Hj by lia.
    exact Hj. }
  apply list_elem_of_split_length in Hj' as (l2 & l3 & -> & Hl2).
  exists l1, l2, l3. split; [reflexivity|]. split; [lia|]. split; [lia|].
  unfold swap. rewrite Hi, Hj. cbn [mbind option_bind]. f_equal.
  replace j with (length l1 + S (length l2 + 0))%nat by lia.
  rewrite insert_app_r.
  change (<[S (length l2 + 0) := x]> (x :: l2 ++ y :: l3))
    with (x :: <[(length l2 + 0)%nat := x]> (l2 ++ y :: l3)).
  rewrite insert_app_r.
  replace i with (length l1 + 0)%nat by lia.
  rewrite insert_app_r. reflexivity.
Qed.

Lemma perm_short (l k : list Z) :
  l ≡ₚ k -> (length l <= 1)%nat -> l = k.
Proof.
  intros Hp Hl. pose proof (Permutation_length Hp) as Hlen.
  destruct l as [|x [|? ?]]; simpl in Hl; try lia.
  - symmetry. apply Permutation_nil_r. symmetry. exact Hp.
  - apply Permutation_singleton_l in Hp. exact Hp.
Qed.

Lemma drop_lookup (l : list Z) (i : nat) (x : Z) :
  l !! i = Some x -> drop i l = x :: drop (S i) l.
Proof. intros H. apply drop_S. exact H. Qed.

Lemma take_S_eq (a b : list Z) (i : nat) :
  take (S i) a = take (S i) b -> take i a = take i b.
Proof.
  intros H. apply (f_equal (take i)) in H. rewrite !take_take in H.
  replace (i `min` S i)%nat with i in H by lia. exact H.
Qed.

(** One round of the outer loop. *)
Lemma reorder_round (D pieces squares : list Z) (size i : nat) (d_i : Z) :
  length pieces = size -> length squares = size ->
  (S i < size)%nat ->
  drop i pieces ≡ₚ d_i :: drop (S i) (take size D) ->
  exists p1 s1,
    (found ← first_match d_i pieces (S i) (size - S i);
     match found with
     | Some j => p ← swap i j pieces; s ← swap i j squares; Some (p, s)
     | None => Some (pieces, squares)
     end) = Some (p1, s1)
    /\ p1 !! i = Some d_i
    /\ take i p1 = take i pieces /\ take i s1 = take i squares
    /\ drop (S i) p1 ≡ₚ drop (S i) (take size D)
    /\ zip p1 s1 ≡ₚ zip pieces squares
    /\ length p1 = size /\ length s1 = size.
Proof.
  intros Hlp Hls Hi Hperm.
  destruct (first_match_spec d_i pieces (size - S i) (S i) ltac:(lia))
    as (r & -> & Hr).
  cbn [mbind option_bind].
  destruct (lookup_lt_is_Some_2 pieces i ltac:(lia)) as [x Hx].
  destruct (lookup_lt_is_Some_2 squares i ltac:(lia)) as [sx Hsx].
  rewrite (drop_lookup pieces i x Hx) in Hperm.
  destruct r as [k|].
  - destruct Hr as [Hk Hpk].
    destruct (lookup_lt_is_Some_2 squares k ltac:(lia)) as [sy Hsy].
    destruct (swap_split pieces i k x d_i ltac:(lia) Hx Hpk)
      as (l1 & l2 & l3 & Ep & Hl1 & Hl2 & Esp).
    destruct (swap_split squares i k sx sy ltac:(lia) Hsx Hsy)
      as (m1 & m2 & m3 & Es & Hm1 & Hm2 & Ess).
    rewrite Esp, Ess. cbn [mbind option_bind].
    eexists. eexists. split; [reflexivity|].
    split.
    { rewrite lookup_app_r by lia. rewrite Hl1, Nat.sub_diag. reflexivity. }
    split.
    { rewrite Ep. rewrite <- Hl1. rewrite !take_app_length. reflexivity. }
    split.
    { rewrite Es. rewrite <- Hm1. rewrite !take_app_length. reflexivity. }
    split.
    { assert (E1 : drop (S i) (l1 ++ d_i :: l2 ++ x :: l3) = l2 ++ x :: l3).
      { rewrite <- Hl1.
        change (l1 ++ d_i :: l2 ++ x :: l3)
          with (l1 ++ [d_i] ++ (l2 ++ x :: l3)).
        rewrite app_assoc.
        replace (S (length l1)) with (length (l1 ++ [d_i]))
          by (rewrite length_app; simpl; lia).
        apply drop_app_length. }
      rewrite E1.
      assert (E2 : drop (S i) pieces = l2 ++ d_i :: l3).
      { rewrite Ep, <- Hl1.
        change (l1 ++ x :: l2 ++ d_i :: l3)
          with (l1 ++ [x] ++ (l2 ++ d_i :: l3)).
        rewrite app_assoc.
        replace (S (length l1)) with (length (l1 ++ [x]))
          by (rewrite length_app; simpl; lia).
        apply drop_app_length. }
      rewrite E2 in Hperm.
      apply (Permutation_cons_inv (a := d_i)).
      rewrite <- Hperm.
      rewrite <- !Permutation_middle. apply perm_swap. }
    split.
    { rewrite Ep, Es.
      rewrite !zip_with_app by lia. cbn [zip_with].
      rewrite !zip_with_app by lia. cbn [zip_with].
      apply Permutation_app_head.
      rewrite <- !Permutation_middle. apply perm_swap. }
    split; [rewrite <- Hlp, Ep | rewrite <- Hls, Es];
      rewrite !length_app; simpl length; rewrite !length_app; simpl length;
      lia.
  - assert (Hxi : x = d_i).
    { assert (Hin : d_i ∈ x :: drop (S i) pieces)
        by (rewrite Hperm; left).
      apply elem_of_cons in Hin as [->|Hin]; [reflexivity|].
      apply list_elem_of_lookup in Hin as [m Hm].
      rewrite lookup_drop in Hm.
      pose proof (lookup_lt_Some _ _ _ Hm) as Hlt.
      exfalso. apply (Hr (S i + m)%nat); [lia | exact Hm]. }
    subst x.
    exists pieces, squares. split; [reflexivity|]. split; [exact Hx|].
    split; [reflexivity|]. split; [reflexivity|].
    split; [exact (Permutation_cons_inv Hperm)|].
    split; [reflexivity|]. split; assumption.
Qed.

Lemma reorder_inv (D : list Z) (size : nat) :
  forall n i pieces squares,
    length pieces = size -> length squares = size ->
    (size <= length D)%nat ->
    (i + n = size - 1 \/ (n = 0 /\ i = size))%nat ->
    drop i pieces ≡ₚ drop i (take size D) ->
    exists p' s',
      reorder D size i n pieces squares = Some (p', s')
      /\ take i p' = take i pieces /\ take i s' = take i squares
      /\ drop i p' = drop i (take size D)
      /\ zip p' s' ≡ₚ zip pieces squares.
Proof.
  induction n as [|n IH]; intros i pieces squares Hlp Hls HD Hn Hperm.
  - exists pieces, squares. split; [reflexivity|].
    split; [reflexivity|]. split; [reflexivity|]. split; [|reflexivity].
    apply perm_short; [exact Hperm|]. rewrite length_drop. lia.
  - assert (Hi : (S i < size)%nat) by lia.
    destruct (lookup_lt_is_Some_2 D i ltac:(lia)) as [d_i Hd].
    assert (HdT : take size D !! i = Some d_i)
      by (rewrite lookup_take_lt by lia; exact Hd).
    rewrite (drop_lookup _ i d_i HdT) in Hperm.
    destruct (reorder_round D pieces squares size i d_i Hlp Hls Hi Hperm)
      as (p1 & s1 & E1 & Hp1 & Ht1 & Hts1 & Hd1 & Hz1 & Hlp1 & Hls1).
    cbn [reorder]. rewrite Hd. cbn [mbind option_bind].
    destruct (first_match d_i pieces (S i) (size - S i)) as [found|];
      [|discriminate].
    cbn [mbind option_bind] in E1.
    assert (E1' : (match found with
                   | Some j =>
                       p ← swap i j pieces; s ← swap i j squares; Some (p, s)
                   | None => Some (pieces, squares)
                   end) = Some (p1, s1)) by exact E1.
    cbn [mbind option_bind]. rewrite E1'. cbn [mbind option_bind].
    destruct (IH (S i) p1 s1 Hlp1 Hls1 HD ltac:(lia) Hd1)
      as (p' & s' & E & Ht & Hts & Hdr & Hz).
    exists p', s'. split; [exact E|].
    assert (Hpi : p' !! i = Some d_i).
    { rewrite <- (lookup_take_lt p' (S i) i) by lia.
      rewrite Ht, lookup_take_lt by lia. exact Hp1. }
    split; [rewrite <- Ht1; apply take_S_eq; exact Ht|].
    split; [rewrite <- Hts1; apply take_S_eq; exact Hts|].
    split.
    { rewrite (drop_lookup p' i d_i Hpi), (drop_lookup _ i d_i HdT), Hdr.
      reflexivity. }
    rewrite Hz. exact Hz1.
Qed.

End ReorderFacts.

Section ReorderTheorem.

Import Reorder ReorderInv.

(** X19. The loop that puts the men into the order of the table does so
    whenever the position has the men the table lists: if from index
    [leadPawnsCnt] on the [size] men are those of [d->pieces] in some order,
    then after the loop [pieces[i] == d->pieces[i]] for every such index,
    the entries before [leadPawnsCnt] are untouched, and every man is still
    paired with the square it stood on. *)
Theorem reorder_pieces_matches (d_pieces : list Z) (lead size : nat)
    (pieces squares : list Z) :
  same_men d_pieces pieces lead size -> length squares = size ->
  exists pieces' squares',
    reorder_pieces d_pieces lead size pieces squares = Some (pieces', squares')
    /\ (forall i, (lead <= i < size)%nat -> pieces' !! i = d_pieces !! i)
    /\ take lead pieces' = take lead pieces
    /\ take lead squares' = take lead squares
    /\ zip pieces' squares' ≡ₚ zip pieces squares.
Proof.
  intros (Hlp & [Hlead HD] & Hperm) Hls.
  destruct (reorder_inv d_pieces size (size - 1 - lead) lead pieces squares
              Hlp Hls HD ltac:(lia) Hperm)
    as (p' & s' & E & Ht & Hts & Hd & Hz).
  exists p', s'. split; [exact E|]. split; [|tauto].
  intros i Hi.
  replace i with (lead + (i - lead))%nat by lia.
  rewrite <- lookup_drop, Hd, lookup_drop, lookup_take_lt by lia.
  reflexivity.
Qed.

Lemma reorder_pieces_matches_witness :
  exists pieces' squares',
    reorder_pieces example_d_pieces 0 4 example_men example_squares
    = Some (pieces', squares')
    /\ (forall i, (0 <= i < 4)%nat -> pieces' !! i = example_d_pieces !! i)
    /\ take 0 pieces' = take 0 example_men
    /\ take 0 squares' = take 0 example_squares
    /\ zip pieces' squares' ≡ₚ zip example_men example_squares.
Proof.
  apply (reorder_pieces_matches example_d_pieces 0 4 example_men
           example_squares).
  - split; [reflexivity|]. split; [simpl; lia|].
    apply (bool_decide_unpack _). vm_compute. exact I.
  - reflexivity.
Defined.

End ReorderTheorem.

Section BinomialFacts.

Import Remaining Placement.

Lemma forallb_range (f : Z -> bool) lo hi :
  forallb f (range lo hi) = true -> forall x, lo <= x <= hi -> f x = true.
Proof.
  intros H x Hx. rewrite forallb_forall in H. apply H. apply In_range. exact Hx.
Qed.

Lemma Binomial_pascal k n :
  0 <= k <= 4 -> 0 <= n <= 62 ->
  at2 Binomial (k + 1) (n + 1) = at2 Binomial (k + 1) n + at2 Binomial k n.
Proof.
  intros Hk Hn.
  assert (H : check_pascal = true) by (vm_compute; reflexivity).
  pose proof (forallb_range _ _ _ H k Hk) as H1. cbv beta in H1.
  pose proof (forallb_range _ _ _ H1 n Hn) as H2. cbv beta in H2.
  apply Z.eqb_eq. exact H2.
Qed.

Lemma Binomial_first_row n : 0 <= n <= 63 -> at2 Binomial 0 n = 1.
Proof.
  intros Hn.
  assert (H : check_first_row = true) by (vm_compute; reflexivity).
  pose proof (forallb_range _ _ _ H n Hn) as H1. cbv beta in H1.
  apply Z.eqb_eq. exact H1.
Qed.

Lemma Binomial_range k n :
  0 <= k <= 5 -> 0 <= n <= 63 -> 0 <= at2 Binomial k n < 2 ^ 23.
Proof.
  intros Hk Hn.
  assert (H : check_nonneg = true) by (vm_compute; reflexivity).
  pose proof (forallb_range _ _ _ H k Hk) as H1. cbv beta in H1.
  pose proof (forallb_range _ _ _ H1 n Hn) as H2. cbv beta in H2.
  apply andb_prop in H2 as [Ha Hb].
  apply Z.leb_le in Ha. apply Z.ltb_lt in Hb. lia.
Qed.

Lemma Binomial_nonneg k n :
  0 <= k <= 5 -> 0 <= n <= 63 -> 0 <= at2 Binomial k n.
Proof. intros Hk Hn. apply Binomial_range; assumption. Qed.

Lemma Binomial_step k n :
  0 <= k <= 5 -> 0 <= n <= 62 -> at2 Binomial k n <= at2 Binomial k (n + 1).
Proof.
  intros Hk Hn. destruct (Z.eq_dec k 0) as [->|Hk0].
  - rewrite !Binomial_first_row by lia. lia.
  - replace k with (k - 1 + 1) by lia.
    rewrite Binomial_pascal by lia.
    pose proof (Binomial_nonneg (k - 1) n ltac:(lia) ltac:(lia)). lia.
Qed.

Lemma Binomial_mono k n m :
  0 <= k <= 5 -> 0 <= n -> n <= m -> m <= 63 ->
  at2 Binomial k n <= at2 Binomial k m.
Proof.
  intros Hk Hn Hnm Hm.
  assert (G : forall j : nat, n + Z.of_nat j <= 63 ->
                at2 Binomial k n <= at2 Binomial k (n + Z.of_nat j)).
  { induction j as [|j IH]; intros Hj.
    - rewrite Z.add_0_r. lia.
    - etransitivity; [apply IH; lia|].
      replace (n + Z.of_nat (S j)) with (n + Z.of_nat j + 1) by lia.
      apply Binomial_step; lia. }
  specialize (G (Z.to_nat (m - n))).
  replace (n + Z.of_nat (Z.to_nat (m - n))) with m in G by lia.
  apply G. lia.
Qed.

Lemma at2_rd (t : list (list Z)) k n row :
  rd t k = Some row -> 0 <= n < Z.of_nat (length row) ->
  rd row n = Some (at2 t k n).
Proof.
  intros Hr Hn. unfold at2. rewrite Hr. cbn [mbind option_bind].
  destruct (rd_in_range row n Hn) as [v ->]. reflexivity.
Qed.

Lemma Binomial_rd k n :
  0 <= k <= 5 -> 0 <= n <= 63 ->
  exists row, rd Binomial k = Some row /\ rd row n = Some (at2 Binomial k n).
Proof.
  intros Hk Hn.
  assert (k = 0 \/ k = 1 \/ k = 2 \/ k = 3 \/ k = 4 \/ k = 5)
    as [->|[->|[->|[->|[->| ->]]]]] by lia;
    (eexists; split; [reflexivity|]);
    (apply at2_rd; [reflexivity | simpl length; lia]).
Qed.

End BinomialFacts.

Section Counting.

Import Remaining Placement.

Lemma count_interval (l : list Z) (a b : Z) :
  NoDup l -> a <= b ->
  Z.of_nat (length (filter (fun s => a <= s < b) l)) <= b - a.
Proof.
  intros Hnd Hab.
  assert (H : filter (fun s => a <= s < b) l ⊆+ seqZ a (b - a)).
  { apply NoDup_submseteq; [apply NoDup_filter; exact Hnd|].
    intros x Hx. apply list_elem_of_filter in Hx as [Hx _].
    apply elem_of_seqZ. lia. }
  apply submseteq_length in H. rewrite length_seqZ in H. lia.
Qed.

Lemma count_before_split (l : list Z) (g g' : Z) :
  g <= g' ->
  count_before l g'
  = count_before l g + Z.of_nat (length (filter (fun s => g <= s < g') l)).
Proof.
  intros Hg. unfold count_before. induction l as [|x l IH]; [reflexivity|].
  rewrite !filter_cons.
  destruct (decide (x < g')), (decide (x < g)), (decide (g <= x < g'));
    simpl length; lia.
Qed.

Lemma count_skip (l : list Z) (g g' : Z) :
  g ∉ l ->
  filter (fun s => g <= s < g') l = filter (fun s => g + 1 <= s < g') l.
Proof.
  intros Hg. induction l as [|x l IH]; [reflexivity|].
  apply not_elem_of_cons in Hg as [Hx Hl].
  rewrite !filter_cons.
  destruct (decide (g <= x < g')), (decide (g + 1 <= x < g'));
    try lia; rewrite IH by exact Hl; reflexivity.
Qed.

Lemma count_before_all (l : list Z) (hi : Z) :
  Forall (fun s => s < hi) l -> count_before l hi = Z.of_nat (length l).
Proof.
  intros H. unfold count_before. induction H as [|x l Hx _ IH]; [reflexivity|].
  rewrite filter_cons. destruct (decide (x < hi)); [|lia].
  simpl length. lia.
Qed.

Lemma count_before_none (l : list Z) (lo : Z) :
  Forall (fun s => lo <= s) l -> count_before l lo = 0.
Proof.
  intros H. unfold count_before. induction H as [|x l Hx _ IH]; [reflexivity|].
  rewrite filter_cons. destruct (decide (x < lo)); [lia|]. exact IH.
Qed.

Variable before : list Z.
Variable lo U : Z.
Hypothesis Hnd : NoDup before.
Hypothesis Hrange : Forall (fun s => lo <= s < lo + U) before.

Lemma shifted_nonneg g : lo <= g -> 0 <= g - count_before before g - lo.
Proof.
  intros Hg.
  rewrite (count_before_split before lo g Hg).
  rewrite count_before_none
    by (eapply Forall_impl; [exact Hrange | intros; simpl in *; lia]).
  pose proof (count_interval before lo g Hnd Hg). lia.
Qed.

Lemma shifted_below g :
  g ∉ before -> g < lo + U ->
  g - count_before before g - lo <= U - Z.of_nat (length before) - 1.
Proof.
  intros Hg Hu.
  pose proof (count_before_split before g (lo + U) ltac:(lia)) as H.
  rewrite count_before_all in H
    by (eapply Forall_impl; [exact Hrange | intros; simpl in *; lia]).
  rewrite (count_skip before g (lo + U) Hg) in H.
  pose proof (count_interval before (g + 1) (lo + U) Hnd ltac:(lia)). lia.
Qed.

Lemma shifted_increasing g g' :
  g ∉ before -> g < g' ->
  g - count_before before g - lo < g' - count_before before g' - lo.
Proof.
  intros Hg Hlt.
  pose proof (count_before_split before g g' ltac:(lia)) as H.
  rewrite (count_skip before g g' Hg) in H.
  pose proof (count_interval before (g + 1) g' Hnd ltac:(lia)). lia.
Qed.

End Counting.

Section GroupCode.

Import Remaining Placement.

Lemma first_square_8 rp : 8 * b2z rp = first_square rp.
Proof. destruct rp; reflexivity. Qed.

Lemma num_squares_le rp : num_squares rp <= 64.
Proof. destruct rp; simpl; lia. Qed.

Variable before : list Z.
Variable rp : bool.
Hypothesis Hnd : NoDup before.
Hypothesis Hrange :
  Forall (fun s => first_square rp <= s < first_square rp + num_squares rp)
    before.
Lemma free_below_range g :
  fits before rp g ->
  0 <= free_below before rp g <= num_squares rp - Z.of_nat (length before) - 1.
Proof.
  intros [Hg Hr]. unfold free_below. rewrite first_square_8. split.
  - apply (shifted_nonneg before _ (num_squares rp) Hnd Hrange). lia.
  - apply (shifted_below before _ (num_squares rp) Hnd Hrange); [exact Hg | lia].
Qed.

Lemma free_below_increasing g g' :
  fits before rp g -> g < g' -> free_below before rp g < free_below before rp g'.
Proof.
  intros [Hg _] Hlt. unfold free_below.
  apply (shifted_increasing before _ Hnd); assumption.
Qed.

Hypothesis Hone : (1 <= length before)%nat.

Lemma group_code_bound (gs : list Z) :
  forall g rest i n0,
    gs = g :: rest ->
    StronglySorted Z.lt gs -> Forall (fits before rp) gs ->
    0 <= i -> i + Z.of_nat (length gs) <= 5 -> 0 <= n0 <= i * 2 ^ 23 ->
    exists n gl,
      group_code before rp gs i n0 = Some n
      /\ last gs = Some gl
      /\ n0 <= n
      /\ n - n0 <= at2 Binomial (i + Z.of_nat (length gs))
                     (free_below before rp gl + 1)
                   - at2 Binomial i (free_below before rp g).
Proof.
  induction gs as [|g0 gs IH]; intros g rest i n0 E Hs Hf Hi Hk Hn0;
    [discriminate|].
  injection E as <- <-.
  apply StronglySorted_inv in Hs as [Hs Hlt].
  apply Forall_cons in Hf as [Hg Hf].
  pose proof (free_below_range g0 Hg) as Hc.
  pose proof (num_squares_le rp) as HU.
  simpl length in Hk.
  cbn [group_code].
  destruct (Binomial_rd (i + 1) (free_below before rp g0) ltac:(lia) ltac:(lia))
    as (row & Hrow & Hb).
  rewrite Hrow. cbn [mbind option_bind].
  fold (free_below before rp g0). rewrite Hb. cbn [mbind option_bind].
  pose proof (Binomial_range (i + 1) (free_below before rp g0)
                ltac:(lia) ltac:(lia)) as Hbr.
  assert (Hu : u64 (n0 + at2 Binomial (i + 1) (free_below before rp g0))
               = n0 + at2 Binomial (i + 1) (free_below before rp g0)).
  { unfold u64. apply Z.mod_small.
    assert (i * 2 ^ 23 <= 5 * 2 ^ 23) by lia.
    change (2 ^ 64) with (2 ^ 23 * 2 ^ 41). lia. }
  rewrite Hu.
  destruct gs as [|g1 gs'].
  - exists (n0 + at2 Binomial (i + 1) (free_below before rp g0)), g0.
    split; [reflexivity|]. split; [reflexivity|]. split; [lia|].
    simpl length. change (Z.of_nat 1) with 1.
    destruct (Z.eq_dec i 0) as [->|Hi0].
    + change (0 + 1) with 1.
      pose proof (Binomial_pascal 0 (free_below before rp g0)
                    ltac:(lia) ltac:(lia)) as P.
      change (0 + 1) with 1 in P. lia.
    + pose proof (Binomial_pascal (i - 1 + 1 - 1) (free_below before rp g0)
                    ltac:(lia) ltac:(lia)) as P.
      replace (i - 1 + 1 - 1 + 1) with i in P by lia.
      replace (i - 1 + 1 - 1) with (i - 1) in P by lia.
      pose proof (Binomial_pascal i (free_below before rp g0)
                    ltac:(lia) ltac:(lia)) as P'.
      lia.
  - apply Forall_cons in Hlt as [Hlt01 _].
    pose proof (free_below_increasing g0 g1 Hg Hlt01) as Hinc.
    pose proof (Forall_inv Hf) as Hg1.
    pose proof (free_below_range g1 Hg1) as Hc1.
    destruct (IH g1 gs' (i + 1)
                (n0 + at2 Binomial (i + 1) (free_below before rp g0))
                eq_refl Hs Hf ltac:(lia) ltac:(simpl length in *; lia)
                ltac:(lia))
      as (n & gl & En & El & Hn & Hbound).
    exists n, gl. split; [exact En|]. split; [exact El|]. split; [lia|].
    replace (i + Z.of_nat (length (g0 :: g1 :: gs')))
      with (i + 1 + Z.of_nat (length (g1 :: gs')))
      by (simpl length; lia).
    pose proof (Binomial_pascal i (free_below before rp g0)
                  ltac:(lia) ltac:(lia)) as P.
    pose proof (Binomial_mono (i + 1) (free_below before rp g0 + 1)
                  (free_below before rp g1) ltac:(lia) ltac:(lia)
                  ltac:(lia) ltac:(lia)) as M.
    lia.
Qed.

End GroupCode.

Section OneToOne.

Import Remaining Placement.

Variable before : list Z.
Variable rp : bool.
Hypothesis Hnd : NoDup before.
Hypothesis Hrange :
  Forall (fun s => first_square rp <= s < first_square rp + num_squares rp)
    before.
Hypothesis Hone : (1 <= length before)%nat.

Lemma group_code_app (l1 l2 : list Z) :
  forall i n0,
    group_code before rp (l1 ++ l2) i n0
    = n ← group_code before rp l1 i n0;
      group_code before rp l2 (i + Z.of_nat (length l1)) n.
Proof.
  induction l1 as [|g l1 IH]; intros i n0.
  - simpl. rewrite Z.add_0_r. reflexivity.
  - cbn [app group_code].
    destruct (rd Binomial (i + 1)) as [row|]; [|reflexivity].
    cbn [mbind option_bind].
    destruct (rd row _) as [b|]; [|reflexivity].
    cbn [mbind option_bind]. rewrite IH.
    replace (i + 1 + Z.of_nat (length l1))
      with (i + Z.of_nat (length (g :: l1))) by (simpl length; lia).
    reflexivity.
Qed.

Lemma group_code_one (g : Z) (i n0 : Z) :
  fits before rp g -> 0 <= i <= 4 -> 0 <= n0 < 2 ^ 23 ->
  group_code before rp [g] i n0
  = Some (n0 + at2 Binomial (i + 1) (free_below before rp g)).
Proof.
  intros Hg Hi Hn0.
  pose proof (free_below_range before rp Hnd Hrange g Hg) as Hc.
  pose proof (num_squares_le rp) as HU.
  cbn [group_code].
  destruct (Binomial_rd (i + 1) (free_below before rp g) ltac:(lia) ltac:(lia))
    as (row & Hrow & Hb).
  rewrite Hrow. cbn [mbind option_bind].
  fold (free_below before rp g). rewrite Hb. cbn [mbind option_bind].
  pose proof (Binomial_range (i + 1) (free_below before rp g)
                ltac:(lia) ltac:(lia)) as Hbr.
  f_equal. unfold u64. apply Z.mod_small.
  change (2 ^ 64) with (2 ^ 23 * 2 ^ 41). lia.
Qed.

(** The code of a sorted group stays below the binomial coefficient at the
    first square above the group. *)
Lemma prefix_code (l : list Z) (g : Z) :
  StronglySorted Z.lt (l ++ [g]) -> Forall (fits before rp) (l ++ [g]) ->
  (length l <= 4)%nat ->
  exists p,
    group_code before rp l 0 0 = Some p
    /\ 0 <= p < at2 Binomial (Z.of_nat (length l)) (free_below before rp g).
Proof.
  intros Hs Hf Hk.
  apply Forall_app in Hf as [Hfl Hfg]. apply Forall_inv in Hfg.
  pose proof (free_below_range before rp Hnd Hrange g Hfg) as Hc.
  pose proof (num_squares_le rp) as HU.
  destruct l as [|g0 rest].
  - exists 0. split; [reflexivity|].
    rewrite Binomial_first_row by lia. lia.
  - destruct (group_code_bound before rp Hnd Hrange Hone (g0 :: rest) g0 rest
                0 0 eq_refl (StronglySorted_app_1_l _ _ _ Hs) Hfl
                ltac:(lia) ltac:(lia) ltac:(lia))
      as (p & gl & Ep & El & Hp & Hbound).
    exists p. split; [exact Ep|].
    assert (Hin : gl ∈ g0 :: rest).
    { apply last_Some in El as [l' ->].
      apply elem_of_app. right. apply list_elem_of_singleton. reflexivity. }
    assert (Hlt : gl < g).
    { apply (StronglySorted_app_1_elem_of _ _ _ _ _ Hs Hin).
      apply list_elem_of_singleton. reflexivity. }
    assert (Hgl : fits before rp gl).
    { rewrite Forall_forall in Hfl. apply Hfl. exact Hin. }
    pose proof (free_below_increasing before rp Hnd gl g Hgl Hlt) as Hinc.
    pose proof (free_below_range before rp Hnd Hrange gl Hgl) as Hcl.
    pose proof (free_below_range before rp Hnd Hrange g0 (Forall_inv Hfl)) as Hc0.
    rewrite Binomial_first_row in Hbound by lia.
    rewrite Z.add_0_l in Hbound.
    pose proof (Binomial_mono (Z.of_nat (length (g0 :: rest)))
                  (free_below before rp gl + 1) (free_below before rp g)
                  ltac:(lia) ltac:(lia) ltac:(lia) ltac:(lia)) as M.
    lia.
Qed.

Lemma free_below_inj g g' :
  fits before rp g -> fits before rp g' ->
  free_below before rp g = free_below before rp g' -> g = g'.
Proof.
  intros Hg Hg' E.
  destruct (Z.lt_trichotomy g g') as [H|[H|H]]; [|exact H|].
  - pose proof (free_below_increasing before rp Hnd g g' Hg H). lia.
  - pose proof (free_below_increasing before rp Hnd g' g Hg' H). lia.
Qed.

Lemma snoc_code (l : list Z) (g : Z) :
  StronglySorted Z.lt (l ++ [g]) -> Forall (fits before rp) (l ++ [g]) ->
  (length l <= 4)%nat ->
  exists p,
    group_code before rp l 0 0 = Some p
    /\ group_code before rp (l ++ [g]) 0 0
       = Some (p + at2 Binomial (Z.of_nat (length l) + 1)
                     (free_below before rp g))
    /\ 0 <= p < at2 Binomial (Z.of_nat (length l)) (free_below before rp g).
Proof.
  intros Hs Hf Hk.
  destruct (prefix_code l g Hs Hf Hk) as (p & Ep & Hp).
  exists p. split; [exact Ep|]. split; [|exact Hp].
  apply Forall_app in Hf as [Hfl Hfg]. apply Forall_inv in Hfg.
  pose proof (free_below_range before rp Hnd Hrange g Hfg) as Hc.
  pose proof (num_squares_le rp) as HU.
  pose proof (Binomial_range (Z.of_nat (length l)) (free_below before rp g)
                ltac:(lia) ltac:(lia)) as Hbr.
  rewrite group_code_app, Ep. cbn [mbind option_bind].
  rewrite Z.add_0_l. apply group_code_one; [exact Hfg | lia | lia].
Qed.

Lemma codes_differ (l : list Z) (g g' : Z) p p' :
  (length l <= 4)%nat ->
  fits before rp g -> fits before rp g' ->
  0 <= p < at2 Binomial (Z.of_nat (length l)) (free_below before rp g) ->
  0 <= p' ->
  free_below before rp g < free_below before rp g' ->
  p + at2 Binomial (Z.of_nat (length l) + 1) (free_below before rp g)
  < p' + at2 Binomial (Z.of_nat (length l) + 1) (free_below before rp g').
Proof.
  intros Hk Hg Hg' Hp Hp' Hlt.
  pose proof (free_below_range before rp Hnd Hrange g Hg) as Hc.
  pose proof (free_below_range before rp Hnd Hrange g' Hg') as Hc'.
  pose proof (num_squares_le rp) as HU.
  pose proof (Binomial_pascal (Z.of_nat (length l)) (free_below before rp g)
                ltac:(lia) ltac:(lia)) as P.
  pose proof (Binomial_mono (Z.of_nat (length l) + 1)
                (free_below before rp g + 1) (free_below before rp g')
                ltac:(lia) ltac:(lia) ltac:(lia) ltac:(lia)) as M.
  lia.
Qed.

Lemma sorted_codes_inj (gs : list Z) :
  forall gs' n,
    StronglySorted Z.lt gs -> StronglySorted Z.lt gs' ->
    Forall (fits before rp) gs -> Forall (fits before rp) gs' ->
    length gs = length gs' -> (length gs <= 5)%nat ->
    group_code before rp gs 0 0 = Some n ->
    group_code before rp gs' 0 0 = Some n ->
    gs = gs'.
Proof.
  induction gs as [|g l IH] using rev_ind; intros gs' n Hs Hs' Hf Hf' Hlen Hk En En'.
  - symmetry. apply nil_length_inv. simpl in Hlen. lia.
  - destruct gs' as [|g' l' _] using rev_ind;
      [rewrite length_app in Hlen; simpl in Hlen; lia|].
    rewrite (length_app l), (length_app l') in Hlen. rewrite length_app in Hk.
    simpl length in Hlen, Hk.
    assert (Hll : length l = length l') by lia.
    destruct (snoc_code l g Hs Hf ltac:(lia)) as (p & Ep & Ec & Hp).
    destruct (snoc_code l' g' Hs' Hf' ltac:(lia)) as (p' & Ep' & Ec' & Hp').
    rewrite Ec in En. rewrite Ec' in En'.
    injection En as En. injection En' as En'.
    rewrite <- Hll in En', Hp'.
    pose proof (Forall_inv (proj2 (proj1 (Forall_app _ _ _) Hf))) as Hg.
    pose proof (Forall_inv (proj2 (proj1 (Forall_app _ _ _) Hf'))) as Hg'.
    assert (Hc : free_below before rp g = free_below before rp g').
    { destruct (Z.lt_trichotomy (free_below before rp g)
                  (free_below before rp g')) as [H|[H|H]]; [|exact H|].
      - pose proof (codes_differ l g g' p p' ltac:(lia) Hg Hg' Hp
                      ltac:(lia) H). lia.
      - pose proof (codes_differ l g' g p' p ltac:(lia) Hg' Hg Hp'
                      ltac:(lia) H). lia. }
    pose proof (free_below_inj g g' Hg Hg' Hc) as ->.
    f_equal.
    apply (IH l' p).
    + exact (StronglySorted_app_1_l _ _ _ Hs).
    + exact (StronglySorted_app_1_l _ _ _ Hs').
    + exact (proj1 (proj1 (Forall_app _ _ _) Hf)).
    + exact (proj1 (proj1 (Forall_app _ _ _) Hf')).
    + exact Hll.
    + lia.
    + exact Ep.
    + rewrite Ep'. f_equal. lia.
Qed.

End OneToOne.

Section RemainingGroup.

Import Remaining Placement.

Lemma sorted_strict (gs : list Z) :
  StronglySorted Z.le gs -> NoDup gs -> StronglySorted Z.lt gs.
Proof.
  induction 1 as [|g gs Hs IH Hle]; intros Hnd; [constructor|].
  apply NoDup_cons in Hnd as [Hg Hnd].
  constructor; [apply IH; exact Hnd|].
  rewrite Forall_forall in *. intros x Hx.
  specialize (Hle x Hx).
  assert (x <> g) by (intros ->; apply Hg; exact Hx).
  lia.
Qed.

Lemma placed_sorted rp before group :
  placed rp before group ->
  NoDup before
  /\ Forall (fun s => first_square rp <= s < first_square rp + num_squares rp)
       before
  /\ StronglySorted Z.lt (merge_sort Z.le group)
  /\ Forall (fits before rp) (merge_sort Z.le group).
Proof.
  intros [Hnd Hr].
  apply NoDup_app in Hnd as (Hb & Hdis & Hg).
  apply Forall_app in Hr as [Hrb Hrg].
  pose proof (merge_sort_Permutation Z.le group) as Hp.
  split; [exact Hb|]. split; [exact Hrb|]. split.
  - apply sorted_strict.
    + apply StronglySorted_merge_sort; typeclasses eauto.
    + rewrite Hp. exact Hg.
  - rewrite Hp. rewrite Forall_forall in *. intros g Hin.
    split; [|apply Hrg; exact Hin].
    intros Hb'. exact (Hdis g Hb' Hin).
Qed.

Lemma remaining_group_bound (rp : bool) (before group : list Z) :
  placed rp before group ->
  (1 <= length before)%nat -> (1 <= length group <= 5)%nat ->
  exists n,
    remaining_group before rp group = Some n
    /\ 0 <= n < at2 Binomial (Z.of_nat (length group))
                   (num_squares rp - Z.of_nat (length before)).
Proof.
  intros Hp Hb Hk.
  destruct (placed_sorted rp before group Hp) as (Hnd & Hr & Hs & Hf).
  pose proof (merge_sort_Permutation Z.le group) as Hperm.
  pose proof (Permutation_length Hperm) as Hlen.
  unfold remaining_group.
  destruct (merge_sort Z.le group) as [|g rest] eqn:E;
    [simpl in Hlen; lia|].
  destruct (group_code_bound before rp Hnd Hr Hb (g :: rest) g rest 0 0 eq_refl
              Hs Hf ltac:(lia) ltac:(lia) ltac:(lia))
    as (n & gl & En & El & Hn & Hbound).
  exists n. split; [exact En|].
  assert (Hgl : fits before rp gl).
  { rewrite Forall_forall in Hf. apply Hf.
    apply last_Some in El as [l' ->].
    apply elem_of_app. right. apply list_elem_of_singleton. reflexivity. }
  pose proof (free_below_range before rp Hnd Hr gl Hgl) as Hc.
  pose proof (Forall_inv Hf) as Hg.
  pose proof (free_below_range before rp Hnd Hr g Hg) as Hc0.
  pose proof (num_squares_le rp) as HU.
  rewrite Binomial_first_row in Hbound by lia.
  rewrite Z.add_0_l, Hlen in Hbound.
  pose proof (Binomial_mono (Z.of_nat (length group))
                (free_below before rp gl + 1)
                (num_squares rp - Z.of_nat (length before))
                ltac:(lia) ltac:(lia) ltac:(lia) ltac:(lia)) as M.
  lia.
Qed.

End RemainingGroup.

Section RemainingTheorems.

Import Remaining Placement.


(** X20. The code of a group after the leading one stays below the factor
    that [set_groups] multiplies the index by for that group. For [k] men
    (1 to 5) on distinct squares, with at least one man before them, none on
    a square of the group, the loop returns a number [n] with
    [0 <= n < Binomial[k][free]], where [free] is 64 less the number of men
    before the group, or 48 less that number for the pawns of the second
    side, which stand on the ranks 2 to 7 like the pawns before them. *)
Theorem remaining_group_below_factor (rp : bool) (before group : list Z) :
  placed rp before group ->
  (1 <= length before)%nat -> (1 <= length group <= 5)%nat ->
  exists n,
    remaining_group before rp group = Some n
    /\ 0 <= n < at2 Binomial (Z.of_nat (length group))
                   (num_squares rp - Z.of_nat (length before)).
Proof. apply remaining_group_bound. Qed.

Lemma example_placed : placed false example_before example_group.
Proof.
  split.
  - apply (bool_decide_unpack _). vm_compute. exact I.
  - apply (bool_decide_unpack _). vm_compute. exact I.
Qed.

Lemma remaining_group_below_factor_witness :
  exists n,
    remaining_group example_before false example_group = Some n
    /\ 0 <= n < at2 Binomial (Z.of_nat (length example_group))
                   (num_squares false - Z.of_nat (length example_before)).
Proof.
  apply (remaining_group_below_factor false example_before example_group).
  - exact example_placed.
  - simpl. lia.
  - simpl. lia.
Defined.

(** X21. Two placements of a group get the same code only if they put the
    men on the same squares: for two groups of the same size (at most 5)
    behind the same men, each on distinct squares free of those men, equal
    results of the loop make one group a permutation of the other. *)
Theorem remaining_group_one_to_one (rp : bool) (before group group' : list Z)
    (n : Z) :
  placed rp before group -> placed rp before group' ->
  (1 <= length before)%nat ->
  length group = length group' -> (length group <= 5)%nat ->
  remaining_group before rp group = Some n ->
  remaining_group before rp group' = Some n ->
  group ≡ₚ group'.
Proof.
  intros Hp Hp' Hb Hlen Hk En En'.
  destruct (placed_sorted rp before group Hp) as (Hnd & Hr & Hs & Hf).
  destruct (placed_sorted rp before group' Hp') as (_ & _ & Hs' & Hf').
  unfold remaining_group in En, En'.
  pose proof (merge_sort_Permutation Z.le group) as P.
  pose proof (merge_sort_Permutation Z.le group') as P'.
  assert (E : merge_sort Z.le group = merge_sort Z.le group').
  { apply (sorted_codes_inj before rp Hnd Hr Hb _ _ n Hs Hs' Hf Hf');
      [| |exact En|exact En'].
    - rewrite (Permutation_length P), (Permutation_length P'). exact Hlen.
    - rewrite (Permutation_length P). exact Hk. }
  rewrite <- P, E. exact P'.
Qed.

Lemma remaining_group_one_to_one_witness : example_group ≡ₚ [63; 2; 0].
Proof.
  apply (remaining_group_one_to_one false example_before example_group
           [63; 2; 0] 35990).
  - exact example_placed.
  - split; apply (bool_decide_unpack _); vm_compute; exact I.
  - simpl. lia.
  - reflexivity.
  - simpl. lia.
  - vm_compute. reflexivity.
  - vm_compute. reflexivity.
Defined.

End RemainingTheorems.

Section PawnTables.

Import LeadPawns PawnPlacement.

Lemma MapPawns_rd s : 0 <= s <= 63 -> rd MapPawns s = Some (at1 MapPawns s).
Proof.
  intros Hs. unfold at1.
  destruct (rd_in_range MapPawns s ltac:(simpl length; lia)) as [v ->].
  reflexivity.
Qed.

Lemma MapPawns_mirror s :
  8 <= s <= 55 ->
  at1 MapPawns (flip_file s)
  = at1 MapPawns s + (if FILE_D <? file_of s then 1 else -1)
  /\ 0 <= at1 MapPawns s <= 47.
Proof.
  intros Hs.
  assert (H : check_mirror = true) by (vm_compute; reflexivity).
  pose proof (forallb_range _ _ _ H s Hs) as H1. cbv beta in H1.
  apply andb_prop in H1 as [H1 H3]. apply andb_prop in H1 as [H1 H2].
  apply Z.eqb_eq in H1. apply Z.leb_le in H2, H3. lia.
Qed.

Lemma MapPawns_distinct s s' :
  8 <= s <= 55 -> 8 <= s' <= 55 -> at1 MapPawns s = at1 MapPawns s' -> s = s'.
Proof.
  intros Hs Hs' E.
  assert (H : check_distinct = true) by (vm_compute; reflexivity).
  pose proof (forallb_range _ _ _ H s Hs) as H1. cbv beta in H1.
  pose proof (forallb_range _ _ _ H1 s' Hs') as H2. cbv beta in H2.
  rewrite E, Z.eqb_refl in H2. simpl in H2. apply Z.eqb_eq. exact H2.
Qed.

Lemma lead_sizes cnt s :
  1 <= cnt <= 5 -> 8 <= s <= 55 -> file_of s <= FILE_D ->
  0 <= at2 LeadPawnIdx cnt s
  /\ at2 LeadPawnIdx cnt s + at2 Binomial (cnt - 1) (at1 MapPawns s)
     <= at2 LeadPawnsSize cnt (file_of s)
  /\ at2 LeadPawnsSize cnt (file_of s) < 2 ^ 31.
Proof.
  intros Hc Hs Hf.
  assert (H : check_lead_sizes = true) by (vm_compute; reflexivity).
  pose proof (forallb_range _ _ _ H cnt Hc) as H1. cbv beta in H1.
  pose proof (forallb_range _ _ _ H1 s Hs) as H2. cbv beta in H2.
  apply orb_prop in H2 as [H2|H2]; [apply Z.ltb_lt in H2; lia|].
  apply andb_prop in H2 as [H2 H4]. apply andb_prop in H2 as [H2 H3].
  apply Z.leb_le in H2, H3. apply Z.ltb_lt in H4. lia.
Qed.

Lemma flip_file_range s :
  8 <= s <= 55 ->
  8 <= flip_file s <= 55 /\ file_of (flip_file s) = 7 - file_of s
  /\ 0 <= file_of s <= 7.
Proof.
  intros Hs.
  assert (H : forallb (fun s => (8 <=? flip_file s) && (flip_file s <=? 55)
                                && (file_of (flip_file s) =? 7 - file_of s)
                                && (0 <=? file_of s) && (file_of s <=? 7))
                (range 8 55) = true) by (vm_compute; reflexivity).
  pose proof (forallb_range _ _ _ H s Hs) as H1. cbv beta in H1.
  repeat (apply andb_prop in H1 as [H1 ?]).
  repeat match goal with
         | X : (_ <=? _) = true |- _ => apply Z.leb_le in X
         | X : (_ =? _) = true |- _ => apply Z.eqb_eq in X
         end.
  lia.
Qed.

Lemma flip_file_inj s s' : flip_file s = flip_file s' -> s = s'.
Proof.
  unfold flip_file. intros E.
  assert (G : forall x, Z.lxor (Z.lxor x 7) 7 = x).
  { intros x. rewrite Z.lxor_assoc, Z.lxor_nilpotent, Z.lxor_0_r. reflexivity. }
  rewrite <- (G s), <- (G s'), E. reflexivity.
Qed.

End PawnTables.

Section LeadFirst.

Import LeadPawns PawnPlacement.

#[local] Abbreviation mp s := (at1 MapPawns s).

Lemma pawns_comp_rd a b :
  0 <= a <= 63 -> 0 <= b <= 63 -> pawns_comp a b = Some (mp a <? mp b).
Proof.
  intros Ha Hb. unfold pawns_comp.
  rewrite (MapPawns_rd a Ha), (MapPawns_rd b Hb). reflexivity.
Qed.

Lemma max_from_spec (rest : list Z) :
  forall i li ls,
    Forall (fun s => 0 <= s <= 63) rest -> 0 <= ls <= 63 ->
    exists k sk,
      max_from rest i (li, ls) = Some (k, sk)
      /\ ((k = li /\ sk = ls) \/ exists j, k = (i + j)%nat /\ rest !! j = Some sk)
      /\ mp ls <= mp sk
      /\ Forall (fun s => mp s <= mp sk) rest.
Proof.
  induction rest as [|s rest IH]; intros i li ls Hr Hls.
  - exists li, ls. split; [reflexivity|]. split; [left; tauto|].
    split; [lia | constructor].
  - apply Forall_cons in Hr as [Hs Hr]. cbn [max_from snd].
    rewrite (pawns_comp_rd ls s Hls Hs). cbn [mbind option_bind].
    destruct (Z.ltb_spec (mp ls) (mp s)) as [Hlt|Hge].
    + destruct (IH (S i) i s Hr Hs) as (k & sk & E & Hk & Hm & Hall).
      exists k, sk. split; [exact E|]. split.
      * right. destruct Hk as [[-> ->]|(j & -> & Hj)].
        -- exists 0%nat. split; [lia | reflexivity].
        -- exists (S j). split; [lia | exact Hj].
      * split; [lia|]. constructor; [exact Hm | exact Hall].
    + destruct (IH (S i) li ls Hr Hls) as (k & sk & E & Hk & Hm & Hall).
      exists k, sk. split; [exact E|]. split.
      * destruct Hk as [[-> ->]|(j & -> & Hj)]; [left; tauto|].
        right. exists (S j). split; [lia | exact Hj].
      * split; [lia|]. constructor; [lia | exact Hall].
Qed.

Lemma swap_perm (t : list Z) :
  forall k s0 sk, t !! k = Some sk -> sk :: <[k := s0]> t ≡ₚ s0 :: t.
Proof.
  induction t as [|x t IH]; intros k s0 sk Hk; [discriminate|].
  destruct k as [|k]; simpl in *.
  - injection Hk as ->. apply perm_swap.
  - rewrite (perm_swap x sk), (IH k s0 sk Hk). apply perm_swap.
Qed.

Lemma lead_first_spec (pawns : list Z) :
  pawns_ok pawns ->
  exists s0 tail,
    lead_first pawns = Some (s0 :: tail, edge_distance (file_of s0))
    /\ s0 :: tail ≡ₚ pawns
    /\ Forall (fun s => mp s < mp s0) tail.
Proof.
  intros (Hnd & Hr & Hlen).
  destruct pawns as [|p0 rest]; [simpl in Hlen; lia|].
  assert (Hr63 : Forall (fun s => 0 <= s <= 63) (p0 :: rest)).
  { eapply Forall_impl; [exact Hr | intros; simpl in *; lia]. }
  apply Forall_cons in Hr63 as [Hp0 Hrest].
  destruct (max_from_spec rest 1 0%nat p0 Hrest Hp0)
    as (k & sk & E & Hk & Hm & Hall).
  unfold lead_first, max_element. rewrite E.
  cbn [fmap option_fmap option_map mbind option_bind fst lookup list_lookup].
  assert (Hstrict : forall l s0, s0 :: l ≡ₚ p0 :: rest ->
                      Forall (fun s => mp s <= mp s0) l ->
                      Forall (fun s => mp s < mp s0) l).
  { intros l s0 Hp Hle.
    assert (Hnd' : NoDup (s0 :: l)) by (rewrite Hp; exact Hnd).
    assert (Hr' : Forall (fun s => 8 <= s <= 55) (s0 :: l))
      by (rewrite Hp; exact Hr).
    apply NoDup_cons in Hnd' as [Hnot _].
    apply Forall_cons in Hr' as [Hs0 Hl].
    rewrite Forall_forall in *. intros s Hs.
    specialize (Hle s Hs). specialize (Hl s Hs).
    assert (mp s <> mp s0).
    { intros Heq. apply (MapPawns_distinct s s0 Hl Hs0) in Heq. subst s.
      exact (Hnot Hs). }
    lia. }
  destruct Hk as [[-> ->]|(j & -> & Hj)].
  - cbn [lookup list_lookup mbind option_bind insert list_insert].
    exists p0, rest. split; [reflexivity|]. split; [reflexivity|].
    apply Hstrict; [reflexivity | exact Hall].
  - change (1 + j)%nat with (S j).
    change ((p0 :: rest) !! S j) with (rest !! j). rewrite Hj.
    cbn [mbind option_bind insert list_insert].
    exists sk, (<[j := p0]> rest). split; [reflexivity|].
    pose proof (swap_perm rest j p0 sk Hj) as Hp.
    split; [exact Hp|].
    apply Hstrict; [exact Hp|].
    assert (Hd : Forall (fun s => mp s <= mp sk) (p0 :: rest))
      by (constructor; [lia | exact Hall]).
    rewrite <- Hp in Hd. apply Forall_cons in Hd as [_ Hd]. exact Hd.
Qed.

(** The squares of the leading pawns once the leading one is first and on
    the files a to d. *)
Lemma flip_files_spec (s0 : Z) (tail others : list Z) :
  NoDup (s0 :: tail) -> Forall (fun s => 8 <= s <= 55) (s0 :: tail) ->
  Forall (fun s => mp s < mp s0) tail ->
  exists s0' tail' others',
    flip_files ((s0 :: tail) ++ others) = Some ((s0' :: tail') ++ others')
    /\ length tail' = length tail
    /\ NoDup (s0' :: tail')
    /\ Forall (fun s => 8 <= s <= 55) (s0' :: tail')
    /\ Forall (fun s => mp s < mp s0') tail'
    /\ file_of s0' <= FILE_D
    /\ file_of s0' = edge_distance (file_of s0).
Proof.
  intros Hnd Hr Hmax. unfold flip_files.
  cbn [app lookup list_lookup mbind option_bind].
  pose proof (Forall_inv Hr) as Hs0.
  destruct (flip_file_range s0 Hs0) as (Hf1 & Hf2 & Hf3).
  destruct (MapPawns_mirror s0 Hs0) as [Hm0 _].
  unfold FILE_D in *. unfold edge_distance.
  destruct (Z.ltb_spec 3 (file_of s0)) as [Hgt|Hle].
  - exists (flip_file s0), (flip_file <$> tail), (flip_file <$> others).
    split; [rewrite fmap_cons, fmap_app; reflexivity|].
    split; [apply length_fmap|].
    split.
    { change (flip_file s0 :: (flip_file <$> tail))
        with (flip_file <$> (s0 :: tail)).
      apply NoDup_fmap_2; [|exact Hnd].
      intros x y. apply flip_file_inj. }
    split.
    { change (flip_file s0 :: (flip_file <$> tail))
        with (flip_file <$> (s0 :: tail)).
      apply Forall_fmap. eapply Forall_impl; [exact Hr|].
      intros s Hs. simpl. apply flip_file_range. exact Hs. }
    split.
    { apply Forall_fmap. apply Forall_cons in Hr as [_ Hr].
      rewrite Forall_forall in *. intros s Hs. simpl.
      specialize (Hmax s Hs). specialize (Hr s Hs).
      destruct (MapPawns_mirror s Hr) as [Hm _]. unfold FILE_D in Hm.
      destruct (3 <? file_of s); lia. }
    split; lia.
  - exists s0, tail, others. split; [reflexivity|]. split; [reflexivity|].
    split; [exact Hnd|]. split; [exact Hr|]. split; [exact Hmax|]. split; lia.
Qed.

End LeadFirst.

Section LeadIndex.

Import LeadPawns PawnPlacement.

#[local] Abbreviation mp s := (at1 MapPawns s).
#[local] Abbreviation by_number := (fun a b : Z => mp a <= mp b).
#[local] Abbreviation by_number_strict := (fun a b : Z => mp a < mp b).

Lemma insert_pawn_spec (x : Z) (sorted : list Z) :
  0 <= x <= 63 -> Forall (fun s => 0 <= s <= 63) sorted ->
  StronglySorted by_number sorted ->
  exists r,
    insert_pawn x sorted = Some r /\ r ≡ₚ x :: sorted
    /\ StronglySorted by_number r.
Proof.
  intros Hx. induction sorted as [|y rest IH]; intros Hr Hs.
  - exists [x]. split; [reflexivity|]. split; [reflexivity|].
    repeat constructor.
  - apply Forall_cons in Hr as [Hy Hr].
    apply StronglySorted_inv in Hs as [Hs Hle].
    cbn [insert_pawn]. rewrite (pawns_comp_rd y x Hy Hx).
    cbn [mbind option_bind].
    destruct (Z.ltb_spec (mp y) (mp x)) as [Hlt|Hge].
    + destruct (IH Hr Hs) as (r & -> & Hp & Hsr).
      cbn [mbind option_bind]. exists (y :: r). split; [reflexivity|].
      split; [rewrite Hp; apply perm_swap|].
      constructor; [exact Hsr|]. rewrite Hp. constructor; [lia | exact Hle].
    + exists (x :: y :: rest). split; [reflexivity|]. split; [reflexivity|].
      constructor; [constructor; assumption|].
      constructor; [exact Hge|].
      eapply Forall_impl; [exact Hle|]. intros z Hz. simpl in *. lia.
Qed.

Lemma sort_pawns_spec (l : list Z) :
  Forall (fun s => 0 <= s <= 63) l ->
  exists sorted,
    sort_pawns l = Some sorted /\ sorted ≡ₚ l
    /\ StronglySorted by_number sorted.
Proof.
  induction l as [|x l IH]; intros Hr.
  - exists []. split; [reflexivity|]. split; [reflexivity | constructor].
  - apply Forall_cons in Hr as [Hx Hr].
    destruct (IH Hr) as (sorted & E & Hp & Hs).
    cbn [sort_pawns]. rewrite E. cbn [mbind option_bind].
    destruct (insert_pawn_spec x sorted Hx ltac:(rewrite Hp; exact Hr) Hs)
      as (r & Er & Hpr & Hsr).
    exists r. split; [exact Er|]. split; [rewrite Hpr, Hp; reflexivity|].
    exact Hsr.
Qed.

Lemma sorted_pawns_strict (l : list Z) :
  StronglySorted by_number l -> NoDup l ->
  Forall (fun s => 8 <= s <= 55) l ->
  StronglySorted by_number_strict l.
Proof.
  induction 1 as [|x l Hs IH Hle]; intros Hnd Hr; [constructor|].
  apply NoDup_cons in Hnd as [Hx Hnd]. apply Forall_cons in Hr as [Hxr Hr].
  constructor; [apply IH; assumption|].
  rewrite Forall_forall in *. intros y Hy.
  specialize (Hle y Hy). specialize (Hr y Hy). simpl in Hle.
  assert (mp x <> mp y).
  { intros E. apply (MapPawns_distinct x y Hxr Hr) in E. subst y.
    exact (Hx Hy). }
  lia.
Qed.

Lemma lead_pawns_sum_bound (ss : list Z) :
  forall s rest i idx0,
    ss = s :: rest ->
    StronglySorted by_number_strict ss ->
    Forall (fun s => 8 <= s <= 55) ss ->
    1 <= i -> i - 1 + Z.of_nat (length ss) <= 5 ->
    0 <= idx0 <= 2 ^ 32 + i * 2 ^ 23 ->
    exists idx sl,
      lead_pawns_sum ss i idx0 = Some idx
      /\ last ss = Some sl
      /\ idx0 <= idx
      /\ idx - idx0 <= at2 Binomial (i - 1 + Z.of_nat (length ss)) (mp sl + 1)
                       - at2 Binomial (i - 1) (mp s).
Proof.
  induction ss as [|s0 ss IH]; intros s rest i idx0 E Hs Hr Hi Hk H0;
    [discriminate|].
  injection E as <- <-.
  apply StronglySorted_inv in Hs as [Hs Hlt].
  apply Forall_cons in Hr as [Hs0 Hr].
  destruct (MapPawns_mirror s0 Hs0) as [_ Hm].
  simpl length in Hk.
  cbn [lead_pawns_sum]. rewrite (MapPawns_rd s0 ltac:(lia)).
  cbn [mbind option_bind].
  destruct (Binomial_rd i (mp s0) ltac:(lia) ltac:(lia)) as (row & Hrow & Hb).
  rewrite Hrow. cbn [mbind option_bind]. rewrite Hb. cbn [mbind option_bind].
  pose proof (Binomial_range i (mp s0) ltac:(lia) ltac:(lia)) as Hbr.
  assert (Hu : u64 (idx0 + at2 Binomial i (mp s0))
               = idx0 + at2 Binomial i (mp s0)).
  { unfold u64. apply Z.mod_small.
    assert (i * 2 ^ 23 <= 5 * 2 ^ 23) by lia.
    change (2 ^ 64) with (2 ^ 32 * 2 ^ 32). change (2 ^ 32) with 4294967296 in *.
    change (2 ^ 23) with 8388608 in *. lia. }
  rewrite Hu.
  pose proof (Binomial_pascal (i - 1) (mp s0) ltac:(lia) ltac:(lia)) as P.
  replace (i - 1 + 1) with i in P by lia.
  destruct ss as [|s1 ss'].
  - exists (idx0 + at2 Binomial i (mp s0)), s0.
    split; [reflexivity|]. split; [reflexivity|]. split; [lia|].
    simpl length. replace (i - 1 + Z.of_nat 1) with i by lia. lia.
  - apply Forall_cons in Hlt as [Hlt01 _]. simpl in Hlt01.
    pose proof (Forall_inv Hr) as Hs1.
    destruct (MapPawns_mirror s1 Hs1) as [_ Hm1].
    destruct (IH s1 ss' (i + 1) (idx0 + at2 Binomial i (mp s0)) eq_refl Hs Hr
                ltac:(lia) ltac:(simpl length in *; lia)
                ltac:(change (2 ^ 23) with 8388608 in *; lia))
      as (idx & sl & En & El & Hn & Hbound).
    exists idx, sl. split; [exact En|]. split; [exact El|]. split; [lia|].
    replace (i - 1 + Z.of_nat (length (s0 :: s1 :: ss')))
      with (i + 1 - 1 + Z.of_nat (length (s1 :: ss')))
      by (simpl length; lia).
    replace (i + 1 - 1) with i in * by lia.
    pose proof (Binomial_mono i (mp s0 + 1) (mp s1)
                  ltac:(lia) ltac:(lia) ltac:(lia) ltac:(lia)) as M.
    lia.
Qed.

Lemma LeadPawnIdx_rd cnt s :
  1 <= cnt <= 5 -> 0 <= s <= 63 ->
  exists row,
    rd LeadPawnIdx cnt = Some row /\ rd row s = Some (at2 LeadPawnIdx cnt s).
Proof.
  intros Hc Hs.
  assert (cnt = 1 \/ cnt = 2 \/ cnt = 3 \/ cnt = 4 \/ cnt = 5)
    as [->|[->|[->|[->| ->]]]] by lia;
    (eexists; split; [reflexivity|]);
    (apply at2_rd; [reflexivity | simpl length; lia]).
Qed.

End LeadIndex.

Section LeadPawnsTheorem.

Import LeadPawns PawnPlacement.



End LeadPawnsTheorem.

Section GroupLengths.

Import GroupsInv.

Lemma sum_list_app l1 l2 : sum_list (l1 ++ l2) = sum_list l1 + sum_list l2.
Proof. induction l1 as [|x l1 IH]; simpl; lia. Qed.

(** The state of the first loop of [set_groups] after [p - 1] rounds. *)
Lemma group_lengths_inv (ixs : list Z) (pieces : list Z) :
  forall (n : nat) firstLen groupLen n' gl',
    group_lengths ixs pieces (Z.of_nat n) firstLen groupLen = Some (n', gl') ->
    (n + length ixs < length groupLen)%nat ->
    Forall (fun g => 1 <= g) (take (S n) groupLen) ->
    exists m : nat,
      n' = Z.of_nat m /\ (n <= m <= n + length ixs)%nat
      /\ length gl' = length groupLen
      /\ Forall (fun g => 1 <= g) (take (S m) gl')
      /\ sum_list (take (S m) gl')
         = sum_list (take (S n) groupLen) + Z.of_nat (length ixs).
Proof.
  induction ixs as [|i ixs IH]; intros n firstLen groupLen n' gl' H Hlen Hpos.
  - injection H as <- <-. exists n. simpl. repeat split; try lia; try assumption.
  - cbn [group_lengths] in H.
    destruct (rd pieces i) as [p|]; [|discriminate].
    destruct (rd pieces (i - 1)) as [q|]; [|discriminate].
    cbn [mbind option_bind] in H. simpl length in Hlen.
    assert (Hn : (n < length groupLen)%nat) by lia.
    destruct (lookup_lt_is_Some_2 groupLen n Hn) as [v Hv].
    assert (Hat : at1 groupLen (Z.of_nat n) = v).
    { unfold at1, rd. destruct (Z.ltb_spec (Z.of_nat n) 0); [lia|].
      rewrite Nat2Z.id, Hv. reflexivity. }
    assert (Hsplit : take (S n) groupLen = take n groupLen ++ [v])
      by (apply take_S_r; exact Hv).
    destruct ((0 <? firstLen - 1) || (p =? q)).
    + unfold set1 in H. rewrite Hat, Nat2Z.id in H.
      apply IH in H.
      * destruct H as (m & -> & Hm & Hl & Hf & Hs).
        exists m. split; [reflexivity|]. split; [simpl length; lia|].
        rewrite length_insert in Hl. split; [exact Hl|]. split; [exact Hf|].
        rewrite Hs. simpl length.
        rewrite (take_S_r _ n (v + 1))
          by (apply list_lookup_insert_eq; apply lookup_lt_Some in Hv; exact Hv).
        rewrite take_insert_ge by lia.
        rewrite Hsplit, !sum_list_app. simpl. lia.
      * rewrite length_insert. lia.
      * rewrite (take_S_r _ n (v + 1))
          by (apply list_lookup_insert_eq; apply lookup_lt_Some in Hv; exact Hv).
        rewrite take_insert_ge by lia.
        rewrite Hsplit in Hpos. apply Forall_app in Hpos as [Hp1 Hp2].
        apply Forall_app. split; [exact Hp1|].
        apply Forall_inv in Hp2. repeat constructor. lia.
    + unfold set1 in H.
      replace (Z.of_nat n + 1) with (Z.of_nat (S n)) in H by lia.
      rewrite Nat2Z.id in H.
      apply IH in H.
      * destruct H as (m & -> & Hm & Hl & Hf & Hs).
        exists m. split; [reflexivity|]. split; [simpl length; lia|].
        rewrite length_insert in Hl. split; [exact Hl|]. split; [exact Hf|].
        rewrite Hs. simpl length.
        rewrite (take_S_r _ (S n) 1) by (apply list_lookup_insert_eq; lia).
        rewrite take_insert_ge by lia.
        rewrite !sum_list_app. simpl. lia.
      * rewrite length_insert. lia.
      * rewrite (take_S_r _ (S n) 1) by (apply list_lookup_insert_eq; lia).
        rewrite take_insert_ge by lia.
        apply Forall_app. split; [exact Hpos|]. repeat constructor. lia.
Qed.

End GroupLengths.

Section SetGroupsTheorems.

Import GroupsInv KingPair.

Lemma length_count_from n lo : length (count_from n lo) = n.
Proof. revert lo. induction n as [|n IH]; intros lo; simpl; [|rewrite IH]; reflexivity. Qed.

(** X23. The groups that [set_groups] forms are a partition of the piece
    sequence: for a table of 1 to 7 pieces, the array [groupLen] (of 8
    entries) holds after the call the lengths of [m] groups, each at least
    1, that add up to [pieceCount], followed by the terminating zero; there
    are at most [pieceCount] groups. *)
Theorem set_groups_cover (e : TBTable) (d d' : PairsData) (order : list Z)
    (f : Z) :
  set_groups e d order f = Some d' ->
  length (groupLen d) = 8%nat -> 1 <= pieceCount e <= 7 ->
  exists m : nat,
    1 <= Z.of_nat m <= pieceCount e
    /\ groups_cover (groupLen d') m (pieceCount e).
Proof.
  intros H Hlen Hpc. unfold set_groups in H.
  destruct (rd order 0) as [order0|]; [|discriminate].
  destruct (rd order 1) as [order1|]; [|discriminate].
  cbn [mbind option_bind] in H.
  destruct (group_lengths _ _ _ _ _) as [[n gl]|] eqn:Egl; [|discriminate].
  cbn [mbind option_bind] in H.
  destruct (rd (pawnCount e) 1) as [pc1|]; [|discriminate].
  cbn [mbind option_bind] in H.
  destruct (rd (set1 gl (n + 1) 0) 0) as [g0|]; [|discriminate].
  cbn [mbind option_bind] in H.
  destruct (rd (set1 gl (n + 1) 0) 1) as [g1|]; [|discriminate].
  cbn [mbind option_bind] in H.
  destruct (group_indices _ _ _ _ _ _ _ _ _ _ _ _) as [[gi idx]|];
    [|discriminate].
  injection H as <-. cbn [groupLen with_groups].
  apply (group_lengths_inv _ _ 0%nat) in Egl.
  - destruct Egl as (m & -> & Hm & Hl & Hf & Hs).
    unfold range in *. rewrite length_count_from in *.
    unfold set1 in *. rewrite length_insert in Hl.
    replace (Z.of_nat m + 1) with (Z.of_nat (S m)) by lia.
    rewrite Nat2Z.id.
    exists (S m). split; [lia|]. unfold groups_cover.
    rewrite take_insert_ge by lia. split; [exact Hf|]. split.
    + rewrite Hs. change (Z.to_nat 0) with 0%nat.
      destruct (groupLen d) as [|x gl0]; [discriminate|]. simpl. lia.
    + apply list_lookup_insert_eq. lia.
  - unfold range. rewrite length_count_from. unfold set1.
    rewrite length_insert. lia.
  - unfold set1. change (Z.to_nat 0) with 0%nat.
    destruct (groupLen d) as [|x gl0]; [discriminate|]. simpl.
    repeat constructor. lia.
Qed.

Lemma set_groups_cover_witness :
  exists d',
    set_groups (example_KNNvK CHESS_VARIANT) example_KNNvK_pairs [0; 15] 0
    = Some d'
    /\ exists m : nat,
         1 <= Z.of_nat m <= pieceCount (example_KNNvK CHESS_VARIANT)
         /\ groups_cover (groupLen d') m (pieceCount (example_KNNvK CHESS_VARIANT)).
Proof.
  destruct (set_groups (example_KNNvK CHESS_VARIANT) example_KNNvK_pairs
              [0; 15] 0) as [d'|] eqn:E; [|vm_compute in E; discriminate].
  exists d'. split; [reflexivity|].
  apply (set_groups_cover (example_KNNvK CHESS_VARIANT) example_KNNvK_pairs d'
           [0; 15] 0).
  - exact E.
  - reflexivity.
  - simpl. lia.
Defined.

End SetGroupsTheorems.

Section IndexFacts.

Import GroupsInv IndexSpace Remaining.

Lemma Binomial_pow k n :
  0 <= k <= 5 -> 0 <= n <= 63 ->
  at2 Binomial k n <= 64 ^ k /\ (k <= n -> 1 <= at2 Binomial k n).
Proof.
  intros Hk Hn.
  assert (H : check_pow = true) by (vm_compute; reflexivity).
  pose proof (forallb_range _ _ _ H k Hk) as H1. cbv beta in H1.
  pose proof (forallb_range _ _ _ H1 n Hn) as H2. cbv beta in H2.
  apply andb_prop in H2 as [Ha Hb]. apply Z.leb_le in Ha.
  split; [exact Ha|]. intros Hkn.
  apply orb_prop in Hb as [Hb|Hb]; [apply Z.ltb_lt in Hb; lia|].
  apply Z.leb_le in Hb. exact Hb.
Qed.

Lemma at1_set1_eq (t : list Z) (i : nat) v :
  (i < length t)%nat -> at1 (set1 t (Z.of_nat i) v) (Z.of_nat i) = v.
Proof.
  intros Hi. unfold at1, set1, rd.
  destruct (Z.ltb_spec (Z.of_nat i) 0); [lia|].
  rewrite Nat2Z.id, list_lookup_insert_eq by exact Hi. reflexivity.
Qed.

Lemma at1_set1_ne (t : list Z) (i j : nat) v :
  i <> j -> at1 (set1 t (Z.of_nat i) v) (Z.of_nat j) = at1 t (Z.of_nat j).
Proof.
  intros Hij. unfold at1, set1, rd.
  destruct (Z.ltb_spec (Z.of_nat j) 0); [lia|].
  rewrite !Nat2Z.id, list_lookup_insert_ne by exact Hij. reflexivity.
Qed.

Lemma tail_max_set1 (gl gi : list Z) (p : nat) v (c : nat) :
  forall j, (p < j \/ j + c <= p)%nat ->
    tail_max gl (set1 gi (Z.of_nat p) v) j c = tail_max gl gi j c.
Proof.
  induction c as [|c IH]; intros j Hp; [reflexivity|].
  cbn [tail_max]. rewrite IH by lia. rewrite at1_set1_ne by lia. reflexivity.
Qed.

Lemma tail_max_snoc (gl gi : list Z) (c : nat) :
  forall j,
    tail_max gl gi j (S c)
    = tail_max gl gi j c
      + (group_factor gl (j + c) - 1) * at1 gi (Z.of_nat (j + c)).
Proof.
  induction c as [|c IH]; intros j.
  - cbn [tail_max]. rewrite Nat.add_0_r. lia.
  - change (tail_max gl gi j (S (S c)))
      with ((group_factor gl j - 1) * at1 gi (Z.of_nat j)
            + tail_max gl gi (S j) (S c)).
    rewrite IH. cbn [tail_max].
    replace (S j + c)%nat with (j + S c)%nat by lia. lia.
Qed.

Lemma men_before_S (gl : list Z) (j : nat) :
  (j < length gl)%nat ->
  men_before gl (S j) = men_before gl j + at1 gl (Z.of_nat j).
Proof.
  intros Hj. unfold men_before.
  destruct (lookup_lt_is_Some_2 gl j Hj) as [v Hv].
  rewrite (take_S_r _ _ _ Hv), sum_list_app. simpl.
  unfold at1, rd. destruct (Z.ltb_spec (Z.of_nat j) 0); [lia|].
  rewrite Nat2Z.id, Hv. simpl. lia.
Qed.

End IndexFacts.

Section SecondLoop.

Import GroupsInv IndexSpace Remaining.

Variable e : TBTable.
Variables f order0 : Z.
Variable gl : list Z.
Variable m : nat.
Variables g0 F0 : Z.
Hypothesis Hg0 : rd gl 0 = Some g0.
Hypothesis HF0 : lead_factor e g0 f = Some F0.
Hypothesis HF0r : 1 <= F0 <= 2 ^ 24.
Hypothesis Hgl : length gl = 8%nat.
Hypothesis Hm : (1 <= m <= 7)%nat.
Hypothesis Hpos : Forall (fun g => 1 <= g) (take m gl).
Hypothesis Htotal : men_before gl m <= 7.
Hypothesis Horder : 0 <= order0 < Z.of_nat m.

Lemma at1_gl_0 : at1 gl 0 = g0.
Proof. unfold at1. rewrite Hg0. reflexivity. Qed.

Lemma group_len_pos (j : nat) : (j < m)%nat -> 1 <= at1 gl (Z.of_nat j).
Proof.
  intros Hj. rewrite Forall_forall in Hpos.
  destruct (lookup_lt_is_Some_2 gl j ltac:(lia)) as [v Hv].
  unfold at1, rd. destruct (Z.ltb_spec (Z.of_nat j) 0); [lia|].
  rewrite Nat2Z.id, Hv. simpl. apply Hpos.
  apply list_elem_of_lookup. exists j. rewrite lookup_take_lt by lia. exact Hv.
Qed.

Lemma men_before_mono (j j' : nat) :
  (j <= j' <= m)%nat -> men_before gl j <= men_before gl j'.
Proof.
  intros [Hj Hj']. induction j' as [|j' IH].
  - replace j with 0%nat by lia. lia.
  - destruct (Nat.eq_dec j (S j')) as [->|Hne]; [lia|].
    rewrite men_before_S by lia.
    pose proof (group_len_pos j' ltac:(lia)). specialize (IH ltac:(lia) ltac:(lia)).
    lia.
Qed.

Lemma men_before_1 : men_before gl 1 = g0.
Proof.
  rewrite (men_before_S gl 0) by lia. change (Z.of_nat 0) with 0.
  rewrite at1_gl_0. unfold men_before. simpl. lia.
Qed.

Lemma men_before_range (j : nat) :
  (1 <= j <= m)%nat -> 1 <= g0 <= men_before gl j /\ men_before gl j <= 7.
Proof.
  intros Hj.
  pose proof (men_before_mono 1 j ltac:(lia)) as H1.
  pose proof (men_before_mono j m ltac:(lia)) as H2.
  rewrite men_before_1 in H1.
  pose proof (group_len_pos 0 ltac:(lia)) as H0.
  change (Z.of_nat 0) with 0 in H0. rewrite at1_gl_0 in H0. lia.
Qed.

Lemma group_indices_inv (fuel : nat) :
  forall k (next : nat) idx gi gi' idx',
    group_indices fuel e f order0 15 gl (Z.of_nat m) k (Z.of_nat next)
      (64 - men_before gl next) idx gi = Some (gi', idx') ->
    (1 <= next <= m)%nat -> length gi = 8%nat ->
    k = Z.of_nat (next - 1) + b2z (order0 <? k) ->
    numbered gl gi F0 (order0 <? k) next idx ->
    length gi' = 8%nat /\ numbered gl gi' F0 true m idx'.
Proof.
  induction fuel as [|fuel IH];
    intros k next idx gi gi' idx' H Hnext Hgi Hk Hnum; [discriminate|].
  cbn [group_indices] in H.
  destruct (men_before_range next Hnext) as ([Hg0pos Hmb1] & Hmb2).
  assert (Hk15 : (k =? 15) = false).
  { apply Z.eqb_neq. destruct (order0 <? k); simpl in Hk; lia. }
  rewrite Hk15, Bool.orb_false_r in H.
  destruct Hnum as (Hidx & Hbound & Hlead & Hw).
  rewrite at1_gl_0 in Hbound.
  destruct (Z.eqb_spec k order0) as [Hko|Hko].
  - (* the leading group *)
    rewrite Bool.orb_true_r in H.
    rewrite Hg0 in H. cbn [mbind option_bind] in H.
    rewrite HF0 in H. cbn [mbind option_bind] in H.
    assert (Hld : (order0 <? k) = false) by (apply Z.ltb_ge; lia).
    rewrite Hld in *. simpl b2z in Hk.
    assert (Hpow : 64 ^ (men_before gl next - g0) <= 64 ^ 6)
      by (apply Z.pow_le_mono_r; lia).
    assert (Hu : u64 (idx * F0) = idx * F0).
    { unfold u64. apply Z.mod_small.
      change (2 ^ 64) with (2 ^ 24 * (64 ^ 6 * 16)).
      change (2 ^ 24) with 16777216 in *. change (64 ^ 6) with 68719476736 in *.
      nia. }
    rewrite Hu in H.
    apply (IH (k + 1) next) in H; [exact H | exact Hnext | | |].
    + unfold set1. rewrite length_insert. exact Hgi.
    + replace (order0 <? k + 1) with true by (symmetry; apply Z.ltb_lt; lia).
      simpl. lia.
    + replace (order0 <? k + 1) with true by (symmetry; apply Z.ltb_lt; lia).
      pose proof (at1_set1_eq gi 0 idx ltac:(lia)) as A0.
      pose proof (tail_max_set1 gl gi 0 idx (next - 1) 1 ltac:(lia)) as T0.
      change (Z.of_nat 0) with 0 in A0, T0.
      split; [|split; [|split]].
      * rewrite A0, T0. lia.
      * rewrite at1_gl_0. nia.
      * intros _. rewrite A0. lia.
      * intros j Hj.
        pose proof (at1_set1_ne gi 0 j idx ltac:(lia)) as A1.
        change (Z.of_nat 0) with 0 in A1. rewrite A1. apply Hw. exact Hj.
  - (* a group after the leading one *)
    rewrite Bool.orb_false_r in H.
    destruct (Z.ltb_spec (Z.of_nat next) (Z.of_nat m)) as [Hlt|Hge].
    + destruct (rd gl (Z.of_nat next)) as [g|] eqn:Eg; [|discriminate].
      cbn [mbind option_bind] in H.
      destruct (rd Binomial g) as [row|] eqn:Er; [|discriminate].
      cbn [mbind option_bind] in H.
      destruct (rd row (64 - men_before gl next)) as [b|] eqn:Eb;
        [|discriminate].
      cbn [mbind option_bind] in H.
      assert (Hg : at1 gl (Z.of_nat next) = g) by (unfold at1; rewrite Eg; reflexivity).
      assert (Hb : group_factor gl next = b).
      { unfold group_factor, at2. rewrite Hg, Er. cbn [mbind option_bind].
        rewrite Eb. reflexivity. }
      pose proof (rd_Some _ _ _ Er) as Hgr. simpl length in Hgr.
      pose proof (group_len_pos next ltac:(lia)) as Hg1. rewrite Hg in Hg1.
      destruct (Binomial_pow g (64 - men_before gl next) ltac:(lia) ltac:(lia))
        as [Hb1 Hb2].
      pose proof (Binomial_nonneg g (64 - men_before gl next)
                    ltac:(lia) ltac:(lia)) as Hb0.
      assert (Hbb : at2 Binomial g (64 - men_before gl next) = b).
      { unfold at2. rewrite Er. cbn [mbind option_bind]. rewrite Eb.
        reflexivity. }
      rewrite Hbb in Hb1, Hb0.
      pose proof (men_before_S gl next ltac:(lia)) as HmS. rewrite Hg in HmS.
      destruct (men_before_range (S next) ltac:(lia)) as (_ & HmS7).
      assert (Hpow : 64 ^ (men_before gl (S next) - g0)
                     = 64 ^ (men_before gl next - g0) * 64 ^ g).
      { rewrite HmS. replace (men_before gl next + g - g0)
          with (men_before gl next - g0 + g) by lia.
        apply Z.pow_add_r; lia. }
      assert (Hpow6 : 64 ^ (men_before gl (S next) - g0) <= 64 ^ 6)
        by (apply Z.pow_le_mono_r; lia).
      assert (Hp0 : 0 <= 64 ^ (men_before gl next - g0))
        by (apply Z.pow_nonneg; lia).
      assert (Hmul : idx * b
                     <= (if order0 <? k then F0 else 1)
                        * 64 ^ (men_before gl (S next) - g0)).
      { rewrite Hpow. destruct (order0 <? k); nia. }
      assert (Hu : u64 (idx * b) = idx * b).
      { unfold u64. apply Z.mod_small.
        change (2 ^ 64) with (2 ^ 24 * (64 ^ 6 * 16)).
        change (2 ^ 24) with 16777216 in *.
        change (64 ^ 6) with 68719476736 in *.
        destruct (order0 <? k); nia. }
      rewrite Hu in H.
      replace (Z.of_nat next + 1) with (Z.of_nat (S next)) in H by lia.
      replace (64 - men_before gl next - g)
        with (64 - men_before gl (S next)) in H by lia.
      assert (Hsame : (order0 <? k + 1) = (order0 <? k)).
      { destruct (Z.ltb_spec order0 k), (Z.ltb_spec order0 (k + 1)); lia. }
      apply (IH (k + 1) (S next)) in H; [exact H | lia | | |].
      * unfold set1. rewrite length_insert. exact Hgi.
      * rewrite Hsame. lia.
      * rewrite Hsame.
        split; [|split; [|split]].
        -- replace (S next - 1)%nat with (S (next - 1)) by lia.
           rewrite tail_max_snoc.
           replace (1 + (next - 1))%nat with next by lia.
           rewrite Hb, at1_set1_eq by lia.
           rewrite tail_max_set1 by lia.
           pose proof (at1_set1_ne gi next 0 idx ltac:(lia)) as A1.
           change (Z.of_nat 0) with 0 in A1. rewrite A1. lia.
        -- rewrite at1_gl_0. split; [nia | exact Hmul].
        -- intros Hl.
           pose proof (at1_set1_ne gi next 0 idx ltac:(lia)) as A1.
           change (Z.of_nat 0) with 0 in A1. rewrite A1. apply Hlead. exact Hl.
        -- intros j Hj. destruct (Nat.eq_dec j next) as [->|Hjn].
           ++ rewrite at1_set1_eq by lia. lia.
           ++ rewrite at1_set1_ne by lia. apply Hw. lia.
    + (* the end of the loop *)
      simpl in H. injection H as <- <-.
      assert (next = m) by lia. subst next.
      assert (Hld : (order0 <? k) = true).
      { destruct (Z.ltb_spec order0 k); [reflexivity|]. simpl in Hk. lia. }
      rewrite Hld in *.
      split; [exact Hgi|].
      split; [exact Hidx|]. split; [rewrite at1_gl_0; exact Hbound|].
      split; assumption.
Qed.

End SecondLoop.

Section RemainingLoop.

Import GroupsInv IndexSpace Remaining Placement.

Variable d : PairsData.
Variable m : nat.
Variable g0 : Z.
Hypothesis Hg0 : rd (groupLen d) 0 = Some g0.
Hypothesis Hgl : length (groupLen d) = 8%nat.
Hypothesis Hgi : length (groupIdx d) = 8%nat.
Hypothesis Hm : (1 <= m <= 7)%nat.
Hypothesis Hpos : Forall (fun g => 1 <= g) (take m (groupLen d)).
Hypothesis Htotal : men_before (groupLen d) m <= 7.
Hypothesis Hzero : groupLen d !! m = Some 0.
Hypothesis Hw : forall j, (1 <= j < m)%nat ->
  0 <= at1 (groupIdx d) (Z.of_nat j) /\ at1 (groupLen d) (Z.of_nat j) <= 5.

Lemma group_factor_pos (j : nat) :
  (1 <= j < m)%nat -> 1 <= group_factor (groupLen d) j.
Proof.
  intros Hj. unfold group_factor.
  pose proof (group_len_pos (groupLen d) m Hgl Hm Hpos j ltac:(lia)) as H1.
  destruct (Hw j Hj) as [_ H5].
  destruct (men_before_range (groupLen d) m g0 Hg0 Hgl Hm Hpos Htotal j
              ltac:(lia)) as ([Hg Hlo] & Hhi).
  apply Binomial_pow; lia.
Qed.

Lemma tail_max_nonneg (c : nat) :
  forall j, (1 <= j)%nat -> (j + c <= m)%nat ->
    0 <= tail_max (groupLen d) (groupIdx d) j c.
Proof.
  induction c as [|c IH]; intros j Hj Hc; [simpl; lia|].
  cbn [tail_max]. specialize (IH (S j) ltac:(lia) ltac:(lia)).
  pose proof (group_factor_pos j ltac:(lia)).
  destruct (Hw j ltac:(lia)) as [H0 _]. nia.
Qed.

Lemma remaining_loop_bound (c : nat) :
  forall (j : nat) fuel squares idx,
    (j + c = m)%nat -> (1 <= j)%nat -> (c < fuel)%nat ->
    NoDup squares -> Forall (fun s => 0 <= s < 64) squares ->
    Z.of_nat (length squares) = men_before (groupLen d) m ->
    0 <= idx ->
    idx + tail_max (groupLen d) (groupIdx d) j c < 2 ^ 64 ->
    exists idx',
      remaining_loop fuel d squares (Z.of_nat j - 1)
        (Z.to_nat (men_before (groupLen d) j)) false idx = Some idx'
      /\ idx <= idx' <= idx + tail_max (groupLen d) (groupIdx d) j c.
Proof.
  induction c as [|c IH];
    intros j fuel squares idx Hjc Hj Hfuel Hnd Hr Hlen Hidx Hmax.
  - destruct fuel as [|fuel]; [lia|]. cbn [remaining_loop].
    replace (Z.of_nat j - 1 + 1) with (Z.of_nat j) by lia.
    assert (j = m) by lia. subst j.
    unfold rd. destruct (Z.ltb_spec (Z.of_nat m) 0); [lia|].
    rewrite Nat2Z.id, Hzero. cbn [mbind option_bind]. simpl.
    exists idx. split; [reflexivity | lia].
  - destruct fuel as [|fuel]; [lia|]. cbn [remaining_loop].
    replace (Z.of_nat j - 1 + 1) with (Z.of_nat j) by lia.
    pose proof (group_len_pos (groupLen d) m Hgl Hm Hpos j ltac:(lia)) as Hl1.
    destruct (Hw j ltac:(lia)) as [Hwj Hl5].
    destruct (men_before_range (groupLen d) m g0 Hg0 Hgl Hm Hpos Htotal j
                ltac:(lia)) as ([Hg Hlo] & Hhi).
    pose proof (men_before_S (groupLen d) j ltac:(lia)) as HmS.
    pose proof (men_before_mono (groupLen d) m Hgl Hm Hpos (S j) m ltac:(lia))
      as HmM.
    set (len := at1 (groupLen d) (Z.of_nat j)) in *.
    set (off := Z.to_nat (men_before (groupLen d) j)).
    assert (Erd : rd (groupLen d) (Z.of_nat j) = Some len).
    { unfold len, at1.
      destruct (rd_in_range (groupLen d) (Z.of_nat j) ltac:(lia)) as [v ->].
      reflexivity. }
    rewrite Erd. cbn [mbind option_bind].
    destruct (Z.eqb_spec len 0); [lia|].
    destruct (Z.ltb_spec len 0); [lia|].
    destruct (Z.ltb_spec (Z.of_nat (length squares)) (Z.of_nat off + len));
      [lia|]. cbn [orb].
    set (before := take off squares).
    set (group := take (Z.to_nat len) (drop off squares)).
    assert (Hlb : length before = off)
      by (unfold before; apply length_take_le; lia).
    assert (Hlg : length group = Z.to_nat len).
    { unfold group. apply length_take_le. rewrite length_drop. lia. }
    assert (Happ : before ++ group = take (off + Z.to_nat len) squares)
      by apply take_take_drop.
    assert (Hplaced : placed false before group).
    { split; rewrite Happ.
      - apply (sublist_NoDup _ squares Hnd). apply sublist_take.
      - apply Forall_take. eapply Forall_impl; [exact Hr|].
        intros s Hs. simpl in *. lia. }
    destruct (remaining_group_bound false before group Hplaced
                ltac:(lia) ltac:(lia)) as (cd & En & Hn).
    rewrite En. cbn [mbind option_bind].
    rewrite Hlg, Hlb, Z2Nat.id in Hn by lia.
    change (num_squares false) with 64 in Hn.
    unfold off in Hn at 1. rewrite Z2Nat.id in Hn by lia.
    change (at2 Binomial len (64 - men_before (groupLen d) j))
      with (group_factor (groupLen d) j) in Hn.
    assert (Egi : rd (groupIdx d) (Z.of_nat j)
                  = Some (at1 (groupIdx d) (Z.of_nat j))).
    { unfold at1.
      destruct (rd_in_range (groupIdx d) (Z.of_nat j) ltac:(lia)) as [v ->].
      reflexivity. }
    rewrite Egi. cbn [mbind option_bind].
    set (w := at1 (groupIdx d) (Z.of_nat j)) in *.
    pose proof (tail_max_nonneg c (S j) ltac:(lia) ltac:(lia)) as Ht.
    cbn [tail_max] in Hmax. fold w in Hmax.
    assert (Hnw : 0 <= cd * w <= (group_factor (groupLen d) j - 1) * w) by nia.
    assert (Hu1 : u64 (cd * w) = cd * w)
      by (unfold u64; apply Z.mod_small; lia).
    assert (Hu2 : u64 (idx + cd * w) = idx + cd * w)
      by (unfold u64; apply Z.mod_small; lia).
    rewrite Hu1, Hu2.
    set (squares' := before ++ merge_sort Z.le group
                     ++ drop (off + Z.to_nat len) squares).
    assert (Hperm : squares' ≡ₚ squares).
    { unfold squares'. rewrite merge_sort_Permutation.
      rewrite app_assoc, Happ. apply reflexive_eq. apply take_drop. }
    destruct (IH (S j) fuel squares' (idx + cd * w)) as (idx' & E & Hb).
    + lia.
    + lia.
    + lia.
    + rewrite Hperm. exact Hnd.
    + rewrite Hperm. exact Hr.
    + rewrite Hperm. exact Hlen.
    + lia.
    + lia.
    + exists idx'. split.
      * replace (Z.of_nat (S j) - 1) with (Z.of_nat j) in E by lia.
        replace (Z.to_nat (men_before (groupLen d) (S j)))
          with (off + Z.to_nat len)%nat in E by (unfold off; lia).
        exact E.
      * cbn [tail_max]. fold w. lia.
Qed.

End RemainingLoop.

Section TableSize.

Import GroupsInv IndexSpace Remaining Placement Header KingPair.

Lemma lead_factor_le (e : TBTable) (g0 f F0 : Z) :
  lead_factor e g0 f = Some F0 -> F0 <= 2 ^ 24.
Proof.
  assert (HL : Forall (Forall (fun x => x <= 2 ^ 24)) LeadPawnsSize)
    by (apply (bool_decide_unpack _); vm_compute; reflexivity).
  assert (HM : Forall (fun x => x <= 2 ^ 24) MultFactor)
    by (apply (bool_decide_unpack _); vm_compute; reflexivity).
  assert (Hrd : forall (P : Z -> Prop) l i v,
            Forall P l -> rd l i = Some v -> P v).
  { intros P l i v HP Hv. unfold rd in Hv.
    destruct (i <? 0); [discriminate|].
    exact (proj1 (Forall_lookup P l) HP _ _ Hv). }
  unfold lead_factor. intros H.
  destruct (hasPawns e).
  - destruct (rd LeadPawnsSize g0) as [row|] eqn:Er; [|discriminate].
    cbn [mbind option_bind] in H.
    unfold rd in Er. destruct (g0 <? 0); [discriminate|].
    pose proof (proj1 (Forall_lookup _ _) HL _ _ Er) as Hrow.
    exact (Hrd _ _ _ _ Hrow H).
  - destruct (3 <=? numUniquePieces e); [injection H as <-; lia|].
    destruct (numUniquePieces e =? 2).
    { destruct (variant_eqb _ _); injection H as <-; lia. }
    destruct (minLikeMan e =? 2); [injection H as <-; lia|].
    exact (Hrd _ _ _ _ HM H).
Qed.

Lemma find_zero_groups (gl : list Z) (m : nat) :
  (m <= 7)%nat -> length gl = 8%nat ->
  Forall (fun g => 1 <= g) (take m gl) -> gl !! m = Some 0 ->
  find_zero gl 7 0 = Some (Z.of_nat m).
Proof.
  intros Hm Hlen Hpos Hz.
  assert (G : forall (n i : nat), (i <= m)%nat -> (m < i + n)%nat ->
            find_zero gl n (Z.of_nat i) = Some (Z.of_nat m)).
  { induction n as [|n IH]; intros i Hi Hn; [lia|].
    cbn [find_zero]. unfold rd.
    destruct (Z.ltb_spec (Z.of_nat i) 0); [lia|]. rewrite Nat2Z.id.
    destruct (decide (i = m)) as [->|Hne].
    - rewrite Hz. reflexivity.
    - destruct (lookup_lt_is_Some_2 gl i ltac:(lia)) as [g Hg].
      rewrite Hg. cbn [mbind option_bind].
      assert (1 <= g).
      { apply (proj1 (Forall_lookup _ _) Hpos i).
        rewrite lookup_take_lt by lia. exact Hg. }
      destruct (Z.eqb_spec g 0); [lia|].
      replace (Z.of_nat i + 1) with (Z.of_nat (S i)) by lia.
      apply IH; lia. }
  destruct (decide (m = 7%nat)) as [->|Hm7].
  - (* no zero among the first seven entries *)
    assert (G7 : forall (n i : nat), (i + n = 7)%nat ->
              find_zero gl n (Z.of_nat i) = Some 7).
    { induction n as [|n IH]; intros i Hi.
      - cbn [find_zero]. f_equal. lia.
      - cbn [find_zero]. unfold rd.
        destruct (Z.ltb_spec (Z.of_nat i) 0); [lia|]. rewrite Nat2Z.id.
        destruct (lookup_lt_is_Some_2 gl i ltac:(lia)) as [g Hg].
        rewrite Hg. cbn [mbind option_bind].
        assert (1 <= g).
        { apply (proj1 (Forall_lookup _ _) Hpos i).
          rewrite lookup_take_lt by lia. exact Hg. }
        destruct (Z.eqb_spec g 0); [lia|].
        replace (Z.of_nat i + 1) with (Z.of_nat (S i)) by lia.
        apply IH; lia. }
    exact (G7 7%nat 0%nat eq_refl).
  - exact (G 7%nat 0%nat ltac:(lia) ltac:(lia)).
Qed.




End TableSize.

Section RankFacts.

Import Root.

Context {Position Move : Type}.
Context `{PO : PositionOps Position Move} `{TO : TableOps Position}.
Context `{RO : RootOps Position}.

Lemma tb_score_sign r bound :
  VALUE_DRAW = 0 -> 0 < VALUE_MATE - MAX_PLY - 1 -> 200 <= 3 * PawnValueEg ->
  1 <= bound ->
  sign_of (tb_score r bound) = sign_of r.
Proof.
  intros Hd Hm Hp Hb. unfold tb_score.
  assert (Hq : 1 <= Z.quot (3 * PawnValueEg) 200).
  { change 1 with (Z.quot 200 200). apply Z.quot_le_mono; lia. }
  assert (Hpos : 1 <= Z.quot (Z.max 3 (r - 800) * PawnValueEg) 200).
  { etransitivity; [exact Hq|]. apply Z.quot_le_mono; nia. }
  assert (Hneg : Z.quot (Z.min (-3) (r + 800) * PawnValueEg) 200 <= -1).
  { etransitivity;
      [apply (Z.quot_le_mono _ (- (3 * PawnValueEg)) 200); nia|].
    rewrite Z.quot_opp_l by lia. lia. }
  destruct (Z.leb_spec bound r); [|destruct (Z.ltb_spec 0 r);
    [|destruct (Z.eqb_spec r 0); [|destruct (Z.ltb_spec (- bound) r)]]];
    unfold sign_of;
    repeat match goal with
           | |- context [?a <? ?b] => destruct (Z.ltb_spec a b)
           end; lia.
Qed.

Lemma root_loop_scores fuel pos cnt50 rep bound (ms : list (RootMove Move)) :
  VALUE_DRAW = 0 -> 0 < VALUE_MATE - MAX_PLY - 1 -> 200 <= 3 * PawnValueEg ->
  1 <= bound ->
  forall result ms',
    root_loop fuel pos cnt50 rep bound result ms = Some (true, ms') ->
    pv0 <$> ms' = pv0 <$> ms
    /\ Forall (fun m => sign_of (tbScore m) = sign_of (tbRank m)) ms'.
Proof.
  intros Hd Hm Hp Hb.
  induction ms as [|m ms IH]; intros result ms' H.
  - injection H as <-. split; [reflexivity | constructor].
  - cbn [root_loop] in H.
    bind_step H. destruct p as [dtz r1].
    bind_step H.
    destruct (ps_eqb p FAIL); [discriminate|].
    bind_step H. destruct p0 as [ok rest]. injection H as -> <-.
    destruct (IH _ _ E1) as [Hpv Hf].
    split.
    + cbn [fmap list_fmap pv0]. f_equal. exact Hpv.
    + constructor; [|exact Hf]. cbn [tbScore tbRank].
      apply tb_score_sign; assumption.
Qed.

End RankFacts.

Section RankWdlFacts.

Import Root.

Context {Position Move : Type}.
Context `{PO : PositionOps Position Move} `{TO : TableOps Position}.
Context `{RO : RootOps Position}.

Lemma root_wdl_loop_scores fuel pos rule50 (ms : list (RootMove Move)) :
  VALUE_DRAW = 0 -> 0 < VALUE_MATE - MAX_PLY - 1 ->
  forall result ms',
    root_wdl_loop fuel pos rule50 result ms = Some (true, ms') ->
    pv0 <$> ms' = pv0 <$> ms
    /\ Forall (fun m => In (tbRank m) WDL_to_rank
                        /\ sign_of (tbScore m) = sign_of (tbRank m)) ms'.
Proof.
  intros Hd Hm.
  induction ms as [|m ms IH]; intros result ms' H.
  - injection H as <-. split; [reflexivity | constructor].
  - cbn [root_wdl_loop] in H.
    bind_step H. destruct p as [wdl r1].
    bind_step H.
    destruct (ps_eqb p FAIL); [discriminate|].
    bind_step H. bind_step H. bind_step H.
    destruct p0 as [ok rest]. injection H as -> <-.
    destruct (IH _ _ E3) as [Hpv Hf].
    split.
    + cbn [fmap list_fmap pv0]. f_equal. exact Hpv.
    + constructor; [|exact Hf]. cbn [tbScore tbRank].
      unfold WDL_to_value, WDL_to_rank in *. rewrite Hd in *.
      destruct wdl, rule50; cbn in E1, E2;
        injection E1 as <-; injection E2 as <-;
        (split; [simpl; tauto|]);
        unfold sign_of;
        repeat match goal with
               | |- context [?a <? ?b] => destruct (Z.ltb_spec a b)
               end; lia.
Qed.

End RankWdlFacts.

Section RootTheorems.

Import Root RootExamples Toy.

(** X25. The rank that [root_probe] gives a move orders the moves as the
    comment above it says. With the counter of the 50-move rule not
    negative: among winning moves (positive distance) a shorter distance
    never ranks lower, and no rank exceeds 1000; among losing moves a longer
    distance never ranks lower, and no rank is below -1000; and as long as
    distance plus counter stays below 1000, every losing move ranks below a
    drawing move (rank 0), which ranks below every winning move. *)
Theorem tb_rank_orders_moves (cnt50 : Z) (rep : bool) :
  0 <= cnt50 ->
  (forall d1 d2, 0 < d1 <= d2 ->
     tb_rank d2 cnt50 rep <= tb_rank d1 cnt50 rep <= 1000)
  /\ (forall d1 d2, d1 <= d2 < 0 ->
        -1000 <= tb_rank d2 cnt50 rep <= tb_rank d1 cnt50 rep)
  /\ (forall w l,
        0 < w -> w + cnt50 < 1000 -> l < 0 -> - l + cnt50 < 1000 ->
        tb_rank l cnt50 rep < tb_rank 0 cnt50 rep < tb_rank w cnt50 rep).
Proof.
  intros Hc. unfold tb_rank. repeat split; intros;
    repeat match goal with
           | |- context [?a <? ?b] => destruct (Z.ltb_spec a b)
           | |- context [?a <=? ?b] => destruct (Z.leb_spec a b)
           end; destruct rep; simpl; lia.
Qed.

Lemma tb_rank_orders_moves_witness :
  (forall d1 d2, 0 < d1 <= d2 ->
     tb_rank d2 3 false <= tb_rank d1 3 false <= 1000)
  /\ (forall d1 d2, d1 <= d2 < 0 ->
        -1000 <= tb_rank d2 3 false <= tb_rank d1 3 false)
  /\ (forall w l,
        0 < w -> w + 3 < 1000 -> l < 0 -> - l + 3 < 1000 ->
        tb_rank l 3 false < tb_rank 0 3 false < tb_rank w 3 false).
Proof. apply (tb_rank_orders_moves 3 false). lia. Defined.

(** X26. When [root_probe] succeeds it has given every root move, in the
    order of the list, a score with the sign of its rank: positive for a
    winning move, zero for a draw, negative for a losing one. This holds for
    the values of types.h with [VALUE_DRAW = 0], a mate value above
    [MAX_PLY + 1] and a pawn worth at least 67. *)
Theorem root_probe_scores_follow_ranks {Position Move : Type}
    `{PO : PositionOps Position Move} `{TO : TableOps Position}
    `{RO : RootOps Position}
    (fuel : nat) (pos : Position) (ms ms' : list (RootMove Move)) :
  VALUE_DRAW = 0 -> 0 < VALUE_MATE - MAX_PLY - 1 -> 200 <= 3 * PawnValueEg ->
  root_probe fuel pos ms = Some (true, ms') ->
  pv0 <$> ms' = pv0 <$> ms
  /\ Forall (fun m => sign_of (tbScore m) = sign_of (tbRank m)) ms'.
Proof.
  intros Hd Hm Hp H. unfold root_probe in H.
  destruct (Registry.WdlSuffixes (subvariant pos)); [|discriminate].
  apply (root_loop_scores _ _ _ _ _ _ Hd Hm Hp) in H; [exact H|].
  destruct Syzygy50MoveRule; lia.
Qed.

Lemma root_probe_scores_follow_ranks_witness :
  root_probe 13 Capturing toy_moves
  = Some (true, [{| pv0 := Quiet; tbRank := -1000; tbScore := -31753 |};
                 {| pv0 := Take; tbRank := 1000; tbScore := 31753 |}])
  /\ Forall (fun m => sign_of (tbScore m) = sign_of (tbRank m))
       [{| pv0 := Quiet; tbRank := -1000; tbScore := -31753 |};
        {| pv0 := Take; tbRank := 1000; tbScore := 31753 |}].
Proof.
  assert (E : root_probe 13 Capturing toy_moves
              = Some (true, [{| pv0 := Quiet; tbRank := -1000; tbScore := -31753 |};
                             {| pv0 := Take; tbRank := 1000; tbScore := 31753 |}]))
    by (vm_compute; reflexivity).
  split; [exact E|].
  apply (root_probe_scores_follow_ranks 13 Capturing toy_moves _);
    [reflexivity | simpl; lia | simpl; lia | exact E].
Defined.

(** X27. When [root_probe_wdl] succeeds, every root move has one of the five
    ranks -1000, -899, 0, 899, 1000 and a score with the sign of its rank,
    whether or not the 50-move rule is taken into account; the moves keep
    their order. This holds for [VALUE_DRAW = 0] and a mate value above
    [MAX_PLY + 1]. *)
Theorem root_probe_wdl_scores_follow_ranks {Position Move : Type}
    `{PO : PositionOps Position Move} `{TO : TableOps Position}
    `{RO : RootOps Position}
    (fuel : nat) (pos : Position) (ms ms' : list (RootMove Move)) :
  VALUE_DRAW = 0 -> 0 < VALUE_MATE - MAX_PLY - 1 ->
  root_probe_wdl fuel pos ms = Some (true, ms') ->
  pv0 <$> ms' = pv0 <$> ms
  /\ Forall (fun m => In (tbRank m) WDL_to_rank
                      /\ sign_of (tbScore m) = sign_of (tbRank m)) ms'.
Proof.
  intros Hd Hm H. unfold root_probe_wdl in H.
  destruct (Registry.WdlSuffixes (subvariant pos)); [|discriminate].
  exact (root_wdl_loop_scores _ _ _ _ Hd Hm _ _ H).
Qed.

Lemma root_probe_wdl_scores_follow_ranks_witness :
  root_probe_wdl 13 Capturing toy_moves
  = Some (true, [{| pv0 := Quiet; tbRank := -1000; tbScore := -31753 |};
                 {| pv0 := Take; tbRank := 1000; tbScore := 31753 |}])
  /\ Forall (fun m => In (tbRank m) WDL_to_rank
                      /\ sign_of (tbScore m) = sign_of (tbRank m))
       [{| pv0 := Quiet; tbRank := -1000; tbScore := -31753 |};
        {| pv0 := Take; tbRank := 1000; tbScore := 31753 |}].
Proof.
  assert (E : root_probe_wdl 13 Capturing toy_moves
              = Some (true, [{| pv0 := Quiet; tbRank := -1000; tbScore := -31753 |};
                             {| pv0 := Take; tbRank := 1000; tbScore := 31753 |}]))
    by (vm_compute; reflexivity).
  split; [exact E|].
  apply (root_probe_wdl_scores_follow_ranks 13 Capturing toy_moves _);
    [reflexivity | simpl; lia | exact E].
Defined.

End RootTheorems.

Section DriverSigns.

Import Toy.

(** X28. Outside antichess, when the search has found a score other than a
    draw without a zeroing best move, and the DTZ table answers for the side
    to move with a distance of at least 1, [probe_dtz] returns a value with
    the sign of that score: positive for a win or a cursed win, negative for
    a loss or a blessed loss. *)
Theorem probe_dtz_sign_agrees {Position Move : Type}
    `{PO : PositionOps Position Move} `{TO : TableOps Position}
    (fuel : nat) (pos : Position) (wdl : WDLScore) (r : ProbeState)
    (dtz : Z) (r' : ProbeState) :
  is_anti pos = false ->
  search (S fuel) true pos OK = Some (wdl, r) ->
  r <> FAIL -> r <> ZEROING_BEST_MOVE -> wdl <> WDLDraw ->
  probe_table_dtz pos r wdl = Some (dtz, r') ->
  r' <> FAIL -> r' <> CHANGE_STM -> 1 <= dtz ->
  exists v,
    probe_dtz (S fuel) pos = Some (v, r')
    /\ sign_of v = sign_of (wdl_int wdl).
Proof.
  intros Ha Hs Hr Hz Hw Hp Hf Hc Hd.
  exact (probe_dtz_direct_sign fuel pos wdl r dtz r' Hs Hr Hw Hz Ha Hp Hf Hc Hd).
Qed.

Lemma probe_dtz_sign_agrees_witness :
  exists v,
    probe_dtz 3 Replied = Some (v, OK)
    /\ sign_of v = sign_of (wdl_int WDLWin).
Proof.
  apply (probe_dtz_sign_agrees 2 Replied WDLWin OK 7 OK);
    first [reflexivity | discriminate | lia].
Defined.

End DriverSigns.

Section TableTheorems.

Import TableFacts.

(** X29. [Binomial[k][n]], filled by Pascal's rule, is the binomial
    coefficient: for [k] in 0..5 and [n] in 0..63 it is
    [n! / (k! (n - k)!)] when [k <= n], and 0 when [k > n]. *)
Theorem Binomial_is_choose (k n : Z) :
  0 <= k <= 5 -> 0 <= n <= 63 ->
  (k <= n ->
   at2 Binomial k n * (factorial (Z.to_nat k) * factorial (Z.to_nat (n - k)))
   = factorial (Z.to_nat n))
  /\ (n < k -> at2 Binomial k n = 0).
Proof.
  intros Hk Hn.
  assert (H : forallb (fun k => forallb (check_choose k) (range 0 63))
                (range 0 5) = true) by (vm_compute; reflexivity).
  rewrite forallb_forall in H. specialize (H k (In_range 0 5 k Hk)).
  rewrite forallb_forall in H. specialize (H n (In_range 0 63 n Hn)).
  unfold check_choose in H.
  destruct (Z.leb_spec k n); split; intros; try lia; apply Z.eqb_eq; exact H.
Qed.

Lemma Binomial_is_choose_witness :
  (2 <= 5 ->
   at2 Binomial 2 5 * (factorial (Z.to_nat 2) * factorial (Z.to_nat (5 - 2)))
   = factorial (Z.to_nat 5))
  /\ (5 < 2 -> at2 Binomial 2 5 = 0).
Proof. apply (Binomial_is_choose 2 5); lia. Defined.

(** X30. [MapPawns] numbers the 48 squares a2 .. h7 from 0 to 47 without
    repetition: every number in 0..47 is the entry of exactly one of these
    squares. *)
Theorem MapPawns_one_to_one (v : Z) :
  0 <= v <= 47 ->
  exists s,
    8 <= s <= 55 /\ at1 MapPawns s = v
    /\ forall s', 8 <= s' <= 55 -> at1 MapPawns s' = v -> s' = s.
Proof.
  intros Hv.
  assert (H : forallb (fun v => (length (pawn_squares_of v) =? 1)%nat)
                (range 0 47) = true) by (vm_compute; reflexivity).
  rewrite forallb_forall in H. specialize (H v (In_range 0 47 v Hv)).
  apply Nat.eqb_eq in H.
  destruct (pawn_squares_of v) as [|s [|? ?]] eqn:E; try discriminate.
  assert (Hin : forall x, In x (pawn_squares_of v)
                          <-> In x (range 8 55) /\ at1 MapPawns x = v).
  { intros x. unfold pawn_squares_of. rewrite filter_In, Z.eqb_eq. reflexivity. }
  assert (Hr : forall x, In x (range 8 55) -> 8 <= x <= 55).
  { intros x Hx. unfold range in Hx.
    assert (G : forall m lo y, In y (count_from m lo) -> lo <= y < lo + Z.of_nat m).
    { induction m as [|m IHm]; intros lo y Hy; [destruct Hy|].
      destruct Hy as [<-|Hy]; [lia|]. apply IHm in Hy. lia. }
    apply G in Hx. simpl in Hx. lia. }
  exists s. rewrite E in Hin.
  destruct (proj1 (Hin s) (or_introl eq_refl)) as [Hs1 Hs2].
  split; [apply Hr; exact Hs1|]. split; [exact Hs2|].
  intros s' Hs' Hv'.
  destruct (proj2 (Hin s') (conj (In_range 8 55 s' Hs') Hv')) as [<-|[]].
  reflexivity.
Qed.

Lemma MapPawns_one_to_one_witness :
  exists s,
    8 <= s <= 55 /\ at1 MapPawns s = 47
    /\ forall s', 8 <= s' <= 55 -> at1 MapPawns s' = 47 -> s' = s.
Proof. apply (MapPawns_one_to_one 47). lia. Defined.

End TableTheorems.
